(** * just-risk-it: the crash-game generator, the settlement contract and the
      cash-out server

    A shallow embedding of [crash-game-backend.ts] (seed derivation, the
    uniform draw, the crash multiplier and the tick loop), of the seed
    derivation of the verification page, of [CrashGame.sol] (the whole
    contract, as transactions on a storage) and of [crash-game-server.ts]
    (the stream of a round, the cash-out handler in the parts its awaits
    separate, and the settlement batches), with the properties the
    specification states of them.

    Numbers are ECMAScript Number values: exact rationals passed through the
    rounding of IEEE 754 binary64.  BigInt and uint256 values are integers
    with the range checks written out.  The fields of a client's message are
    JSON values.  The library functions the sources call and do not define
    ([ethers.keccak256], [Math.pow], [parseInt], the conversions between
    Numbers and strings, the UTC getters of [Date]) are section variables;
    what is assumed of them is stated where it is used.  Keccak-256 itself is
    defined next to the sample inputs, for the statements made of concrete
    seeds. *)

From Stdlib Require Import ZArith QArith Qcanon Qround Qabs Qpower Qreduction Lia Lra Psatz Bool List String Ascii.
From Stdlib Require Import SpecFloat PrimFloat FloatOps.
From coqutil Require Import Byte Word.LittleEndianList.
From stdpp Require Import base decidable option list gmap strings.
Import ListNotations.

(** * Part I: the program *)

(** * ECMAScript Number values (IEEE 754 binary64)

    Every arithmetic operator of the TypeScript sources works on Number
    values.  ECMAScript defines the result of an operator as the exact
    mathematical result mapped through "the Number value for x": the
    nearest binary64 value, ties to the even significand, with overflow to
    an infinity.  The model below says exactly that over exact rationals. *)

Module JsNumber.

Inductive number : Type :=
| NaN
| NInf
| PInf
| NZero
| Fin (q : Qc).

Definition mk (q : Q) : Qc := Q2Qc (Qred q).
Arguments mk : simpl never.

Definition pow2 (k : Z) : Q := (2 ^ k)%Q.

(** floor of the binary logarithm of a positive rational *)
Definition ilog2 (x : Q) : Z :=
  let e0 := (Z.log2 (Qnum x) - Z.log2 (Zpos (Qden x)))%Z in
  if Qle_bool (pow2 e0) x then e0 else (e0 - 1)%Z.

(** nearest integer, ties to even *)
Definition RNE (t : Q) : Z :=
  let f := Qfloor t in
  match Qcompare (t - inject_Z f) (1 # 2) with
  | Lt => f
  | Gt => (f + 1)%Z
  | Eq => if Z.even f then f else (f + 1)%Z
  end.

(** exponent of the last place: 53 significant bits, subnormals from 2^-1074 *)
Definition scale (x : Q) : Z := Z.max (ilog2 x - 52) (-1074).

Definition rnd_val (x : Q) : Q :=
  (inject_Z (RNE (x / pow2 (scale x))) * pow2 (scale x))%Q.

Definition overflows (x : Q) : bool := Qle_bool (pow2 1024) (rnd_val x).

(** the Number value for x *)
Definition rnd (x : Q) : number :=
  match Qcompare x 0 with
  | Eq => Fin (mk 0)
  | Gt => if overflows x then PInf else Fin (mk (rnd_val x))
  | Lt => if overflows (- x) then NInf
          else if Qeq_bool (rnd_val (- x)) 0 then NZero
          else Fin (mk (- rnd_val (- x)))
  end.

Definition val (x : number) : Q :=
  match x with Fin q => this q | _ => 0 end.

Definition finite (x : number) : Prop :=
  match x with Fin _ | NZero => True | _ => False end.

Definition inQ (L U : Q) (x : number) : Prop :=
  finite x /\ (L <= val x)%Q /\ (val x <= U)%Q.

Definition repr (q : Q) : Prop := rnd q = Fin (mk q).

Definition nle (a b : number) : Prop :=
  match a, b with
  | NaN, _ | _, NaN => False
  | NInf, _ => True
  | _, PInf => True
  | _, NInf => False
  | PInf, _ => False
  | _, _ => (val a <= val b)%Q
  end.

Definition is_nan (x : number) : bool :=
  match x with NaN => true | _ => false end.

Definition is_zero (x : number) : bool :=
  match x with NZero => true | Fin q => Qeq_bool q 0 | _ => false end.

Definition is_inf (x : number) : bool :=
  match x with NInf | PInf => true | _ => false end.

Definition sign (x : number) : bool :=
  match x with
  | NInf | NZero => true
  | Fin q => negb (Qle_bool 0 q)
  | _ => false
  end.

Definition inf_of (s : bool) : number := if s then NInf else PInf.
Definition zero_of (s : bool) : number := if s then NZero else Fin (mk 0).

(** [x < y], [x <= y], [x >= y], [x > y], [x === y] *)
Definition flt (x y : number) : bool :=
  match x, y with
  | NaN, _ | _, NaN => false
  | _, NInf => false
  | NInf, _ => true
  | PInf, _ => false
  | _, PInf => true
  | _, _ => negb (Qle_bool (val y) (val x))
  end.

Definition fle (x y : number) : bool :=
  match x, y with
  | NaN, _ | _, NaN => false
  | _, _ => negb (flt y x)
  end.

Definition fge (x y : number) : bool := fle y x.
Definition fgt (x y : number) : bool := flt y x.
Definition feq (x y : number) : bool := fle x y && fle y x.

(** unary minus *)
Definition fneg (x : number) : number :=
  match x with
  | NaN => NaN
  | NInf => PInf
  | PInf => NInf
  | NZero => Fin (mk 0)
  | Fin q => if Qeq_bool q 0 then NZero else Fin (mk (- q))
  end.

(** [x + y] *)
Definition fadd (x y : number) : number :=
  match x, y with
  | NaN, _ | _, NaN => NaN
  | PInf, NInf | NInf, PInf => NaN
  | PInf, _ | _, PInf => PInf
  | NInf, _ | _, NInf => NInf
  | NZero, NZero => NZero
  | _, _ => rnd (val x + val y)
  end.

(** [x - y] is [x + (-y)] *)
Definition fsub (x y : number) : number := fadd x (fneg y).

(** [x * y] *)
Definition fmul (x y : number) : number :=
  match x, y with
  | NaN, _ | _, NaN => NaN
  | _, _ =>
      let s := xorb (sign x) (sign y) in
      if is_inf x || is_inf y then
        if is_zero x || is_zero y then NaN else inf_of s
      else if is_zero x || is_zero y then zero_of s
      else rnd (val x * val y)
  end.

(** [x / y] *)
Definition fdiv (x y : number) : number :=
  match x, y with
  | NaN, _ | _, NaN => NaN
  | _, _ =>
      let s := xorb (sign x) (sign y) in
      if is_inf x then (if is_inf y then NaN else inf_of s)
      else if is_inf y then zero_of s
      else if is_zero y then (if is_zero x then NaN else inf_of s)
      else if is_zero x then zero_of s
      else rnd (val x / val y)
  end.

(** a decimal literal of the source, and [Number(b)] of a BigInt [b] *)
Definition lit (q : Q) : number := rnd q.
Definition ofZ (z : Z) : number := rnd (inject_Z z).

(** [BigInt(x)] of a Number: only integral values convert *)
Definition toBigInt (x : number) : option Z :=
  match x with
  | NZero => Some 0%Z
  | Fin q => if Qeq_bool q (inject_Z (Qfloor q)) then Some (Qfloor q) else None
  | _ => None
  end.

(** truthiness of a Number: [!x] holds for 0, -0 and NaN *)
Definition truthy (x : number) : bool := negb (is_nan x || is_zero x).

Definition Math_max (a b : number) : number :=
  if is_nan a || is_nan b then NaN
  else if flt a b then b
  else match a, b with NZero, Fin _ => if is_zero b then b else a | _, _ => a end.

Definition Math_min (a b : number) : number :=
  if is_nan a || is_nan b then NaN
  else if flt b a then b
  else match a, b with Fin _, NZero => if is_zero a then b else a | _, _ => a end.

Definition Math_floor (x : number) : number :=
  match x with
  | Fin q => Fin (mk (inject_Z (Qfloor q)))
  | _ => x
  end.

Definition Math_ceil (x : number) : number :=
  match x with
  | Fin q => let z := Qceiling q in
             if (z =? 0)%Z then zero_of (negb (Qle_bool 0 q)) else Fin (mk (inject_Z z))
  | _ => x
  end.

(** [Math.round]: floor (x + 1/2) computed exactly; -0 for [-0.5 <= x < 0] *)
Definition Math_round (x : number) : number :=
  match x with
  | Fin q => let z := Qfloor (q + (1 # 2)) in
             if (z =? 0)%Z then zero_of (negb (Qle_bool 0 q)) else Fin (mk (inject_Z z))
  | _ => x
  end.

(** reading a binary64 value of the Standard Library as a Number *)
Definition of_spec (f : spec_float) : number :=
  match f with
  | S754_zero s => zero_of s
  | S754_infinity s => inf_of s
  | S754_nan => NaN
  | S754_finite s m e =>
      let v := (inject_Z (Zpos m) * pow2 e)%Q in Fin (mk (if s then - v else v))
  end.

Definition of_prim (f : float) : number := of_spec (Prim2SF f).

End JsNumber.

Import JsNumber.

(** * The ethers.js byte-string helpers used by the generator *)

Module Ethers.

Definition byteLength (v : Z) : nat := Z.to_nat (Z.log2 v / 8 + 1).

(** [ethers.toBeHex(v)] without a width: the shortest big-endian byte string
    of [v] (one zero byte for 0); a negative value throws *)
Definition toBeHex (v : Z) : option (list byte) :=
  if (v <? 0)%Z then None else Some (rev (le_split (byteLength v) v)).

(** [ethers.zeroPadValue(data, len)]: zero bytes on the left up to [len]
    bytes; throws when [data] is longer than [len] *)
Definition zeroPadValue (data : list byte) (len : nat) : option (list byte) :=
  if (len <? List.length data)%nat then None
  else Some (repeat Byte.x00 (len - List.length data) ++ data).

(** [ethers.toUtf8Bytes(s)]: a source string is kept as its UTF-8 text *)
Definition toUtf8Bytes (s : string) : list byte := list_byte_of_string s.

(** [BigInt(hash)] of a hex string: the big-endian value of its bytes *)
Definition BigInt_of_hex (bs : list byte) : Z := le_combine (rev bs).

End Ethers.
Import Ethers.

(** the 32-byte big-endian encoding of an integer, as the specification words it *)
Definition be32 (v : Z) : list byte := rev (le_split 32 v).

(** * crash-game-backend.ts *)

(** a call returns, throws, or is cut off by the bound put on its loop *)
Inductive outcome (A : Type) : Type :=
| Ok (a : A)
| Throws
| OutOfFuel.
Arguments Ok {A} a.
Arguments Throws {A}.
Arguments OutOfFuel {A}.

Definition obind {A B : Type} (m : outcome A) (k : A -> outcome B) : outcome B :=
  match m with Ok a => k a | Throws => Throws | OutOfFuel => OutOfFuel end.

Definition of_option {A : Type} (m : option A) : outcome A :=
  match m with Some a => Ok a | None => Throws end.

Notation "'let*' x ':=' m 'in' k" := (obind m (fun x => k))
  (at level 10, x name, m at level 100, k at level 200).

(** [ethers.zeroPadValue(ethers.toBeHex(v), 32)] *)
Definition pad32 (v : Z) : outcome (list byte) :=
  match toBeHex v with
  | Some h => of_option (zeroPadValue h 32)
  | None => Throws
  end.

(** the argument of [generateCrashGame]; [vrfRandom] is the integer its
    string field denotes, [BigInt(vrfRandom)]: text that is no integer
    literal makes that conversion throw before anything else happens *)
Record GameInput : Type := {
  roundId : number;
  vrfRandom : Z;
  serverSeed : string;
  chainId : number;
  startTimestamp : string;
  tickIntervalMs : number
}.

Record BarTime : Type := { year : number; month : number; day : number }.

Record Bar : Type := {
  open : number;
  high : number;
  low : number;
  close : number;
  time : BarTime
}.

Record GameUpdate : Type := {
  currentValue : number;
  bar : Bar;
  gameState : Z;
  nextGameNoMoreBetsAt : number
}.

Record CrashGameResult : Type := {
  updates : list GameUpdate;
  finalMultiplier : number;
  rawMultiplier : number
}.

(** [BigInt('0xff...ff')] of [getRandom]: 64 hexadecimal digits *)
Definition maxUint256 : Z :=
  0xffffffffffffffffffffffffffffffffffffffffffffffffffffffffffffffff.

Definition houseEdge : number := lit (15 # 1000).

(** [Math.round(x * 100) / 100] *)
Definition round2 (x : number) : number :=
  fdiv (Math_round (fmul x (lit 100))) (lit 100).

Section Backend.

(** library functions the generator calls: [ethers.keccak256], [Math.pow],
    [parseInt] and the UTC getters of [new Date(ms)] *)
Variable keccak256 : list byte -> list byte.
Variable Math_pow : number -> number -> number.
Variable parseInt : string -> number.
Variable getUTCFullYear : number -> number.
Variable getUTCMonth : number -> number.
Variable getUTCDate : number -> number.

(** [deriveSeed]: every [zeroPadValue] may throw, and so may [BigInt] of a
    Number that is not integral *)
Definition deriveSeed (vrfRandom : Z) (roundId : number) (serverSeed : string)
    (chainId : number) : outcome Z :=
  let* vrfBytes := pad32 vrfRandom in
  let* roundBig := of_option (toBigInt roundId) in
  let* roundBytes := pad32 roundBig in
  let seedBytes := toUtf8Bytes serverSeed in
  let* chainBig := of_option (toBigInt chainId) in
  let* chainBytes := pad32 chainBig in
  let combined := List.concat [vrfBytes; roundBytes; seedBytes; chainBytes] in
  let hash := keccak256 combined in
  Ok (BigInt_of_hex hash).

(** the inner function [getRandom(i)], with the seed it closes over made an
    argument; [i] is the integer [BigInt(i)] reads off the index *)
Definition getRandom (derivedSeed : Z) (i : Z) : outcome number :=
  let* seedBytes := pad32 derivedSeed in
  let* indexBytes := pad32 i in
  let combined := List.concat [seedBytes; indexBytes] in
  let hash := keccak256 combined in
  let hashBigInt := BigInt_of_hex hash in
  Ok (fdiv (ofZ hashBigInt) (ofZ maxUint256)).

(** the crash multiplier drawn from [r0] *)
Definition crashPoint (r0 : number) : number * number :=
  let p := fadd houseEdge (fmul r0 (fsub (lit 1) houseEdge)) in
  let rawMultiplier := fdiv (fsub (lit 1) houseEdge) (fsub (lit 1) p) in
  let crashMultiplier := Math_max (lit 1) (Math_min rawMultiplier (lit 10000)) in
  let finalMultiplier := round2 crashMultiplier in
  (finalMultiplier, rawMultiplier).

Definition timeOf (ms : number) : BarTime :=
  {| year := getUTCFullYear ms;
     month := fadd (getUTCMonth ms) (lit 1);
     day := getUTCDate ms |}.

Section Loop.

Variable derivedSeed : Z.
Variable finalMultiplier : number.
Variables minPrice trendStrength volatilityBase volatilityDecay : number.
Variables gameStartTime tickIntervalMs gameTicks : number.

Let maxPrice := finalMultiplier.

(** the body of [for (let i = 0; i < gameTicks; i++)], one unit of fuel per
    iteration; the counter is kept as an integer and compared as a Number,
    which is the same below 2^53; [break] ends the recursion *)
Fixpoint ticks (fuel : nat) (i : Z) (previousMultiplier currentPrice : number)
    : outcome (list GameUpdate) :=
  if flt (ofZ i) gameTicks then
    match fuel with
    | O => OutOfFuel
    | S fuel' =>
        let progress := fdiv (ofZ i) gameTicks in
        let* r1 := getRandom derivedSeed (i + 10) in
        let* r2 := getRandom derivedSeed (i + 20) in
        let targetPrice :=
          fadd (lit 1) (fmul (fsub maxPrice (lit 1)) (Math_pow progress (lit (8 # 10)))) in
        let volatility :=
          fmul volatilityBase (Math_pow (fsub (lit 1) progress) volatilityDecay) in
        let directionBias := fmul (fsub targetPrice currentPrice) trendStrength in
        let randomMove := fmul (fsub r1 (lit (5 # 10))) (lit 2) in
        let priceChange := fadd directionBias (fmul randomMove volatility) in
        let currentPrice := fmul currentPrice (fadd (lit 1) priceChange) in
        let currentPrice := Math_max minPrice (Math_min currentPrice maxPrice) in
        let roundedMultiplier := round2 currentPrice in
        let tickHigh := Math_max previousMultiplier roundedMultiplier in
        let tickLow := Math_min previousMultiplier roundedMultiplier in
        let tickTime :=
          fadd gameStartTime (fdiv (fmul (ofZ i) tickIntervalMs) (lit 1000)) in
        let isCrash :=
          fge currentPrice finalMultiplier || feq (ofZ i) (fsub gameTicks (lit 1)) in
        if isCrash then
          let finalValue := Math_floor (fmul finalMultiplier (lit 100000)) in
          Ok [ {| currentValue := finalValue;
                  bar := {| open := previousMultiplier;
                            high := Math_max previousMultiplier finalMultiplier;
                            low := Math_min previousMultiplier finalMultiplier;
                            close := finalMultiplier;
                            time := timeOf (fmul tickTime (lit 1000)) |};
                  gameState := 3;
                  nextGameNoMoreBetsAt := lit 0 |} ]
        else
          let currentValue := Math_floor (fmul roundedMultiplier (lit 100000)) in
          let update :=
            {| currentValue := currentValue;
               bar := {| open := previousMultiplier;
                         high := tickHigh;
                         low := tickLow;
                         close := roundedMultiplier;
                         time := timeOf (fmul tickTime (lit 1000)) |};
               gameState := 2;
               nextGameNoMoreBetsAt := lit 0 |} in
          let* rest := ticks fuel' (i + 1) roundedMultiplier currentPrice in
          Ok (update :: rest)
    end
  else Ok [].

End Loop.

(** [totalTicks]: the duration drawn from [r1] over the tick interval *)
Definition totalTicksOf (r1 tickIntervalMs : number) : number :=
  let baseDuration := lit 3000 in
  let maxDuration := lit 30000 in
  let duration :=
    fadd baseDuration (Math_floor (fmul r1 (fsub maxDuration baseDuration))) in
  Math_ceil (fdiv duration tickIntervalMs).

Definition generateCrashGame (fuel : nat) (input : GameInput) : outcome CrashGameResult :=
  let* derivedSeed :=
    deriveSeed (vrfRandom input) (roundId input) (serverSeed input) (chainId input) in
  let startTime := parseInt (startTimestamp input) in
  let* r0 := getRandom derivedSeed 0 in
  let* r1 := getRandom derivedSeed 1 in
  let '(finalMultiplier, rawMultiplier) := crashPoint r0 in
  let* r2 := getRandom derivedSeed 2 in
  let* r3 := getRandom derivedSeed 3 in
  let* r4 := getRandom derivedSeed 4 in
  let* r5 := getRandom derivedSeed 5 in
  let minPrice := fadd (lit (40 # 100)) (fmul r2 (lit (30 # 100))) in
  let trendStrength := fadd (lit (15 # 100)) (fmul r3 (lit (30 # 100))) in
  let volatilityBase := fadd (lit (15 # 1000)) (fmul r4 (lit (20 # 1000))) in
  let volatilityDecay := fadd (lit (5 # 10)) (fmul r5 (lit (4 # 10))) in
  let totalTicks := totalTicksOf r1 (tickIntervalMs input) in
  let gameStartTime := startTime in
  let gameTicks := totalTicks in
  let* updates :=
    ticks derivedSeed finalMultiplier minPrice trendStrength volatilityBase
      volatilityDecay gameStartTime (tickIntervalMs input) gameTicks
      fuel 0 (lit 1) (lit 1) in
  Ok {| updates := updates;
        finalMultiplier := finalMultiplier;
        rawMultiplier := rawMultiplier |}.

End Backend.

(** * VerifyGame.tsx: the seed derivation of the verification page

    The page re-derives the seed of a round in the browser, with viem in
    the place of ethers. *)

Module Viem.

Definition code (a : ascii) : Z := Z.of_N (N_of_ascii a).

Definition isHexDigit (a : ascii) : bool :=
  ((48 <=? code a) && (code a <=? 57))%Z
  || ((65 <=? code a) && (code a <=? 70))%Z
  || ((97 <=? code a) && (code a <=? 102))%Z.

(** [isHex(value)], strict: the text matches [/^0x[0-9a-fA-F]*$/] *)
Definition isHex (value : string) : bool :=
  match value with
  | String "0" (String "x" digits) => forallb isHexDigit (list_ascii_of_string digits)
  | _ => false
  end.

Definition nibble (a : ascii) : Z :=
  if (code a <=? 57)%Z then code a - 48
  else if (code a <=? 70)%Z then code a - 55
  else code a - 87.

Fixpoint pairs (digits : list ascii) : list byte :=
  match digits with
  | hi :: lo :: rest => byte.of_Z (16 * nibble hi + nibble lo) :: pairs rest
  | _ => []
  end.

(** [hexToBytes(hex)]: the digits after [0x], with a [0] put in front of an
    odd number of them, two digits to a byte *)
Definition hexToBytes (hex : string) : list byte :=
  let hexString := list_ascii_of_string (String.substring 2 (String.length hex - 2) hex) in
  if Nat.odd (List.length hexString) then pairs ("0"%char :: hexString)
  else pairs hexString.

(** [stringToBytes(value)]: the UTF-8 text of the string *)
Definition stringToBytes (value : string) : list byte := list_byte_of_string value.

(** [toBytes(value)] of a string: text that is hex is decoded, any other
    text is encoded as UTF-8 *)
Definition toBytes (value : string) : list byte :=
  if isHex value then hexToBytes value else stringToBytes value.

(** [pad(toHex(v), { size: 32 })] of a bigint, as the bytes the hex text
    denotes: [toHex] throws for a negative value, [pad] for more than 32
    bytes *)
Definition pad32 (v : Z) : outcome (list byte) :=
  if (v <? 0)%Z then Throws
  else if (2 ^ 256 <=? v)%Z then Throws
  else Ok (rev (le_split 32 v)).

End Viem.

Module VerifyGame.

Section Page.

Variable keccak256 : list byte -> list byte.

(** the inner [deriveSeed] of [handleVerify]; [toHex] of the seed bytes and
    [concat] of the four hex texts denote the bytes put end to end *)
Definition deriveSeed (vrfRandom : Z) (roundId : number) (serverSeed : string)
    (chainId : number) : outcome Z :=
  let vrfBigInt := vrfRandom in
  let* vrfBytes := Viem.pad32 vrfBigInt in
  let* roundBig := of_option (toBigInt roundId) in
  let* roundBytes := Viem.pad32 roundBig in
  let seedBytesUint8 := Viem.toBytes serverSeed in
  let seedBytes := seedBytesUint8 in
  let* chainBig := of_option (toBigInt chainId) in
  let* chainBytes := Viem.pad32 chainBig in
  let combined := List.concat [vrfBytes; roundBytes; seedBytes; chainBytes] in
  let hash := keccak256 combined in
  Ok (BigInt_of_hex hash).

End Page.

End VerifyGame.

#[global] Instance byte_eq_decision : EqDecision byte.
Proof.
  intros a b. destruct (N.eq_dec (Byte.to_N a) (Byte.to_N b)) as [E | N].
  - left. apply byte.to_N_inj. exact E.
  - right. intros ->. apply N. reflexivity.
Defined.

(** * CrashGame.sol *)

Module Contract.

Definition address : Type := Z.

Definition HOUSE_EDGE_BPS : Z := 150.
Definition BPS_DENOMINATOR : Z := 10000.
Definition MAX_BET : Z := 1000 * 10 ^ 18.
Definition MAX_WIN_PERCENTAGE_BPS : Z := 7000.
Definition uint256_max : Z := 2 ^ 256 - 1.

Inductive RoundStatus : Type :=
| Created
| RandomRequested
| RandomReady
| SeedRevealed.

#[global] Instance RoundStatus_eq_decision : EqDecision RoundStatus.
Proof. solve_decision. Defined.

Record Round : Type := {
  serverSeedHash : list byte;
  serverSeed : list byte;
  sequenceNumber : Z;
  entropyRandom : Z;
  status : RoundStatus
}.

Record Bet : Type := {
  amount : Z;
  cashOutMultiplier : Z;
  settled : bool
}.

Record CashOut : Type := {
  wallet : address;
  multiplier : Z
}.

Inductive Event : Type :=
| ServerSeedRevealed (roundId : Z) (serverSeed : list byte).

(** a mapping reads as the zero value where nothing was stored *)
Definition zeroRound : Round :=
  {| serverSeedHash := repeat Byte.x00 32; serverSeed := []; sequenceNumber := 0;
     entropyRandom := 0; status := Created |}.

Definition zeroBet : Bet := {| amount := 0; cashOutMultiplier := 0; settled := false |}.

Record State : Type := {
  rounds : gmap Z Round;
  operator : address;
  bets : gmap (Z * address) Bet;
  claimablePayouts : gmap address Z;
  roundFinalMultipliers : gmap Z Z;
  roundSettled : gmap Z bool;
  (** [token.balanceOf(address(this))] *)
  tokenBalance : Z;
  events : list Event
}.

Inductive result (A : Type) : Type :=
| Success (a : A)
| Revert (reason : string).
Arguments Success {A} a.
Arguments Revert {A} reason.

Definition rbind {A B : Type} (m : result A) (k : A -> result B) : result B :=
  match m with Success a => k a | Revert r => Revert r end.

Notation "'do' x '<-' m ';' k" := (rbind m (fun x => k))
  (at level 10, x name, m at level 100, k at level 200).

Definition require (cond : bool) (reason : string) : result unit :=
  if cond then Success tt else Revert reason.

(** checked uint256 arithmetic of Solidity 0.8: overflow reverts *)
Definition checked (x : Z) : result Z :=
  if (x <=? uint256_max)%Z then Success x else Revert "Panic(0x11)".

Definition getRoundOf (st : State) (roundId : Z) : Round :=
  default zeroRound (rounds st !! roundId).

Definition getBetOf (st : State) (roundId : Z) (user : address) : Bet :=
  default zeroBet (bets st !! (roundId, user)).

Definition claimableOf (st : State) (user : address) : Z :=
  default 0%Z (claimablePayouts st !! user).

Section Keccak.

Variable keccak256 : list byte -> list byte.

Definition revealServerSeed (st : State) (roundId : Z) (serverSeed : list byte)
    : result State :=
  let round := getRoundOf st roundId in
  do _ <- require (bool_decide (status round = RandomReady)) "Randomness not ready";
  let computedHash := keccak256 serverSeed in
  do _ <- require (bool_decide (computedHash = serverSeedHash round))
            "Server seed hash mismatch";
  let round := {| serverSeedHash := serverSeedHash round;
                  serverSeed := serverSeed;
                  sequenceNumber := sequenceNumber round;
                  entropyRandom := entropyRandom round;
                  status := SeedRevealed |} in
  Success {| rounds := <[roundId := round]> (rounds st);
             operator := operator st;
             bets := bets st;
             claimablePayouts := claimablePayouts st;
             roundFinalMultipliers := roundFinalMultipliers st;
             roundSettled := roundSettled st;
             tokenBalance := tokenBalance st;
             events := events st ++ [ServerSeedRevealed roundId serverSeed] |}.

End Keccak.

(** one iteration of the loop of [processCashOuts] *)
Definition processCashOut (roundId finalMultiplier : Z) (st : State) (c : CashOut)
    : result State :=
  let wallet := wallet c in
  let multiplier := multiplier c in
  let bet := getBetOf st roundId wallet in
  do _ <- require (0 <? amount bet)%Z "No bet found";
  do _ <- require (negb (settled bet)) "Already settled";
  do _ <- require (10 ^ 18 <=? multiplier)%Z "Multiplier too low";
  do _ <- require (multiplier <=? finalMultiplier)%Z "Multiplier too high";
  do product <- checked (amount bet * multiplier);
  let payoutBeforeFee := (product / 10 ^ 18)%Z in
  do scaled <- checked (payoutBeforeFee * (BPS_DENOMINATOR - HOUSE_EDGE_BPS));
  let payout := (scaled / BPS_DENOMINATOR)%Z in
  let contractBalance := tokenBalance st in
  do capScaled <- checked (contractBalance * MAX_WIN_PERCENTAGE_BPS);
  let maxWinPerPlayer := (capScaled / BPS_DENOMINATOR)%Z in
  let payout := if (maxWinPerPlayer <? payout)%Z then maxWinPerPlayer else payout in
  let bet := {| amount := amount bet; cashOutMultiplier := multiplier; settled := true |} in
  do credited <- checked (claimableOf st wallet + payout);
  Success {| rounds := rounds st;
             operator := operator st;
             bets := <[(roundId, wallet) := bet]> (bets st);
             claimablePayouts := <[wallet := credited]> (claimablePayouts st);
             roundFinalMultipliers := roundFinalMultipliers st;
             roundSettled := roundSettled st;
             tokenBalance := tokenBalance st;
             events := events st |}.

Fixpoint processLoop (roundId finalMultiplier : Z) (st : State) (cashOuts : list CashOut)
    : result State :=
  match cashOuts with
  | [] => Success st
  | c :: rest =>
      do st' <- processCashOut roundId finalMultiplier st c;
      processLoop roundId finalMultiplier st' rest
  end.

Definition processCashOuts (st : State) (sender : address) (roundId : Z)
    (cashOuts : list CashOut) : result State :=
  do _ <- require (bool_decide (sender = operator st)) "Not operator";
  do _ <- require (default false (roundSettled st !! roundId)) "Round not settled";
  let finalMultiplier := default 0%Z (roundFinalMultipliers st !! roundId) in
  do _ <- require (0 <? finalMultiplier)%Z "Invalid round";
  processLoop roundId finalMultiplier st cashOuts.

End Contract.

(** * ECMAScript values

    A client's message is what [JSON.parse] returns, and the handler reads
    its fields without a look at their types: a field is any JSON value, or
    [undefined] where the message has no such field. *)

Module Js.

#[warnings="-register-all"]
Inductive value : Type :=
| JUndefined
| JNull
| JBool (b : bool)
| JNumber (n : number)
| JString (s : string)
| JArray (items : list value)
| JObject (fields : list (string * value)).

(** [ToBoolean]: what [!v] negates *)
Definition ToBoolean (v : value) : bool :=
  match v with
  | JUndefined | JNull => false
  | JBool b => b
  | JNumber n => truthy n
  | JString s => negb (String.eqb s EmptyString)
  | JArray _ | JObject _ => true
  end.

(** whether [ToPrimitive] returns.  A parsed object has no function among
    its own properties: with an own [toString] neither [toString] nor
    [Object.prototype.valueOf] yields a primitive and a TypeError is thrown;
    an array is joined, which converts its elements *)
Fixpoint printable (v : value) : bool :=
  match v with
  | JArray items => forallb printable items
  | JObject fields => negb (existsb (fun kv => String.eqb (fst kv) "toString") fields)
  | _ => true
  end.

Section Coercions.

(** [Number::toString] and [StringToNumber] *)
Variable Number_toString : number -> string.
Variable StringToNumber : string -> number.

(** [ToString] of a printable value *)
Fixpoint ToString (v : value) : string :=
  match v with
  | JUndefined => "undefined"
  | JNull => "null"
  | JBool true => "true"
  | JBool false => "false"
  | JNumber n => Number_toString n
  | JString s => s
  | JArray items =>
      String.concat ","
        (List.map (fun x => match x with
                            | JUndefined | JNull => EmptyString
                            | _ => ToString x
                            end) items)
  | JObject _ => "[object Object]"
  end.

(** [ToNumber] of a printable value: what [<], [>] and [*] work on when the
    other operand is a Number *)
Definition ToNumber (v : value) : number :=
  match v with
  | JUndefined => NaN
  | JNull => lit 0
  | JBool true => lit 1
  | JBool false => lit 0
  | JNumber n => n
  | JString s => StringToNumber s
  | JArray _ | JObject _ => StringToNumber (ToString v)
  end.

End Coercions.

End Js.

(** * crash-game-server.ts *)

Module Server.
Import Js.

Definition MAX_WIN_PERCENTAGE : number := lit (70 # 100).
Definition HOUSE_EDGE : number := lit (15 # 1000).
Definition BATCH_SIZE : nat := 15.

Inductive RoundPhase : Type :=
| betting
| running
| ended.

#[global] Instance RoundPhase_eq_decision : EqDecision RoundPhase.
Proof. solve_decision. Defined.

(** a record of the cash-out list; [multiplier] is the field of the message
    as it came *)
Record CashOut : Type := {
  walletAddress : string;
  multiplier : value;
  timestamp : number;
  verified : bool
}.

Record ActiveRound : Type := {
  roundId : Z;
  currentMultiplier : number;
  state : RoundPhase;
  finalMultiplier : option number
}.

(** the two module-level maps *)
Record Store : Type := {
  activeRounds : gmap Z ActiveRound;
  activeCashOuts : gmap Z (list CashOut)
}.

(** what the handler reads from outside: [contract.getBet] (None when the
    call throws, as it does for what is no address), the token balance of
    the contract (None when that read throws) and [Date.now()] *)
Record Reads : Type := {
  getBet : Z -> value -> option Contract.Bet;
  balanceOf : option Z;
  dateNow : number
}.

(** a [cash_out_response]: with [success: true] it carries the [roundId] and
    the [multiplier] of the message as they came *)
Inductive Response : Type :=
| Accepted (roundId multiplier : value) (payout : number)
| Rejected (error : string).

(** [String.prototype.toLowerCase] on the letters A to Z *)
Definition lowerAscii (c : ascii) : ascii :=
  let n := nat_of_ascii c in
  if ((65 <=? n) && (n <=? 90))%nat then ascii_of_nat (n + 32) else c.

Fixpoint toLowerCase (s : string) : string :=
  match s with
  | EmptyString => EmptyString
  | String c rest => String (lowerAscii c) (toLowerCase rest)
  end.

(** [Number(ethers.formatUnits(x, 18))] *)
Definition fromUnits18 (x : Z) : number := rnd (inject_Z x / inject_Z (10 ^ 18)).

(** [ethers.parseUnits(x.toFixed(18), 18)]: the nearest multiple of 10^-18,
    halves upward; what is not a decimal of at most 21 digits, or is negative,
    throws before or while the call is encoded *)
Definition toWei (x : number) : option Z :=
  match x with
  | NZero => Some 0%Z
  | Fin q =>
      if Qle_bool 0 q && negb (Qle_bool (inject_Z (10 ^ 21)) q)
      then Some (Qfloor (q * inject_Z (10 ^ 18) + (1 # 2)))
      else None
  | _ => None
  end.

(** [array.slice(i, j)] *)
Definition slice {A : Type} (i j : nat) (l : list A) : list A :=
  firstn (j - i) (skipn i l).

(** [for (let i = 0; i < cashOutData.length; i += BATCH_SIZE)]: the batches in
    the order they are submitted *)
Fixpoint batchLoop {A : Type} (fuel : nat) (i : nat) (cashOutData : list A)
    : list (list A) :=
  match fuel with
  | O => []
  | S fuel' =>
      if (i <? List.length cashOutData)%nat
      then slice i (i + BATCH_SIZE) cashOutData
             :: batchLoop fuel' (i + BATCH_SIZE) cashOutData
      else []
  end.

Section Conversion.

(** the address an accepted wallet string denotes *)
Variable addressOf : string -> Contract.address.

(** [cashOuts.map(co => ...)]: [co.multiplier.toFixed(18)] throws for what is
    no Number, and one throw leaves no entry converted *)
Definition toCashOutData (cashOuts : list CashOut) : option (list Contract.CashOut) :=
  mapM (fun co =>
          match multiplier co with
          | JNumber x =>
              match toWei x with
              | Some m => Some {| Contract.wallet := addressOf (walletAddress co);
                                  Contract.multiplier := m |}
              | None => None
              end
          | _ => None
          end) cashOuts.

End Conversion.

End Server.

(** * Part II: the vocabulary of the specification *)

(** ** The generator *)

(** the quotient [Number(h) / Number(maxUint256)] that [getRandom] returns
    for the digest [h] *)
Definition ratio (h : Z) : number := fdiv (ofZ h) (ofZ maxUint256).

(** the least digest whose conversion to a double is 2^256 *)
Definition top : Z := (2 ^ 256 - 2 ^ 202)%Z.

(** the digest behind the [i]-th draw *)
Definition digest (keccak256 : list byte -> list byte) (seed i : Z) : Z :=
  BigInt_of_hex (keccak256 (be32 seed ++ be32 i)).

(** clamping and two-decimal rounding as the specification words them *)
Definition clamp (lo hi x : number) : number :=
  if flt x lo then lo else if fgt x hi then hi else x.

Definition roundTo2Decimals (x : number) : number :=
  fdiv (Math_round (fmul x (lit 100))) (lit 100).

Definition specMultiplier (r0 : number) : number :=
  let houseEdge := lit (15 # 1000) in
  let p := fadd houseEdge (fmul r0 (fsub (lit 1) houseEdge)) in
  let raw := fdiv (fsub (lit 1) houseEdge) (fsub (lit 1) p) in
  roundTo2Decimals (clamp (lit 1) (lit 10000) raw).

(** the number of hundredths [Math.round(x * 100)] of a finite [x] *)
Definition hundredths (v : Q) : Z := Qfloor (val (rnd (v * 100)) + (1 # 2))%Q.

(** inputs [deriveSeed] accepts: the entropy value, the round id and the
    chain id are integers from 0 to 2^256 - 1 *)
Definition validInput (input : GameInput) : Prop :=
  (0 <= vrfRandom input < 2 ^ 256)%Z /\
  (exists r, toBigInt (roundId input) = Some r /\ (0 <= r < 2 ^ 256)%Z) /\
  (exists c, toBigInt (chainId input) = Some c /\ (0 <= c < 2 ^ 256)%Z).

(** tick intervals the loop is shown to terminate for: finite and at least
    2^-38 ms *)
Definition tickOK (t : number) : Prop :=
  inQ (1 # 2 ^ 38)%Q (inject_Z (2 ^ 1024)) t.

(** the properties stated of one candle and of the whole sequence *)
Definition candleBelow (fm : number) (u : GameUpdate) : Prop :=
  fle (open (bar u)) fm = true /\ fle (high (bar u)) fm = true /\
  fle (low (bar u)) fm = true /\ fle (close (bar u)) fm = true.

Definition candleShape (u : GameUpdate) : Prop :=
  high (bar u) = Math_max (open (bar u)) (close (bar u)) /\
  low (bar u) = Math_min (open (bar u)) (close (bar u)).

Definition crashedLast (fm : number) (us : list GameUpdate) : Prop :=
  exists init u,
    us = init ++ [u] /\
    Forall (fun v => gameState v = 2%Z) init /\
    gameState u = 3%Z /\ close (bar u) = fm.

(** a price or candle value within the range the loop keeps: finite, not
    negative and not above the final multiplier *)
Definition below (finalMultiplier x : number) : Prop :=
  finite x /\ (0 <= val x)%Q /\ (val x <= val finalMultiplier)%Q.

(** the price after one iteration, before rounding *)
Definition tickPrice (Math_pow : number -> number -> number)
    (finalMultiplier minPrice trendStrength volatilityBase volatilityDecay : number)
    (progress r1 currentPrice : number) : number :=
  let maxPrice := finalMultiplier in
  let targetPrice :=
    fadd (lit 1) (fmul (fsub maxPrice (lit 1)) (Math_pow progress (lit (8 # 10)))) in
  let volatility :=
    fmul volatilityBase (Math_pow (fsub (lit 1) progress) volatilityDecay) in
  let directionBias := fmul (fsub targetPrice currentPrice) trendStrength in
  let randomMove := fmul (fsub r1 (lit (5 # 10))) (lit 2) in
  let priceChange := fadd directionBias (fmul randomMove volatility) in
  let currentPrice := fmul currentPrice (fadd (lit 1) priceChange) in
  Math_max minPrice (Math_min currentPrice maxPrice).

(** ** Settlement and cash-out requests *)

(** the payout of one entry: 18-decimal fixed point, every division truncating *)
Definition payoutOf (amount multiplier balance : Z) : Z :=
  Z.min
    (amount * multiplier / 10 ^ 18
     * (Contract.BPS_DENOMINATOR - Contract.HOUSE_EDGE_BPS) / Contract.BPS_DENOMINATOR)
    (balance * Contract.MAX_WIN_PERCENTAGE_BPS / Contract.BPS_DENOMINATOR).

Module Acceptance.
Import Js Server.







Definition hasBet (env : Reads) (roundId : Z) (walletAddress : value) : Prop :=
  exists bet, getBet env roundId walletAddress = Some bet /\
              (0 < Contract.amount bet)%Z.

Definition zeroBet (env : Reads) (roundId : Z) (walletAddress : value) : Prop :=
  exists bet, getBet env roundId walletAddress = Some bet /\
              Contract.amount bet = 0%Z.


End Acceptance.

(** * Keccak-256

    The hash behind [ethers.keccak256] and viem's [keccak256]: the Keccak
    sponge over the permutation Keccak-f[1600] with rate 136 bytes, the
    padding byte 0x01 and a 32-byte output.  The program takes the hash as a
    parameter; this definition is what that parameter is on a real run. *)

Module Keccak.

(** a state is 25 lanes of 64 bits, lane (x, y) at index x + 5 y *)
Definition mask64 : Z := 2 ^ 64 - 1.

Definition rotl (v : Z) (n : Z) : Z :=
  Z.land (Z.lor (Z.shiftl v n) (Z.shiftr v (64 - n))) mask64.

Definition lane (A : list Z) (i : nat) : Z := nth i A 0%Z.

Definition roundConstants : list Z :=
  [ 0x0000000000000001; 0x0000000000008082; 0x800000000000808A;
    0x8000000080008000; 0x000000000000808B; 0x0000000080000001;
    0x8000000080008081; 0x8000000000008009; 0x000000000000008A;
    0x0000000000000088; 0x0000000080008009; 0x000000008000000A;
    0x000000008000808B; 0x800000000000008B; 0x8000000000008089;
    0x8000000000008003; 0x8000000000008002; 0x8000000000000080;
    0x000000000000800A; 0x800000008000000A; 0x8000000080008081;
    0x8000000000008080; 0x0000000080000001; 0x8000000080008008 ]%Z.

Definition rotationOffsets : list Z :=
  [ 0; 1; 62; 28; 27;  36; 44; 6; 55; 20;  3; 10; 43; 25; 39;
    41; 45; 15; 21; 8;  18; 2; 61; 56; 14 ]%Z.

Definition theta (A : list Z) : list Z :=
  let C := List.map (fun x => Z.lxor (lane A x)
                        (Z.lxor (lane A (x + 5))
                           (Z.lxor (lane A (x + 10))
                              (Z.lxor (lane A (x + 15)) (lane A (x + 20))))))
             (seq 0 5) in
  let D := List.map (fun x => Z.lxor (lane C ((x + 4) mod 5))
                                (rotl (lane C ((x + 1) mod 5)) 1))
             (seq 0 5) in
  List.map (fun i => Z.lxor (lane A i) (lane D (i mod 5))) (seq 0 25).

(** rho and pi: the lane (x, y), rotated, goes to (y, 2x + 3y) *)
Definition rhoPi (A : list Z) : list Z :=
  List.map (fun j =>
              let X := (j mod 5)%nat in
              let Y := (j / 5)%nat in
              let x := ((X + 3 * Y) mod 5)%nat in
              let i := (x + 5 * X)%nat in
              rotl (lane A i) (nth i rotationOffsets 0%Z))
    (seq 0 25).

Definition chi (B : list Z) : list Z :=
  List.map (fun i =>
              let x := (i mod 5)%nat in
              let row := (5 * (i / 5))%nat in
              Z.lxor (lane B i)
                (Z.land (Z.lxor (lane B ((x + 1) mod 5 + row)) mask64)
                   (lane B ((x + 2) mod 5 + row))))
    (seq 0 25).

Definition iota (rc : Z) (A : list Z) : list Z :=
  match A with
  | [] => []
  | a :: rest => Z.lxor a rc :: rest
  end.

Definition round (A : list Z) (rc : Z) : list Z := iota rc (chi (rhoPi (theta A))).

Definition permute (A : list Z) : list Z := fold_left round roundConstants A.

Definition rate : nat := 136.

(** the padding 0x01, zeros, 0x80 up to the next multiple of the rate; one
    byte 0x81 when a single byte is missing *)
Definition pad (message : list byte) : list byte :=
  let missing := (rate - List.length message mod rate)%nat in
  if (missing =? 1)%nat then message ++ [Byte.x81]
  else message ++ [Byte.x01] ++ repeat Byte.x00 (missing - 2) ++ [Byte.x80].

Fixpoint lanesOf (n : nat) (block : list byte) : list Z :=
  match n with
  | O => []
  | S n => le_combine (firstn 8 block) :: lanesOf n (skipn 8 block)
  end.

Definition absorb (A : list Z) (block : list byte) : list Z :=
  let input := lanesOf 17 block ++ repeat 0%Z 8 in
  permute (List.map (fun i => Z.lxor (lane A i) (lane input i)) (seq 0 25)).

Fixpoint blocks (n : nat) (bytes : list byte) : list (list byte) :=
  match n with
  | O => []
  | S n => firstn rate bytes :: blocks n (skipn rate bytes)
  end.

Definition keccak256 (message : list byte) : list byte :=
  let padded := pad message in
  let A := fold_left absorb (blocks (List.length padded / rate) padded)
             (repeat 0%Z 25) in
  flat_map (fun i => le_split 8 (lane A i)) (seq 0 4).

End Keccak.

(** * Sample runs *)

(** stand-ins for the library functions and a few concrete inputs, on which
    the statements below are instantiated *)
Module Sample.

(** a 32-byte digest oracle: the first 32 bytes of the message, zero filled *)
Definition hash (bs : list byte) : list byte :=
  firstn 32 (bs ++ repeat Byte.x00 32).

Definition pow (x y : number) : number := x.
Definition clock (s : string) : number := lit 0.
Definition calendar (ms : number) : number := lit 1.

Definition game : GameInput :=
  {| roundId := lit 1; vrfRandom := 7; serverSeed := "seed"; chainId := lit 10143;
     startTimestamp := "0"; tickIntervalMs := lit 30000 |}.

(** the same round with a negative tick interval *)
Definition reversed : GameInput :=
  {| roundId := lit 1; vrfRandom := 7; serverSeed := "seed"; chainId := lit 10143;
     startTimestamp := "0"; tickIntervalMs := lit (-100) |}.

Definition run (fuel : nat) (input : GameInput) : outcome CrashGameResult :=
  generateCrashGame hash pow clock calendar calendar calendar fuel input.

End Sample.

Module SampleChain.
Import Contract.

(** round 5 with its randomness ready and the bytes 01 02 committed; one
    bet of 1 token by wallet 100; the round settled at 2.00x *)
Definition secret : list byte := [Byte.x01; Byte.x02].

Definition state : State :=
  {| rounds := {[ 5%Z := {| serverSeedHash := Sample.hash secret;
                            serverSeed := [];
                            sequenceNumber := 1%Z;
                            entropyRandom := 7%Z;
                            status := RandomReady |} ]};
     operator := 1%Z;
     bets := {[ (5%Z, 100%Z) := {| amount := (10 ^ 18)%Z;
                                   cashOutMultiplier := 0%Z;
                                   settled := false |} ]};
     claimablePayouts := ∅;
     roundFinalMultipliers := {[ 5%Z := (2 * 10 ^ 18)%Z ]};
     roundSettled := {[ 5%Z := true ]};
     tokenBalance := (10 ^ 21)%Z;
     events := [] |}.

End SampleChain.

Module SampleServer.
Import Js Server.

(** round 5 running at 2.00x with no cash-out yet; the ledger holds a bet of
    1 token for every wallet asked about *)
Definition store : Store :=
  {| activeRounds := {[ 5%Z := {| roundId := 5%Z;
                                  currentMultiplier := lit 2;
                                  state := running;
                                  finalMultiplier := None |} ]};
     activeCashOuts := ∅ |}.

Definition env : Reads :=
  {| getBet := fun _ _ => Some {| Contract.amount := (10 ^ 18)%Z;
                                  Contract.cashOutMultiplier := 0%Z;
                                  Contract.settled := false |};
     balanceOf := Some (10 ^ 21)%Z;
     dateNow := lit 1000 |}.

(** one recorded cash-out at 1.50x *)
Definition records : list CashOut :=
  [ {| walletAddress := "0xabc"; multiplier := JNumber (lit (3 # 2));
       timestamp := lit 1; verified := true |} ].

(** the account every wallet string stands for *)
Definition addressOf (s : string) : Contract.address := 100%Z.

(** stand-ins for [parseInt], [Number::toString] and [StringToNumber] *)
Definition parseInt (s : string) : number := lit 5.
Definition Number_toString (n : number) : string := "5".
Definition StringToNumber (s : string) : number := NaN.

End SampleServer.

(** * CrashGame.sol, the whole contract

    The storage [Contract.State] holds is kept as it is; the round counter,
    the sequence-number map and the two collaborating contracts are put
    beside it.  A call of another contract returns that contract's next
    state and its result, or reverts with its reason; it does not call back
    into this contract. *)

Module CrashGame.
Import Contract.

(** the token interface: the first address of [transfer] and [transferFrom]
    is the caller, [msg.sender] of the token's call *)
Class IERC20 (T : Type) : Type := {
  balanceOf : T -> address -> Z;
  transfer : T -> address -> address -> Z -> result (T * bool);
  transferFrom : T -> address -> address -> address -> Z -> result (T * bool)
}.

(** the entropy interface: [requestV2] is paid [value] by [caller] and returns
    the sequence number assigned *)
Class IEntropyV2 (E : Type) : Type := {
  getFeeV2 : E -> result Z;
  requestV2 : E -> address -> Z -> result (E * Z)
}.

Inductive Log : Type :=
| RoundCreated (roundId : Z) (serverSeedHash : list byte)
| RandomRequested (roundId sequenceNumber : Z)
| RandomReady (roundId entropyRandom : Z)
| Revealed (e : Event)
| BetPlaced (roundId : Z) (user : address) (amount : Z)
| RoundSettled (roundId finalMultiplier : Z)
| PayoutClaimed (user : address) (amount : Z).

Record World (T E : Type) : Type := {
  game : State;
  roundCounter : Z;
  sequenceToRound : gmap Z Z;
  token : T;
  entropy : E;
  (** every event emitted, in order *)
  journal : list Log
}.
Arguments game {T E} w.
Arguments roundCounter {T E} w.
Arguments sequenceToRound {T E} w.
Arguments token {T E} w.
Arguments entropy {T E} w.
Arguments journal {T E} w.

(** [bytes32(0)] *)
Definition zeroHash : list byte := repeat Byte.x00 32.

(** [uint256(b)] of a [bytes32] *)
Definition uint256_of_bytes32 (b : list byte) : Z := le_combine (rev b).

(** ** Writing one storage variable *)

Definition with_rounds (st : State) (v : gmap Z Round) : State :=
  {| rounds := v; operator := operator st; bets := bets st;
     claimablePayouts := claimablePayouts st;
     roundFinalMultipliers := roundFinalMultipliers st;
     roundSettled := roundSettled st; tokenBalance := tokenBalance st;
     events := events st |}.

Definition with_operator (st : State) (v : address) : State :=
  {| rounds := rounds st; operator := v; bets := bets st;
     claimablePayouts := claimablePayouts st;
     roundFinalMultipliers := roundFinalMultipliers st;
     roundSettled := roundSettled st; tokenBalance := tokenBalance st;
     events := events st |}.

Definition with_bets (st : State) (v : gmap (Z * address) Bet) : State :=
  {| rounds := rounds st; operator := operator st; bets := v;
     claimablePayouts := claimablePayouts st;
     roundFinalMultipliers := roundFinalMultipliers st;
     roundSettled := roundSettled st; tokenBalance := tokenBalance st;
     events := events st |}.

Definition with_claimablePayouts (st : State) (v : gmap address Z) : State :=
  {| rounds := rounds st; operator := operator st; bets := bets st;
     claimablePayouts := v;
     roundFinalMultipliers := roundFinalMultipliers st;
     roundSettled := roundSettled st; tokenBalance := tokenBalance st;
     events := events st |}.

Definition with_settlement (st : State) (settled : gmap Z bool)
    (multipliers : gmap Z Z) : State :=
  {| rounds := rounds st; operator := operator st; bets := bets st;
     claimablePayouts := claimablePayouts st;
     roundFinalMultipliers := multipliers;
     roundSettled := settled; tokenBalance := tokenBalance st;
     events := events st |}.

Definition with_tokenBalance (st : State) (v : Z) : State :=
  {| rounds := rounds st; operator := operator st; bets := bets st;
     claimablePayouts := claimablePayouts st;
     roundFinalMultipliers := roundFinalMultipliers st;
     roundSettled := roundSettled st; tokenBalance := v;
     events := events st |}.

Section Functions.

Context {T E : Type} `{IERC20 T} `{IEntropyV2 E}.

(** [address(this)], [keccak256] and [address(entropy)], the immutable
    address the constructor is given *)
Variable self : address.
Variable keccak256 : list byte -> list byte.
Variable entropyAddress : address.

Definition with_game (w : World T E) (st : State) : World T E :=
  {| game := st; roundCounter := roundCounter w;
     sequenceToRound := sequenceToRound w; token := token w;
     entropy := entropy w; journal := journal w |}.

Definition with_token (w : World T E) (t : T) : World T E :=
  {| game := game w; roundCounter := roundCounter w;
     sequenceToRound := sequenceToRound w; token := t;
     entropy := entropy w; journal := journal w |}.

Definition emit (w : World T E) (e : Log) : World T E :=
  {| game := game w; roundCounter := roundCounter w;
     sequenceToRound := sequenceToRound w; token := token w;
     entropy := entropy w; journal := journal w ++ [e] |}.

(** the storage as a function of the earlier model reads it: its
    [tokenBalance] is [token.balanceOf(address(this))] at the time of the call *)
Definition storage (w : World T E) : State :=
  with_tokenBalance (game w) (balanceOf (token w) self).

(** a function of the earlier model run on the storage; what it emitted goes
    to the journal *)
Definition onStorage (w : World T E) (call : State -> result State)
    : result (World T E) :=
  do st' <- call (storage w);
  Success
    {| game := st'; roundCounter := roundCounter w;
       sequenceToRound := sequenceToRound w; token := token w;
       entropy := entropy w;
       journal := journal w
                  ++ List.map Revealed (skipn (List.length (events (game w))) (events st')) |}.

Definition constructor (_entropy : E) (_operator : address) (_token : T)
    : World T E :=
  {| game := {| rounds := ∅; operator := _operator; bets := ∅;
                claimablePayouts := ∅; roundFinalMultipliers := ∅;
                roundSettled := ∅; tokenBalance := balanceOf _token self;
                events := [] |};
     roundCounter := 1;
     sequenceToRound := ∅;
     token := _token;
     entropy := _entropy;
     journal := [] |}.

Definition createRound (w : World T E) (serverSeedHash : list byte)
    : result (World T E * Z) :=
  let roundId := roundCounter w in
  do next <- checked (roundCounter w + 1);
  let round := {| serverSeedHash := serverSeedHash; serverSeed := [];
                  sequenceNumber := 0; entropyRandom := 0; status := Created |} in
  let w :=
    {| game := with_rounds (game w) (<[roundId := round]> (rounds (game w)));
       roundCounter := next;
       sequenceToRound := sequenceToRound w; token := token w;
       entropy := entropy w; journal := journal w |} in
  Success (emit w (RoundCreated roundId serverSeedHash), roundId).

(** [value] is [msg.value]; [refundOk] is what the refund call to the sender
    returns, when it is made *)
Definition requestRandomness (w : World T E) (sender : address) (value : Z)
    (refundOk : bool) (roundId : Z) : result (World T E) :=
  let round := getRoundOf (game w) roundId in
  do _ <- require (negb (bool_decide (serverSeedHash round = zeroHash)))
            "Round does not exist";
  do _ <- require (bool_decide (status round = Created)) "Invalid round status";
  do _ <- require (sequenceNumber round =? 0)%Z "Randomness already requested";
  do fee <- getFeeV2 (entropy w);
  do _ <- require (fee <=? value)%Z "Insufficient fee";
  do r <- requestV2 (entropy w) self fee;
  let sequenceNumber := snd r in
  do _ <- require (default 0%Z (sequenceToRound w !! sequenceNumber) =? 0)%Z
            "Sequence number already used";
  let round := {| serverSeedHash := serverSeedHash round;
                  serverSeed := Contract.serverSeed round;
                  sequenceNumber := sequenceNumber;
                  entropyRandom := entropyRandom round;
                  status := Contract.RandomRequested |} in
  let w :=
    {| game := with_rounds (game w) (<[roundId := round]> (rounds (game w)));
       roundCounter := roundCounter w;
       sequenceToRound := <[sequenceNumber := roundId]> (sequenceToRound w);
       token := token w;
       entropy := fst r;
       journal := journal w |} in
  let w := emit w (RandomRequested roundId sequenceNumber) in
  if (fee <? value)%Z
  then do _ <- require refundOk "Refund failed"; Success w
  else Success w.

Definition entropyCallback (w : World T E) (sequenceNumber : Z)
    (randomNumberBytes : list byte) : result (World T E) :=
  let roundId := default 0%Z (sequenceToRound w !! sequenceNumber) in
  do _ <- require (negb (roundId =? 0)%Z) "Unknown sequence number";
  let round := getRoundOf (game w) roundId in
  do _ <- require (bool_decide (status round = Contract.RandomRequested))
            "Invalid round status";
  let randomValue := uint256_of_bytes32 randomNumberBytes in
  let round := {| serverSeedHash := serverSeedHash round;
                  serverSeed := Contract.serverSeed round;
                  sequenceNumber := Contract.sequenceNumber round;
                  entropyRandom := randomValue;
                  status := Contract.RandomReady |} in
  let w := with_game w (with_rounds (game w) (<[roundId := round]> (rounds (game w)))) in
  Success (emit w (RandomReady roundId randomValue)).

Definition revealServerSeed (w : World T E) (roundId : Z) (serverSeed : list byte)
    : result (World T E) :=
  onStorage w (fun st => Contract.revealServerSeed keccak256 st roundId serverSeed).

Definition getRound (w : World T E) (roundId : Z)
    : list byte * list byte * Z * Z * RoundStatus :=
  let round := getRoundOf (game w) roundId in
  (serverSeedHash round, Contract.serverSeed round, sequenceNumber round,
   entropyRandom round, status round).

Definition isRandomReady (w : World T E) (roundId : Z) : bool :=
  bool_decide (status (getRoundOf (game w) roundId) = Contract.RandomReady).

Definition setOperator (w : World T E) (sender newOperator : address)
    : result (World T E) :=
  do _ <- require (bool_decide (sender = operator (game w))) "Not operator";
  Success (with_game w (with_operator (game w) newOperator)).

Definition placeBet (w : World T E) (sender : address) (roundId amount : Z)
    : result (World T E) :=
  do _ <- require (0 <? amount)%Z "Amount must be greater than 0";
  do _ <- require (amount <=? MAX_BET)%Z "Bet amount exceeds maximum";
  do _ <- require (negb (default false (roundSettled (game w) !! roundId)))
            "Round already settled";
  do _ <- require (negb (bool_decide
                           (serverSeedHash (getRoundOf (game w) roundId) = zeroHash)))
            "Round does not exist";
  let round := getRoundOf (game w) roundId in
  do _ <- require (bool_decide (status round = Created)
                   || bool_decide (status round = Contract.RandomRequested)
                   || bool_decide (status round = Contract.RandomReady))
            "Betting closed";
  do _ <- require (Contract.amount (getBetOf (game w) roundId sender) =? 0)%Z
            "Already placed bet";
  do r <- transferFrom (token w) self sender self amount;
  do _ <- require (snd r) "Transfer failed";
  let bet := {| Contract.amount := amount; cashOutMultiplier := 0; settled := false |} in
  let w :=
    {| game := with_bets (game w) (<[(roundId, sender) := bet]> (bets (game w)));
       roundCounter := roundCounter w;
       sequenceToRound := sequenceToRound w;
       token := fst r;
       entropy := entropy w;
       journal := journal w |} in
  Success (emit w (BetPlaced roundId sender amount)).

Definition settleRound (w : World T E) (sender : address) (roundId finalMultiplier : Z)
    (serverSeed : list byte) : result (World T E) :=
  do _ <- require (bool_decide (sender = operator (game w))) "Not operator";
  let round := getRoundOf (game w) roundId in
  do _ <- require (bool_decide (status round = SeedRevealed)) "Server seed not revealed";
  do _ <- require (negb (default false (roundSettled (game w) !! roundId)))
            "Round already settled";
  do _ <- require (10 ^ 18 <=? finalMultiplier)%Z "Invalid final multiplier";
  let computedHash := keccak256 serverSeed in
  do _ <- require (bool_decide (computedHash = serverSeedHash round))
            "Server seed hash mismatch";
  let w :=
    with_game w
      (with_settlement (game w)
         (<[roundId := true]> (roundSettled (game w)))
         (<[roundId := finalMultiplier]> (roundFinalMultipliers (game w)))) in
  Success (emit w (RoundSettled roundId finalMultiplier)).

Definition processCashOuts (w : World T E) (sender : address) (roundId : Z)
    (cashOuts : list CashOut) : result (World T E) :=
  onStorage w (fun st => Contract.processCashOuts st sender roundId cashOuts).

Definition claimAllPayouts (w : World T E) (sender : address) : result (World T E) :=
  let total := claimableOf (game w) sender in
  do _ <- require (0 <? total)%Z "No payouts to claim";
  let st := with_claimablePayouts (game w)
              (<[sender := 0%Z]> (claimablePayouts (game w))) in
  do r <- transfer (token w) self sender total;
  do _ <- require (snd r) "Transfer failed";
  let w :=
    {| game := st; roundCounter := roundCounter w;
       sequenceToRound := sequenceToRound w; token := fst r;
       entropy := entropy w; journal := journal w |} in
  Success (emit w (PayoutClaimed sender total)).

Definition withdrawHouseEdge (w : World T E) (sender : address) : result (World T E) :=
  do _ <- require (bool_decide (sender = operator (game w))) "Not operator";
  let balance := balanceOf (token w) self in
  do _ <- require (0 <? balance)%Z "No balance to withdraw";
  do r <- transfer (token w) self (operator (game w)) balance;
  do _ <- require (snd r) "Transfer failed";
  Success (with_token w (fst r)).

Definition getBet (w : World T E) (roundId : Z) (user : address) : Z * Z * bool :=
  let bet := getBetOf (game w) roundId user in
  (Contract.amount bet, cashOutMultiplier bet, settled bet).

(** ** A transaction

    [EntropyCallback] is the external [_entropyCallback] the contract
    inherits from [IEntropyConsumer] (the Pyth SDK, not among the sources):
    it requires that [getEntropy()] is not the zero address and that the
    sender is that address, and then enters the internal [entropyCallback]. *)

Inductive Call : Type :=
| CreateRound (serverSeedHash : list byte)
| RequestRandomness (value : Z) (refundOk : bool) (roundId : Z)
| EntropyCallback (sequenceNumber : Z) (randomNumberBytes : list byte)
| RevealServerSeed (roundId : Z) (serverSeed : list byte)
| SetOperator (newOperator : address)
| PlaceBet (roundId amount : Z)
| SettleRound (roundId finalMultiplier : Z) (serverSeed : list byte)
| ProcessCashOuts (roundId : Z) (cashOuts : list CashOut)
| ClaimAllPayouts
| WithdrawHouseEdge.

Definition exec (w : World T E) (sender : address) (c : Call) : result (World T E) :=
  match c with
  | CreateRound h => do r <- createRound w h; Success (fst r)
  | RequestRandomness value refundOk roundId =>
      requestRandomness w sender value refundOk roundId
  | EntropyCallback sequenceNumber randomNumberBytes =>
      do _ <- require (negb (entropyAddress =? 0)%Z) "Entropy address not set";
      do _ <- require (bool_decide (sender = entropyAddress))
                "Only Entropy can call this function";
      entropyCallback w sequenceNumber randomNumberBytes
  | RevealServerSeed roundId serverSeed => revealServerSeed w roundId serverSeed
  | SetOperator newOperator => setOperator w sender newOperator
  | PlaceBet roundId amount => placeBet w sender roundId amount
  | SettleRound roundId finalMultiplier serverSeed =>
      settleRound w sender roundId finalMultiplier serverSeed
  | ProcessCashOuts roundId cashOuts => processCashOuts w sender roundId cashOuts
  | ClaimAllPayouts => claimAllPayouts w sender
  | WithdrawHouseEdge => withdrawHouseEdge w sender
  end.

(** what happens to the storage, one step after the other: a transaction,
    which leaves the storage as it was when it reverts, or the token and the
    entropy contract moving on by themselves *)
Inductive Step : Type :=
| Tx (sender : address) (c : Call)
| Elsewhere (t : T) (e : E).

Definition step (w : World T E) (s : Step) : World T E :=
  match s with
  | Tx sender c =>
      match exec w sender c with
      | Success w' => w'
      | Revert _ => w
      end
  | Elsewhere t e =>
      {| game := game w; roundCounter := roundCounter w;
         sequenceToRound := sequenceToRound w; token := t; entropy := e;
         journal := journal w |}
  end.

Definition run (w : World T E) (steps : list Step) : World T E :=
  fold_left step steps w.

End Functions.

Arguments Step : clear implicits.
Arguments Tx {T E} sender c.
Arguments Elsewhere {T E} t e.

End CrashGame.


(** ** The contract over time *)

Module History.
Import Contract CrashGame.

(** how far a round has come *)
Definition rank (s : RoundStatus) : nat :=
  match s with
  | Created => 0
  | Contract.RandomRequested => 1
  | Contract.RandomReady => 2
  | SeedRevealed => 3
  end.

(** a round later on: the commitment is the same, the status has not gone
    back, the sequence number is fixed once requested, the entropy value
    once ready, and all of it once the seed is revealed *)
Definition roundKept (a b : Round) : Prop :=
  serverSeedHash b = serverSeedHash a /\
  (rank (status a) <= rank (status b))%nat /\
  ((1 <= rank (status a))%nat -> sequenceNumber b = sequenceNumber a) /\
  ((2 <= rank (status a))%nat -> entropyRandom b = entropyRandom a) /\
  (status a = SeedRevealed -> b = a).

(** a bet later on: its amount is fixed once placed, all of it once settled *)
Definition betKept (a b : Bet) : Prop :=
  ((0 < amount a)%Z -> amount b = amount a /\ (settled a = true -> b = a)).

Definition kept {T E : Type} (w w' : World T E) : Prop :=
  (roundCounter w <= roundCounter w')%Z /\
  (forall r, (r < roundCounter w)%Z ->
     roundKept (getRoundOf (game w) r) (getRoundOf (game w') r)) /\
  (forall r u, betKept (getBetOf (game w) r u) (getBetOf (game w') r u)) /\
  (forall r, roundSettled (game w) !! r = Some true ->
     roundSettled (game w') !! r = Some true /\
     roundFinalMultipliers (game w') !! r = roundFinalMultipliers (game w) !! r) /\
  (forall s r, sequenceToRound w !! s = Some r -> r <> 0%Z ->
     sequenceToRound w' !! s = Some r).

(** what holds of the storage after any transactions *)
Definition sound {T E : Type} (keccak256 : list byte -> list byte) (w : World T E)
    : Prop :=
  (1 <= roundCounter w)%Z /\
  (forall r rd, rounds (game w) !! r = Some rd -> (1 <= r < roundCounter w)%Z) /\
  (forall r, status (getRoundOf (game w) r) = SeedRevealed ->
     keccak256 (Contract.serverSeed (getRoundOf (game w) r))
     = serverSeedHash (getRoundOf (game w) r)) /\
  (forall r, roundSettled (game w) !! r = Some true ->
     status (getRoundOf (game w) r) = SeedRevealed /\
     exists m, roundFinalMultipliers (game w) !! r = Some m /\ (10 ^ 18 <= m)%Z) /\
  (forall r u b, bets (game w) !! (r, u) = Some b ->
     (0 < amount b <= MAX_BET)%Z /\
     serverSeedHash (getRoundOf (game w) r) <> zeroHash /\
     (settled b = true ->
      roundSettled (game w) !! r = Some true /\
      (10 ^ 18 <= cashOutMultiplier b
       <= default 0 (roundFinalMultipliers (game w) !! r))%Z)) /\
  (forall s r, sequenceToRound w !! s = Some r -> r <> 0%Z ->
     sequenceNumber (getRoundOf (game w) r) = s /\
     status (getRoundOf (game w) r) <> Created).

(** a round that is not ready yet shows no entropy value *)
Definition blank {T E : Type} (w : World T E) : Prop :=
  forall r, (rank (status (getRoundOf (game w) r)) < 2)%nat ->
    entropyRandom (getRoundOf (game w) r) = 0%Z.

End History.

(** * pyth-entropy-handler.ts *)

Module EntropyHandler.
Import Contract CrashGame.

Definition maxWaitTime : Z := 120.
Definition pollInterval : Z := 3.

(** the read callback [runGame] passes in: [getRound], and a throw (None)
    while the round shows no entropy value *)
Definition readEntropyValue {T E : Type} (w : World T E) (roundId : Z) : option Z :=
  let '(_, _, _, entropyRandom, _) := getRound w roundId in
  if (entropyRandom =? 0)%Z then None else Some entropyRandom.

(** step 4 of [requestAndWaitForEntropy], the wait for the callback:
    [readEntropyValue k] is what the k-th call of the read callback returns,
    None when it throws; [entropyRandom] is null whenever the loop condition
    is evaluated, as the only assignment is followed by [break] *)
Fixpoint waitForCallback (fuel : nat) (readEntropyValue : nat -> option Z)
    (k : nat) (waited : Z) : outcome Z :=
  match fuel with
  | O => OutOfFuel
  | S fuel' =>
      if (waited <? maxWaitTime)%Z then
        let waited := (waited + pollInterval)%Z in
        match readEntropyValue k with
        | Some currentRandom =>
            if negb (currentRandom =? 0)%Z then Ok currentRandom
            else waitForCallback fuel' readEntropyValue (S k) waited
        | None => waitForCallback fuel' readEntropyValue (S k) waited
        end
      else Throws
  end.

End EntropyHandler.

(** ** A sample deployment *)

(** a token that keeps balances and reverts a transfer of more than is held,
    an entropy contract that charges 1 and numbers its requests, and the
    transactions of one round played by wallet 100 *)
Module SampleWorld.
Import Contract CrashGame.

Definition ledger : Type := gmap address Z.

Definition held (l : ledger) (a : address) : Z := default 0%Z (l !! a).

Definition move (l : ledger) (from to : address) (amount : Z) : result (ledger * bool) :=
  if (amount <=? held l from)%Z
  then
    let l1 := <[from := (held l from - amount)%Z]> l in
    Success (<[to := (held l1 to + amount)%Z]> l1, true)
  else Revert "ERC20: transfer amount exceeds balance".

#[global] Instance ledger_token : IERC20 ledger :=
  {| balanceOf := held;
     transfer := fun l caller to amount => move l caller to amount;
     transferFrom := fun l caller from to amount => move l from to amount |}.

Definition sequencer : Type := Z.

#[global] Instance sequencer_entropy : IEntropyV2 sequencer :=
  {| getFeeV2 := fun e => Success 1%Z;
     requestV2 := fun e caller fee => Success ((e + 1)%Z, e) |}.

Definition self : address := 900%Z.
Definition house : address := 1%Z.
Definition player : address := 100%Z.
(** the address of the entropy contract *)
Definition pyth : address := 50%Z.

Definition commitment : list byte := Sample.hash SampleChain.secret.

Definition genesis : World ledger sequencer :=
  constructor self (7%Z : sequencer) house
    ({[ player := (5 * 10 ^ 18)%Z; self := (10 ^ 21)%Z ]} : ledger).

Definition opening : list (Step ledger sequencer) :=
  [ Tx house (CreateRound commitment);
    Tx house (RequestRandomness 1 true 1) ].

Definition delivery : list (Step ledger sequencer) :=
  [ Tx pyth (EntropyCallback 7 (repeat Byte.x03 32)) ].

Definition betting : list (Step ledger sequencer) :=
  [ Tx player (PlaceBet 1 (10 ^ 18)) ].

Definition closing : list (Step ledger sequencer) :=
  [ Tx house (RevealServerSeed 1 SampleChain.secret);
    Tx house (SettleRound 1 (2 * 10 ^ 18) SampleChain.secret) ].

Definition paying : list (Step ledger sequencer) :=
  [ Tx house (ProcessCashOuts 1 [ {| wallet := player; multiplier := 15 * 10 ^ 17 |} ]) ].

Definition play (steps : list (Step ledger sequencer)) : World ledger sequencer :=
  run self Sample.hash pyth genesis steps.

(** the storage after the entropy value came in, after the bet, after the
    round was settled and after the cash-out was processed *)
Definition afterDelivery : World ledger sequencer := play (opening ++ delivery).
Definition afterBet : World ledger sequencer := play (opening ++ delivery ++ betting).
Definition afterSettlement : World ledger sequencer :=
  play (opening ++ delivery ++ betting ++ closing).
Definition afterPayout : World ledger sequencer :=
  play (opening ++ delivery ++ betting ++ closing ++ paying).

End SampleWorld.

(** ** The first digest and the crash point *)

(** the largest first digest for which the round crashes at 1.00x, and the
    least one for which it reaches the cap of 10000x *)
Definition instantUpTo : Z := 11471855767232233 * 2 ^ 195.
Definition capFrom : Z := 18012597068730315 * 2 ^ 202.

(** ** What the server reads off an update *)

(** [update.currentValue / 100000] *)
Definition liveValue (u : GameUpdate) : number := fdiv (currentValue u) (lit 100000).

(** each candle opens where the one before it closed *)
Fixpoint continuous (previous : number) (us : list GameUpdate) : Prop :=
  match us with
  | [] => True
  | u :: rest => open (bar u) = previous /\ continuous (close (bar u)) rest
  end.

(** * crash-game-server.ts: the round as it is streamed *)

Module Streaming.
Import Js Server.

(** the variables a call of [handleCashOutRequest] keeps across its
    [await]s: the three fields of the message and [roundIdNum], the key of
    the round *)
Module Request.
Record t : Type := {
  roundId : value;
  roundIdNum : Z;
  multiplier : value;
  walletAddress : value
}.
End Request.

Section Round.

(** [parseInt], [Number::toString] and [StringToNumber] *)
Variable parseInt : string -> number.
Variable Number_toString : number -> string.
Variable StringToNumber : string -> number.

Variable roundId : Z.
Variable finalMultiplier : number.
Variable updates : list GameUpdate.

(** ** [handleCashOutRequest], in the parts its [await]s separate

    Up to the call of [contract.getBet] the handler reads the round's state
    and live multiplier.  When that call has returned it looks for a record
    of the wallet and writes the new one, on the store as it is by then.
    The confirmation is sent after the token balance was read. *)

(** [typeof roundId === 'string' ? parseInt(roundId) : roundId] *)
Definition roundIdNumOf (roundId : value) : value :=
  match roundId with
  | JString s => JNumber (parseInt s)
  | _ => roundId
  end.

(** the key [activeRounds.get] finds a value under: the rounds are kept
    under integral Numbers *)
Definition keyOf (roundIdNum : value) : option Z :=
  match roundIdNum with
  | JNumber n => toBigInt n
  | _ => None
  end.

(** what the first part ends in: the template literal of the first log line
    throws and the call is left without an answer, an error is answered, or
    the checks are passed for the round under [roundIdNum] *)
Inductive Checked : Type :=
| Thrown
| Answered (error : string)
| Passed (roundIdNum : Z).

Definition checkRequest (store : Store) (roundId multiplier walletAddress : value)
    : Checked :=
  if negb (printable roundId && printable multiplier && printable walletAddress)
  then Thrown
  else if negb (ToBoolean roundId) || negb (ToBoolean multiplier)
          || negb (ToBoolean walletAddress)
  then Answered "Missing required fields"
  else
    let roundIdNum := roundIdNumOf roundId in
    match keyOf roundIdNum with
    | None => Answered "Round not active"
    | Some key =>
        match activeRounds store !! key with
        | None => Answered "Round not active"
        | Some activeRound =>
            if negb (bool_decide (state activeRound = running))
            then Answered "Round not active"
            else if flt (ToNumber Number_toString StringToNumber multiplier) (lit 1)
                    || fgt (ToNumber Number_toString StringToNumber multiplier)
                         (currentMultiplier activeRound)
            then Answered "Invalid multiplier"
            else Passed key
        end
    end.

(** what the second part ends in: an error answered, or the record written
    and the payout as computed before the balance is read *)
Inductive Recorded : Type :=
| Refused (error : string)
| Written (payout : number).

(** from the return of [contract.getBet] to the next [await]; a wallet that
    is no string has no [toLowerCase], and the TypeError is answered as a
    failed look-up *)
Definition recordRequest (store : Store) (env : Reads) (roundIdNum : Z)
    (multiplier walletAddress : value) : Store * Recorded :=
  match getBet env roundIdNum walletAddress with
  | None => (store, Refused "Failed to verify bet")
  | Some bet =>
      if (Contract.amount bet =? 0)%Z
      then (store, Refused "No bet found")
      else
        match walletAddress with
        | JString walletAddress =>
            let existingCashOuts := default [] (activeCashOuts store !! roundIdNum) in
            if existsb (fun co => String.eqb (toLowerCase (Server.walletAddress co))
                                    (toLowerCase walletAddress)) existingCashOuts
            then (store, Refused "Already cashed out")
            else
              let cashOut :=
                {| Server.walletAddress := toLowerCase walletAddress;
                   Server.multiplier := multiplier;
                   timestamp := fdiv (dateNow env) (lit 1000);
                   verified := true |} in
              let store' :=
                {| activeRounds := activeRounds store;
                   activeCashOuts :=
                     <[roundIdNum := existingCashOuts ++ [cashOut]]>
                       (activeCashOuts store) |} in
              let betAmount := fromUnits18 (Contract.amount bet) in
              let payoutBeforeFee :=
                fmul betAmount (ToNumber Number_toString StringToNumber multiplier) in
              let payout := fmul payoutBeforeFee (fsub (lit 1) HOUSE_EDGE) in
              (store', Written payout)
        | _ => (store, Refused "Failed to verify bet")
        end
  end.

(** the third part, once the token balance was read or the read has thrown:
    the payout confirmed *)
Definition capPayout (balance : option Z) (payout : number) : number :=
  match balance with
  | Some contractBalance =>
      let contractBalanceNum := fromUnits18 contractBalance in
      let maxWinPerPlayer := fmul contractBalanceNum MAX_WIN_PERCENTAGE in
      if fgt payout maxWinPerPlayer then maxWinPerPlayer else payout
  | None => payout
  end.

(** the answers of the third part: the confirmation, and after it the
    answer of the [catch] when [multiplier.toFixed(2)] of the last log line
    throws, as it does for what is no Number *)
Definition confirm (roundId multiplier : value) (payout : number) : list Response :=
  Accepted roundId multiplier payout
  :: match multiplier with
     | JNumber _ => []
     | _ => [Rejected "Failed to verify bet"]
     end.

(** ** [runGame], from the generated game to the crash *)

(** [activeRounds.set(...)] and [activeCashOuts.set(..., [])] once the game
    is generated *)
Definition trackRound (store : Store) (roundId : Z) : Store :=
  {| activeRounds :=
       <[roundId := {| Server.roundId := roundId; currentMultiplier := lit 1;
                       state := betting; Server.finalMultiplier := None |}]>
         (activeRounds store);
     activeCashOuts := <[roundId := []]> (activeCashOuts store) |}.

(** a write to the round's object, when the map has it *)
Definition updateRound (store : Store) (roundId : Z) (f : ActiveRound -> ActiveRound)
    : Store :=
  match activeRounds store !! roundId with
  | Some activeRound =>
      {| activeRounds := <[roundId := f activeRound]> (activeRounds store);
         activeCashOuts := activeCashOuts store |}
  | None => store
  end.

(** the index of the first update tagged 2, or -1 *)
Fixpoint firstRunningFrom (i : Z) (updates : list GameUpdate) : Z :=
  match updates with
  | [] => (-1)%Z
  | u :: rest => if (gameState u =? 2)%Z then i else firstRunningFrom (i + 1) rest
  end.

Definition firstRunningIndex (updates : list GameUpdate) : Z :=
  firstRunningFrom 0 updates.

Inductive Sent : Type :=
| Status (status : string)
| Update (update : GameUpdate)
| Answer (response : Response).

(** the update sent ahead of the first running one *)
Definition syntheticStartUpdate (first : GameUpdate) : GameUpdate :=
  {| currentValue := lit 100000;
     bar := {| open := lit 1; high := lit 1; low := lit 1; close := lit 1;
               time := time (bar first) |};
     gameState := 2;
     nextGameNoMoreBetsAt := nextGameNoMoreBetsAt first |}.

(** where [runGame] stands: in the wait for betting to close, in the wait
    that follows the "prepared" status, in the loop, or past it *)
Inductive Phase : Type :=
| Waiting
| Prepared
| Looping
| Left.

Record Stream : Type := {
  store : Store;
  (** the status messages from "betting_open" on, the updates and the
      answers to cash-out messages, in the order they are sent *)
  sent : list Sent;
  (** requests whose [getBet] call has not returned *)
  pending : list Request.t;
  (** recorded requests whose balance read has not returned, each with the
      payout computed *)
  capping : list (Request.t * number);
  phase : Phase;
  (** the loop counter and the updates not yet visited *)
  position : Z;
  ahead : list GameUpdate
}.

(** the state when betting opens *)
Definition opened (store : Store) : Stream :=
  {| store := trackRound store roundId; sent := [Status "betting_open"];
     pending := []; capping := []; phase := Waiting; position := 0; ahead := updates |}.

(** the loop's part of a state: the store, what was sent, and where the
    loop stands; the requests under way are as before *)
Definition proceed (s : Stream) (store' : Store) (messages : list Sent)
    (phase' : Phase) (position' : Z) (ahead' : list GameUpdate) : Stream :=
  {| store := store'; sent := sent s ++ messages; pending := pending s;
     capping := capping s; phase := phase'; position := position';
     ahead := ahead' |}.

(** the statements between the two waits and the loop *)
Definition start (s : Stream) : Stream :=
  let firstRunningIndex := firstRunningIndex updates in
  let store' := updateRound (store s) roundId
                 (fun ar => {| Server.roundId := Server.roundId ar;
                               currentMultiplier := currentMultiplier ar;
                               state := running;
                               Server.finalMultiplier := Server.finalMultiplier ar |}) in
  let messages :=
    if (0 <=? firstRunningIndex)%Z then
      match nth_error updates (Z.to_nat firstRunningIndex) with
      | Some firstUpdate =>
          [Status "game_started"; Update (syntheticStartUpdate firstUpdate);
           Update firstUpdate]
      | None => [Status "game_started"]
      end
    else [] in
  proceed s store' messages Looping 0 updates.

(** one iteration of [for (let i = 0; i < updates.length; i++)] *)
Definition iterate (s : Stream) : Stream :=
  match ahead s with
  | [] => proceed s (store s) [] Left (position s) []
  | update :: rest =>
      let i := position s in
      if (gameState update =? 1)%Z then
        proceed s (store s) [] Looping (i + 1) rest
      else if (i =? firstRunningIndex updates)%Z then
        proceed s (store s) [] Looping (i + 1) rest
      else if (gameState update =? 2)%Z then
        let multiplier := fdiv (currentValue update) (lit 100000) in
        let store' :=
          updateRound (store s) roundId
            (fun ar => {| Server.roundId := Server.roundId ar;
                          currentMultiplier := multiplier;
                          state := state ar;
                          Server.finalMultiplier := Server.finalMultiplier ar |}) in
        proceed s store' [Update update] Looping (i + 1) rest
      else if (gameState update =? 3)%Z then
        let store' :=
          updateRound (store s) roundId
            (fun ar => {| Server.roundId := Server.roundId ar;
                          currentMultiplier := currentMultiplier ar;
                          state := ended;
                          Server.finalMultiplier := Some finalMultiplier |}) in
        proceed s store' [Update update] Left i rest
      else
        proceed s (store s) [] Looping (i + 1) rest
  end.

(** what can happen next: a cash-out message comes in, the [getBet] call of
    a request returns or throws, the balance read of a recorded request
    returns or throws, betting closes, the wait before the loop is over, or
    the loop takes its next turn.  A message is handled while the loop waits; here one may
    be handled between any two turns, which leaves out no order the server
    can go through. *)
Inductive Moment : Type :=
| Arrive (roundId multiplier walletAddress : value)
| Return (k : nat) (env : Reads)
| Balance (k : nat) (balance : option Z)
| Prepare
| Begin
| Turn.

Definition remove {A : Type} (k : nat) (l : list A) : list A :=
  firstn k l ++ skipn (S k) l.

(** the requests' part of a state; the loop is where it was *)
Definition handled (s : Stream) (store' : Store) (answers : list Sent)
    (pending' : list Request.t) (capping' : list (Request.t * number))
    : Stream :=
  {| store := store'; sent := sent s ++ answers; pending := pending';
     capping := capping'; phase := phase s; position := position s;
     ahead := ahead s |}.

Definition moment (s : Stream) (m : Moment) : Stream :=
  match m with
  | Arrive r multiplier walletAddress =>
      match checkRequest (store s) r multiplier walletAddress with
      | Thrown => s
      | Answered e => handled s (store s) [Answer (Rejected e)] (pending s) (capping s)
      | Passed roundIdNum =>
          handled s (store s) []
            (pending s ++ [ {| Request.roundId := r;
                               Request.roundIdNum := roundIdNum;
                               Request.multiplier := multiplier;
                               Request.walletAddress := walletAddress |} ])
            (capping s)
      end
  | Return k env =>
      match nth_error (pending s) k with
      | Some q =>
          match recordRequest (store s) env (Request.roundIdNum q)
                  (Request.multiplier q) (Request.walletAddress q) with
          | (store', Refused e) =>
              handled s store' [Answer (Rejected e)] (remove k (pending s)) (capping s)
          | (store', Written payout) =>
              handled s store' [] (remove k (pending s)) (capping s ++ [(q, payout)])
          end
      | None => s
      end
  | Balance k balance =>
      match nth_error (capping s) k with
      | Some (q, payout) =>
          handled s (store s)
            (List.map Answer
               (confirm (Request.roundId q) (Request.multiplier q)
                  (capPayout balance payout)))
            (pending s) (remove k (capping s))
      | None => s
      end
  | Prepare =>
      match phase s with
      | Waiting => proceed s (store s) [Status "prepared"] Prepared 0 (ahead s)
      | _ => s
      end
  | Begin =>
      match phase s with
      | Prepared => start s
      | _ => s
      end
  | Turn =>
      match phase s with
      | Looping => iterate s
      | _ => s
      end
  end.

Definition unfold (store : Store) (moments : list Moment) : Stream :=
  fold_left moment moments (opened store).

End Round.

(** the records of a round *)
Definition cashOutsOf (store : Store) (roundId : Z) : list CashOut :=
  default [] (activeCashOuts store !! roundId).

(** the key a wallet is compared by *)
Definition walletKey (co : CashOut) : string := toLowerCase (walletAddress co).

Section Answers.

Variable parseInt : string -> number.

(** the multipliers of the confirmations sent for a round, oldest first *)
Definition confirmed (roundId : Z) (sent : list Sent) : list value :=
  flat_map (fun x =>
              match x with
              | Answer (Accepted r m _) =>
                  if bool_decide (keyOf (roundIdNumOf parseInt r) = Some roundId)
                  then [m] else []
              | _ => []
              end) sent.

End Answers.

(** a finite Number from 1 to the final multiplier *)
Definition within (finalMultiplier m : number) : Prop :=
  finite m /\ (1 <= val m)%Q /\ (val m <= val finalMultiplier)%Q.

(** the multipliers of the recorded requests of a round that still wait for
    the balance *)
Definition awaited (roundId : Z) (capping : list (Request.t * number)) : list value :=
  flat_map (fun x => if (Request.roundIdNum (fst x) =? roundId)%Z
                     then [Request.multiplier (fst x)] else []) capping.

End Streaming.

(** * crash-game-server.ts: the cash-outs of a round, sent to the chain *)

Module Settlement.
Import Contract CrashGame.

Section Chain.

Context {T E : Type} `{IERC20 T} `{IEntropyV2 E}.

Variable self : address.
Variable keccak256 : list byte -> list byte.
Variable entropyAddress : address.

(** the address an accepted wallet string denotes *)
Variable addressOf : string -> address.

(** one [processCashOuts] transaction: its batch, the storage it met and
    what came of it *)
Record Attempt : Type := {
  batch : list CashOut;
  met : World T E;
  outcome : result (World T E)
}.

(** [await contract.processCashOuts(roundId, batch); await processTx.wait()]
    for every batch in turn: one transaction each, mined before the next is
    sent.  [others] holds what else the chain goes through ahead of each of
    them.  A transaction that reverts rejects the awaited promise, and the
    exception leaves the loop. *)
Fixpoint submitBatches (w : World T E) (sender : address) (roundId : Z)
    (batches : list (list CashOut)) (others : list (list (Step T E)))
    : list Attempt * World T E :=
  match batches with
  | [] => ([], w)
  | b :: rest =>
      let w1 := run self keccak256 entropyAddress w (hd [] others) in
      match exec self keccak256 entropyAddress w1 sender (ProcessCashOuts roundId b) with
      | Success w2 =>
          let '(attempts, final) := submitBatches w2 sender roundId rest (tl others) in
          ({| batch := b; met := w1; outcome := Success w2 |} :: attempts, final)
      | Revert e => ([ {| batch := b; met := w1; outcome := Revert e |} ], w1)
      end
  end.

(** step 9 of [runGame]: the transactions sent and the storage after; None
    when the conversion of the records throws *)
Definition processRoundCashOuts (w : World T E) (sender : address) (roundId : Z)
    (cashOuts : list Server.CashOut) (others : list (list (Step T E)))
    : option (list Attempt * World T E) :=
  if (0 <? List.length cashOuts)%nat then
    match Server.toCashOutData addressOf cashOuts with
    | Some cashOutData =>
        Some (submitBatches w sender roundId
                (Server.batchLoop (List.length cashOutData) 0 cashOutData) others)
    | None => None
    end
  else Some ([], w).

(** ** what is stated of the transactions *)

Definition succeeded (a : Attempt) : Prop := exists w', outcome a = Success w'.

(** the storage a transaction leaves: what it met, when it reverts *)
Definition left (a : Attempt) : World T E :=
  match outcome a with
  | Success w' => w'
  | Revert _ => met a
  end.

(** transactions sent one after the other from [w]: each meets the storage
    the one before it left, moved on by the steps [others] has for it, and
    carries what the contract answers on that storage *)
Fixpoint chained (w : World T E) (sender : address) (roundId : Z)
    (others : list (list (Step T E))) (attempts : list Attempt) : Prop :=
  match attempts with
  | [] => True
  | a :: rest =>
      met a = run self keccak256 entropyAddress w (hd [] others) /\
      outcome a
      = exec self keccak256 entropyAddress (met a) sender
          (ProcessCashOuts roundId (batch a)) /\
      chained (left a) sender roundId (tl others) rest
  end.

End Chain.

Arguments batch {T E} a.
Arguments met {T E} a.
Arguments outcome {T E} a.

End Settlement.

(** a round of sixteen players, each with a bet of 1 token and a cash-out at
    1.50x, settled at 2.00x *)
Module SampleSettlement.
Import Contract CrashGame SampleWorld.

Definition players : list address := List.map Z.of_nat (seq 101 16).

Definition wallets : list string :=
  [ "0x65"; "0x66"; "0x67"; "0x68"; "0x69"; "0x6a"; "0x6b"; "0x6c";
    "0x6d"; "0x6e"; "0x6f"; "0x70"; "0x71"; "0x72"; "0x73"; "0x74" ]%string.

(** the account a wallet string names *)
Definition addressOf (s : string) : address := BigInt_of_hex (Viem.hexToBytes s).

Definition funded : ledger :=
  fold_right (fun p l => <[p := (5 * 10 ^ 18)%Z]> l) ∅ players.

Definition round : list (Step ledger sequencer) :=
  opening ++ delivery
  ++ List.map (fun p => Tx p (PlaceBet 1 (10 ^ 18))) players
  ++ closing.

Definition settled : World ledger sequencer :=
  run self Sample.hash pyth (constructor self (7%Z : sequencer) house funded) round.

Definition records : list Server.CashOut :=
  List.map (fun s => {| Server.walletAddress := s;
                        Server.multiplier := Js.JNumber (lit (3 # 2));
                        Server.timestamp := lit 1;
                        Server.verified := true |}) wallets.

(** the records in the contract's format *)
Definition cashOutData : list CashOut :=
  List.map (fun p => {| wallet := p; multiplier := (15 * 10 ^ 17)%Z |}) players.

(** whether a transaction went through *)
Definition wentThrough (a : Settlement.Attempt (T := ledger) (E := sequencer)) : bool :=
  match Settlement.outcome a with
  | Success _ => true
  | Revert _ => false
  end.

(** the operator withdraws the pool between the two transactions *)
Definition drained : list (list (Step ledger sequencer)) :=
  [ []; [ Tx house WithdrawHouseEdge ] ].

(** the operator hands over before the first transaction *)
Definition handedOver : list (list (Step ledger sequencer)) :=
  [ [ Tx house (SetOperator 2%Z) ] ].

End SampleSettlement.

(** a round at the server's tick interval, messages that reach the server
    while round 5 is streamed, and reads of a round whose entropy value
    comes in late *)
Module SampleStream.
Import Streaming.

Definition paced : GameInput :=
  {| roundId := lit 1; vrfRandom := 7; serverSeed := "seed"; chainId := lit 10143;
     startTimestamp := "0"; tickIntervalMs := lit 100 |}.

Definition requests : list Moment :=
  [ Arrive (Js.JNumber (lit 5)) (Js.JNumber (lit 1)) (Js.JString "0xAbC");
    Prepare; Begin;
    Arrive (Js.JNumber (lit 5)) (Js.JNumber (lit 1)) (Js.JString "0xAbC");
    Arrive (Js.JString "5") (Js.JNumber (lit 1)) (Js.JString "0xABC");
    Return 0 SampleServer.env; Turn;
    Return 0 SampleServer.env; Balance 0 (Some (10 ^ 21)%Z); Turn ].


Definition late (k : nat) : option Z :=
  if (k <? 2)%nat then None else if (k <? 4)%nat then Some 0%Z else Some 7%Z.

End SampleStream.

(** * crash-game-server.ts: the lists kept for clients that connect *)

Module Lobby.

Record RecentRound : Type := {
  roundId : Z;
  multiplier : number
}.

Record ChatMessage : Type := {
  id : string;
  user : string;
  address : string;
  message : string;
  timestamp : number
}.

Definition MAX_CHAT_MESSAGES : nat := 4.

(** [recentRounds.push(...)] and the [shift()] that follows it in [runGame] *)
Definition pushRecentRound (recentRounds : list RecentRound) (result : RecentRound)
    : list RecentRound :=
  let recentRounds := recentRounds ++ [result] in
  if (6 <? List.length recentRounds)%nat then tl recentRounds else recentRounds.

(** [chatMessages.push(chatMessage)] and the [shift()] that follows it in the
    message handler *)
Definition pushChatMessage (chatMessages : list ChatMessage) (chatMessage : ChatMessage)
    : list ChatMessage :=
  let chatMessages := chatMessages ++ [chatMessage] in
  if (MAX_CHAT_MESSAGES <? List.length chatMessages)%nat
  then tl chatMessages else chatMessages.

(** [chatMessages.slice(-MAX_CHAT_MESSAGES)], as sent in a state snapshot *)
Definition recentChatMessages (chatMessages : list ChatMessage) : list ChatMessage :=
  skipn (List.length chatMessages - MAX_CHAT_MESSAGES) chatMessages.

End Lobby.

(** * Part III: the theory *)

Module NumberFacts.
Local Open Scope Q_scope.

Lemma pow2_pos k : 0 < pow2 k.
Proof. unfold pow2. apply Qpower_0_lt. reflexivity. Qed.

Lemma pow2_add a b : pow2 (a + b) == pow2 a * pow2 b.
Proof. unfold pow2. apply Qpower_plus. discriminate. Qed.

Lemma pow2_succ a : pow2 (a + 1) == 2 * pow2 a.
Proof. rewrite pow2_add. unfold pow2 at 2. simpl. lra. Qed.

Lemma pow2_le a b : (a <= b)%Z -> pow2 a <= pow2 b.
Proof. intros H. unfold pow2. apply Qpower_le_compat_l; [exact H | discriminate]. Qed.

Lemma pow2_lt a b : (a < b)%Z -> pow2 a < pow2 b.
Proof.
  intros H. apply Qlt_le_trans with (pow2 (a + 1)).
  - rewrite pow2_succ. pose proof (pow2_pos a). lra.
  - apply pow2_le. lia.
Qed.

Lemma pow2_inject n : (0 <= n)%Z -> pow2 n == inject_Z (2 ^ n).
Proof. intros H. unfold pow2. rewrite Zpower_Qpower by exact H. reflexivity. Qed.

Lemma pow2_sub a b : pow2 (a - b) == pow2 a / pow2 b.
Proof.
  assert (H : pow2 a == pow2 (a - b) * pow2 b).
  { rewrite <- pow2_add. replace (a - b + b)%Z with a by lia. reflexivity. }
  pose proof (pow2_pos b). rewrite H. field. lra.
Qed.

Lemma Qfrac_lt (a b c d : Z) :
  (0 < b)%Z -> (0 < d)%Z -> (a * d < c * b)%Z ->
  inject_Z a / inject_Z b < inject_Z c / inject_Z d.
Proof.
  intros Hb Hd H.
  apply Qlt_shift_div_l; [rewrite Zlt_Qlt in Hd; exact Hd|].
  assert (E : inject_Z a / inject_Z b * inject_Z d == (inject_Z a * inject_Z d) / inject_Z b).
  { field. intro K. rewrite Zlt_Qlt in Hb. rewrite K in Hb. discriminate. }
  rewrite E. apply Qlt_shift_div_r; [rewrite Zlt_Qlt in Hb; exact Hb|].
  rewrite <- !inject_Z_mult. rewrite <- Zlt_Qlt. exact H.
Qed.

Lemma Qfrac_le (a b c d : Z) :
  (0 < b)%Z -> (0 < d)%Z -> (a * d <= c * b)%Z ->
  inject_Z a / inject_Z b <= inject_Z c / inject_Z d.
Proof.
  intros Hb Hd H.
  apply Qle_shift_div_l; [rewrite Zlt_Qlt in Hd; exact Hd|].
  assert (E : inject_Z a / inject_Z b * inject_Z d == (inject_Z a * inject_Z d) / inject_Z b).
  { field. intro K. rewrite Zlt_Qlt in Hb. rewrite K in Hb. discriminate. }
  rewrite E. apply Qle_shift_div_r; [rewrite Zlt_Qlt in Hb; exact Hb|].
  rewrite <- !inject_Z_mult. rewrite <- Zle_Qle. exact H.
Qed.

Lemma ilog2_raw (x : Q) :
  0 < x ->
  let e0 := (Z.log2 (Qnum x) - Z.log2 (Zpos (Qden x)))%Z in
  pow2 (e0 - 1) <= x /\ x < pow2 (e0 + 1).
Proof.
  destruct x as [n d]. intros Hx e0. subst e0. simpl Qnum. simpl Qden.
  assert (Hn : (0 < n)%Z).
  { unfold Qlt in Hx. simpl in Hx. lia. }
  pose proof (Z.log2_spec n Hn) as [Ha1 Ha2].
  pose proof (Z.log2_spec (Zpos d) (Pos2Z.is_pos d)) as [Hb1 Hb2].
  pose proof (Z.log2_nonneg n) as Ha0.
  pose proof (Z.log2_nonneg (Zpos d)) as Hb0.
  set (a := Z.log2 n) in *. set (b := Z.log2 (Zpos d)) in *.
  assert (P2 : forall k, (0 <= k)%Z -> (0 < 2 ^ k)%Z) by (intros; apply Z.pow_pos_nonneg; lia).
  rewrite (Qmake_Qdiv n d).
  split.
  - replace (a - b - 1)%Z with (a - (b + 1))%Z by lia.
    rewrite pow2_sub, !pow2_inject by lia.
    apply Qfrac_le; [apply P2; lia | lia |].
    replace (Z.succ b) with (b + 1)%Z in Hb2 by lia.
    pose proof (P2 a Ha0). nia.
  - replace (a - b + 1)%Z with ((a + 1) - b)%Z by lia.
    rewrite pow2_sub, !pow2_inject by lia.
    apply Qfrac_lt; [lia | apply P2; lia |].
    replace (Z.succ a) with (a + 1)%Z in Ha2 by lia.
    pose proof (P2 b Hb0). nia.
Qed.

Lemma ilog2_spec (x : Q) :
  0 < x -> pow2 (ilog2 x) <= x /\ x < pow2 (ilog2 x + 1).
Proof.
  intros Hx. pose proof (ilog2_raw x Hx) as [H1 H2]. cbv zeta in H1, H2.
  unfold ilog2.
  set (e0 := (Z.log2 (Qnum x) - Z.log2 (Zpos (Qden x)))%Z) in *.
  destruct (Qle_bool (pow2 e0) x) eqn:E.
  - apply Qle_bool_iff in E. split; assumption.
  - split; [exact H1|].
    replace (e0 - 1 + 1)%Z with e0 by lia.
    apply Qnot_le_lt. intro K. apply Qle_bool_iff in K. congruence.
Qed.

Lemma ilog2_unique (x : Q) (e : Z) :
  pow2 e <= x -> x < pow2 (e + 1) -> ilog2 x = e.
Proof.
  intros H1 H2.
  assert (Hx : 0 < x) by (pose proof (pow2_pos e); lra).
  destruct (ilog2_spec x Hx) as [K1 K2].
  destruct (Z.lt_trichotomy (ilog2 x) e) as [L | [L | L]]; [|exact L|].
  - assert (pow2 (ilog2 x + 1) <= pow2 e) by (apply pow2_le; lia). lra.
  - assert (pow2 (e + 1) <= pow2 (ilog2 x)) by (apply pow2_le; lia). lra.
Qed.

Lemma ilog2_mono (x y : Q) : 0 < x -> x <= y -> (ilog2 x <= ilog2 y)%Z.
Proof.
  intros Hx Hxy.
  destruct (ilog2_spec x Hx) as [K1 K2].
  destruct (ilog2_spec y) as [L1 L2]; [lra|].
  destruct (Z_le_gt_dec (ilog2 x) (ilog2 y)) as [ok | bad]; [exact ok|].
  assert (pow2 (ilog2 y + 1) <= pow2 (ilog2 x)) by (apply pow2_le; lia). lra.
Qed.

Lemma ilog2_compat (x y : Q) : 0 < x -> x == y -> ilog2 x = ilog2 y.
Proof.
  intros Hx E. apply ilog2_unique.
  - destruct (ilog2_spec y) as [L1 L2]; [lra|]. lra.
  - destruct (ilog2_spec y) as [L1 L2]; [lra|]. lra.
Qed.

Lemma RNE_compat (t t' : Q) : t == t' -> RNE t = RNE t'.
Proof.
  intros E. unfold RNE.
  assert (F : Qfloor t = Qfloor t') by (rewrite E; reflexivity).
  rewrite F.
  assert (C : Qcompare (t - inject_Z (Qfloor t')) (1 # 2)
            = Qcompare (t' - inject_Z (Qfloor t')) (1 # 2)).
  { rewrite E. reflexivity. }
  rewrite C. reflexivity.
Qed.

Lemma RNE_cases (t : Q) :
  let f := Qfloor t in
  (RNE t = f /\ t - inject_Z f <= 1 # 2) \/
  (RNE t = (f + 1)%Z /\ 1 # 2 <= t - inject_Z f).
Proof.
  intros f. unfold RNE. fold f.
  destruct (Qcompare (t - inject_Z f) (1 # 2)) eqn:C.
  - apply Qeq_alt in C. destruct (Z.even f); [left | right]; split; auto; lra.
  - apply Qlt_alt in C. left. split; auto. lra.
  - apply Qgt_alt in C. right. split; auto. lra.
Qed.

Lemma Qfloor_frac (t : Q) :
  0 <= t - inject_Z (Qfloor t) /\ t - inject_Z (Qfloor t) < 1.
Proof.
  pose proof (Qfloor_le t). pose proof (Qlt_floor t) as L.
  rewrite inject_Z_plus in L. change (inject_Z 1) with 1 in L. lra.
Qed.

Lemma RNE_near (t : Q) :
  inject_Z (RNE t) - (1 # 2) <= t /\ t <= inject_Z (RNE t) + (1 # 2).
Proof.
  pose proof (Qfloor_frac t) as [F0 F1].
  destruct (RNE_cases t) as [[E H] | [E H]]; rewrite E.
  - lra.
  - rewrite inject_Z_plus. change (inject_Z 1) with 1. lra.
Qed.

Lemma RNE_Z (z : Z) : RNE (inject_Z z) = z.
Proof.
  unfold RNE. rewrite Qfloor_Z.
  assert (C : Qcompare (inject_Z z - inject_Z z) (1 # 2) = Lt).
  { apply (proj1 (Qlt_alt _ _)). lra. }
  rewrite C. reflexivity.
Qed.

Lemma RNE_mono (t t' : Q) : t <= t' -> (RNE t <= RNE t')%Z.
Proof.
  intros H.
  pose proof (Qfloor_resp_le _ _ H) as Hf.
  pose proof (Qfloor_frac t) as [F0 F1].
  pose proof (Qfloor_frac t') as [G0 G1].
  destruct (Z.eq_dec (Qfloor t) (Qfloor t')) as [E | NE].
  - unfold RNE. rewrite <- E. rewrite <- E in G0, G1.
    destruct (Qcompare (t - inject_Z (Qfloor t)) (1 # 2)) eqn:C;
      [apply Qeq_alt in C | apply Qlt_alt in C | apply Qgt_alt in C];
      (destruct (Qcompare (t' - inject_Z (Qfloor t)) (1 # 2)) eqn:C';
       [apply Qeq_alt in C' | apply Qlt_alt in C' | apply Qgt_alt in C']);
      try (exfalso; lra); destruct (Z.even (Qfloor t)); lia.
  - destruct (RNE_cases t) as [[E1 _] | [E1 _]];
      destruct (RNE_cases t') as [[E2 _] | [E2 _]]; lia.
Qed.

Lemma RNE_ge_Z (n : Z) (t : Q) : inject_Z n <= t -> (n <= RNE t)%Z.
Proof. intros H. rewrite <- (RNE_Z n). apply RNE_mono. exact H. Qed.

Lemma RNE_le_Z (n : Z) (t : Q) : t <= inject_Z n -> (RNE t <= n)%Z.
Proof. intros H. rewrite <- (RNE_Z n). apply RNE_mono. exact H. Qed.

Lemma scale_compat x y : 0 < x -> x == y -> scale x = scale y.
Proof. intros H E. unfold scale. rewrite (ilog2_compat x y H E). reflexivity. Qed.

Lemma rnd_val_compat x y : 0 < x -> x == y -> rnd_val x == rnd_val y.
Proof.
  intros H E. unfold rnd_val. rewrite (scale_compat x y H E).
  rewrite (RNE_compat (x / pow2 (scale y)) (y / pow2 (scale y))).
  - reflexivity.
  - rewrite E. reflexivity.
Qed.

Lemma rnd_val_nonneg x : 0 < x -> 0 <= rnd_val x.
Proof.
  intros H. unfold rnd_val.
  pose proof (pow2_pos (scale x)) as P.
  assert (0 <= x / pow2 (scale x)).
  { apply Qle_shift_div_l; [exact P | lra]. }
  assert (Z : (0 <= RNE (x / pow2 (scale x)))%Z) by (apply RNE_ge_Z; exact H0).
  rewrite Zle_Qle in Z. apply Qmult_le_0_compat; [exact Z | lra].
Qed.

Lemma scale_mono x y : 0 < x -> x <= y -> (scale x <= scale y)%Z.
Proof. intros H L. unfold scale. pose proof (ilog2_mono x y H L). lia. Qed.

Lemma rnd_val_mono x y : 0 < x -> x <= y -> rnd_val x <= rnd_val y.
Proof.
  intros Hx Hxy.
  assert (Hy : 0 < y) by lra.
  pose proof (scale_mono x y Hx Hxy) as Hk.
  pose proof (pow2_pos (scale x)) as Px.
  pose proof (pow2_pos (scale y)) as Py.
  destruct (Z.eq_dec (scale x) (scale y)) as [E | NE].
  - unfold rnd_val. rewrite E.
    apply Qmult_le_compat_r; [|lra].
    rewrite <- Zle_Qle. apply RNE_mono.
    apply Qmult_le_compat_r; [exact Hxy|].
    apply Qlt_le_weak, Qinv_lt_0_compat, Py.
  - destruct (ilog2_spec x Hx) as [X1 X2].
    destruct (ilog2_spec y Hy) as [Y1 Y2].
    assert (Ky : scale y = (ilog2 y - 52)%Z) by (unfold scale in *; lia).
    assert (Kx : (ilog2 x - 52 <= scale x)%Z) by (unfold scale; lia).
    set (j := Z.max (ilog2 x + 1 - scale x) 0).
    apply Qle_trans with (pow2 (j + scale x)).
    + unfold rnd_val. rewrite pow2_add.
      apply Qmult_le_compat_r; [|lra].
      assert (J : (0 <= j)%Z) by (unfold j; lia).
      rewrite (pow2_inject j J).
      rewrite <- Zle_Qle. apply RNE_le_Z.
      rewrite <- (pow2_inject j J).
      apply Qle_shift_div_r; [exact Px|].
      rewrite <- pow2_add.
      apply Qle_trans with (pow2 (ilog2 x + 1)); [lra|].
      apply pow2_le. unfold j. lia.
    + apply Qle_trans with (pow2 (ilog2 y)).
      * apply pow2_le. unfold j. lia.
      * unfold rnd_val.
        assert (S : pow2 (ilog2 y) == pow2 52 * pow2 (scale y)).
        { rewrite <- pow2_add. rewrite Ky. replace (52 + (ilog2 y - 52))%Z with (ilog2 y) by lia. reflexivity. }
        rewrite S. apply Qmult_le_compat_r; [|lra].
        assert (J : (0 <= 52)%Z) by lia.
        rewrite (pow2_inject 52 J).
        rewrite <- Zle_Qle. apply RNE_ge_Z.
        rewrite <- (pow2_inject 52 J).
        apply Qle_shift_div_l; [exact Py|]. rewrite <- S. exact Y1.
Qed.

Lemma mk_val q : this (mk q) == q.
Proof. unfold mk. simpl. rewrite !Qred_correct. reflexivity. Qed.

Lemma mk_compat q q' : q == q' -> mk q = mk q'.
Proof.
  intros E. unfold mk. apply Qc_is_canon. simpl.
  rewrite !Qred_correct. exact E.
Qed.

Lemma val_Fin_mk q : val (Fin (mk q)) == q.
Proof. simpl. apply mk_val. Qed.

Lemma overflows_true x : overflows x = true <-> pow2 1024 <= rnd_val x.
Proof. unfold overflows. apply Qle_bool_iff. Qed.

Lemma overflows_false x : overflows x = false <-> rnd_val x < pow2 1024.
Proof.
  unfold overflows. split.
  - intros B. apply Qnot_le_lt. intro K. apply Qle_bool_iff in K. congruence.
  - intros L. destruct (Qle_bool (pow2 1024) (rnd_val x)) eqn:B; [|reflexivity].
    apply Qle_bool_iff in B. lra.
Qed.

Lemma overflows_compat x y : 0 < x -> x == y -> overflows x = overflows y.
Proof.
  intros H E. unfold overflows. rewrite (rnd_val_compat x y H E). reflexivity.
Qed.

Lemma rnd_case_pos x :
  0 < x ->
  (rnd x = PInf /\ pow2 1024 <= rnd_val x) \/
  (rnd x = Fin (mk (rnd_val x)) /\ rnd_val x < pow2 1024).
Proof.
  intros H. unfold rnd.
  assert (C : Qcompare x 0 = Gt) by (apply (proj1 (Qgt_alt _ _)); exact H).
  rewrite C.
  destruct (overflows x) eqn:B.
  - left. split; [reflexivity|]. apply overflows_true. exact B.
  - right. split; [reflexivity|]. apply overflows_false. exact B.
Qed.

Lemma rnd_case_neg x :
  x < 0 ->
  (rnd x = NInf /\ pow2 1024 <= rnd_val (- x)) \/
  (finite (rnd x) /\ val (rnd x) == - rnd_val (- x) /\ rnd_val (- x) < pow2 1024).
Proof.
  intros H. unfold rnd.
  assert (C : Qcompare x 0 = Lt) by (apply (proj1 (Qlt_alt _ _)); exact H).
  rewrite C.
  destruct (overflows (- x)) eqn:B.
  - left. split; [reflexivity|]. apply overflows_true. exact B.
  - right. apply overflows_false in B.
    destruct (Qeq_bool (rnd_val (- x)) 0) eqn:Z.
    + apply Qeq_bool_iff in Z. simpl. split; [exact I|]. split; [|exact B]. lra.
    + split; [exact I|]. split; [|exact B]. apply val_Fin_mk.
Qed.

Lemma rnd_zero x : x == 0 -> rnd x = Fin (mk 0).
Proof.
  intros H. unfold rnd.
  assert (C : Qcompare x 0 = Eq) by (apply (proj1 (Qeq_alt _ _)); exact H).
  rewrite C. reflexivity.
Qed.

Lemma rnd_compat x y : x == y -> rnd x = rnd y.
Proof.
  intros E. unfold rnd.
  assert (C : Qcompare x 0 = Qcompare y 0) by (rewrite E; reflexivity).
  rewrite <- C.
  destruct (Qcompare x 0) eqn:K.
  - reflexivity.
  - apply Qlt_alt in K.
    assert (E' : - x == - y) by (rewrite E; reflexivity).
    assert (P : 0 < - x) by lra.
    rewrite (overflows_compat _ _ P E').
    pose proof (rnd_val_compat _ _ P E') as V.
    assert (Z : Qeq_bool (rnd_val (- x)) 0 = Qeq_bool (rnd_val (- y)) 0).
    { rewrite V. reflexivity. }
    rewrite Z.
    rewrite (mk_compat (- rnd_val (- x)) (- rnd_val (- y))); [reflexivity|].
    rewrite V. reflexivity.
  - apply Qgt_alt in K.
    rewrite (overflows_compat _ _ K E).
    rewrite (mk_compat _ _ (rnd_val_compat _ _ K E)). reflexivity.
Qed.

Lemma rnd_mono x y : x <= y -> nle (rnd x) (rnd y).
Proof.
  intros H.
  destruct (Q_dec x 0) as [[Xn | Xp] | X0]; destruct (Q_dec y 0) as [[Yn | Yp] | Y0];
    try (exfalso; lra).
  - pose proof (rnd_val_mono (- y) (- x) ltac:(lra) ltac:(lra)) as M.
    destruct (rnd_case_neg x Xn) as [[Ex Bx] | [Fx [Vx Bx]]];
      destruct (rnd_case_neg y Yn) as [[Ey By] | [Fy [Vy By]]].
    + rewrite Ex, Ey. exact I.
    + rewrite Ex. destruct (rnd y); cbn [nle val finite] in *; tauto.
    + exfalso. lra.
    + destruct (rnd x), (rnd y); cbn [nle val finite] in *; try tauto; lra.
  - pose proof (rnd_val_nonneg y Yp) as Ny.
    pose proof (rnd_val_nonneg (- x) ltac:(lra)) as Nx.
    destruct (rnd_case_neg x Xn) as [[Ex Bx] | [Fx [Vx Bx]]];
      destruct (rnd_case_pos y Yp) as [[Ey By] | [Ey By]]; rewrite ?Ex, ?Ey; cbn [nle val finite]; auto.
    + destruct (rnd x); cbn [nle val finite] in *; tauto.
    + pose proof (mk_val (rnd_val y)). destruct (rnd x); cbn [nle val finite] in *; try tauto; lra.
  - rewrite (rnd_zero y Y0).
    pose proof (rnd_val_nonneg (- x) ltac:(lra)) as Nx.
    pose proof (mk_val 0).
    destruct (rnd_case_neg x Xn) as [[Ex Bx] | [Fx [Vx Bx]]]; rewrite ?Ex; cbn [nle val finite]; auto.
    destruct (rnd x); cbn [nle val finite] in *; try tauto; lra.
  - pose proof (rnd_val_mono x y Xp H) as M.
    pose proof (mk_val (rnd_val x)). pose proof (mk_val (rnd_val y)).
    destruct (rnd_case_pos x Xp) as [[Ex Bx] | [Ex Bx]];
      destruct (rnd_case_pos y Yp) as [[Ey By] | [Ey By]]; rewrite ?Ex, ?Ey; cbn [nle val]; auto; lra.
  - rewrite (rnd_zero x X0).
    pose proof (rnd_val_nonneg y Yp) as Ny.
    pose proof (mk_val (rnd_val y)). pose proof (mk_val 0).
    destruct (rnd_case_pos y Yp) as [[Ey By] | [Ey By]]; rewrite ?Ey; cbn [nle val finite]; auto. lra.
  - rewrite (rnd_zero x X0), (rnd_zero y Y0). cbn [nle val finite]. lra.
Qed.

Lemma rnd_not_nan x : rnd x <> NaN.
Proof.
  destruct (Q_dec x 0) as [[Xn | Xp] | X0].
  - destruct (rnd_case_neg x Xn) as [[E _] | [F _]]; [congruence|]. intro K. rewrite K in F. exact F.
  - destruct (rnd_case_pos x Xp) as [[E _] | [E _]]; congruence.
  - rewrite (rnd_zero x X0). discriminate.
Qed.

Lemma rnd_inQ L U s : repr L -> repr U -> L <= s -> s <= U -> inQ L U (rnd s).
Proof.
  intros RL RU H1 H2.
  pose proof (rnd_mono L s H1) as M1. pose proof (rnd_mono s U H2) as M2.
  rewrite RL in M1. rewrite RU in M2.
  pose proof (mk_val L). pose proof (mk_val U).
  unfold inQ. destruct (rnd s); cbn [nle val finite] in *; try tauto; repeat split; lra.
Qed.

(** same extended-real value (the two zeros are identified) *)
Definition veq (a b : number) : Prop :=
  match a, b with
  | NaN, NaN | NInf, NInf | PInf, PInf => True
  | NZero, NZero | NZero, Fin _ | Fin _, NZero | Fin _, Fin _ => val a == val b
  | _, _ => False
  end.

Lemma veq_refl a : veq a a.
Proof. destruct a; simpl; auto; reflexivity. Qed.

Lemma veq_finite a b : veq a b -> finite b -> finite a /\ val a == val b.
Proof. destruct a, b; cbn [veq finite val]; intros; try tauto. Qed.

Lemma veq_nle_l a a' b : veq a a' -> nle a' b -> nle a b.
Proof. destruct a, a', b; cbn [veq nle val]; intros; try tauto; lra. Qed.

Lemma veq_nle_r a b b' : veq b b' -> nle a b' -> nle a b.
Proof. destruct a, b, b'; cbn [veq nle val]; intros; try tauto; lra. Qed.

Lemma Qle_bool_false a b : Qle_bool a b = false <-> b < a.
Proof.
  split.
  - intros B. apply Qnot_le_lt. intro K. apply Qle_bool_iff in K. congruence.
  - intros L. destruct (Qle_bool a b) eqn:B; [|reflexivity]. apply Qle_bool_iff in B. lra.
Qed.

Lemma Qeq_bool_false a b : Qeq_bool a b = false <-> ~ a == b.
Proof.
  split.
  - intros B K. apply Qeq_bool_iff in K. congruence.
  - intros N. destruct (Qeq_bool a b) eqn:B; [|reflexivity]. apply Qeq_bool_iff in B. tauto.
Qed.

Lemma flt_fin x y : finite x -> finite y -> (flt x y = true <-> val x < val y).
Proof.
  intros Fx Fy. destruct x, y; cbn [finite] in *; try tauto; cbn [flt val];
    rewrite negb_true_iff, Qle_bool_false; reflexivity.
Qed.

Lemma fle_fin x y : finite x -> finite y -> (fle x y = true <-> val x <= val y).
Proof.
  intros Fx Fy. destruct x, y; cbn [finite] in *; try tauto; cbn [fle flt val];
    rewrite negb_involutive, Qle_bool_iff; reflexivity.
Qed.

Lemma fle_nle x y : fle x y = true <-> nle x y.
Proof.
  destruct x, y; cbn [fle flt nle val]; try (split; [discriminate | tauto]);
    try (split; [tauto | reflexivity]); try (split; auto; fail);
    rewrite negb_involutive, Qle_bool_iff; reflexivity.
Qed.

Lemma feq_fin x y : finite x -> finite y -> (feq x y = true <-> val x == val y).
Proof.
  intros Fx Fy. unfold feq. rewrite andb_true_iff, !fle_fin by assumption.
  split; [intros [A B]; lra | intros E; lra].
Qed.

Lemma inQ_finite L U x : inQ L U x -> finite x.
Proof. intros [F _]. exact F. Qed.

Lemma inQ_weaken L U L' U' x : inQ L U x -> L' <= L -> U <= U' -> inQ L' U' x.
Proof. intros [F [A B]] H1 H2. repeat split; [exact F | lra | lra]. Qed.

Lemma is_zero_fin x : finite x -> (is_zero x = true <-> val x == 0).
Proof.
  destruct x; cbn [finite is_zero val]; try tauto.
  - intros _. split; [reflexivity | reflexivity].
  - intros _. apply Qeq_bool_iff.
Qed.

Lemma is_zero_fin_false x : finite x -> (is_zero x = false <-> ~ val x == 0).
Proof.
  intros F. rewrite <- (is_zero_fin x F). destruct (is_zero x); split; congruence.
Qed.

Lemma finite_not_inf x : finite x -> is_inf x = false.
Proof. destruct x; cbn; tauto. Qed.

Lemma zero_of_veq s : veq (zero_of s) (Fin (mk 0)).
Proof. destruct s; cbn [zero_of veq val]; [rewrite mk_val|]; reflexivity. Qed.

Lemma fneg_fin x : finite x -> finite (fneg x) /\ val (fneg x) == - val x.
Proof.
  destruct x; cbn [finite fneg val]; try tauto; intros _.
  - split; [exact I|]. rewrite mk_val. reflexivity.
  - destruct (Qeq_bool q 0) eqn:Z.
    + apply Qeq_bool_iff in Z. cbn [finite val]. split; [exact I|]. lra.
    + cbn [finite val]. split; [exact I|]. apply mk_val.
Qed.

Lemma fadd_veq x y : finite x -> finite y -> veq (fadd x y) (rnd (val x + val y)).
Proof.
  intros Fx Fy. destruct x, y; cbn [finite] in *; try contradiction; cbn [fadd];
    apply veq_refl.
Qed.

Lemma fsub_veq x y : finite x -> finite y -> veq (fsub x y) (rnd (val x - val y)).
Proof.
  intros Fx Fy. destruct (fneg_fin y Fy) as [Fn Vn]. unfold fsub.
  rewrite (rnd_compat (val x - val y) (val x + val (fneg y))) by (rewrite Vn; reflexivity).
  apply fadd_veq; assumption.
Qed.

Lemma fmul_fin_eq x y :
  finite x -> finite y ->
  fmul x y = if is_zero x || is_zero y then zero_of (xorb (sign x) (sign y))
             else rnd (val x * val y).
Proof. intros Fx Fy. destruct x, y; cbn [finite] in *; try contradiction; reflexivity. Qed.

Lemma fmul_veq x y : finite x -> finite y -> veq (fmul x y) (rnd (val x * val y)).
Proof.
  intros Fx Fy. rewrite (fmul_fin_eq x y Fx Fy).
  destruct (is_zero x || is_zero y) eqn:Z; [|apply veq_refl].
  assert (P : val x * val y == 0).
  { apply orb_true_iff in Z. destruct Z as [Z | Z]; apply is_zero_fin in Z; try assumption;
      rewrite Z; ring. }
  rewrite (rnd_zero _ P). apply zero_of_veq.
Qed.

Lemma fdiv_fin_eq x y :
  finite x -> finite y -> is_zero y = false ->
  fdiv x y = if is_zero x then zero_of (xorb (sign x) (sign y)) else rnd (val x / val y).
Proof.
  intros Fx Fy Zy. destruct x, y; cbn [finite] in *; try contradiction;
    unfold fdiv; cbn [is_inf]; cbv zeta; rewrite Zy; reflexivity.
Qed.

Lemma fdiv_veq x y :
  finite x -> finite y -> ~ val y == 0 -> veq (fdiv x y) (rnd (val x / val y)).
Proof.
  intros Fx Fy Ny.
  assert (Zy : is_zero y = false) by (apply is_zero_fin_false; assumption).
  rewrite (fdiv_fin_eq x y Fx Fy Zy).
  destruct (is_zero x) eqn:Z; [|apply veq_refl].
  apply is_zero_fin in Z; [|assumption].
  assert (P : val x / val y == 0) by (rewrite Z; field; exact Ny).
  rewrite (rnd_zero _ P). apply zero_of_veq.
Qed.

Lemma veq_inQ L U a b : veq a b -> inQ L U b -> inQ L U a.
Proof.
  intros V [F [H1 H2]]. destruct (veq_finite a b V F) as [Fa E].
  repeat split; [exact Fa | lra | lra].
Qed.

Lemma fadd_inQ L U x y :
  finite x -> finite y -> repr L -> repr U ->
  L <= val x + val y -> val x + val y <= U -> inQ L U (fadd x y).
Proof.
  intros. eapply veq_inQ; [apply fadd_veq; assumption | apply rnd_inQ; assumption].
Qed.

Lemma fsub_inQ L U x y :
  finite x -> finite y -> repr L -> repr U ->
  L <= val x - val y -> val x - val y <= U -> inQ L U (fsub x y).
Proof.
  intros. eapply veq_inQ; [apply fsub_veq; assumption | apply rnd_inQ; assumption].
Qed.

Lemma fmul_inQ L U x y :
  finite x -> finite y -> repr L -> repr U ->
  L <= val x * val y -> val x * val y <= U -> inQ L U (fmul x y).
Proof.
  intros. eapply veq_inQ; [apply fmul_veq; assumption | apply rnd_inQ; assumption].
Qed.

Lemma fdiv_inQ L U x y :
  finite x -> finite y -> ~ val y == 0 -> repr L -> repr U ->
  L <= val x / val y -> val x / val y <= U -> inQ L U (fdiv x y).
Proof.
  intros. eapply veq_inQ; [apply fdiv_veq; assumption | apply rnd_inQ; assumption].
Qed.

(** monotonicity of the rounded operators on finite arguments *)
Lemma nle_fin a b : finite a -> finite b -> (nle a b <-> val a <= val b).
Proof. destruct a, b; cbn [finite nle val]; tauto. Qed.

Lemma fmul_mono x x' c c' :
  finite x -> finite x' -> finite c -> finite c' ->
  val x * val c <= val x' * val c' -> nle (fmul x c) (fmul x' c').
Proof.
  intros Fx Fx' Fc Fc' H.
  eapply veq_nle_l; [apply fmul_veq; assumption|].
  eapply veq_nle_r; [apply fmul_veq; assumption|].
  apply rnd_mono. exact H.
Qed.

Lemma fdiv_mono x x' c c' :
  finite x -> finite x' -> finite c -> finite c' -> ~ val c == 0 -> ~ val c' == 0 ->
  val x / val c <= val x' / val c' -> nle (fdiv x c) (fdiv x' c').
Proof.
  intros Fx Fx' Fc Fc' N N' H.
  eapply veq_nle_l; [apply fdiv_veq; assumption|].
  eapply veq_nle_r; [apply fdiv_veq; assumption|].
  apply rnd_mono. exact H.
Qed.

Lemma Math_round_fin x :
  finite x ->
  finite (Math_round x) /\ val (Math_round x) == inject_Z (Qfloor (val x + (1 # 2))).
Proof.
  destruct x; cbn [finite Math_round val]; try tauto; intros _.
  - split; [exact I|]. reflexivity.
  - destruct (Qfloor (q + (1 # 2)) =? 0)%Z eqn:Z.
    + apply Z.eqb_eq in Z. rewrite Z.
      destruct (negb (Qle_bool 0 q)); cbn [zero_of finite val]; split; auto;
        try rewrite mk_val; reflexivity.
    + cbn [finite val]. split; [exact I|]. apply mk_val.
Qed.

Lemma Math_round_int x z :
  finite x -> Qfloor (val x + (1 # 2)) = z -> z <> 0%Z ->
  Math_round x = Fin (mk (inject_Z z)).
Proof.
  destruct x; cbn [finite Math_round val]; try tauto; intros _ E N.
  - exfalso. apply N. rewrite <- E. reflexivity.
  - rewrite E. apply Z.eqb_neq in N. rewrite N. reflexivity.
Qed.

Lemma Math_floor_fin x :
  finite x -> finite (Math_floor x) /\ val (Math_floor x) == inject_Z (Qfloor (val x)).
Proof.
  destruct x; cbn [finite Math_floor val]; try tauto; intros _.
  - split; [exact I|]. reflexivity.
  - split; [exact I|]. apply mk_val.
Qed.

Lemma Math_ceil_fin x :
  finite x -> finite (Math_ceil x) /\ val (Math_ceil x) == inject_Z (Qceiling (val x)).
Proof.
  destruct x; cbn [finite Math_ceil val]; try tauto; intros _.
  - split; [exact I|]. reflexivity.
  - destruct (Qceiling q =? 0)%Z eqn:Z.
    + apply Z.eqb_eq in Z. rewrite Z.
      destruct (negb (Qle_bool 0 q)); cbn [zero_of finite val]; split; auto;
        try rewrite mk_val; reflexivity.
    + cbn [finite val]. split; [exact I|]. apply mk_val.
Qed.

Lemma not_nan_fin a : finite a -> is_nan a = false.
Proof. destruct a; cbn; tauto. Qed.

Ltac fin_close :=
  repeat split; try assumption; try lra; try (left; lra); try (right; lra).

Lemma Math_min_fin a b :
  finite a -> finite b ->
  finite (Math_min a b) /\ val (Math_min a b) <= val a /\ val (Math_min a b) <= val b /\
  (val (Math_min a b) == val a \/ val (Math_min a b) == val b).
Proof.
  intros Fa Fb. unfold Math_min.
  rewrite (not_nan_fin a Fa), (not_nan_fin b Fb). cbn [orb].
  destruct (flt b a) eqn:L.
  - apply flt_fin in L; try assumption. fin_close.
  - assert (K : val a <= val b).
    { apply Qnot_lt_le. intro K. apply (flt_fin b a Fb Fa) in K. congruence. }
    destruct a, b; cbn [finite] in *; try contradiction; try (fin_close; fail).
    destruct (is_zero (Fin q)) eqn:Z.
    + apply is_zero_fin in Z; [|exact I]. cbn [val finite] in *. fin_close.
    + fin_close.
Qed.

Lemma Math_max_fin a b :
  finite a -> finite b ->
  finite (Math_max a b) /\ val a <= val (Math_max a b) /\ val b <= val (Math_max a b) /\
  (val (Math_max a b) == val a \/ val (Math_max a b) == val b).
Proof.
  intros Fa Fb. unfold Math_max.
  rewrite (not_nan_fin a Fa), (not_nan_fin b Fb). cbn [orb].
  destruct (flt a b) eqn:L.
  - apply flt_fin in L; try assumption. fin_close.
  - assert (K : val b <= val a).
    { apply Qnot_lt_le. intro K. apply (flt_fin a b Fa Fb) in K. congruence. }
    destruct a, b; cbn [finite] in *; try contradiction; try (fin_close; fail).
    destruct (is_zero (Fin q)) eqn:Z.
    + apply is_zero_fin in Z; [|exact I]. cbn [val finite] in *. fin_close.
    + fin_close.
Qed.

(** [Math.min(x, hi)] of any Number but NaN is [-Infinity] or finite, at most [hi] *)
Lemma Math_min_upper x hi :
  finite hi -> x <> NaN ->
  Math_min x hi = NInf \/ (finite (Math_min x hi) /\ val (Math_min x hi) <= val hi).
Proof.
  intros Fh N. destruct x; try congruence.
  - left. destruct hi; cbn [finite] in *; try contradiction; reflexivity.
  - right. destruct hi; cbn [finite] in *; try contradiction;
      unfold Math_min; cbn [is_nan orb flt finite val]; fin_close.
  - right. destruct (Math_min_fin NZero hi I Fh) as [F [_ [B _]]]. split; assumption.
  - right. destruct (Math_min_fin (Fin q) hi I Fh) as [F [_ [B _]]]. split; assumption.
Qed.

(** [Math.max(lo, Math.min(x, hi))] of any Number but NaN lies in [lo, hi] *)
Lemma clamp_inQ lo hi x :
  finite lo -> finite hi -> val lo <= val hi -> x <> NaN ->
  inQ (val lo) (val hi) (Math_max lo (Math_min x hi)).
Proof.
  intros Fl Fh H N.
  destruct (Math_min_upper x hi Fh N) as [E | [F B]].
  - rewrite E. destruct lo; cbn [finite] in *; try contradiction;
      unfold Math_max, inQ; cbn [is_nan orb flt finite val] in *; fin_close.
  - destruct (Math_max_fin lo (Math_min x hi) Fl F) as [Fm [A [_ [C | C]]]];
      repeat split; try assumption; lra.
Qed.

(** relative error of rounding in the normal range *)
Lemma scale_normal x : pow2 (-1022) <= x -> scale x = (ilog2 x - 52)%Z.
Proof.
  intros H. unfold scale.
  assert (P : 0 < pow2 (-1022)) by apply pow2_pos.
  assert (E : ilog2 (pow2 (-1022)) = (-1022)%Z).
  { apply ilog2_unique; [lra|]. apply pow2_lt. lia. }
  pose proof (ilog2_mono _ _ P H). lia.
Qed.

Lemma rnd_val_err x :
  pow2 (-1022) <= x ->
  x * (1 - pow2 (-53)) <= rnd_val x /\ rnd_val x <= x * (1 + pow2 (-53)).
Proof.
  intros H.
  assert (Hx : 0 < x) by (pose proof (pow2_pos (-1022)); lra).
  unfold rnd_val. rewrite (scale_normal x H).
  set (k := (ilog2 x - 52)%Z).
  pose proof (pow2_pos k) as Pk.
  destruct (ilog2_spec x Hx) as [X1 _].
  assert (S : pow2 (ilog2 x) == pow2 k * pow2 52).
  { rewrite <- pow2_add. unfold k. replace (ilog2 x - 52 + 52)%Z with (ilog2 x) by lia. reflexivity. }
  assert (U : pow2 (-53) * pow2 52 == 1 # 2) by reflexivity.
  destruct (RNE_near (x / pow2 k)) as [N1 N2].
  assert (T : x / pow2 k * pow2 k == x) by (field; lra).
  set (r := inject_Z (RNE (x / pow2 k))) in *.
  set (t := x / pow2 k) in *.
  set (u := pow2 (-53)) in *. set (p := pow2 k) in *.
  assert (0 < u) by apply pow2_pos.
  assert (B : p * (1 # 2) <= x * u).
  { rewrite S in X1.
    assert (p * (u * pow2 52) <= x * u) by nra.
    rewrite U in H1. exact H1. }
  split; nra.
Qed.

Lemma ilog2_inject n : (0 < n)%Z -> ilog2 (inject_Z n) = Z.log2 n.
Proof.
  intros H. destruct (Z.log2_spec n H) as [L1 L2].
  pose proof (Z.log2_nonneg n) as L0.
  apply ilog2_unique.
  - rewrite pow2_inject by lia. rewrite <- Zle_Qle. exact L1.
  - rewrite pow2_inject by lia. rewrite <- Zlt_Qlt. lia.
Qed.

Lemma rnd_val_int n : (0 < n <= 2 ^ 53)%Z -> rnd_val (inject_Z n) == inject_Z n.
Proof.
  intros [H1 H2]. unfold rnd_val, scale. rewrite (ilog2_inject n H1).
  pose proof (Z.log2_nonneg n) as L0.
  assert (L53 : (Z.log2 n <= 53)%Z).
  { pose proof (Z.log2_le_mono n (2 ^ 53) H2) as M.
    rewrite Z.log2_pow2 in M by lia. exact M. }
  destruct (Z.log2_spec n H1) as [L1 L2].
  replace (Z.max (Z.log2 n - 52) (-1074)) with (Z.log2 n - 52)%Z by lia.
  set (k := (Z.log2 n - 52)%Z).
  pose proof (pow2_pos k) as Pk.
  destruct (Z_le_gt_dec k 0) as [K0 | K1].
  - (* n * 2^(-k) is an integer *)
    assert (E : inject_Z n / pow2 k == inject_Z (n * 2 ^ (- k))).
    { rewrite inject_Z_mult. rewrite <- (pow2_inject (- k)) by lia.
      assert (S : pow2 (- k) * pow2 k == 1).
      { rewrite <- pow2_add. replace (- k + k)%Z with 0%Z by lia. reflexivity. }
      apply Qeq_sym. apply Qmult_inj_r with (pow2 k); [lra|].
      assert (T : inject_Z n / pow2 k * pow2 k == inject_Z n) by (field; lra).
      rewrite T, <- Qmult_assoc, S. ring. }
    rewrite (RNE_compat _ _ E), RNE_Z. rewrite <- E. field. lra.
  - assert (k = 1)%Z by lia. assert (n = 2 ^ 53)%Z.
    { assert (Z.log2 n = 53)%Z by lia. rewrite H0 in L1. lia. }
    subst n. rewrite H. reflexivity.
Qed.

(** integers up to 2^53 in magnitude are Numbers *)
Lemma repr_int n : (- 2 ^ 53 <= n <= 2 ^ 53)%Z -> repr (inject_Z n).
Proof.
  intros H. unfold repr.
  assert (B : pow2 53 < pow2 1024) by (apply pow2_lt; lia).
  assert (P53 : pow2 53 == inject_Z (2 ^ 53)) by (apply pow2_inject; lia).
  destruct (Z.lt_trichotomy n 0) as [N | [Z0 | P]].
  - assert (Hn : inject_Z n < 0) by (rewrite Zlt_Qlt in N; exact N).
    assert (V : rnd_val (- inject_Z n) == inject_Z (- n)).
    { rewrite <- inject_Z_opp. apply rnd_val_int. lia. }
    unfold rnd.
    assert (C : Qcompare (inject_Z n) 0 = Lt) by (apply (proj1 (Qlt_alt _ _)); exact Hn).
    rewrite C.
    assert (O : overflows (- inject_Z n) = false).
    { apply overflows_false. rewrite V.
      apply Qle_lt_trans with (pow2 53); [|exact B]. rewrite P53. rewrite <- Zle_Qle. lia. }
    rewrite O.
    assert (Z : Qeq_bool (rnd_val (- inject_Z n)) 0 = false).
    { apply Qeq_bool_false. rewrite V. rewrite inject_Z_opp. lra. }
    rewrite Z. f_equal. apply mk_compat. rewrite V, inject_Z_opp. ring.
  - subst n. reflexivity.
  - assert (Hn : 0 < inject_Z n) by (rewrite Zlt_Qlt in P; exact P).
    assert (V : rnd_val (inject_Z n) == inject_Z n) by (apply rnd_val_int; lia).
    destruct (rnd_case_pos _ Hn) as [[E O] | [E O]].
    + exfalso. rewrite V in O.
      assert (inject_Z n <= pow2 53) by (rewrite P53; rewrite <- Zle_Qle; lia). lra.
    + rewrite E. f_equal. apply mk_compat. exact V.
Qed.

Lemma ofZ_int n : (- 2 ^ 53 <= n <= 2 ^ 53)%Z -> ofZ n = Fin (mk (inject_Z n)).
Proof. intros H. apply repr_int. exact H. Qed.

Lemma val_ofZ_int n : (- 2 ^ 53 <= n <= 2 ^ 53)%Z -> val (ofZ n) == inject_Z n.
Proof. intros H. rewrite (ofZ_int n H). apply val_Fin_mk. Qed.

Lemma rnd_pos_val x : 0 < x -> finite (rnd x) -> val (rnd x) == rnd_val x.
Proof.
  intros H F. destruct (rnd_case_pos x H) as [[E _] | [E _]]; rewrite E in *.
  - contradiction.
  - apply val_Fin_mk.
Qed.

(** propagation of "not NaN" *)
Lemma fneg_not_nan x : x <> NaN -> fneg x <> NaN.
Proof. destruct x; cbn [fneg]; try congruence. destruct (Qeq_bool q 0); congruence. Qed.

Lemma fadd_fin_not_nan a x : finite a -> x <> NaN -> fadd a x <> NaN.
Proof.
  intros Fa N. destruct a; cbn [finite] in *; try contradiction;
    destruct x; try congruence; cbn [fadd]; try congruence; apply rnd_not_nan.
Qed.

Lemma fsub_fin_not_nan a x : finite a -> x <> NaN -> fsub a x <> NaN.
Proof. intros Fa N. unfold fsub. apply fadd_fin_not_nan; [exact Fa | apply fneg_not_nan; exact N]. Qed.

Lemma inf_of_not_nan s : inf_of s <> NaN.
Proof. destruct s; discriminate. Qed.

Lemma zero_of_not_nan s : zero_of s <> NaN.
Proof. destruct s; discriminate. Qed.

Lemma fmul_fin_not_nan x c : x <> NaN -> finite c -> ~ val c == 0 -> fmul x c <> NaN.
Proof.
  intros N Fc Nc.
  assert (Zc : is_zero c = false) by (apply is_zero_fin_false; assumption).
  destruct x; try congruence.
  - destruct c; cbn [finite] in *; try contradiction; try (cbn in Zc; discriminate Zc);
      unfold fmul; cbn [is_inf is_zero orb] in *; cbv zeta; rewrite ?Zc; apply inf_of_not_nan.
  - destruct c; cbn [finite] in *; try contradiction; try (cbn in Zc; discriminate Zc);
      unfold fmul; cbn [is_inf is_zero orb] in *; cbv zeta; rewrite ?Zc; apply inf_of_not_nan.
  - rewrite (fmul_fin_eq NZero c I Fc).
    destruct (is_zero NZero || is_zero c); [apply zero_of_not_nan | apply rnd_not_nan].
  - rewrite (fmul_fin_eq (Fin q) c I Fc).
    destruct (is_zero (Fin q) || is_zero c); [apply zero_of_not_nan | apply rnd_not_nan].
Qed.

Lemma fdiv_fin_not_nan a x : finite a -> ~ val a == 0 -> x <> NaN -> fdiv a x <> NaN.
Proof.
  intros Fa Na N.
  assert (Za : is_zero a = false) by (apply is_zero_fin_false; assumption).
  assert (Ia : is_inf a = false) by (apply finite_not_inf; assumption).
  destruct x; try congruence.
  - destruct a; cbn [finite] in *; try contradiction; unfold fdiv; cbn [is_inf]; cbv zeta;
      apply zero_of_not_nan.
  - destruct a; cbn [finite] in *; try contradiction; unfold fdiv; cbn [is_inf]; cbv zeta;
      apply zero_of_not_nan.
  - destruct a; cbn [finite] in *; try contradiction; try (cbn in Za; discriminate Za).
    unfold fdiv; cbn [is_inf is_zero] in *; cbv zeta. rewrite Za. apply inf_of_not_nan.
  - destruct (is_zero (Fin q)) eqn:Zq.
    + destruct a; cbn [finite] in *; try contradiction; try (cbn in Za; discriminate Za).
      unfold fdiv; cbn [is_inf]; cbv zeta. rewrite Zq, Za. apply inf_of_not_nan.
    + rewrite (fdiv_fin_eq a (Fin q) Fa I Zq). rewrite Za. apply rnd_not_nan.
Qed.

Lemma Qfloor_ge n x : inject_Z n <= x -> (n <= Qfloor x)%Z.
Proof. intros H. rewrite <- (Qfloor_Z n). apply Qfloor_resp_le. exact H. Qed.

Lemma Qfloor_lt n x : x < inject_Z n -> (Qfloor x < n)%Z.
Proof. intros H. rewrite Zlt_Qlt. apply Qle_lt_trans with x; [apply Qfloor_le | exact H]. Qed.

Lemma Qceiling_ge n x : inject_Z n <= x -> (n <= Qceiling x)%Z.
Proof. intros H. rewrite <- (Qceiling_Z n). apply Qceiling_resp_le. exact H. Qed.

Lemma Qceiling_le n x : x <= inject_Z n -> (Qceiling x <= n)%Z.
Proof. intros H. rewrite <- (Qceiling_Z n). apply Qceiling_resp_le. exact H. Qed.

Lemma nle_Fin_r a q : finite a -> nle a (Fin q) -> val a <= this q.
Proof. intros F H. apply (proj1 (nle_fin a (Fin q) F I)) in H. exact H. Qed.

Lemma nle_Fin_l q b : finite b -> nle (Fin q) b -> this q <= val b.
Proof. intros F H. apply (proj1 (nle_fin (Fin q) b I F)) in H. exact H. Qed.

(** constants of the sources as Numbers *)
Lemma lit_0 : lit 0 = Fin (mk 0).
Proof. reflexivity. Qed.

Lemma lit_1 : lit 1 = Fin (mk 1).
Proof. vm_compute. reflexivity. Qed.

Lemma lit_100 : lit 100 = Fin (mk 100).
Proof. vm_compute. reflexivity. Qed.

Lemma lit_10000 : lit 10000 = Fin (mk 10000).
Proof. vm_compute. reflexivity. Qed.

Lemma repr_Z (n : Z) : (- 2 ^ 53 <= n <= 2 ^ 53)%Z -> repr (n # 1).
Proof. intros H. apply (repr_int n H). Qed.

Ltac repr_small := apply repr_Z; vm_compute; split; discriminate.

Lemma val_lit_100 : val (lit 100) == 100.
Proof. rewrite lit_100. apply val_Fin_mk. Qed.

Lemma lit_100_fin : finite (lit 100).
Proof. rewrite lit_100. exact I. Qed.

Lemma times100_inQ x :
  inQ 0 10000 x -> inQ 0 1000000 (fmul x (lit 100)) /\
  val (fmul x (lit 100)) == val (rnd (val x * 100)).
Proof.
  intros [F [L U]].
  pose proof val_lit_100 as V.
  assert (R : inQ 0 1000000 (rnd (val x * 100))).
  { apply rnd_inQ; [repr_small | repr_small | lra | lra]. }
  pose proof (fmul_veq x (lit 100) F lit_100_fin) as E.
  rewrite (rnd_compat (val x * val (lit 100)) (val x * 100)) in E by (rewrite V; reflexivity).
  destruct (veq_finite _ _ E (inQ_finite _ _ _ R)) as [F' E'].
  split; [|exact E'].
  eapply veq_inQ; [exact E | exact R].
Qed.

Lemma hundredths_range v : 0 <= v -> v <= 10000 -> (0 <= hundredths v <= 1000000)%Z.
Proof.
  intros L U. unfold hundredths.
  assert (R : inQ 0 1000000 (rnd (v * 100))).
  { apply rnd_inQ; [repr_small | repr_small | lra | lra]. }
  destruct R as [_ [A B]].
  split.
  - apply Qfloor_ge. change (inject_Z 0) with 0. lra.
  - apply Z.lt_succ_r. apply Qfloor_lt. change (inject_Z (Z.succ 1000000)) with 1000001. lra.
Qed.

Lemma hundredths_mono v v' :
  0 <= v -> v <= v' -> v' <= 10000 -> (hundredths v <= hundredths v')%Z.
Proof.
  intros L H U. unfold hundredths. apply Qfloor_resp_le.
  assert (R : inQ 0 1000000 (rnd (v * 100))).
  { apply rnd_inQ; [repr_small | repr_small | lra | lra]. }
  assert (R' : inQ 0 1000000 (rnd (v' * 100))).
  { apply rnd_inQ; [repr_small | repr_small | lra | lra]. }
  assert (M : nle (rnd (v * 100)) (rnd (v' * 100))) by (apply rnd_mono; lra).
  apply (proj1 (nle_fin _ _ (inQ_finite _ _ _ R) (inQ_finite _ _ _ R'))) in M. lra.
Qed.

Lemma hundredths_lower v : 1 <= v -> v <= 10000 -> (100 <= hundredths v)%Z.
Proof.
  intros L U. unfold hundredths.
  assert (R : inQ 100 1000000 (rnd (v * 100))).
  { apply rnd_inQ; [repr_small | repr_small | lra | lra]. }
  destruct R as [_ [A B]].
  apply Qfloor_ge. change (inject_Z 100) with 100. lra.
Qed.

(** [Math.round(x * 100) / 100] is the Number nearest to a whole number of
    hundredths *)
Lemma round2_veq x :
  inQ 0 10000 x -> veq (round2 x) (rnd (inject_Z (hundredths (val x)) / 100)).
Proof.
  intros H. destruct (times100_inQ x H) as [[F [L U]] E].
  unfold round2.
  destruct (Math_round_fin _ F) as [Fr Vr].
  pose proof val_lit_100 as V.
  assert (N : ~ val (lit 100) == 0) by (rewrite V; lra).
  pose proof (fdiv_veq _ _ Fr lit_100_fin N) as D.
  rewrite (rnd_compat (val (Math_round (fmul x (lit 100))) / val (lit 100))
             (inject_Z (hundredths (val x)) / 100)) in D; [exact D|].
  rewrite Vr, V. unfold hundredths. rewrite E. reflexivity.
Qed.

Lemma round2_eq x :
  inQ 1 10000 x -> round2 x = rnd (inject_Z (hundredths (val x)) / 100).
Proof.
  intros [F [L U]].
  assert (H : inQ 0 10000 x) by (repeat split; [exact F | lra | lra]).
  destruct (times100_inQ x H) as [[F' _] E].
  pose proof (hundredths_lower (val x) L U) as K.
  unfold round2.
  assert (M : Math_round (fmul x (lit 100)) = Fin (mk (inject_Z (hundredths (val x))))).
  { apply Math_round_int; [exact F' | unfold hundredths; rewrite E; reflexivity | lia]. }
  rewrite M.
  assert (Z : is_zero (lit 100) = false) by reflexivity.
  rewrite (fdiv_fin_eq (Fin (mk (inject_Z (hundredths (val x))))) (lit 100) I lit_100_fin Z).
  assert (Z' : is_zero (Fin (mk (inject_Z (hundredths (val x))))) = false).
  { apply is_zero_fin_false; [exact I|]. rewrite val_Fin_mk.
    intro C. assert (inject_Z 100 <= inject_Z (hundredths (val x))) by (rewrite <- Zle_Qle; lia).
    change (inject_Z 100) with 100 in H0. lra. }
  rewrite Z'. apply rnd_compat. rewrite val_Fin_mk, val_lit_100. reflexivity.
Qed.

(** a whole number of hundredths survives [Math.round(x * 100) / 100] *)
Lemma hundredths_fix K :
  (100 <= K <= 1000000)%Z -> hundredths (val (rnd (inject_Z K / 100))) = K.
Proof.
  intros [K1 K2].
  set (k := inject_Z K).
  assert (k1 : 100 <= k) by (unfold k; change 100 with (inject_Z 100); rewrite <- Zle_Qle; lia).
  assert (k2 : k <= 1000000)
    by (unfold k; change 1000000 with (inject_Z 1000000); rewrite <- Zle_Qle; lia).
  assert (P22 : pow2 (-1022) <= 1).
  { change 1 with (pow2 0). apply pow2_le. lia. }
  assert (U : pow2 (-53) == 1 # 9007199254740992) by reflexivity.
  (* first rounding *)
  assert (R1 : inQ 1 10000 (rnd (k / 100))).
  { apply rnd_inQ; [repr_small | repr_small | |].
    - apply Qle_shift_div_l; lra.
    - apply Qle_shift_div_r; lra. }
  assert (X1 : 0 < k / 100) by (apply Qlt_shift_div_l; lra).
  pose proof (rnd_pos_val _ X1 (inQ_finite _ _ _ R1)) as V1.
  assert (N1 : pow2 (-1022) <= k / 100).
  { apply Qle_trans with 1; [exact P22|]. apply Qle_shift_div_l; lra. }
  destruct (rnd_val_err _ N1) as [E1 E2]. rewrite U in E1, E2.
  assert (D : k / 100 * 100 == k) by (field).
  set (y := val (rnd (k / 100))) in *.
  (* second rounding *)
  destruct R1 as [_ [Y1 Y2]]. fold y in Y1, Y2.
  assert (R2 : inQ 100 1000000 (rnd (y * 100))).
  { apply rnd_inQ; [repr_small | repr_small | lra | lra]. }
  assert (X2 : 0 < y * 100) by lra.
  pose proof (rnd_pos_val _ X2 (inQ_finite _ _ _ R2)) as V2.
  assert (N2 : pow2 (-1022) <= y * 100) by lra.
  destruct (rnd_val_err _ N2) as [G1 G2]. rewrite U in G1, G2.
  unfold hundredths. fold y.
  set (z := val (rnd (y * 100))) in *.
  rewrite <- V1 in E1, E2. rewrite <- V2 in G1, G2.
  set (q := k / 100) in *.
  assert (Lo : k <= z + (1 # 2)) by lra.
  assert (Hi : z + (1 # 2) < k + 1) by lra.
  assert (F1 : (K <= Qfloor (z + (1 # 2)))%Z) by (apply Qfloor_ge; exact Lo).
  assert (F2 : (Qfloor (z + (1 # 2)) < K + 1)%Z).
  { apply Qfloor_lt. rewrite inject_Z_plus. exact Hi. }
  lia.
Qed.

End NumberFacts.
Import NumberFacts.

(** ** The model against the binary64 arithmetic of the kernel *)

Module FloatCheck.

Example literal_binary64 : lit (15 # 1000) = of_prim (15 / 1000)%float.
Proof. vm_compute. reflexivity. Qed.

Example fmul_binary64 :
  fmul (lit (15 # 1000)) (lit (985 # 1000)) = of_prim ((15 / 1000) * (985 / 1000))%float.
Proof. vm_compute. reflexivity. Qed.

Example fdiv_binary64 : fdiv (lit 1) (lit 3) = of_prim (1 / 3)%float.
Proof. vm_compute. reflexivity. Qed.

Example fsub_binary64 :
  fsub (lit (1 # 10)) (lit (3 # 10)) = of_prim ((1 / 10) - (3 / 10))%float.
Proof. vm_compute. reflexivity. Qed.

Example underflow_binary64 :
  fmul (of_prim (Z.ldexp 1 (-600)%Z)) (of_prim (Z.ldexp 3 (-500)%Z))
  = of_prim (Z.ldexp 1 (-600)%Z * Z.ldexp 3 (-500)%Z)%float.
Proof. vm_compute. reflexivity. Qed.

Example overflow_binary64 :
  fmul (of_prim (Z.ldexp 1 600%Z)) (of_prim (Z.ldexp 3 500%Z))
  = of_prim (Z.ldexp 1 600%Z * Z.ldexp 3 500%Z)%float.
Proof. vm_compute. reflexivity. Qed.

(** the crash multiplier at r0 = 1/4 *)
Example crashPoint_binary64 :
  snd (crashPoint (lit (1 # 4)))
  = of_prim ((1 - 15 / 1000) / (1 - (15 / 1000 + (1 / 4) * (1 - 15 / 1000))))%float.
Proof. vm_compute. reflexivity. Qed.

End FloatCheck.

Module ByteFacts.
Local Open Scope Z_scope.

(** ** Byte strings *)

Lemma byteLength_bound v : 0 <= v -> v < 2 ^ (8 * Z.of_nat (byteLength v)).
Proof.
  intros H. unfold byteLength.
  pose proof (Z.log2_nonneg v) as L0.
  assert (D : 0 <= Z.log2 v / 8) by (apply Z.div_pos; lia).
  rewrite Z2Nat.id by lia.
  destruct (Z.eq_dec v 0) as [-> | N]; [reflexivity|].
  destruct (Z.log2_spec v ltac:(lia)) as [_ U].
  apply Z.lt_le_trans with (2 ^ Z.succ (Z.log2 v)); [exact U|].
  apply Z.pow_le_mono_r; [lia|].
  pose proof (Z.mod_pos_bound (Z.log2 v) 8 ltac:(lia)).
  pose proof (Z.div_mod (Z.log2 v) 8 ltac:(lia)). lia.
Qed.

Lemma byteLength_le_32 v : 0 <= v < 2 ^ 256 -> (byteLength v <= 32)%nat.
Proof.
  intros [H U]. unfold byteLength.
  destruct (Z.eq_dec v 0) as [-> | N]; [vm_compute; lia|].
  assert (L : Z.log2 v < 256) by (apply Z.log2_lt_pow2; lia).
  pose proof (Z.log2_nonneg v) as L0.
  assert (D : Z.log2 v / 8 < 32) by (apply Z.div_lt_upper_bound; lia).
  assert (D0 : 0 <= Z.log2 v / 8) by (apply Z.div_pos; lia).
  lia.
Qed.

Lemma le_split_pad n k v :
  0 <= v < 2 ^ (8 * Z.of_nat n) ->
  le_split (n + k) v = le_split n v ++ repeat Byte.x00 k.
Proof.
  intros H. apply le_combine_inj.
  - rewrite length_app, !length_le_split, repeat_length. reflexivity.
  - rewrite le_combine_app_0, !le_combine_split.
    rewrite !Z.mod_small; [reflexivity | | ].
    + replace (Z.of_nat n * 8) with (8 * Z.of_nat n) by lia. exact H.
    + split; [lia|]. apply Z.lt_le_trans with (2 ^ (8 * Z.of_nat n)); [lia|].
      apply Z.pow_le_mono_r; lia.
Qed.

Lemma rev_repeat {A : Type} (a : A) n : rev (repeat a n) = repeat a n.
Proof.
  induction n; [reflexivity|]. cbn [repeat rev]. rewrite IHn.
  clear IHn. induction n; [reflexivity|]. cbn [repeat app]. rewrite IHn. reflexivity.
Qed.

(** [zeroPadValue(toBeHex(v), 32)] is the 32-byte big-endian encoding of [v] *)
Lemma pad32_be32 v : 0 <= v < 2 ^ 256 -> pad32 v = Ok (be32 v).
Proof.
  intros H. unfold pad32, toBeHex.
  assert (N : (v <? 0) = false) by (apply Z.ltb_ge; lia). rewrite N.
  unfold zeroPadValue. rewrite length_rev, length_le_split.
  pose proof (byteLength_le_32 v H) as B.
  assert (C : (32 <? byteLength v)%nat = false) by (apply Nat.ltb_ge; exact B).
  rewrite C. cbn [of_option]. f_equal. unfold be32.
  replace 32%nat with (byteLength v + (32 - byteLength v))%nat at 2 by lia.
  rewrite le_split_pad by (split; [lia | apply byteLength_bound; lia]).
  rewrite rev_app_distr, rev_repeat. reflexivity.
Qed.

Lemma pad32_throws v : v < 0 \/ 2 ^ 256 <= v -> pad32 v = Throws.
Proof.
  intros [H | H]; unfold pad32, toBeHex.
  - assert (N : (v <? 0) = true) by (apply Z.ltb_lt; lia). rewrite N. reflexivity.
  - assert (N : (v <? 0) = false) by (apply Z.ltb_ge; lia). rewrite N.
    unfold zeroPadValue. rewrite length_rev, length_le_split.
    assert (C : (32 <? byteLength v)%nat = true).
    { apply Nat.ltb_lt. unfold byteLength.
      assert (L : 256 <= Z.log2 v) by (apply Z.log2_le_pow2; lia).
      assert (D : 32 <= Z.log2 v / 8) by (apply Z.div_le_lower_bound; lia). lia. }
    rewrite C. reflexivity.
Qed.



(** the [k]-th byte of the encoding is the [k]-th base-256 digit from the top *)
Lemma be32_nth v k :
  (k < 32)%nat ->
  nth_error (be32 v) k = Some (byte.of_Z (v / 256 ^ (31 - Z.of_nat k))).
Proof.
  intros H. unfold be32.
  rewrite nth_error_rev, length_le_split.
  assert (C : (k <? 32)%nat = true) by (apply Nat.ltb_lt; exact H). rewrite C.
  rewrite nth_error_le_split by lia. f_equal. f_equal.
  rewrite Z.shiftr_div_pow2 by lia. f_equal.
  change 256 with (2 ^ 8). rewrite <- Z.pow_mul_r by lia. f_equal. lia.
Qed.

Lemma BigInt_of_hex_range bs :
  List.length bs = 32%nat -> 0 <= BigInt_of_hex bs < 2 ^ 256.
Proof.
  intros H. unfold BigInt_of_hex.
  pose proof (le_combine_bound (rev bs)) as B. rewrite length_rev, H in B. exact B.
Qed.

End ByteFacts.
Import ByteFacts.

Module DrawFacts.
(** ** The quotient of [getRandom] *)

Lemma maxUint256_eq : maxUint256 = (2 ^ 256 - 1)%Z.
Proof. reflexivity. Qed.

Lemma Number_maxUint256 : ofZ maxUint256 = Fin (mk (inject_Z (2 ^ 256))).
Proof. vm_compute. reflexivity. Qed.

Lemma repr_2_256 : repr (inject_Z (2 ^ 256)).
Proof. vm_compute. reflexivity. Qed.

Lemma repr_0 : repr 0.
Proof. reflexivity. Qed.

Lemma repr_1 : repr 1.
Proof. vm_compute. reflexivity. Qed.

Local Open Scope Q_scope.

Lemma Number_digest_range h :
  (0 <= h < 2 ^ 256)%Z -> inQ 0 (inject_Z (2 ^ 256)) (ofZ h).
Proof.
  intros [H1 H2]. unfold ofZ. apply rnd_inQ; [exact repr_0 | exact repr_2_256 | |].
  - change 0 with (inject_Z 0). rewrite <- Zle_Qle. exact H1.
  - rewrite <- Zle_Qle. lia.
Qed.

Lemma val_2_256 : val (Fin (mk (inject_Z (2 ^ 256)))) == inject_Z (2 ^ 256).
Proof. apply val_Fin_mk. Qed.

Lemma ratio_unit h : (0 <= h < 2 ^ 256)%Z -> inQ 0 1 (ratio h).
Proof.
  intros H. destruct (Number_digest_range h H) as [F [L U]].
  unfold ratio. rewrite Number_maxUint256.
  assert (P : 0 < inject_Z (2 ^ 256)) by reflexivity.
  apply fdiv_inQ; [exact F | exact I | rewrite val_2_256; lra | exact repr_0 | exact repr_1 | |];
    rewrite val_2_256.
  - apply Qle_shift_div_l; [exact P | lra].
  - apply Qle_shift_div_r; [exact P | lra].
Qed.

Lemma rnd_below_top : rnd (inject_Z (top - 1)) = Fin (mk (inject_Z (2 ^ 256 - 2 ^ 203))).
Proof. vm_compute. reflexivity. Qed.

Lemma rnd_top : rnd (inject_Z top) = Fin (mk (inject_Z (2 ^ 256))).
Proof. vm_compute. reflexivity. Qed.

Lemma repr_below_one : repr (1 - (1 # 2 ^ 53)).
Proof. vm_compute. reflexivity. Qed.

Lemma ratio_below h :
  (0 <= h < top)%Z -> inQ 0 (1 - (1 # 2 ^ 53)) (ratio h).
Proof.
  intros [H1 H2].
  assert (R : (0 <= h < 2 ^ 256)%Z) by (unfold top in H2; lia).
  destruct (Number_digest_range h R) as [F [L U]].
  assert (M : nle (ofZ h) (rnd (inject_Z (top - 1)))).
  { apply rnd_mono. rewrite <- Zle_Qle. lia. }
  rewrite rnd_below_top in M.
  apply (nle_Fin_r _ _ F) in M. rewrite mk_val in M.
  unfold ratio. rewrite Number_maxUint256.
  assert (P : 0 < inject_Z (2 ^ 256)) by reflexivity.
  apply fdiv_inQ;
    [exact F | exact I | rewrite val_2_256; lra | exact repr_0 | exact repr_below_one | |];
    rewrite val_2_256.
  - apply Qle_shift_div_l; [exact P | lra].
  - apply Qle_shift_div_r; [exact P|].
    assert (E : (1 - (1 # 2 ^ 53)) * inject_Z (2 ^ 256) == inject_Z (2 ^ 256 - 2 ^ 203))
      by reflexivity.
    rewrite E. exact M.
Qed.

Lemma ratio_top h : (top <= h < 2 ^ 256)%Z -> ratio h = Fin (mk 1).
Proof.
  intros [H1 H2].
  assert (R : (0 <= h < 2 ^ 256)%Z) by (unfold top in H1; lia).
  destruct (Number_digest_range h R) as [F [L U]].
  assert (M : nle (rnd (inject_Z top)) (ofZ h)).
  { apply rnd_mono. rewrite <- Zle_Qle. lia. }
  rewrite rnd_top in M.
  apply (nle_Fin_l _ _ F) in M. rewrite mk_val in M.
  assert (V : val (ofZ h) == inject_Z (2 ^ 256)) by lra.
  unfold ratio. rewrite Number_maxUint256.
  assert (Z2 : is_zero (Fin (mk (inject_Z (2 ^ 256)))) = false) by reflexivity.
  rewrite (fdiv_fin_eq (ofZ h) (Fin (mk (inject_Z (2 ^ 256)))) F I Z2).
  assert (Z1 : is_zero (ofZ h) = false).
  { apply is_zero_fin_false; [exact F|]. rewrite V. discriminate. }
  rewrite Z1. rewrite <- repr_1. apply rnd_compat. rewrite V, val_2_256. reflexivity.
Qed.

Lemma lit_1_val : val (lit 1) == 1.
Proof. rewrite lit_1. apply val_Fin_mk. Qed.

Lemma ratio_lt_one h :
  (0 <= h < 2 ^ 256)%Z -> (flt (ratio h) (lit 1) = true <-> (h < top)%Z).
Proof.
  intros R. split.
  - intros L. destruct (Z_lt_ge_dec h top) as [ok | bad]; [exact ok|].
    rewrite (ratio_top h) in L by lia. vm_compute in L. discriminate.
  - intros L. destruct (ratio_below h ltac:(lia)) as [F [A B]].
    apply flt_fin; [exact F | rewrite lit_1; exact I |].
    rewrite lit_1_val.
    assert ((1 # 2 ^ 53) > 0) by reflexivity. lra.
Qed.

End DrawFacts.
Import DrawFacts.

Module MultiplierFacts.
Local Open Scope Q_scope.

(** ** The crash multiplier *)

Lemma Fin_canon (q : Qc) (v : Q) : this q == v -> Fin q = Fin (mk v).
Proof.
  intros E. f_equal. apply Qc_is_canon. rewrite mk_val. exact E.
Qed.

Lemma Math_min_Fin a b :
  Math_min (Fin a) (Fin b) = if flt (Fin b) (Fin a) then Fin b else Fin a.
Proof. reflexivity. Qed.

Lemma Math_max_Fin a b :
  Math_max (Fin a) (Fin b) = if flt (Fin a) (Fin b) then Fin b else Fin a.
Proof. reflexivity. Qed.

Lemma flt_Fin_true a b : this a < this b -> flt (Fin a) (Fin b) = true.
Proof. intros H. apply (flt_fin (Fin a) (Fin b) I I). exact H. Qed.

Lemma flt_Fin_false a b : this b <= this a -> flt (Fin a) (Fin b) = false.
Proof.
  intros H. destruct (flt (Fin a) (Fin b)) eqn:E; [|reflexivity].
  apply (flt_fin (Fin a) (Fin b) I I) in E. cbn [val] in E. lra.
Qed.

Lemma clamp_eq x :
  Math_max (lit 1) (Math_min x (lit 10000)) = clamp (lit 1) (lit 10000) x.
Proof.
  rewrite lit_1, lit_10000.
  destruct x; try (vm_compute; reflexivity).
  pose proof (mk_val 1) as V1. pose proof (mk_val 10000) as V2.
  unfold clamp, fgt. rewrite Math_min_Fin.
  destruct (Qlt_le_dec 10000 q) as [A | A].
  - rewrite (flt_Fin_true (mk 10000) q) by lra.
    rewrite (flt_Fin_false q (mk 1)) by lra.
    vm_compute. reflexivity.
  - rewrite (flt_Fin_false (mk 10000) q) by lra.
    rewrite Math_max_Fin.
    destruct (Qlt_le_dec 1 q) as [B | B].
    + rewrite (flt_Fin_true (mk 1) q) by lra.
      rewrite (flt_Fin_false q (mk 1)) by lra. reflexivity.
    + rewrite (flt_Fin_false (mk 1) q) by lra.
      destruct (Qlt_le_dec q 1) as [C | C].
      * rewrite (flt_Fin_true q (mk 1)) by lra. reflexivity.
      * rewrite (flt_Fin_false q (mk 1)) by lra.
        symmetry. apply Fin_canon. lra.
Qed.

Lemma houseEdge_fin : finite houseEdge.
Proof. vm_compute. exact I. Qed.

Lemma oneMinusEdge_fin : finite (fsub (lit 1) houseEdge).
Proof. vm_compute. exact I. Qed.

Lemma oneMinusEdge_nonzero : ~ val (fsub (lit 1) houseEdge) == 0.
Proof. vm_compute. discriminate. Qed.

Lemma lit_1_fin : finite (lit 1).
Proof. rewrite lit_1. exact I. Qed.

Lemma lit_10000_fin : finite (lit 10000).
Proof. rewrite lit_10000. exact I. Qed.

Lemma lit_10000_val : val (lit 10000) == 10000.
Proof. rewrite lit_10000. apply val_Fin_mk. Qed.

Section CrashPoint.

Variable r0 : number.
Hypothesis r0_number : r0 <> NaN.

Lemma rawMultiplier_not_nan : snd (crashPoint r0) <> NaN.
Proof.
  unfold crashPoint. cbn [snd].
  apply fdiv_fin_not_nan; [exact oneMinusEdge_fin | exact oneMinusEdge_nonzero |].
  apply fsub_fin_not_nan; [exact lit_1_fin|].
  apply fadd_fin_not_nan; [exact houseEdge_fin|].
  apply fmul_fin_not_nan; [exact r0_number | exact oneMinusEdge_fin | exact oneMinusEdge_nonzero].
Qed.

Lemma crashMultiplier_range :
  inQ 1 10000 (Math_max (lit 1) (Math_min (snd (crashPoint r0)) (lit 10000))).
Proof.
  pose proof lit_1_val as V1. pose proof lit_10000_val as V2.
  eapply inQ_weaken;
    [apply (clamp_inQ (lit 1) (lit 10000) (snd (crashPoint r0)) lit_1_fin lit_10000_fin);
     [lra | exact rawMultiplier_not_nan] | lra | lra].
Qed.

(** the final multiplier is the Number of a two-decimal numeral between 1.00
    and 10000.00 *)
Lemma crashPoint_final :
  exists K : Z,
    (100 <= K <= 1000000)%Z /\
    fst (crashPoint r0) = lit (K # 100) /\
    inQ 1 10000 (fst (crashPoint r0)).
Proof.
  pose proof crashMultiplier_range as R.
  assert (E : fst (crashPoint r0)
              = round2 (Math_max (lit 1) (Math_min (snd (crashPoint r0)) (lit 10000))))
    by reflexivity.
  set (c := Math_max (lit 1) (Math_min (snd (crashPoint r0)) (lit 10000))) in *.
  destruct R as [F [L U]].
  exists (hundredths (val c)).
  pose proof (hundredths_lower (val c) L U) as K1.
  assert (K2 : (hundredths (val c) <= 1000000)%Z) by (apply hundredths_range; lra).
  assert (Q : inject_Z (hundredths (val c)) / 100 == hundredths (val c) # 100).
  { rewrite (Qmake_Qdiv (hundredths (val c)) 100). reflexivity. }
  split; [lia|].
  rewrite E, (round2_eq c (conj F (conj L U))).
  split; [apply rnd_compat; exact Q|].
  set (k := inject_Z (hundredths (val c))).
  assert (k1 : 100 <= k)
    by (unfold k; change 100 with (inject_Z 100); rewrite <- Zle_Qle; lia).
  assert (k2 : k <= 1000000)
    by (unfold k; change 1000000 with (inject_Z 1000000); rewrite <- Zle_Qle; lia).
  apply rnd_inQ; [repr_small | repr_small | |].
  - apply Qle_shift_div_l; lra.
  - apply Qle_shift_div_r; lra.
Qed.

Lemma crashPoint_spec : fst (crashPoint r0) = specMultiplier r0.
Proof.
  unfold crashPoint, specMultiplier, round2, roundTo2Decimals. cbn [fst].
  rewrite clamp_eq. reflexivity.
Qed.

End CrashPoint.

Lemma crashPoint_zero r0 : feq r0 (lit 0) = true -> fst (crashPoint r0) = lit 1.
Proof.
  intros H. destruct r0; try (vm_compute in H; discriminate).
  - vm_compute. reflexivity.
  - assert (E : this q == 0).
    { apply (feq_fin (Fin q) (lit 0) I I) in H. rewrite lit_0 in H.
      cbn [val] in H. rewrite mk_val in H. exact H. }
    rewrite (Fin_canon q 0 E). vm_compute. reflexivity.
Qed.

End MultiplierFacts.
Import MultiplierFacts.

Section BackendFacts.

Variable keccak256 : list byte -> list byte.
Variable Math_pow : number -> number -> number.
Variable parseInt : string -> number.
Variable getUTCFullYear : number -> number.
Variable getUTCMonth : number -> number.
Variable getUTCDate : number -> number.

Hypothesis keccak256_length : forall bs, List.length (keccak256 bs) = 32%nat.

Lemma digest_range seed i : (0 <= digest keccak256 seed i < 2 ^ 256)%Z.
Proof. apply BigInt_of_hex_range, keccak256_length. Qed.

Lemma getRandom_ok seed i :
  (0 <= seed < 2 ^ 256)%Z -> (0 <= i < 2 ^ 256)%Z ->
  getRandom keccak256 seed i = Ok (ratio (digest keccak256 seed i)).
Proof.
  intros Hs Hi. unfold getRandom.
  rewrite (pad32_be32 seed Hs), (pad32_be32 i Hi). cbn [obind List.concat].
  rewrite app_nil_r. reflexivity.
Qed.

Lemma deriveSeed_ok vrf rid seed cid r c :
  (0 <= vrf < 2 ^ 256)%Z ->
  toBigInt rid = Some r -> (0 <= r < 2 ^ 256)%Z ->
  toBigInt cid = Some c -> (0 <= c < 2 ^ 256)%Z ->
  deriveSeed keccak256 vrf rid seed cid
  = Ok (BigInt_of_hex
          (keccak256 (be32 vrf ++ be32 r ++ toUtf8Bytes seed ++ be32 c))).
Proof.
  intros Hv Er Hr Ec Hc. unfold deriveSeed.
  rewrite (pad32_be32 vrf Hv), Er. cbn [obind of_option].
  rewrite (pad32_be32 r Hr), Ec. cbn [obind of_option].
  rewrite (pad32_be32 c Hc). cbn [obind List.concat].
  rewrite app_nil_r. reflexivity.
Qed.

Lemma deriveSeed_range vrf rid seed cid s :
  deriveSeed keccak256 vrf rid seed cid = Ok s -> (0 <= s < 2 ^ 256)%Z.
Proof.
  unfold deriveSeed. intros H.
  destruct (pad32 vrf); cbn [obind] in H; try discriminate.
  destruct (of_option (toBigInt rid)); cbn [obind] in H; try discriminate.
  destruct (pad32 a0); cbn [obind] in H; try discriminate.
  destruct (of_option (toBigInt cid)); cbn [obind] in H; try discriminate.
  destruct (pad32 a2); cbn [obind] in H; try discriminate.
  injection H as <-. apply BigInt_of_hex_range, keccak256_length.
Qed.

Lemma validInput_deriveSeed input :
  validInput input ->
  exists s, deriveSeed keccak256 (vrfRandom input) (roundId input) (serverSeed input)
              (chainId input) = Ok s /\ (0 <= s < 2 ^ 256)%Z.
Proof.
  intros [Hv [[r [Er Hr]] [c [Ec Hc]]]].
  eexists. split; [apply (deriveSeed_ok _ _ _ _ r c); assumption|].
  apply BigInt_of_hex_range, keccak256_length.
Qed.

Lemma rand_unit seed i : inQ 0 1 (ratio (digest keccak256 seed i)).
Proof. apply ratio_unit, digest_range. Qed.

Lemma rand_not_nan seed i : ratio (digest keccak256 seed i) <> NaN.
Proof.
  pose proof (rand_unit seed i) as [F _]. intro E. rewrite E in F. exact F.
Qed.

(** the generator once the seed is derived *)
Lemma generateCrashGame_unfold fuel input s :
  deriveSeed keccak256 (vrfRandom input) (roundId input) (serverSeed input)
    (chainId input) = Ok s ->
  generateCrashGame keccak256 Math_pow parseInt getUTCFullYear getUTCMonth getUTCDate
    fuel input
  = let r := fun i => ratio (digest keccak256 s i) in
    let* updates :=
      ticks keccak256 Math_pow getUTCFullYear getUTCMonth getUTCDate s
        (fst (crashPoint (r 0%Z)))
        (fadd (lit (40 # 100)) (fmul (r 2%Z) (lit (30 # 100))))
        (fadd (lit (15 # 100)) (fmul (r 3%Z) (lit (30 # 100))))
        (fadd (lit (15 # 1000)) (fmul (r 4%Z) (lit (20 # 1000))))
        (fadd (lit (5 # 10)) (fmul (r 5%Z) (lit (4 # 10))))
        (parseInt (startTimestamp input)) (tickIntervalMs input)
        (totalTicksOf (r 1%Z) (tickIntervalMs input))
        fuel 0%Z (lit 1) (lit 1) in
    Ok {| updates := updates;
          finalMultiplier := fst (crashPoint (r 0%Z));
          rawMultiplier := snd (crashPoint (r 0%Z)) |}.
Proof.
  intros D. pose proof (deriveSeed_range _ _ _ _ _ D) as R.
  unfold generateCrashGame. rewrite D. cbn [obind].
  rewrite !getRandom_ok by (try exact R; vm_compute; split; congruence).
  cbn [obind]. cbv zeta.
  destruct (crashPoint (ratio (digest keccak256 s 0))) as [fm raw]. reflexivity.
Qed.

End BackendFacts.

Module TickFacts.
Local Open Scope Q_scope.

(** ** One tick of the price walk *)

Section Tick.

Variable Math_pow : number -> number -> number.

(** [Math.pow] keeps a base in [0, 1] inside [0, 1] for exponents in [1/2, 1] *)
Hypothesis Math_pow_unit :
  forall x y, inQ 0 1 x -> inQ (1 # 2) 1 y -> inQ 0 1 (Math_pow x y).

Variables finalMultiplier minPrice trendStrength volatilityBase volatilityDecay : number.

Hypothesis final_range : inQ 1 10000 finalMultiplier.
Hypothesis minPrice_range : inQ 0 1 minPrice.
Hypothesis trend_range : inQ 0 1 trendStrength.
Hypothesis volBase_range : inQ 0 1 volatilityBase.
Hypothesis volDecay_range : inQ (1 # 2) 1 volatilityDecay.

Abbreviation price :=
  (tickPrice Math_pow finalMultiplier minPrice trendStrength volatilityBase
     volatilityDecay).

Lemma lit_08_range : inQ (1 # 2) 1 (lit (8 # 10)).
Proof. apply rnd_inQ; [vm_compute; reflexivity | exact repr_1 | lra | lra]. Qed.

Lemma lit_05 : lit (5 # 10) = Fin (mk (1 # 2)).
Proof. vm_compute. reflexivity. Qed.

Lemma lit_2 : lit 2 = Fin (mk 2).
Proof. vm_compute. reflexivity. Qed.

Lemma tickPrice_range progress r1 currentPrice :
  inQ 0 1 progress -> inQ 0 1 r1 -> inQ 0 10000 currentPrice ->
  finite (price progress r1 currentPrice) /\
  0 <= val (price progress r1 currentPrice) /\
  val (price progress r1 currentPrice) <= val finalMultiplier.
Proof.
  intros Hp Hr Hc. unfold tickPrice. cbv zeta.
  destruct final_range as [Ff [Lf Uf]].
  destruct minPrice_range as [Fm [Lm Um]].
  destruct trend_range as [Ft [Lt Ut]].
  destruct volBase_range as [Fv [Lv Uv]].
  destruct Hp as [Fp [Lp Up]].
  destruct Hr as [Fr [Lr Ur]].
  destruct Hc as [Fc [Lc Uc]].
  pose proof lit_1_val as V1. pose proof lit_1_fin as F1.
  (* target price *)
  destruct (Math_pow_unit progress (lit (8 # 10)) (conj Fp (conj Lp Up)) lit_08_range)
    as [Fa [La Ua]].
  set (pa := Math_pow progress (lit (8 # 10))) in *.
  assert (S1 : inQ 0 9999 (fsub finalMultiplier (lit 1))).
  { apply fsub_inQ; [exact Ff | exact F1 | repr_small | repr_small | lra | lra]. }
  destruct S1 as [Fs1 [Ls1 Us1]].
  set (s1 := fsub finalMultiplier (lit 1)) in *.
  assert (M1 : inQ 0 9999 (fmul s1 pa)).
  { apply fmul_inQ; [exact Fs1 | exact Fa | repr_small | repr_small | nra | nra]. }
  destruct M1 as [Fm1 [Lm1 Um1]].
  set (m1 := fmul s1 pa) in *.
  assert (T : inQ 1 10000 (fadd (lit 1) m1)).
  { apply fadd_inQ; [exact F1 | exact Fm1 | repr_small | repr_small | lra | lra]. }
  destruct T as [FT [LT UT]].
  set (targetPrice := fadd (lit 1) m1) in *.
  (* volatility *)
  assert (O : inQ 0 1 (fsub (lit 1) progress)).
  { apply fsub_inQ; [exact F1 | exact Fp | repr_small | repr_small | lra | lra]. }
  destruct (Math_pow_unit _ _ O volDecay_range) as [Fb [Lb Ub]].
  set (pb := Math_pow (fsub (lit 1) progress) volatilityDecay) in *.
  assert (Vo : inQ 0 1 (fmul volatilityBase pb)).
  { apply fmul_inQ; [exact Fv | exact Fb | repr_small | repr_small | nra | nra]. }
  destruct Vo as [Fvo [Lvo Uvo]].
  set (volatility := fmul volatilityBase pb) in *.
  (* direction bias *)
  assert (D1 : inQ (-10000) 10000 (fsub targetPrice currentPrice)).
  { apply fsub_inQ; [exact FT | exact Fc | repr_small | repr_small | lra | lra]. }
  destruct D1 as [Fd1 [Ld1 Ud1]].
  set (d1 := fsub targetPrice currentPrice) in *.
  assert (DB : inQ (-10000) 10000 (fmul d1 trendStrength)).
  { apply fmul_inQ; [exact Fd1 | exact Ft | repr_small | repr_small | nra | nra]. }
  destruct DB as [Fdb [Ldb Udb]].
  set (directionBias := fmul d1 trendStrength) in *.
  (* random move *)
  assert (R1 : inQ (-1) 1 (fsub r1 (lit (5 # 10)))).
  { rewrite lit_05. apply fsub_inQ; [exact Fr | exact I | repr_small | repr_small | |];
      cbn [val]; rewrite mk_val; lra. }
  destruct R1 as [Fr1 [Lr1 Ur1]].
  set (c1 := fsub r1 (lit (5 # 10))) in *.
  assert (RM : inQ (-2) 2 (fmul c1 (lit 2))).
  { rewrite lit_2. apply fmul_inQ; [exact Fr1 | exact I | repr_small | repr_small | |];
      cbn [val]; rewrite mk_val; lra. }
  destruct RM as [Frm [Lrm Urm]].
  set (randomMove := fmul c1 (lit 2)) in *.
  assert (RV : inQ (-2) 2 (fmul randomMove volatility)).
  { apply fmul_inQ; [exact Frm | exact Fvo | repr_small | repr_small | nra | nra]. }
  destruct RV as [Frv [Lrv Urv]].
  set (rv := fmul randomMove volatility) in *.
  assert (PC : inQ (-10002) 10002 (fadd directionBias rv)).
  { apply fadd_inQ; [exact Fdb | exact Frv | repr_small | repr_small | lra | lra]. }
  destruct PC as [Fpc [Lpc Upc]].
  set (priceChange := fadd directionBias rv) in *.
  assert (G : inQ (-10001) 10003 (fadd (lit 1) priceChange)).
  { apply fadd_inQ; [exact F1 | exact Fpc | repr_small | repr_small | lra | lra]. }
  destruct G as [Fg [Lg Ug]].
  set (g := fadd (lit 1) priceChange) in *.
  assert (NP : inQ (-100030000) 100030000 (fmul currentPrice g)).
  { apply fmul_inQ; [exact Fc | exact Fg | repr_small | repr_small | nra | nra]. }
  destruct NP as [Fnp _].
  set (np := fmul currentPrice g) in *.
  (* clamp *)
  destruct (Math_min_fin np finalMultiplier Fnp Ff) as [Fmin [_ [Bmin _]]].
  destruct (Math_max_fin minPrice (Math_min np finalMultiplier) Fm Fmin)
    as [Fmax [A [_ [C | C]]]].
  - split; [exact Fmax|]. split; lra.
  - split; [exact Fmax|]. split; lra.
Qed.

End Tick.

(** ** The tick loop *)

Section LoopFacts.

Variable keccak256 : list byte -> list byte.
Variable Math_pow : number -> number -> number.
Variable getUTCFullYear : number -> number.
Variable getUTCMonth : number -> number.
Variable getUTCDate : number -> number.

Hypothesis keccak256_length : forall bs, List.length (keccak256 bs) = 32%nat.
Hypothesis Math_pow_unit :
  forall x y, inQ 0 1 x -> inQ (1 # 2) 1 y -> inQ 0 1 (Math_pow x y).

Variable derivedSeed : Z.
Variables finalMultiplier minPrice trendStrength volatilityBase volatilityDecay : number.
Variables gameStartTime tickIntervalMs gameTicks : number.
Variable K T : Z.

Hypothesis seed_range : (0 <= derivedSeed < 2 ^ 256)%Z.
Hypothesis K_range : (100 <= K <= 1000000)%Z.
Hypothesis final_eq : finalMultiplier = lit (K # 100).
Hypothesis final_range : inQ 1 10000 finalMultiplier.
Hypothesis minPrice_range : inQ 0 1 minPrice.
Hypothesis trend_range : inQ 0 1 trendStrength.
Hypothesis volBase_range : inQ 0 1 volatilityBase.
Hypothesis volDecay_range : inQ (1 # 2) 1 volatilityDecay.
Hypothesis T_range : (1 <= T <= 2 ^ 53)%Z.
Hypothesis gameTicks_eq : gameTicks = Fin (mk (inject_Z T)).

Abbreviation loop :=
  (ticks keccak256 Math_pow getUTCFullYear getUTCMonth getUTCDate derivedSeed
     finalMultiplier minPrice trendStrength volatilityBase volatilityDecay
     gameStartTime tickIntervalMs gameTicks).

Abbreviation under := (below finalMultiplier).

Abbreviation price := (tickPrice Math_pow finalMultiplier minPrice trendStrength
                     volatilityBase volatilityDecay).

Lemma below_fle x : under x -> fle x finalMultiplier = true.
Proof.
  intros [F [_ U]]. apply fle_fin; [exact F | apply final_range | exact U].
Qed.

Lemma below_inQ x : under x -> inQ 0 10000 x.
Proof.
  intros [F [L U]]. destruct final_range as [_ [_ Uf]].
  split; [exact F|]. split; lra.
Qed.

Lemma final_below : under finalMultiplier.
Proof.
  destruct final_range as [F [L U]]. split; [exact F|]. split; lra.
Qed.

Lemma one_below : under (lit 1).
Proof.
  destruct final_range as [F [L U]]. pose proof lit_1_val.
  split; [exact lit_1_fin|]. split; lra.
Qed.

Lemma final_hundredths : hundredths (val finalMultiplier) = K.
Proof.
  rewrite final_eq. unfold lit.
  rewrite (rnd_compat (K # 100) (inject_Z K / 100)).
  - apply hundredths_fix. exact K_range.
  - rewrite (Qmake_Qdiv K 100). reflexivity.
Qed.

(** rounding to two decimals never lifts a price above the final multiplier *)
Lemma round2_below x : under x -> under (round2 x).
Proof.
  intros B. pose proof (below_inQ x B) as R. destruct B as [F [L U]].
  destruct final_range as [Ff [Lf Uf]].
  pose proof (round2_veq x R) as V.
  pose proof (hundredths_range (val x) L ltac:(lra)) as [H0 H1].
  pose proof (hundredths_mono (val x) (val finalMultiplier) L U Uf) as M.
  rewrite final_hundredths in M.
  set (h := hundredths (val x)) in *.
  assert (h0 : 0 <= inject_Z h) by (change 0 with (inject_Z 0); rewrite <- Zle_Qle; lia).
  assert (hK : inject_Z h <= inject_Z K) by (rewrite <- Zle_Qle; lia).
  assert (k2 : inject_Z K <= 1000000)
    by (change 1000000 with (inject_Z 1000000); rewrite <- Zle_Qle; lia).
  assert (R2 : inQ 0 10000 (rnd (inject_Z h / 100))).
  { apply rnd_inQ; [repr_small | repr_small | |].
    - apply Qle_shift_div_l; lra.
    - apply Qle_shift_div_r; lra. }
  assert (N : nle (rnd (inject_Z h / 100)) finalMultiplier).
  { rewrite final_eq. unfold lit.
    rewrite (rnd_compat (K # 100) (inject_Z K / 100))
      by (rewrite (Qmake_Qdiv K 100); reflexivity).
    apply rnd_mono. apply Qmult_le_compat_r; [exact hK | discriminate]. }
  apply (proj1 (nle_fin _ _ (inQ_finite _ _ _ R2) Ff)) in N.
  destruct (veq_finite _ _ V (inQ_finite _ _ _ R2)) as [Fx Ex].
  destruct R2 as [_ [L2 _]].
  split; [exact Fx|]. split; lra.
Qed.

Lemma Math_max_below a b : under a -> under b -> under (Math_max a b).
Proof.
  intros [Fa [La Ua]] [Fb [Lb Ub]].
  destruct (Math_max_fin a b Fa Fb) as [F [_ [_ [C | C]]]]; split; try exact F; split; lra.
Qed.

Lemma Math_min_below a b : under a -> under b -> under (Math_min a b).
Proof.
  intros [Fa [La Ua]] [Fb [Lb Ub]].
  destruct (Math_min_fin a b Fa Fb) as [F [_ [_ [C | C]]]]; split; try exact F; split; lra.
Qed.

Lemma price_below progress r1 cp :
  inQ 0 1 progress -> inQ 0 1 r1 -> under cp -> under (price progress r1 cp).
Proof.
  intros Hp Hr Hc.
  apply (tickPrice_range Math_pow Math_pow_unit finalMultiplier minPrice trendStrength
           volatilityBase volatilityDecay final_range minPrice_range trend_range
           volBase_range volDecay_range progress r1 cp Hp Hr (below_inQ cp Hc)).
Qed.

(** the loop counter and the tick count as Numbers *)
Lemma gameTicks_fin : finite gameTicks.
Proof. rewrite gameTicks_eq. exact I. Qed.

Lemma gameTicks_val : val gameTicks == inject_Z T.
Proof. rewrite gameTicks_eq. apply val_Fin_mk. Qed.

Lemma counter_fin i : (0 <= i <= 2 ^ 53)%Z -> finite (ofZ i) /\ val (ofZ i) == inject_Z i.
Proof.
  intros H. rewrite (ofZ_int i) by lia. split; [exact I | apply val_Fin_mk].
Qed.

Lemma loop_test i : (0 <= i <= 2 ^ 53)%Z -> flt (ofZ i) gameTicks = true <-> (i < T)%Z.
Proof.
  intros H. destruct (counter_fin i H) as [F V].
  rewrite (flt_fin _ _ F gameTicks_fin), V, gameTicks_val. rewrite <- Zlt_Qlt. reflexivity.
Qed.

Lemma last_test i :
  (0 <= i <= 2 ^ 53)%Z ->
  feq (ofZ i) (fsub gameTicks (lit 1)) = true <-> (i = T - 1)%Z.
Proof.
  intros H. destruct (counter_fin i H) as [F V].
  pose proof (fsub_veq gameTicks (lit 1) gameTicks_fin lit_1_fin) as S.
  assert (R : rnd (val gameTicks - val (lit 1)) = Fin (mk (inject_Z (T - 1)))).
  { rewrite <- (repr_int (T - 1)) by lia. apply rnd_compat.
    rewrite gameTicks_val, lit_1_val. unfold Z.sub. rewrite inject_Z_plus. reflexivity. }
  rewrite R in S. destruct (veq_finite _ _ S I) as [Fs Vs].
  rewrite val_Fin_mk in Vs.
  rewrite (feq_fin _ _ F Fs), V, Vs. split.
  - intros E. apply (proj1 (inject_Z_injective i (T - 1))). exact E.
  - intros ->. reflexivity.
Qed.

Lemma progress_unit i : (0 <= i < T)%Z -> inQ 0 1 (fdiv (ofZ i) gameTicks).
Proof.
  intros H. destruct (counter_fin i ltac:(lia)) as [F V].
  pose proof gameTicks_val as G.
  assert (t1 : 1 <= inject_Z T) by (change 1 with (inject_Z 1); rewrite <- Zle_Qle; lia).
  assert (i0 : 0 <= inject_Z i) by (change 0 with (inject_Z 0); rewrite <- Zle_Qle; lia).
  assert (iT : inject_Z i <= inject_Z T) by (rewrite <- Zle_Qle; lia).
  apply fdiv_inQ; [exact F | exact gameTicks_fin | rewrite G; lra | exact repr_0 | exact repr_1 | |];
    rewrite V, G.
  - apply Qle_shift_div_l; lra.
  - apply Qle_shift_div_r; lra.
Qed.

Lemma loop_0 i prev cp :
  loop 0%nat i prev cp = if flt (ofZ i) gameTicks then OutOfFuel else Ok [].
Proof. reflexivity. Qed.

Lemma loop_S fuel i prev cp :
  loop (S fuel) i prev cp =
  if flt (ofZ i) gameTicks then
    let* r1 := getRandom keccak256 derivedSeed (i + 10) in
    let* r2 := getRandom keccak256 derivedSeed (i + 20) in
    let currentPrice := price (fdiv (ofZ i) gameTicks) r1 cp in
    let roundedMultiplier := round2 currentPrice in
    let t :=
      timeOf getUTCFullYear getUTCMonth getUTCDate
        (fmul (fadd gameStartTime (fdiv (fmul (ofZ i) tickIntervalMs) (lit 1000)))
           (lit 1000)) in
    if fge currentPrice finalMultiplier || feq (ofZ i) (fsub gameTicks (lit 1)) then
      Ok [ {| currentValue := Math_floor (fmul finalMultiplier (lit 100000));
              bar := {| open := prev;
                        high := Math_max prev finalMultiplier;
                        low := Math_min prev finalMultiplier;
                        close := finalMultiplier;
                        time := t |};
              gameState := 3;
              nextGameNoMoreBetsAt := lit 0 |} ]
    else
      let* rest := loop fuel (i + 1)%Z roundedMultiplier currentPrice in
      Ok ({| currentValue := Math_floor (fmul roundedMultiplier (lit 100000));
             bar := {| open := prev;
                       high := Math_max prev roundedMultiplier;
                       low := Math_min prev roundedMultiplier;
                       close := roundedMultiplier;
                       time := t |};
             gameState := 2;
             nextGameNoMoreBetsAt := lit 0 |} :: rest)
  else Ok [].
Proof. reflexivity. Qed.

Lemma loop_spec n :
  forall i fuel prev cp,
    (Z.of_nat n = T - i)%Z -> (0 <= i)%Z -> (n <= fuel)%nat ->
    under prev -> under cp ->
    exists us,
      loop fuel i prev cp = Ok us /\
      (List.length us <= n)%nat /\
      Forall (candleBelow finalMultiplier) us /\
      Forall candleShape us /\
      (n <> 0%nat -> crashedLast finalMultiplier us).
Proof.
  induction n as [|n IH]; intros i fuel prev cp Hn Hi Hf Bp Bc.
  - assert (E : flt (ofZ i) gameTicks = false).
    { destruct (flt (ofZ i) gameTicks) eqn:C; [|reflexivity].
      apply loop_test in C; lia. }
    exists []. split.
    + destruct fuel; [rewrite loop_0 | rewrite loop_S]; rewrite E; reflexivity.
    + repeat split; try constructor. intros C. congruence.
  - destruct fuel as [|fuel]; [lia|].
    assert (Hlt : (i < T)%Z) by lia.
    assert (E : flt (ofZ i) gameTicks = true) by (apply loop_test; lia).
    rewrite loop_S, E.
    rewrite !(getRandom_ok keccak256) by (try exact seed_range; lia).
    cbn [obind]. cbv zeta.
    pose proof (price_below (fdiv (ofZ i) gameTicks)
                  (ratio (digest keccak256 derivedSeed (i + 10))) cp
                  (progress_unit i ltac:(lia))
                  (rand_unit keccak256 keccak256_length derivedSeed (i + 10)) Bc) as Bq.
    set (q := price (fdiv (ofZ i) gameTicks)
                (ratio (digest keccak256 derivedSeed (i + 10))) cp) in *.
    pose proof (round2_below q Bq) as Br.
    set (t := timeOf getUTCFullYear getUTCMonth getUTCDate _).
    destruct (fge q finalMultiplier || feq (ofZ i) (fsub gameTicks (lit 1))) eqn:C.
    + eexists. split; [reflexivity|]. split; [cbn [List.length]; lia|].
      split; [|split].
      * constructor; [|constructor]. unfold candleBelow. cbn [bar open high low close].
        split; [apply below_fle; exact Bp|].
        split; [apply below_fle, Math_max_below; [exact Bp | exact final_below]|].
        split; [apply below_fle, Math_min_below; [exact Bp | exact final_below]|].
        apply below_fle, final_below.
      * constructor; [|constructor]. split; reflexivity.
      * intros _. eexists [], _. split; [reflexivity|]. split; [constructor|].
        split; reflexivity.
    + apply orb_false_iff in C. destruct C as [_ C].
      assert (Nl : (i <> T - 1)%Z).
      { intros El. apply (last_test i ltac:(lia)) in El. congruence. }
      destruct (IH (i + 1)%Z fuel (round2 q) q ltac:(lia) ltac:(lia) ltac:(lia) Br Bq)
        as [us [Eu [Lu [Fb [Fs Cl]]]]].
      rewrite Eu. cbn [obind].
      eexists. split; [reflexivity|]. split; [cbn [List.length]; lia|].
      split; [|split].
      * constructor; [|exact Fb]. unfold candleBelow. cbn [bar open high low close].
        split; [apply below_fle; exact Bp|].
        split; [apply below_fle, Math_max_below; [exact Bp | exact Br]|].
        split; [apply below_fle, Math_min_below; [exact Bp | exact Br]|].
        apply below_fle, Br.
      * constructor; [|exact Fs]. split; reflexivity.
      * intros _. destruct (Cl ltac:(lia)) as [init [u [E1 [F2 [G3 Cu]]]]].
        eexists (_ :: init), u. split; [rewrite E1; reflexivity|].
        split; [constructor; [reflexivity | exact F2]|]. split; assumption.
Qed.

End LoopFacts.

(** ** Round parameters and the tick count *)

Lemma repr_half : repr (1 # 2).
Proof. vm_compute. reflexivity. Qed.

Lemma affine_unit a b r :
  0 <= a -> a <= 1 # 2 -> 0 <= b -> b <= 1 # 2 -> inQ 0 1 r ->
  inQ 0 1 (fadd (lit a) (fmul r (lit b))).
Proof.
  intros A0 A1 B0 B1 [Fr [Lr Ur]].
  assert (Ra : inQ 0 (1 # 2) (lit a)) by (apply rnd_inQ; [exact repr_0 | exact repr_half | lra | lra]).
  assert (Rb : inQ 0 (1 # 2) (lit b)) by (apply rnd_inQ; [exact repr_0 | exact repr_half | lra | lra]).
  destruct Ra as [Fa [La Ua]]. destruct Rb as [Fb [Lb Ub]].
  assert (P : inQ 0 (1 # 2) (fmul r (lit b))).
  { apply fmul_inQ; [exact Fr | exact Fb | exact repr_0 | exact repr_half | nra | nra]. }
  destruct P as [Fp [Lp Up]].
  apply fadd_inQ; [exact Fa | exact Fp | exact repr_0 | exact repr_1 | lra | lra].
Qed.

Lemma volatilityDecay_range r :
  inQ 0 1 r -> inQ (1 # 2) 1 (fadd (lit (5 # 10)) (fmul r (lit (4 # 10)))).
Proof.
  intros [Fr [Lr Ur]].
  assert (Rb : inQ 0 (1 # 2) (lit (4 # 10)))
    by (apply rnd_inQ; [exact repr_0 | exact repr_half | lra | lra]).
  destruct Rb as [Fb [Lb Ub]].
  assert (P : inQ 0 (1 # 2) (fmul r (lit (4 # 10)))).
  { apply fmul_inQ; [exact Fr | exact Fb | exact repr_0 | exact repr_half | nra | nra]. }
  destruct P as [Fp [Lp Up]].
  rewrite lit_05.
  apply fadd_inQ; [exact I | exact Fp | exact repr_half | exact repr_1 | |];
    cbn [val]; rewrite mk_val; lra.
Qed.

Lemma span_27000 : fsub (lit 30000) (lit 3000) = Fin (mk 27000).
Proof. vm_compute. reflexivity. Qed.

Lemma lit_3000 : lit 3000 = Fin (mk 3000).
Proof. vm_compute. reflexivity. Qed.

Lemma duration_range r1 :
  inQ 0 1 r1 ->
  inQ 3000 30000
    (fadd (lit 3000) (Math_floor (fmul r1 (fsub (lit 30000) (lit 3000))))).
Proof.
  intros [Fr [Lr Ur]]. rewrite span_27000, lit_3000.
  assert (P : inQ 0 27000 (fmul r1 (Fin (mk 27000)))).
  { apply fmul_inQ; [exact Fr | exact I | repr_small | repr_small | |];
      cbn [val]; rewrite mk_val; lra. }
  destruct P as [Fp [Lp Up]].
  destruct (Math_floor_fin _ Fp) as [Ff Vf].
  assert (Z0 : (0 <= Qfloor (val (fmul r1 (Fin (mk 27000)))))%Z)
    by (apply Qfloor_ge; exact Lp).
  assert (Z1 : (Qfloor (val (fmul r1 (Fin (mk 27000)))) <= 27000)%Z).
  { apply Z.lt_succ_r. apply Qfloor_lt. change (inject_Z (Z.succ 27000)) with 27001. lra. }
  rewrite Zle_Qle in Z0, Z1. change (inject_Z 0) with 0 in Z0.
  change (inject_Z 27000) with 27000 in Z1.
  apply fadd_inQ; [exact I | exact Ff | repr_small | repr_small | |];
    cbn [val]; rewrite mk_val, Vf; lra.
Qed.

Lemma repr_tiny : repr (1 # 2 ^ 1013).
Proof. vm_compute. reflexivity. Qed.

Lemma totalTicks_range r1 t :
  inQ 0 1 r1 -> tickOK t ->
  exists T : Z, (1 <= T <= 2 ^ 53)%Z /\ totalTicksOf r1 t = Fin (mk (inject_Z T)).
Proof.
  intros Hr [Ft [Lt Ut]]. unfold totalTicksOf. cbv zeta.
  destruct (duration_range r1 Hr) as [Fd [Ld Ud]].
  set (d := fadd (lit 3000) (Math_floor (fmul r1 (fsub (lit 30000) (lit 3000))))) in *.
  assert (P38 : 0 < 1 # 2 ^ 38) by reflexivity.
  assert (P1024 : 0 < inject_Z (2 ^ 1024)) by reflexivity.
  assert (Q : inQ (1 # 2 ^ 1013) 8246337208320000 (fdiv d t)).
  { apply fdiv_inQ; [exact Fd | exact Ft | lra | exact repr_tiny | repr_small | |].
    - apply Qle_shift_div_l; [lra|].
      apply Qle_trans with ((1 # 2 ^ 1013) * inject_Z (2 ^ 1024)).
      + apply Qmult_le_l; [reflexivity | exact Ut].
      + assert (E : (1 # 2 ^ 1013) * inject_Z (2 ^ 1024) == 2048) by reflexivity.
        rewrite E. lra.
    - apply Qle_shift_div_r; [lra|].
      apply Qle_trans with (8246337208320000 * (1 # 2 ^ 38)).
      + assert (E : 8246337208320000 * (1 # 2 ^ 38) == 30000) by reflexivity.
        rewrite E. exact Ud.
      + apply Qmult_le_l; [reflexivity | exact Lt]. }
  destruct Q as [Fq [Lq Uq]].
  assert (Pt : 0 < 1 # 2 ^ 1013) by reflexivity.
  destruct (fdiv d t) as [| | | |q] eqn:Eq; cbn [finite] in Fq; try contradiction;
    cbn [val] in Lq, Uq.
  cbn [Math_ceil].
  assert (C1 : (1 <= Qceiling q)%Z).
  { assert (0 < inject_Z (Qceiling q)).
    { apply Qlt_le_trans with q; [lra | apply Qle_ceiling]. }
    change 0 with (inject_Z 0) in H. rewrite <- Zlt_Qlt in H. lia. }
  assert (C2 : (Qceiling q <= 8246337208320000)%Z).
  { apply Qceiling_le. exact Uq. }
  exists (Qceiling q). split; [lia|].
  assert (Z : (Qceiling q =? 0)%Z = false) by (apply Z.eqb_neq; lia).
  rewrite Z. reflexivity.
Qed.

End TickFacts.
Import TickFacts.

Section Generator.

Variable keccak256 : list byte -> list byte.
Variable Math_pow : number -> number -> number.
Variable parseInt : string -> number.
Variable getUTCFullYear : number -> number.
Variable getUTCMonth : number -> number.
Variable getUTCDate : number -> number.

Abbreviation generate :=
  (generateCrashGame keccak256 Math_pow parseInt getUTCFullYear getUTCMonth getUTCDate).

Abbreviation tickLoop :=
  (ticks keccak256 Math_pow getUTCFullYear getUTCMonth getUTCDate).

(** more fuel never changes a result *)
Lemma ticks_fuel_mono s fm mp ts vb vd st ti gt fuel :
  forall i prev cp us,
    tickLoop s fm mp ts vb vd st ti gt fuel i prev cp = Ok us ->
    forall fuel', (fuel <= fuel')%nat ->
    tickLoop s fm mp ts vb vd st ti gt fuel' i prev cp = Ok us.
Proof.
  induction fuel as [|fuel IH]; intros i prev cp us H fuel' Hf.
  - rewrite loop_0 in H. destruct (flt (ofZ i) gt) eqn:E; [discriminate|].
    destruct fuel'; [rewrite loop_0 | rewrite loop_S]; rewrite E; exact H.
  - destruct fuel' as [|fuel']; [lia|].
    rewrite loop_S in H. rewrite loop_S.
    destruct (flt (ofZ i) gt); [|exact H].
    destruct (getRandom keccak256 s (i + 10)) as [r1| |]; cbn [obind] in *; try discriminate.
    destruct (getRandom keccak256 s (i + 20)) as [r2| |]; cbn [obind] in *; try discriminate.
    cbv zeta in *.
    destruct (fge _ fm || feq (ofZ i) (fsub gt (lit 1))); [exact H|].
    destruct (tickLoop s fm mp ts vb vd st ti gt fuel (i + 1) _ _) as [rest| |] eqn:R;
      cbn [obind] in H; try discriminate.
    rewrite (IH _ _ _ _ R fuel') by lia. exact H.
Qed.

Lemma ticks_fuel_agree s fm mp ts vb vd st ti gt f1 f2 i prev cp us1 us2 :
  tickLoop s fm mp ts vb vd st ti gt f1 i prev cp = Ok us1 ->
  tickLoop s fm mp ts vb vd st ti gt f2 i prev cp = Ok us2 ->
  us1 = us2.
Proof.
  intros H1 H2.
  pose proof (ticks_fuel_mono _ _ _ _ _ _ _ _ _ _ _ _ _ _ H1 (Nat.max f1 f2) (Nat.le_max_l _ _)) as A.
  pose proof (ticks_fuel_mono _ _ _ _ _ _ _ _ _ _ _ _ _ _ H2 (Nat.max f1 f2) (Nat.le_max_r _ _)) as B.
  congruence.
Qed.

Lemma generate_fuel_agree f1 f2 input r1 r2 :
  generate f1 input = Ok r1 -> generate f2 input = Ok r2 -> r1 = r2.
Proof.
  unfold generateCrashGame. intros H1 H2.
  destruct (deriveSeed keccak256 _ _ _ _) as [s| |]; cbn [obind] in *; try discriminate.
  destruct (getRandom keccak256 s 0) as [x0| |]; cbn [obind] in *; try discriminate.
  destruct (getRandom keccak256 s 1) as [x1| |]; cbn [obind] in *; try discriminate.
  destruct (crashPoint x0) as [fm raw].
  destruct (getRandom keccak256 s 2) as [x2| |]; cbn [obind] in *; try discriminate.
  destruct (getRandom keccak256 s 3) as [x3| |]; cbn [obind] in *; try discriminate.
  destruct (getRandom keccak256 s 4) as [x4| |]; cbn [obind] in *; try discriminate.
  destruct (getRandom keccak256 s 5) as [x5| |]; cbn [obind] in *; try discriminate.
  cbv zeta in *.
  destruct (tickLoop s fm _ _ _ _ _ _ _ f1 0 _ _) as [u1| |] eqn:E1;
    cbn [obind] in H1; try discriminate.
  destruct (tickLoop s fm _ _ _ _ _ _ _ f2 0 _ _) as [u2| |] eqn:E2;
    cbn [obind] in H2; try discriminate.
  rewrite (ticks_fuel_agree _ _ _ _ _ _ _ _ _ _ _ _ _ _ _ _ E1 E2) in H1. congruence.
Qed.

End Generator.

(** ** The generator as a whole *)

Lemma Ok_inj {A : Type} (a b : A) : Ok a = Ok b -> a = b.
Proof. intros H. injection H as ->. reflexivity. Qed.

Section Generation.

Variable keccak256 : list byte -> list byte.
Variable Math_pow : number -> number -> number.
Variable parseInt : string -> number.
Variable getUTCFullYear : number -> number.
Variable getUTCMonth : number -> number.
Variable getUTCDate : number -> number.

Hypothesis keccak256_length : forall bs, List.length (keccak256 bs) = 32%nat.
Hypothesis Math_pow_unit :
  forall x y, inQ 0 1 x -> inQ (1 # 2) 1 y -> inQ 0 1 (Math_pow x y).

Abbreviation run :=
  (generateCrashGame keccak256 Math_pow parseInt getUTCFullYear getUTCMonth getUTCDate).

(** the first draw of a run and the multiplier it fixes *)
Lemma generate_final input :
  validInput input ->
  exists s r0 K,
    deriveSeed keccak256 (vrfRandom input) (roundId input) (serverSeed input)
      (chainId input) = Ok s /\
    getRandom keccak256 s 0 = Ok r0 /\
    r0 <> NaN /\
    (100 <= K <= 1000000)%Z /\
    fst (crashPoint r0) = lit (K # 100) /\
    inQ 1 10000 (fst (crashPoint r0)) /\
    forall fuel res,
      run fuel input = Ok res ->
      finalMultiplier res = fst (crashPoint r0) /\
      rawMultiplier res = snd (crashPoint r0).
Proof.
  intros V. destruct (validInput_deriveSeed keccak256 keccak256_length input V) as [s [D R]].
  pose proof (rand_not_nan keccak256 keccak256_length s 0) as N0.
  destruct (crashPoint_final _ N0) as [K [KR [FE FR]]].
  exists s, (ratio (digest keccak256 s 0)), K.
  split; [exact D|].
  split; [apply getRandom_ok; [exact R | vm_compute; split; congruence]|].
  split; [exact N0|]. split; [exact KR|]. split; [exact FE|]. split; [exact FR|].
  intros fuel res H.
  rewrite (generateCrashGame_unfold keccak256 Math_pow parseInt getUTCFullYear
             getUTCMonth getUTCDate keccak256_length fuel input s D) in H.
  cbv beta zeta in H.
  match type of H with obind ?m _ = _ => destruct m as [us| |] end;
    cbn [obind] in H; [|discriminate H|discriminate H].
  apply Ok_inj in H. rewrite <- H. cbn [finalMultiplier rawMultiplier].
  split; reflexivity.
Qed.

(** with a tick interval in range the loop ends within the tick count, and
    the sequence it leaves has the shape the specification describes *)
(** the run of a valid input: the seed [s], the draw [r1] the duration is
    taken from, the tick count [T] the code computes from it, and the result *)
Lemma generate_ticks input :
  validInput input -> tickOK (tickIntervalMs input) ->
  exists (s : Z) (r1 : number) (T : Z) (res : CrashGameResult),
    deriveSeed keccak256 (vrfRandom input) (roundId input) (serverSeed input)
      (chainId input) = Ok s /\
    getRandom keccak256 s 1 = Ok r1 /\
    totalTicksOf r1 (tickIntervalMs input) = ofZ T /\
    (1 <= T <= 2 ^ 53)%Z /\
    (forall fuel, (Z.to_nat T <= fuel)%nat -> run fuel input = Ok res) /\
    (List.length (updates res) <= Z.to_nat T)%nat /\
    crashedLast (finalMultiplier res) (updates res) /\
    Forall (candleBelow (finalMultiplier res)) (updates res) /\
    Forall candleShape (updates res).
Proof.
  intros V TK.
  destruct (validInput_deriveSeed keccak256 keccak256_length input V) as [s [D R]].
  pose proof (rand_not_nan keccak256 keccak256_length s 0) as N0.
  destruct (crashPoint_final _ N0) as [K [KR [FE FR]]].
  pose proof (rand_unit keccak256 keccak256_length s) as U.
  destruct (totalTicks_range _ _ (U 1%Z) TK) as [T [TR TE]].
  set (fm := fst (crashPoint (ratio (digest keccak256 s 0)))) in *.
  set (raw := snd (crashPoint (ratio (digest keccak256 s 0)))).
  set (minPrice := fadd (lit (40 # 100)) (fmul (ratio (digest keccak256 s 2)) (lit (30 # 100)))).
  set (trend := fadd (lit (15 # 100)) (fmul (ratio (digest keccak256 s 3)) (lit (30 # 100)))).
  set (volBase := fadd (lit (15 # 1000)) (fmul (ratio (digest keccak256 s 4)) (lit (20 # 1000)))).
  set (volDecay := fadd (lit (5 # 10)) (fmul (ratio (digest keccak256 s 5)) (lit (4 # 10)))).
  assert (Hmin : inQ 0 1 minPrice) by (apply affine_unit; [lra | lra | lra | lra | apply U]).
  assert (Htrend : inQ 0 1 trend) by (apply affine_unit; [lra | lra | lra | lra | apply U]).
  assert (Hbase : inQ 0 1 volBase) by (apply affine_unit; [lra | lra | lra | lra | apply U]).
  assert (Hdecay : inQ (1 # 2) 1 volDecay) by (apply volatilityDecay_range, U).
  destruct (loop_spec keccak256 Math_pow getUTCFullYear getUTCMonth getUTCDate
              keccak256_length Math_pow_unit s fm minPrice trend volBase volDecay
              (parseInt (startTimestamp input)) (tickIntervalMs input)
              (totalTicksOf (ratio (digest keccak256 s 1)) (tickIntervalMs input))
              K T R KR FE FR Hmin Htrend Hbase Hdecay TR TE
              (Z.to_nat T) 0%Z (Z.to_nat T) (lit 1) (lit 1)
              ltac:(lia) ltac:(lia) ltac:(lia)
              (one_below fm FR) (one_below fm FR))
    as [us [E [Len [B [S C]]]]].
  exists s, (ratio (digest keccak256 s 1)), T,
    {| updates := us; finalMultiplier := fm; rawMultiplier := raw |}.
  split; [exact D|].
  split; [apply (getRandom_ok keccak256 s 1 R); lia|].
  split; [rewrite TE; symmetry; apply ofZ_int; lia|].
  split; [exact TR|]. split.
  - intros fuel Hf.
    rewrite (generateCrashGame_unfold keccak256 Math_pow parseInt getUTCFullYear
               getUTCMonth getUTCDate keccak256_length fuel input s D).
    cbv beta zeta. subst fm raw minPrice trend volBase volDecay.
    rewrite (ticks_fuel_mono keccak256 Math_pow getUTCFullYear getUTCMonth getUTCDate
               _ _ _ _ _ _ _ _ _ _ _ _ _ _ E fuel Hf).
    reflexivity.
  - cbn [updates finalMultiplier]. split; [exact Len|].
    split; [apply C; lia|]. split; [exact B | exact S].
Qed.

Lemma generate_returns input :
  validInput input -> tickOK (tickIntervalMs input) ->
  exists (T : Z) (res : CrashGameResult),
    (1 <= T <= 2 ^ 53)%Z /\
    (forall fuel, (Z.to_nat T <= fuel)%nat -> run fuel input = Ok res) /\
    (List.length (updates res) <= Z.to_nat T)%nat /\
    crashedLast (finalMultiplier res) (updates res) /\
    Forall (candleBelow (finalMultiplier res)) (updates res) /\
    Forall candleShape (updates res).
Proof.
  intros V TK.
  destruct (generate_ticks input V TK) as [s [r1 [T [res [_ [_ [_ P]]]]]]].
  exists T, res. exact P.
Qed.

End Generation.

(** ** revealServerSeed *)

Section Reveal.

Import Contract.

Variable keccak256 : list byte -> list byte.

Lemma revealServerSeed_ready st roundId seed :
  status (getRoundOf st roundId) = RandomReady ->
  revealServerSeed keccak256 st roundId seed =
  if bool_decide (keccak256 seed = serverSeedHash (getRoundOf st roundId))
  then Success
         {| rounds :=
              <[roundId := {| serverSeedHash := serverSeedHash (getRoundOf st roundId);
                              serverSeed := seed;
                              sequenceNumber := sequenceNumber (getRoundOf st roundId);
                              entropyRandom := entropyRandom (getRoundOf st roundId);
                              status := SeedRevealed |}]> (rounds st);
            operator := operator st;
            bets := bets st;
            claimablePayouts := claimablePayouts st;
            roundFinalMultipliers := roundFinalMultipliers st;
            roundSettled := roundSettled st;
            tokenBalance := tokenBalance st;
            events := events st ++ [ServerSeedRevealed roundId seed] |}
  else Revert "Server seed hash mismatch".
Proof.
  intros H. unfold revealServerSeed. rewrite H.
  rewrite bool_decide_eq_true_2 by reflexivity. cbn [require rbind].
  destruct (bool_decide (keccak256 seed = serverSeedHash (getRoundOf st roundId)));
    reflexivity.
Qed.

Lemma revealServerSeed_not_ready st roundId seed :
  status (getRoundOf st roundId) <> RandomReady ->
  revealServerSeed keccak256 st roundId seed = Revert "Randomness not ready".
Proof.
  intros H. unfold revealServerSeed.
  rewrite bool_decide_eq_false_2 by exact H. reflexivity.
Qed.

End Reveal.

(** ** processCashOuts *)

Module ContractFacts.
Import Contract.

Lemma require_success b r : require b r = Success tt -> b = true.
Proof. destruct b; [reflexivity | discriminate]. Qed.

Lemma checked_success x y : checked x = Success y -> y = x.
Proof. unfold checked. destruct (x <=? uint256_max)%Z; [congruence | discriminate]. Qed.

Lemma processCashOut_spec roundId fm st c st' :
  processCashOut roundId fm st c = Success st' ->
  (0 < amount (getBetOf st roundId (wallet c)))%Z /\
  settled (getBetOf st roundId (wallet c)) = false /\
  (10 ^ 18 <= multiplier c <= fm)%Z /\
  claimablePayouts st' =
    <[wallet c := (claimableOf st (wallet c)
                   + payoutOf (amount (getBetOf st roundId (wallet c))) (multiplier c)
                       (tokenBalance st))%Z]> (claimablePayouts st) /\
  bets st' =
    <[(roundId, wallet c) :=
        {| amount := amount (getBetOf st roundId (wallet c));
           cashOutMultiplier := multiplier c; settled := true |}]> (bets st) /\
  tokenBalance st' = tokenBalance st /\ operator st' = operator st /\
  roundSettled st' = roundSettled st /\
  roundFinalMultipliers st' = roundFinalMultipliers st /\
  rounds st' = rounds st /\ events st' = events st.
Proof.
  unfold processCashOut. intros H.
  destruct (require (0 <? amount (getBetOf st roundId (wallet c)))%Z "No bet found") as [[]|] eqn:R1;
    cbn [rbind] in H; try discriminate.
  destruct (require (negb (settled (getBetOf st roundId (wallet c)))) "Already settled") as [[]|] eqn:R2;
    cbn [rbind] in H; try discriminate.
  destruct (require (10 ^ 18 <=? multiplier c)%Z "Multiplier too low") as [[]|] eqn:R3;
    cbn [rbind] in H; try discriminate.
  destruct (require (multiplier c <=? fm)%Z "Multiplier too high") as [[]|] eqn:R4;
    cbn [rbind] in H; try discriminate.
  destruct (checked (amount (getBetOf st roundId (wallet c)) * multiplier c)) as [p|] eqn:C1;
    cbn [rbind] in H; try discriminate.
  destruct (checked (p / 10 ^ 18 * (BPS_DENOMINATOR - HOUSE_EDGE_BPS))) as [q|] eqn:C2;
    cbn [rbind] in H; try discriminate.
  destruct (checked (tokenBalance st * MAX_WIN_PERCENTAGE_BPS)) as [m|] eqn:C3;
    cbn [rbind] in H; try discriminate.
  match type of H with
  | rbind (checked ?x) _ = _ => destruct (checked x) as [cr|] eqn:C4
  end; cbn [rbind] in H; try discriminate.
  injection H as <-. cbn [claimablePayouts bets tokenBalance operator roundSettled
                          roundFinalMultipliers rounds events].
  apply require_success in R1, R2, R3, R4.
  apply checked_success in C1, C2, C3, C4. subst p q m cr.
  apply Z.ltb_lt in R1. apply negb_true_iff in R2.
  apply Z.leb_le in R3. apply Z.leb_le in R4.
  repeat split; try assumption; try reflexivity.
  f_equal. f_equal. unfold payoutOf.
  set (a := (amount (getBetOf st roundId (wallet c)) * multiplier c / 10 ^ 18
             * (BPS_DENOMINATOR - HOUSE_EDGE_BPS) / BPS_DENOMINATOR)%Z).
  set (b := (tokenBalance st * MAX_WIN_PERCENTAGE_BPS / BPS_DENOMINATOR)%Z).
  destruct (b <? a)%Z eqn:E; [apply Z.ltb_lt in E | apply Z.ltb_ge in E]; lia.
Qed.

Lemma claimableOf_insert st st' w v u :
  claimablePayouts st' = <[w := v]> (claimablePayouts st) ->
  claimableOf st' u = if decide (w = u) then v else claimableOf st u.
Proof.
  intros E. unfold claimableOf. rewrite E.
  destruct (decide (w = u)) as [-> | N].
  - rewrite lookup_insert_eq. reflexivity.
  - rewrite lookup_insert_ne by exact N. reflexivity.
Qed.

Lemma getBetOf_insert st st' r w b u :
  bets st' = <[(r, w) := b]> (bets st) ->
  getBetOf st' r u = if decide (w = u) then b else getBetOf st r u.
Proof.
  intros E. unfold getBetOf. rewrite E.
  destruct (decide (w = u)) as [-> | N].
  - rewrite lookup_insert_eq. reflexivity.
  - rewrite lookup_insert_ne by congruence. reflexivity.
Qed.

(** a successful run of the loop credits every entry once, in order *)
Lemma processLoop_spec roundId fm cashOuts :
  forall st st',
    processLoop roundId fm st cashOuts = Success st' ->
    List.NoDup (List.map wallet cashOuts) /\
    Forall (fun c => settled (getBetOf st roundId (wallet c)) = false
                     /\ (0 < amount (getBetOf st roundId (wallet c)))%Z
                     /\ (10 ^ 18 <= multiplier c <= fm)%Z) cashOuts /\
    (forall c, In c cashOuts ->
       claimableOf st' (wallet c) =
       (claimableOf st (wallet c)
        + payoutOf (amount (getBetOf st roundId (wallet c))) (multiplier c)
            (tokenBalance st))%Z) /\
    (forall w, ~ In w (List.map wallet cashOuts) ->
       claimableOf st' w = claimableOf st w /\
       getBetOf st' roundId w = getBetOf st roundId w) /\
    (forall c, In c cashOuts -> settled (getBetOf st' roundId (wallet c)) = true) /\
    tokenBalance st' = tokenBalance st /\ operator st' = operator st /\
    roundSettled st' = roundSettled st /\
    roundFinalMultipliers st' = roundFinalMultipliers st.
Proof.
  induction cashOuts as [|c rest IH]; intros st st' H.
  - cbn [processLoop] in H. injection H as <-.
    repeat split; try constructor; try reflexivity; intros c [].
  - cbn [processLoop] in H.
    destruct (processCashOut roundId fm st c) as [st1|] eqn:E1; cbn [rbind] in H;
      try discriminate.
    destruct (processCashOut_spec _ _ _ _ _ E1)
      as [A1 [A2 [A3 [A4 [A5 [A6 [A7 [A8 [A9 _]]]]]]]]].
    destruct (IH st1 st' H) as [B1 [B2 [B3 [B4 [B5 [B6 [B7 [B8 B9]]]]]]]].
    assert (Fresh : ~ In (wallet c) (List.map wallet rest)).
    { intros Hin. apply in_map_iff in Hin. destruct Hin as [d [Ed Hd]].
      rewrite List.Forall_forall in B2. destruct (B2 d Hd) as [S _].
      rewrite (getBetOf_insert st st1 _ _ _ (wallet d) A5) in S.
      rewrite decide_True in S by (symmetry; exact Ed). cbn in S. discriminate. }
    split; [cbn [List.map]; apply List.NoDup_cons; assumption|].
    split.
    { constructor; [repeat split; assumption || lia|].
      rewrite List.Forall_forall in *. intros d Hd. destruct (B2 d Hd) as [S [P M]].
      assert (Nd : wallet c <> wallet d).
      { intros Ed. apply Fresh. apply in_map_iff. exists d. split; [symmetry|]; assumption. }
      rewrite (getBetOf_insert st st1 _ _ _ (wallet d) A5) in S, P.
      rewrite decide_False in S, P by exact Nd. repeat split; assumption || lia. }
    split.
    { intros d [<- | Hd].
      - destruct (B4 (wallet c) Fresh) as [Cc _]. rewrite Cc.
        rewrite (claimableOf_insert st st1 _ _ (wallet c) A4).
        rewrite decide_True by reflexivity. reflexivity.
      - assert (Nd : wallet c <> wallet d).
        { intros Ed. apply Fresh. apply in_map_iff. exists d. split; [symmetry|]; assumption. }
        rewrite (B3 d Hd).
        rewrite (claimableOf_insert st st1 _ _ (wallet d) A4).
        rewrite (getBetOf_insert st st1 _ _ _ (wallet d) A5).
        rewrite !decide_False by exact Nd. rewrite A6. reflexivity. }
    split.
    { intros w Hw. cbn [List.map List.In] in Hw.
      assert (Nw : wallet c <> w) by tauto.
      assert (Hr : ~ In w (List.map wallet rest)) by tauto.
      destruct (B4 w Hr) as [Cw Bw]. rewrite Cw, Bw.
      rewrite (claimableOf_insert st st1 _ _ w A4).
      rewrite (getBetOf_insert st st1 _ _ _ w A5).
      rewrite !decide_False by exact Nw. split; reflexivity. }
    split.
    { intros d [<- | Hd].
      - destruct (B4 (wallet c) Fresh) as [_ Bc]. rewrite Bc.
        rewrite (getBetOf_insert st st1 _ _ _ (wallet c) A5).
        rewrite decide_True by reflexivity. reflexivity.
      - apply B5. exact Hd. }
    repeat split; congruence.
Qed.

Lemma processLoop_app roundId fm a b :
  forall st,
    processLoop roundId fm st (a ++ b) =
    rbind (processLoop roundId fm st a) (fun st' => processLoop roundId fm st' b).
Proof.
  induction a as [|c a IH]; intros st; [reflexivity|].
  cbn [app processLoop].
  destruct (processCashOut roundId fm st c) as [st1|]; cbn [rbind]; [apply IH | reflexivity].
Qed.

End ContractFacts.

(** ** Settlement batches *)

Module ServerFacts.
Import Server ContractFacts.

Ltac div_lia := Z.to_euclidean_division_equations; lia.

Lemma ceil_step x :
  (15 < x)%nat -> ((x - 15 + 14) / 15 + 1 = (x + 14) / 15)%nat.
Proof.
  intros H. replace (x + 14)%nat with ((x - 15 + 14) + 1 * 15)%nat by lia.
  rewrite Nat.div_add by lia. lia.
Qed.

Lemma ceil_small x : (1 <= x <= 15)%nat -> ((x + 14) / 15 = 1)%nat.
Proof.
  intros H. replace (x + 14)%nat with ((x - 1) + 1 * 15)%nat by lia.
  rewrite Nat.div_add by lia. rewrite Nat.div_small by lia. reflexivity.
Qed.

Lemma batchLoop_spec {A : Type} (data : list A) fuel :
  forall i,
    (List.length data - i <= fuel)%nat ->
    List.concat (batchLoop fuel i data) = skipn i data /\
    List.length (batchLoop fuel i data) = ((List.length data - i + 14) / 15)%nat /\
    List.Forall (fun b => (1 <= List.length b <= 15)%nat) (batchLoop fuel i data).
Proof.
  induction fuel as [|fuel IH]; intros i H.
  - cbn [batchLoop List.concat List.length].
    rewrite skipn_all2 by lia.
    replace (List.length data - i)%nat with 0%nat by lia.
    repeat split; try reflexivity. constructor.
  - cbn [batchLoop]. destruct (i <? List.length data)%nat eqn:E.
    + apply Nat.ltb_lt in E.
      destruct (IH (i + BATCH_SIZE)%nat ltac:(unfold BATCH_SIZE; lia)) as [C [L F]].
      unfold BATCH_SIZE in *. cbn [List.concat List.length].
      split; [|split].
      * rewrite C. unfold slice. replace (i + 15 - i)%nat with 15%nat by lia.
        replace (i + 15)%nat with (15 + i)%nat by lia.
        rewrite <- skipn_skipn. apply firstn_skipn.
      * rewrite L.
        destruct (Nat.le_gt_cases (List.length data - i) 15) as [S | B].
        -- replace (List.length data - (i + 15))%nat with 0%nat by lia.
           rewrite (ceil_small (List.length data - i)) by lia. reflexivity.
        -- replace (List.length data - (i + 15))%nat
             with (List.length data - i - 15)%nat by lia.
           rewrite <- (ceil_step (List.length data - i)) by lia. lia.
      * constructor; [|exact F]. unfold slice.
        rewrite length_firstn, length_skipn. lia.
    + apply Nat.ltb_ge in E. cbn [List.concat List.length].
      rewrite skipn_all2 by lia.
      replace (List.length data - i)%nat with 0%nat by lia.
      repeat split; try reflexivity. constructor.
Qed.

(** the batches of [N] entries: ceil(N/15) of them, each of 1 to 15 entries,
    together the entries in their order *)
Lemma batches_of {A : Type} (data : list A) :
  let batches := batchLoop (List.length data) 0 data in
  List.concat batches = data /\
  List.length batches = ((List.length data + 14) / 15)%nat /\
  List.Forall (fun b => (1 <= List.length b <= 15)%nat) batches.
Proof.
  cbv zeta. destruct (batchLoop_spec data (List.length data) 0 ltac:(lia)) as [C [L F]].
  rewrite Nat.sub_0_r in L. cbn [skipn] in C. repeat split; assumption.
Qed.

Section Submit.

Variable addressOf : string -> Contract.address.

Lemma processCashOuts_success st sender roundId batch st' :
  Contract.processCashOuts st sender roundId batch = Contract.Success st' ->
  sender = Contract.operator st /\
  Contract.roundSettled st !! roundId = Some true /\
  (0 < default 0%Z (Contract.roundFinalMultipliers st !! roundId))%Z /\
  Contract.processLoop roundId (default 0%Z (Contract.roundFinalMultipliers st !! roundId))
    st batch = Contract.Success st'.
Proof.
  unfold Contract.processCashOuts. intros H.
  destruct (Contract.require (bool_decide (sender = Contract.operator st)) "Not operator")
    as [[]|] eqn:R1; cbn [Contract.rbind] in H; try discriminate.
  destruct (Contract.require (default false (Contract.roundSettled st !! roundId))
              "Round not settled") as [[]|] eqn:R2; cbn [Contract.rbind] in H; try discriminate.
  destruct (Contract.require
              (0 <? default 0%Z (Contract.roundFinalMultipliers st !! roundId))%Z
              "Invalid round") as [[]|] eqn:R3; cbn [Contract.rbind] in H; try discriminate.
  apply require_success in R1, R2, R3.
  apply bool_decide_eq_true_1 in R1. apply Z.ltb_lt in R3.
  repeat split; try assumption.
  destruct (Contract.roundSettled st !! roundId) as [[]|]; cbn in R2; congruence.
Qed.

Lemma toCashOutData_wallets cashOuts data :
  toCashOutData addressOf cashOuts = Some data ->
  List.map Contract.wallet data = List.map (fun co => addressOf (walletAddress co)) cashOuts /\
  Forall2 (fun co c => exists x, multiplier co = Js.JNumber x /\
                                 toWei x = Some (Contract.multiplier c)) cashOuts data.
Proof.
  unfold toCashOutData. revert data.
  induction cashOuts as [|co rest IH]; intros data H.
  - cbn in H. injection H as <-. split; [reflexivity | constructor].
  - cbn [mapM] in H. cbv beta in H.
    destruct (multiplier co) as [| | | x | | |] eqn:Mx; cbn in H; try discriminate.
    destruct (toWei x) as [m|] eqn:W; cbn in H; [|discriminate].
    destruct (mapM _ rest) as [data'|] eqn:M; cbn in H; [|discriminate].
    injection H as <-. destruct (IH data' eq_refl) as [I1 I2].
    cbn [List.map Contract.wallet Contract.multiplier]. rewrite I1.
    split; [reflexivity|].
    constructor; [exists x; split; [exact Mx | exact W] | exact I2].
Qed.

End Submit.

End ServerFacts.


Lemma sample_hash_length bs : List.length (Sample.hash bs) = 32%nat.
Proof.
  unfold Sample.hash. rewrite length_firstn, length_app, repeat_length. lia.
Qed.

Lemma sample_pow_unit x y : inQ 0 1 x -> inQ (1 # 2) 1 y -> inQ 0 1 (Sample.pow x y).
Proof. intros H _. exact H. Qed.

(** * Part IV: the properties of the specification *)



Lemma viem_pad32 v : Viem.pad32 v = pad32 v.
Proof.
  unfold Viem.pad32.
  destruct (v <? 0)%Z eqn:N.
  - symmetry. apply pad32_throws. left. apply Z.ltb_lt. exact N.
  - destruct (2 ^ 256 <=? v)%Z eqn:U.
    + symmetry. apply pad32_throws. right. apply Z.leb_le. exact U.
    + symmetry. apply pad32_be32. split; [apply Z.ltb_ge; exact N | apply Z.leb_gt; exact U].
Qed.

Section Seed.

Variable keccak256 : list byte -> list byte.


(** X27: the verification page derives the seed the backend derives for
    every secret seed that is not hex text, that is, not [0x] followed by
    hex digits only: both return the same integer, or both throw. *)
Theorem verify_deriveSeed_agrees (vrfRandom : Z) (roundId : number)
    (serverSeed : string) (chainId : number) :
  Viem.isHex serverSeed = false ->
  VerifyGame.deriveSeed keccak256 vrfRandom roundId serverSeed chainId
  = deriveSeed keccak256 vrfRandom roundId serverSeed chainId.
Proof.
  intros N. unfold VerifyGame.deriveSeed, deriveSeed, Viem.toBytes. cbv zeta.
  rewrite N, !viem_pad32.
  destruct (pad32 vrfRandom) as [vb| |]; cbn [obind]; try reflexivity.
  destruct (toBigInt roundId) as [rb|]; cbn [obind of_option]; try reflexivity.
  rewrite viem_pad32.
  destruct (pad32 rb) as [rbs| |]; cbn [obind]; try reflexivity.
  destruct (toBigInt chainId) as [cb|]; cbn [obind of_option]; try reflexivity.
  rewrite viem_pad32. reflexivity.
Qed.

(** for a secret seed that is hex text the page hashes the bytes the text
    denotes in the place of the bytes of the text *)
Lemma verify_deriveSeed_hex (vrfRandom : Z) (roundId : number)
    (serverSeed : string) (chainId : number) (r c : Z) :
  Viem.isHex serverSeed = true ->
  (0 <= vrfRandom < 2 ^ 256)%Z ->
  toBigInt roundId = Some r -> (0 <= r < 2 ^ 256)%Z ->
  toBigInt chainId = Some c -> (0 <= c < 2 ^ 256)%Z ->
  VerifyGame.deriveSeed keccak256 vrfRandom roundId serverSeed chainId
  = Ok (BigInt_of_hex
          (keccak256 (be32 vrfRandom ++ be32 r ++ Viem.hexToBytes serverSeed ++ be32 c))).
Proof.
  intros Hx Hv Er Hr Ec Hc. unfold VerifyGame.deriveSeed, Viem.toBytes. cbv zeta.
  rewrite Hx, !viem_pad32, (pad32_be32 _ Hv), Er. cbn [obind of_option].
  rewrite viem_pad32, (pad32_be32 _ Hr), Ec. cbn [obind of_option].
  rewrite viem_pad32, (pad32_be32 _ Hc). cbn [obind List.concat].
  rewrite app_nil_r. reflexivity.
Qed.

End Seed.

(** Keccak-256 on the empty message, on [abc] and around the block length *)
Lemma keccak256_vectors :
  BigInt_of_hex (Keccak.keccak256 [])
  = 0xc5d2460186f7233c927e7db2dcc703c0e500b653ca82273b7bfad8045d85a470%Z /\
  BigInt_of_hex (Keccak.keccak256 (toUtf8Bytes "abc"))
  = 0x4e03657aea45a94fc7d47ba826c8d667c0d1e6e33a64a036ec44f58fa12d6c45%Z /\
  BigInt_of_hex (Keccak.keccak256 (repeat Byte.x61 135))
  = 0x34367dc248bbd832f4e3e69dfaac2f92638bd0bbd18f2912ba4ef454919cf446%Z /\
  BigInt_of_hex (Keccak.keccak256 (repeat Byte.x61 136))
  = 0xa6c4d403279fe3e0af03729caada8374b5ca54d8065329a3ebcaeb4b60aa386e%Z /\
  BigInt_of_hex (Keccak.keccak256 (repeat Byte.x61 200))
  = 0x96ea54061def936c4be90b518992fdc6f12f535068a256229aca54267b4d084d%Z.
Proof. repeat split; vm_compute; reflexivity. Qed.

Lemma keccak_length bs : List.length (Keccak.keccak256 bs) = 32%nat.
Proof.
  unfold Keccak.keccak256. cbv zeta.
  generalize (fold_left Keccak.absorb
                (Keccak.blocks (List.length (Keccak.pad bs) / Keccak.rate) (Keccak.pad bs))
                (repeat 0%Z 25)).
  intros A. cbn [seq flat_map]. rewrite !length_app, !length_le_split. reflexivity.
Qed.

(** C1: on the verification page, the secret seed [0x00] is hashed as the one
    byte 00, not as the four bytes of its text: with round 1, entropy value 7
    and chain 10143 the page derives a seed that is not the backend's. *)
Theorem verify_deriveSeed_hex_seed :
  Viem.toBytes "0x00" = [Byte.x00] /\
  toUtf8Bytes "0x00" = [Byte.x30; Byte.x78; Byte.x30; Byte.x30] /\
  VerifyGame.deriveSeed Keccak.keccak256 7 (lit 1) "0x00" (lit 10143)
  = Ok 0xd504fdb3d5d79374a03e484827e38d99588a435cde7418c4499f168da7484e53%Z /\
  deriveSeed Keccak.keccak256 7 (lit 1) "0x00" (lit 10143)
  = Ok 0x1fe8e5673855548a7618c6c0fa0800aeb3ffecd6d27df1ae3e4f6a2dadb8b3dc%Z /\
  (forall keccak256 : list byte -> list byte,
     VerifyGame.deriveSeed keccak256 7 (lit 1) "0x00" (lit 10143)
     = Ok (BigInt_of_hex (keccak256 (be32 7 ++ be32 1 ++ [Byte.x00] ++ be32 10143))) /\
     deriveSeed keccak256 7 (lit 1) "0x00" (lit 10143)
     = Ok (BigInt_of_hex
             (keccak256 (be32 7 ++ be32 1 ++ [Byte.x30; Byte.x78; Byte.x30; Byte.x30]
                         ++ be32 10143)))).
Proof.
  split; [vm_compute; reflexivity|]. split; [vm_compute; reflexivity|].
  split; [vm_compute; reflexivity|]. split; [vm_compute; reflexivity|].
  intros keccak256. split; vm_compute; reflexivity.
Qed.


(** a seed as [generateServerSeed] makes them: 64 hex digits, no prefix *)
Lemma verify_deriveSeed_agrees_witness :
  VerifyGame.deriveSeed Keccak.keccak256 7 (lit 1)
    "9f86d081884c7d659a2feaa0c55ad015a3bf4f1b2b0b822cd15d6c15b0f00a08" (lit 10143)
  = deriveSeed Keccak.keccak256 7 (lit 1)
      "9f86d081884c7d659a2feaa0c55ad015a3bf4f1b2b0b822cd15d6c15b0f00a08" (lit 10143).
Proof.
  apply (verify_deriveSeed_agrees Keccak.keccak256 7 (lit 1)
           "9f86d081884c7d659a2feaa0c55ad015a3bf4f1b2b0b822cd15d6c15b0f00a08" (lit 10143)).
  reflexivity.
Defined.


Lemma inQ_fle_lower x U : inQ 1 U x -> fle (lit 1) x = true.
Proof.
  intros [F [L _]]. apply (fle_fin (lit 1) x lit_1_fin F).
  rewrite lit_1_val. exact L.
Qed.

Lemma inQ_fle_upper x L : inQ L 10000 x -> fle x (lit 10000) = true.
Proof.
  intros [F [_ U]]. apply (fle_fin x (lit 10000) F lit_10000_fin).
  rewrite lit_10000_val. exact U.
Qed.

Lemma unit_fle x : inQ 0 1 x -> fle (lit 0) x = true /\ fle x (lit 1) = true.
Proof.
  intros [F [L U]]. split.
  - apply (fle_fin (lit 0) x I F). rewrite lit_0. cbn [val]. rewrite mk_val. exact L.
  - apply (fle_fin x (lit 1) F lit_1_fin). rewrite lit_1_val. exact U.
Qed.

Section Draw.

Variable keccak256 : list byte -> list byte.
Hypothesis keccak256_length : forall bs, List.length (keccak256 bs) = 32%nat.

(** X25: for a seed and an index that fit in 256 bits the
    draw is the quotient of the two conversions, it lies in the closed
    interval from 0 to 1, and it is below 1 exactly when the digest is below
    2^256 - 2^202; from there on it is 1. *)
Theorem getRandom_closed_unit (seed i : Z) :
  (0 <= seed < 2 ^ 256)%Z -> (0 <= i < 2 ^ 256)%Z ->
  exists r,
    getRandom keccak256 seed i = Ok r /\
    r = fdiv (ofZ (BigInt_of_hex (keccak256 (be32 seed ++ be32 i)))) (ofZ maxUint256) /\
    fle (lit 0) r = true /\ fle r (lit 1) = true /\
    (flt r (lit 1) = true <-> (digest keccak256 seed i < 2 ^ 256 - 2 ^ 202)%Z) /\
    ((2 ^ 256 - 2 ^ 202 <= digest keccak256 seed i)%Z -> r = lit 1).
Proof.
  intros Hs Hi. exists (ratio (digest keccak256 seed i)).
  pose proof (digest_range keccak256 keccak256_length seed i) as R.
  split; [apply getRandom_ok; assumption|].
  split; [reflexivity|].
  destruct (unit_fle _ (ratio_unit _ R)) as [A B].
  split; [exact A|]. split; [exact B|]. split.
  - exact (ratio_lt_one _ R).
  - intros T. rewrite lit_1. apply ratio_top. split; [exact T | apply R].
Qed.

End Draw.

Lemma getRandom_closed_unit_witness :
  exists r,
    getRandom Sample.hash 7 0 = Ok r /\
    r = fdiv (ofZ (BigInt_of_hex (Sample.hash (be32 7 ++ be32 0)))) (ofZ maxUint256) /\
    fle (lit 0) r = true /\ fle r (lit 1) = true /\
    (flt r (lit 1) = true <-> (digest Sample.hash 7 0 < 2 ^ 256 - 2 ^ 202)%Z) /\
    ((2 ^ 256 - 2 ^ 202 <= digest Sample.hash 7 0)%Z -> r = lit 1).
Proof.
  apply (getRandom_closed_unit Sample.hash sample_hash_length 7 0); lia.
Defined.

(** C5, as the code has it: the constant is 2^256 - 1, 32 bytes of ones, and
    its conversion to a double is 2^256. *)
Theorem maxUint256_exact :
  maxUint256 = (2 ^ 256 - 1)%Z /\
  toBeHex maxUint256 = Some (repeat Byte.xff 32) /\
  ofZ maxUint256 = Fin (mk (inject_Z (2 ^ 256))).
Proof.
  split; [reflexivity|]. split; [vm_compute; reflexivity | exact Number_maxUint256].
Qed.

(** the constant is not above 2^256 - 1 and takes 32 bytes, not 33 *)
Lemma maxUint256_not_wider :
  (maxUint256 <=? 2 ^ 256 - 1)%Z = true /\ (2 ^ 263 <=? maxUint256)%Z = false /\
  byteLength maxUint256 = 32%nat.
Proof. repeat split; vm_compute; reflexivity. Qed.

Section Curve.

Variable keccak256 : list byte -> list byte.
Variable Math_pow : number -> number -> number.
Variable parseInt : string -> number.
Variable getUTCFullYear : number -> number.
Variable getUTCMonth : number -> number.
Variable getUTCDate : number -> number.

Hypothesis keccak256_length : forall bs, List.length (keccak256 bs) = 32%nat.
Hypothesis Math_pow_unit :
  forall x y, inQ 0 1 x -> inQ (1 # 2) 1 y -> inQ 0 1 (Math_pow x y).

Abbreviation generate :=
  (generateCrashGame keccak256 Math_pow parseInt getUTCFullYear getUTCMonth getUTCDate).

(** C2: the final multiplier of a run is the specification's formula at the
    first draw r0: p = houseEdge + r0 * (1 - houseEdge), raw = (1 - houseEdge)
    / (1 - p), clamped to [1.00, 10000] and rounded to two decimals; when r0 is
    0 it is 1.00; and with a tick interval in range the run does return. *)
Theorem finalMultiplier_formula (input : GameInput) :
  validInput input ->
  exists s r0,
    deriveSeed keccak256 (vrfRandom input) (roundId input) (serverSeed input)
      (chainId input) = Ok s /\
    getRandom keccak256 s 0 = Ok r0 /\
    (forall fuel res,
       generate fuel input = Ok res ->
       finalMultiplier res = specMultiplier r0 /\
       (feq r0 (lit 0) = true -> finalMultiplier res = lit 1)) /\
    (tickOK (tickIntervalMs input) -> exists fuel res, generate fuel input = Ok res).
Proof.
  intros V.
  destruct (generate_final keccak256 Math_pow parseInt getUTCFullYear getUTCMonth
              getUTCDate keccak256_length input V)
    as [s [r0 [K [D [G [N [KR [FE [FR Hres]]]]]]]]].
  exists s, r0. split; [exact D|]. split; [exact G|]. split.
  - intros fuel res H. destruct (Hres fuel res H) as [Hf _].
    rewrite Hf. split; [apply crashPoint_spec|]. apply crashPoint_zero.
  - intros TK.
    destruct (generate_returns keccak256 Math_pow parseInt getUTCFullYear getUTCMonth
                getUTCDate keccak256_length Math_pow_unit input V TK)
      as [T [res [_ [Hrun _]]]].
    exists (Z.to_nat T), res. apply Hrun. lia.
Qed.

(** C3: for an entropy value, round id and chain id that fit in 256 bits the
    final multiplier is the double written K/100 for an integer K from 100 to
    1000000: it lies between 1.00 and 10000.00, and rounding it to two
    decimals again leaves it as it is. *)
Theorem finalMultiplier_range (input : GameInput) :
  validInput input ->
  exists K : Z,
    (100 <= K <= 1000000)%Z /\
    (forall fuel res,
       generate fuel input = Ok res ->
       finalMultiplier res = lit (K # 100) /\
       fle (lit 1) (finalMultiplier res) = true /\
       fle (finalMultiplier res) (lit 10000) = true /\
       round2 (finalMultiplier res) = finalMultiplier res) /\
    (tickOK (tickIntervalMs input) -> exists fuel res, generate fuel input = Ok res).
Proof.
  intros V.
  destruct (generate_final keccak256 Math_pow parseInt getUTCFullYear getUTCMonth
              getUTCDate keccak256_length input V)
    as [s [r0 [K [D [G [N [KR [FE [FR Hres]]]]]]]]].
  exists K. split; [exact KR|]. split.
  - intros fuel res H. destruct (Hres fuel res H) as [Hf _].
    rewrite Hf. split; [exact FE|].
    split; [exact (inQ_fle_lower _ _ FR)|].
    split; [exact (inQ_fle_upper _ _ FR)|].
    rewrite (round2_eq _ FR), (final_hundredths _ K KR FE).
    rewrite FE. unfold lit. apply rnd_compat.
    unfold Qdiv, Qeq, Qmult, Qinv, inject_Z. cbn. lia.
  - intros TK.
    destruct (generate_returns keccak256 Math_pow parseInt getUTCFullYear getUTCMonth
                getUTCDate keccak256_length Math_pow_unit input V TK)
      as [T [res [_ [Hrun _]]]].
    exists (Z.to_nat T), res. apply Hrun. lia.
Qed.

(** C10, as the code has it: for an input whose integers fit in 256 bits and
    whose tick interval is a finite number from 2^-38 ms on, the tick count
    [totalTicks] the code computes (Math.ceil of the duration drawn at index 1
    over the interval) is an integer T from 1 to 2^53; the run returns after
    at most T iterations; the sequence is not empty and has at most T
    updates; the last update, and no other, is tagged 3 and closes at the
    final multiplier; no candle value exceeds the final multiplier; and every
    candle has high = max(open, close) and low = min(open, close). *)
Theorem updates_shape (input : GameInput) :
  validInput input -> tickOK (tickIntervalMs input) ->
  exists (s : Z) (r1 : number) (T : Z) (res : CrashGameResult),
    deriveSeed keccak256 (vrfRandom input) (roundId input) (serverSeed input)
      (chainId input) = Ok s /\
    getRandom keccak256 s 1 = Ok r1 /\
    totalTicksOf r1 (tickIntervalMs input) = ofZ T /\
    (1 <= T <= 2 ^ 53)%Z /\
    (forall fuel, (Z.to_nat T <= fuel)%nat -> generate fuel input = Ok res) /\
    updates res <> [] /\
    (List.length (updates res) <= Z.to_nat T)%nat /\
    crashedLast (finalMultiplier res) (updates res) /\
    Forall (candleBelow (finalMultiplier res)) (updates res) /\
    Forall candleShape (updates res).
Proof.
  intros V TK.
  destruct (generate_ticks keccak256 Math_pow parseInt getUTCFullYear getUTCMonth
              getUTCDate keccak256_length Math_pow_unit input V TK)
    as [s [r1 [T [res [D [G [TE [TR [Hrun [Len [C [B S]]]]]]]]]]]].
  exists s, r1, T, res.
  split; [exact D|]. split; [exact G|]. split; [exact TE|].
  split; [exact TR|]. split; [exact Hrun|].
  split; [|split; [exact Len|split; [exact C|split; [exact B | exact S]]]].
  destruct C as [init [u [E _]]]. rewrite E. intros N.
  apply (f_equal (@List.length _)) in N. rewrite length_app in N. cbn in N. lia.
Qed.

End Curve.

Lemma finalMultiplier_formula_witness :
  exists s r0,
    deriveSeed Sample.hash (vrfRandom Sample.game) (roundId Sample.game)
      (serverSeed Sample.game) (chainId Sample.game) = Ok s /\
    getRandom Sample.hash s 0 = Ok r0 /\
    (forall fuel res,
       Sample.run fuel Sample.game = Ok res ->
       finalMultiplier res = specMultiplier r0 /\
       (feq r0 (lit 0) = true -> finalMultiplier res = lit 1)) /\
    (tickOK (tickIntervalMs Sample.game) ->
     exists fuel res, Sample.run fuel Sample.game = Ok res).
Proof.
  apply (finalMultiplier_formula Sample.hash Sample.pow Sample.clock Sample.calendar
           Sample.calendar Sample.calendar sample_hash_length sample_pow_unit
           Sample.game).
  split; [cbn; lia|]. split.
  - exists 1%Z. split; [vm_compute; reflexivity | lia].
  - exists 10143%Z. split; [vm_compute; reflexivity | lia].
Defined.

Lemma finalMultiplier_range_witness :
  exists K : Z,
    (100 <= K <= 1000000)%Z /\
    (forall fuel res,
       Sample.run fuel Sample.game = Ok res ->
       finalMultiplier res = lit (K # 100) /\
       fle (lit 1) (finalMultiplier res) = true /\
       fle (finalMultiplier res) (lit 10000) = true /\
       round2 (finalMultiplier res) = finalMultiplier res) /\
    (tickOK (tickIntervalMs Sample.game) ->
     exists fuel res, Sample.run fuel Sample.game = Ok res).
Proof.
  apply (finalMultiplier_range Sample.hash Sample.pow Sample.clock Sample.calendar
           Sample.calendar Sample.calendar sample_hash_length sample_pow_unit
           Sample.game).
  split; [cbn; lia|]. split.
  - exists 1%Z. split; [vm_compute; reflexivity | lia].
  - exists 10143%Z. split; [vm_compute; reflexivity | lia].
Defined.

Lemma updates_shape_witness :
  exists (s : Z) (r1 : number) (T : Z) (res : CrashGameResult),
    deriveSeed Sample.hash (vrfRandom SampleStream.paced) (roundId SampleStream.paced)
      (serverSeed SampleStream.paced) (chainId SampleStream.paced) = Ok s /\
    getRandom Sample.hash s 1 = Ok r1 /\
    totalTicksOf r1 (tickIntervalMs SampleStream.paced) = ofZ T /\
    (1 <= T <= 2 ^ 53)%Z /\
    (forall fuel, (Z.to_nat T <= fuel)%nat ->
       Sample.run fuel SampleStream.paced = Ok res) /\
    updates res <> [] /\
    (List.length (updates res) <= Z.to_nat T)%nat /\
    crashedLast (finalMultiplier res) (updates res) /\
    Forall (candleBelow (finalMultiplier res)) (updates res) /\
    Forall candleShape (updates res).
Proof.
  apply (updates_shape Sample.hash Sample.pow Sample.clock Sample.calendar
           Sample.calendar Sample.calendar sample_hash_length sample_pow_unit
           SampleStream.paced).
  - split; [cbn; lia|]. split.
    + exists 1%Z. split; [vm_compute; reflexivity | lia].
    + exists 10143%Z. split; [vm_compute; reflexivity | lia].
  - unfold tickOK, inQ. split; [vm_compute; exact I|].
    split; vm_compute; discriminate.
Defined.

(** with a negative tick interval the loop is not entered: the run returns no
    update at all *)
Lemma updates_empty_reversed :
  exists res, Sample.run 0 Sample.reversed = Ok res /\ updates res = [].
Proof. eexists. split; [vm_compute; reflexivity | reflexivity]. Qed.

Section Commitment.
Import Contract.

Variable keccak256 : list byte -> list byte.

(** C7: for a round whose randomness is ready, the reveal succeeds exactly
    when the hash of the seed equals the committed hash, and otherwise
    reverts with the mismatch reason; on success the seed is stored in the
    round, its status is SeedRevealed, its commitment and the other rounds
    are as before, and the reveal event is emitted. *)
Theorem revealServerSeed_commitment (st : State) (roundId : Z) (seed : list byte) :
  status (getRoundOf st roundId) = RandomReady ->
  ((exists st', revealServerSeed keccak256 st roundId seed = Success st') <->
   keccak256 seed = serverSeedHash (getRoundOf st roundId)) /\
  (keccak256 seed <> serverSeedHash (getRoundOf st roundId) ->
   revealServerSeed keccak256 st roundId seed = Revert "Server seed hash mismatch") /\
  (forall st',
     revealServerSeed keccak256 st roundId seed = Success st' ->
     Contract.serverSeed (getRoundOf st' roundId) = seed /\
     status (getRoundOf st' roundId) = SeedRevealed /\
     serverSeedHash (getRoundOf st' roundId) = serverSeedHash (getRoundOf st roundId) /\
     (forall r, r <> roundId -> getRoundOf st' r = getRoundOf st r) /\
     events st' = events st ++ [ServerSeedRevealed roundId seed]).
Proof.
  intros Hready.
  rewrite (revealServerSeed_ready keccak256 st roundId seed Hready).
  destruct (decide (keccak256 seed = serverSeedHash (getRoundOf st roundId))) as [E | N].
  - rewrite (bool_decide_eq_true_2 _ E).
    split; [split; [intros _; exact E | intros _; eexists; reflexivity]|].
    split; [intros C; contradiction|].
    intros st' H. injection H as <-.
    assert (R : forall x, getRoundOf
                  {| rounds := <[roundId := x]> (rounds st);
                     operator := operator st;
                     bets := bets st;
                     claimablePayouts := claimablePayouts st;
                     roundFinalMultipliers := roundFinalMultipliers st;
                     roundSettled := roundSettled st;
                     tokenBalance := tokenBalance st;
                     events := events st ++ [ServerSeedRevealed roundId seed] |}
                  roundId = x).
    { intros x. unfold getRoundOf. cbn [rounds]. rewrite lookup_insert_eq. reflexivity. }
    rewrite !R. cbn [Contract.serverSeed status serverSeedHash events].
    repeat split.
    intros r Hr. unfold getRoundOf. cbn [rounds].
    rewrite lookup_insert_ne by congruence. reflexivity.
  - rewrite (bool_decide_eq_false_2 _ N).
    split; [split; [intros [st' C]; discriminate | intros C; contradiction]|].
    split; [intros _; reflexivity|].
    intros st' C. discriminate.
Qed.

End Commitment.

Lemma revealServerSeed_commitment_witness :
  ((exists st',
      Contract.revealServerSeed Sample.hash SampleChain.state 5 SampleChain.secret
      = Contract.Success st') <->
   Sample.hash SampleChain.secret
   = Contract.serverSeedHash (Contract.getRoundOf SampleChain.state 5)) /\
  (Sample.hash SampleChain.secret
   <> Contract.serverSeedHash (Contract.getRoundOf SampleChain.state 5) ->
   Contract.revealServerSeed Sample.hash SampleChain.state 5 SampleChain.secret
   = Contract.Revert "Server seed hash mismatch") /\
  (forall st',
     Contract.revealServerSeed Sample.hash SampleChain.state 5 SampleChain.secret
     = Contract.Success st' ->
     Contract.serverSeed (Contract.getRoundOf st' 5) = SampleChain.secret /\
     Contract.status (Contract.getRoundOf st' 5) = Contract.SeedRevealed /\
     Contract.serverSeedHash (Contract.getRoundOf st' 5)
     = Contract.serverSeedHash (Contract.getRoundOf SampleChain.state 5) /\
     (forall r, r <> 5%Z ->
        Contract.getRoundOf st' r = Contract.getRoundOf SampleChain.state r) /\
     Contract.events st'
     = Contract.events SampleChain.state
       ++ [Contract.ServerSeedRevealed 5 SampleChain.secret]).
Proof.
  apply (revealServerSeed_commitment Sample.hash SampleChain.state 5 SampleChain.secret).
  vm_compute. reflexivity.
Defined.

Section Payout.
Import Server ContractFacts ServerFacts.

(** the contract's fixed-point payout against the exact product: at most two
    units of the last place below it, and the cap the floor of 70% *)
Lemma payoutOf_exact (amount multiplier balance : Z) :
  (0 <= amount)%Z -> (0 <= multiplier)%Z -> (0 <= balance)%Z ->
  let computed :=
    (amount * multiplier / 10 ^ 18 * (10000 - 150) / 10000)%Z in
  let cap := (balance * 7000 / 10000)%Z in
  payoutOf amount multiplier balance = (if (cap <? computed)%Z then cap else computed) /\
  (10 ^ 22 * computed <= amount * multiplier * (10000 - 150)
   < 10 ^ 22 * (computed + 2))%Z /\
  (10000 * cap <= 7000 * balance < 10000 * (cap + 1))%Z.
Proof.
  intros Ha Hm Hb. cbv zeta.
  unfold payoutOf, Contract.BPS_DENOMINATOR, Contract.HOUSE_EDGE_BPS,
    Contract.MAX_WIN_PERCENTAGE_BPS.
  set (x := (amount * multiplier)%Z).
  assert (Hx : (0 <= x)%Z) by (unfold x; nia).
  change (10 ^ 18)%Z with 1000000000000000000%Z.
  change (10 ^ 22)%Z with 10000000000000000000000%Z.
  change (10000 - 150)%Z with 9850%Z.
  pose proof (Z.div_mod x 1000000000000000000 ltac:(lia)) as D1.
  pose proof (Z.mod_pos_bound x 1000000000000000000 ltac:(lia)) as M1.
  set (q1 := (x / 1000000000000000000)%Z) in *.
  pose proof (Z.div_mod (q1 * 9850) 10000 ltac:(lia)) as D2.
  pose proof (Z.mod_pos_bound (q1 * 9850) 10000 ltac:(lia)) as M2.
  set (q2 := (q1 * 9850 / 10000)%Z) in *.
  pose proof (Z.div_mod (balance * 7000) 10000 ltac:(lia)) as D3.
  pose proof (Z.mod_pos_bound (balance * 7000) 10000 ltac:(lia)) as M3.
  set (cap := (balance * 7000 / 10000)%Z) in *.
  split; [|split; lia].
  destruct (cap <? q2)%Z eqn:E.
  - apply Z.ltb_lt in E. lia.
  - apply Z.ltb_ge in E. lia.
Qed.

End Payout.

(** * Part V: the contract over time, the odds, and the server around a round *)

(** ** What each transaction writes *)

Module CrashGameFacts.
Import Contract ContractFacts CrashGame History.

(** one [require] or one call of a successful run *)
Ltac passed H :=
  lazymatch type of H with
  | rbind (require ?c ?r) _ = Success _ =>
      let R := fresh "R" in
      destruct c eqn:R; cbn [require rbind] in H; [|discriminate H]
  | rbind ?m _ = Success _ =>
      let R := fresh "R" in
      let x := fresh "x" in
      destruct m as [x|] eqn:R; cbn [rbind] in H; [|discriminate H]
  end.

Lemma Success_inj {A : Type} (a b : A) : Success a = Success b -> a = b.
Proof. intros H. injection H as ->. reflexivity. Qed.

Lemma getRoundOf_insert st st' k x r :
  rounds st' = <[k := x]> (rounds st) ->
  getRoundOf st' r = if decide (k = r) then x else getRoundOf st r.
Proof.
  intros E. unfold getRoundOf. rewrite E.
  destruct (decide (k = r)) as [-> | N].
  - rewrite lookup_insert_eq. reflexivity.
  - rewrite lookup_insert_ne by exact N. reflexivity.
Qed.

Lemma getRoundOf_same st st' r : rounds st' = rounds st -> getRoundOf st' r = getRoundOf st r.
Proof. intros E. unfold getRoundOf. rewrite E. reflexivity. Qed.

Lemma getBetOf_same st st' r u : bets st' = bets st -> getBetOf st' r u = getBetOf st r u.
Proof. intros E. unfold getBetOf. rewrite E. reflexivity. Qed.

Lemma getBetOf_insert_at st st' k b r u :
  bets st' = <[k := b]> (bets st) ->
  getBetOf st' r u = if decide (k = (r, u)) then b else getBetOf st r u.
Proof.
  intros E. unfold getBetOf. rewrite E.
  destruct (decide (k = (r, u))) as [-> | N].
  - rewrite lookup_insert_eq. reflexivity.
  - rewrite lookup_insert_ne by exact N. reflexivity.
Qed.

Lemma getRoundOf_exists st r :
  getRoundOf st r <> zeroRound -> exists rd, rounds st !! r = Some rd.
Proof.
  unfold getRoundOf. destruct (rounds st !! r) as [rd|]; [eauto | cbn; congruence].
Qed.

(** the loop of [processCashOuts] writes bets and claimable payouts only, and
    of a bet only the two cash-out fields *)
Lemma processLoop_frame roundId fm cashOuts :
  forall st st',
    processLoop roundId fm st cashOuts = Success st' ->
    rounds st' = rounds st /\ events st' = events st /\ operator st' = operator st /\
    roundSettled st' = roundSettled st /\
    roundFinalMultipliers st' = roundFinalMultipliers st /\
    (forall r u,
       getBetOf st' r u = getBetOf st r u \/
       (r = roundId /\ (0 < amount (getBetOf st r u))%Z /\
        settled (getBetOf st r u) = false /\
        amount (getBetOf st' r u) = amount (getBetOf st r u) /\
        settled (getBetOf st' r u) = true /\
        (10 ^ 18 <= cashOutMultiplier (getBetOf st' r u) <= fm)%Z)) /\
    (forall k b, bets st' !! k = Some b ->
       bets st !! k = Some b \/
       (exists b0, bets st !! k = Some b0 /\ (0 < amount b0)%Z) /\ k.1 = roundId).
Proof.
  induction cashOuts as [|c rest IH]; intros st st' H.
  - cbn [processLoop] in H. apply Success_inj in H. subst st'.
    repeat split; try reflexivity; intros; left; try reflexivity; assumption.
  - cbn [processLoop] in H. passed H.
    destruct (processCashOut_spec _ _ _ _ _ R)
      as [A1 [A2 [A3 [A4 [A5 [A6 [A7 [A8 [A9 [A10 A11]]]]]]]]]].
    destruct (IH _ _ H) as [B1 [B2 [B3 [B4 [B5 [B6 B7]]]]]].
    split; [congruence|]. split; [congruence|]. split; [congruence|].
    split; [congruence|]. split; [congruence|]. split.
    + intros r u.
      pose proof (getBetOf_insert_at st x _ _ r u A5) as G.
      destruct (decide ((roundId, wallet c) = (r, u))) as [Ek | Nk].
      * injection Ek as <- <-. right.
        destruct (B6 roundId (wallet c)) as [Same | [_ [_ [P _]]]].
        -- rewrite Same, G.
           cbn [amount settled cashOutMultiplier].
           repeat split; try assumption; try reflexivity; lia.
        -- rewrite G in P.
           cbn [settled] in P. discriminate P.
      * destruct (B6 r u) as [Same | [Er [P1 [P2 [P3 [P4 P5]]]]]].
        -- left. rewrite Same, G. reflexivity.
        -- right. rewrite G in P1, P2, P3.
           split; [exact Er|]. split; [exact P1|]. split; [exact P2|].
           split; [exact P3|]. split; [exact P4 | exact P5].
    + intros k b Hk. destruct (B7 k b Hk) as [Old | [[b0 [Hb0 P]] Ek]].
      * rewrite A5 in Old.
        destruct (decide ((roundId, wallet c) = k)) as [<- | Nk].
        -- right. split; [|reflexivity].
           unfold getBetOf in A1. destruct (bets st !! (roundId, wallet c)) as [b0|] eqn:L.
           ++ exists b0. split; [reflexivity | exact A1].
           ++ cbn in A1. lia.
        -- rewrite lookup_insert_ne in Old by exact Nk. left. exact Old.
      * rewrite A5 in Hb0.
        destruct (decide ((roundId, wallet c) = k)) as [<- | Nk].
        -- right. split; [|reflexivity].
           unfold getBetOf in A1. destruct (bets st !! (roundId, wallet c)) as [b1|] eqn:L.
           ++ exists b1. split; [reflexivity | exact A1].
           ++ cbn in A1. lia.
        -- rewrite lookup_insert_ne in Hb0 by exact Nk. right.
           split; [exists b0; split; assumption | exact Ek].
Qed.

Section Effects.

Context {T E : Type} `{IERC20 T} `{IEntropyV2 E}.
Variable self : address.
Variable keccak256 : list byte -> list byte.
Variable entropyAddress : address.

Implicit Types w : World T E.

Lemma createRound_effect w h w' id :
  createRound w h = Success (w', id) ->
  id = roundCounter w /\ roundCounter w' = (roundCounter w + 1)%Z /\
  (roundCounter w + 1 <= uint256_max)%Z /\
  (rounds (game w') =
    <[id := {| serverSeedHash := h; serverSeed := []; sequenceNumber := 0;
               entropyRandom := 0; status := Created |}]> (rounds (game w))) /\
  bets (game w') = bets (game w) /\
  roundSettled (game w') = roundSettled (game w) /\
  roundFinalMultipliers (game w') = roundFinalMultipliers (game w) /\
  claimablePayouts (game w') = claimablePayouts (game w) /\
  operator (game w') = operator (game w) /\
  sequenceToRound w' = sequenceToRound w /\ token w' = token w /\
  journal w' = journal w ++ [RoundCreated id h].
Proof.
  unfold createRound. intros C. passed C.
  unfold checked in R. destruct (roundCounter w + 1 <=? uint256_max)%Z eqn:L; [|discriminate R].
  apply Success_inj in R. subst x. apply Z.leb_le in L.
  apply Success_inj in C. injection C as <- <-.
  repeat split; try reflexivity; assumption.
Qed.

Lemma requestRandomness_effect w sender value refundOk roundId w' :
  requestRandomness self w sender value refundOk roundId = Success w' ->
  exists fee e' seq,
    serverSeedHash (getRoundOf (game w) roundId) <> zeroHash /\
    status (getRoundOf (game w) roundId) = Created /\
    sequenceNumber (getRoundOf (game w) roundId) = 0%Z /\
    getFeeV2 (entropy w) = Success fee /\ (fee <= value)%Z /\
    requestV2 (entropy w) self fee = Success (e', seq) /\
    default 0%Z (sequenceToRound w !! seq) = 0%Z /\
    ((fee < value)%Z -> refundOk = true) /\
    (rounds (game w') =
      <[roundId := {| serverSeedHash := serverSeedHash (getRoundOf (game w) roundId);
                      serverSeed := Contract.serverSeed (getRoundOf (game w) roundId);
                      sequenceNumber := seq;
                      entropyRandom := entropyRandom (getRoundOf (game w) roundId);
                      status := Contract.RandomRequested |}]> (rounds (game w))) /\
    (sequenceToRound w' = <[seq := roundId]> (sequenceToRound w)) /\
    roundCounter w' = roundCounter w /\
    bets (game w') = bets (game w) /\
    roundSettled (game w') = roundSettled (game w) /\
    roundFinalMultipliers (game w') = roundFinalMultipliers (game w) /\
    claimablePayouts (game w') = claimablePayouts (game w) /\
    operator (game w') = operator (game w) /\
    token w' = token w /\ entropy w' = e' /\
    journal w' = journal w ++ [RandomRequested roundId seq].
Proof.
  unfold requestRandomness. intros C.
  passed C. passed C. passed C. passed C. passed C. passed C.
  destruct x0 as [e' seq]. cbn [fst snd] in C. passed C.
  apply negb_true_iff, bool_decide_eq_false in R.
  apply bool_decide_eq_true in R0. apply Z.eqb_eq in R1, R5. apply Z.leb_le in R3.
  exists x, e', seq.
  destruct (x <? value)%Z eqn:L.
  - destruct refundOk; cbn [require rbind] in C; [|discriminate C].
    apply Success_inj in C. subst w'. cbn.
    repeat split; try reflexivity; assumption.
  - apply Success_inj in C. subst w'. cbn. apply Z.ltb_ge in L.
    repeat split; try reflexivity; try assumption. intros L'. lia.
Qed.

Lemma entropyCallback_effect w seq bytes w' :
  entropyCallback w seq bytes = Success w' ->
  exists roundId,
    sequenceToRound w !! seq = Some roundId /\ roundId <> 0%Z /\
    status (getRoundOf (game w) roundId) = Contract.RandomRequested /\
    (rounds (game w') =
      <[roundId := {| serverSeedHash := serverSeedHash (getRoundOf (game w) roundId);
                      serverSeed := Contract.serverSeed (getRoundOf (game w) roundId);
                      sequenceNumber := sequenceNumber (getRoundOf (game w) roundId);
                      entropyRandom := uint256_of_bytes32 bytes;
                      status := Contract.RandomReady |}]> (rounds (game w))) /\
    sequenceToRound w' = sequenceToRound w /\
    roundCounter w' = roundCounter w /\
    bets (game w') = bets (game w) /\
    roundSettled (game w') = roundSettled (game w) /\
    roundFinalMultipliers (game w') = roundFinalMultipliers (game w) /\
    claimablePayouts (game w') = claimablePayouts (game w) /\
    operator (game w') = operator (game w) /\
    token w' = token w /\
    journal w' = journal w ++ [RandomReady roundId (uint256_of_bytes32 bytes)].
Proof.
  unfold entropyCallback. intros C. passed C. passed C.
  apply Success_inj in C. subst w'.
  apply negb_true_iff, Z.eqb_neq in R. apply bool_decide_eq_true in R0.
  destruct (sequenceToRound w !! seq) as [roundId|] eqn:L; cbn [default] in *; [|congruence].
  exists roundId. cbn. repeat split; try reflexivity; assumption.
Qed.

Lemma onStorage_effect w call w' :
  onStorage self w call = Success w' ->
  call (storage self w) = Success (game w') /\
  roundCounter w' = roundCounter w /\ sequenceToRound w' = sequenceToRound w /\
  token w' = token w /\ entropy w' = entropy w /\
  journal w' = journal w
               ++ List.map Revealed
                    (skipn (List.length (events (game w))) (events (game w'))).
Proof.
  unfold onStorage. intros C. passed C. apply Success_inj in C. subst w'.
  cbn. repeat split; reflexivity.
Qed.

Lemma setOperator_effect w sender newOperator w' :
  setOperator w sender newOperator = Success w' ->
  sender = operator (game w) /\
  w' = with_game w (with_operator (game w) newOperator).
Proof.
  unfold setOperator. intros C. passed C. apply Success_inj in C.
  apply bool_decide_eq_true in R. split; [exact R | symmetry; exact C].
Qed.

Lemma placeBet_effect w sender roundId amount w' :
  placeBet self w sender roundId amount = Success w' ->
  exists t',
    (0 < amount <= MAX_BET)%Z /\
    default false (roundSettled (game w) !! roundId) = false /\
    serverSeedHash (getRoundOf (game w) roundId) <> zeroHash /\
    status (getRoundOf (game w) roundId) <> SeedRevealed /\
    Contract.amount (getBetOf (game w) roundId sender) = 0%Z /\
    transferFrom (token w) self sender self amount = Success (t', true) /\
    (bets (game w') =
      <[(roundId, sender) := {| Contract.amount := amount; cashOutMultiplier := 0;
                                settled := false |}]> (bets (game w))) /\
    rounds (game w') = rounds (game w) /\
    roundSettled (game w') = roundSettled (game w) /\
    roundFinalMultipliers (game w') = roundFinalMultipliers (game w) /\
    claimablePayouts (game w') = claimablePayouts (game w) /\
    operator (game w') = operator (game w) /\
    sequenceToRound w' = sequenceToRound w /\ roundCounter w' = roundCounter w /\
    token w' = t' /\
    journal w' = journal w ++ [BetPlaced roundId sender amount].
Proof.
  unfold placeBet. intros C.
  passed C. passed C. passed C. passed C. passed C. passed C. passed C.
  destruct x as [t' ok]. cbn [fst snd] in C. passed C. cbn [snd] in R6. subst ok.
  apply Success_inj in C. subst w'.
  apply Z.ltb_lt in R. apply Z.leb_le in R0. apply negb_true_iff in R1.
  apply negb_true_iff, bool_decide_eq_false in R2. apply Z.eqb_eq in R4.
  exists t'. cbn. repeat split; try reflexivity; try assumption.
  intros S. rewrite S in R3. cbn in R3. discriminate R3.
Qed.

Lemma settleRound_effect w sender roundId finalMultiplier seed w' :
  settleRound keccak256 w sender roundId finalMultiplier seed = Success w' ->
  sender = operator (game w) /\
  status (getRoundOf (game w) roundId) = SeedRevealed /\
  default false (roundSettled (game w) !! roundId) = false /\
  (10 ^ 18 <= finalMultiplier)%Z /\
  keccak256 seed = serverSeedHash (getRoundOf (game w) roundId) /\
  (roundSettled (game w') = <[roundId := true]> (roundSettled (game w))) /\
  (roundFinalMultipliers (game w') =
     <[roundId := finalMultiplier]> (roundFinalMultipliers (game w))) /\
  rounds (game w') = rounds (game w) /\ bets (game w') = bets (game w) /\
  claimablePayouts (game w') = claimablePayouts (game w) /\
  operator (game w') = operator (game w) /\
  sequenceToRound w' = sequenceToRound w /\ roundCounter w' = roundCounter w /\
  token w' = token w /\
  journal w' = journal w ++ [RoundSettled roundId finalMultiplier].
Proof.
  unfold settleRound. intros C. passed C. passed C. passed C. passed C. passed C.
  apply Success_inj in C. subst w'.
  apply bool_decide_eq_true in R, R0, R3. apply negb_true_iff in R1.
  apply Z.leb_le in R2.
  cbn. repeat split; try reflexivity; assumption.
Qed.

Lemma claimAllPayouts_effect w sender w' :
  claimAllPayouts self w sender = Success w' ->
  exists t',
    (0 < claimableOf (game w) sender)%Z /\
    transfer (token w) self sender (claimableOf (game w) sender) = Success (t', true) /\
    (claimablePayouts (game w') = <[sender := 0%Z]> (claimablePayouts (game w))) /\
    rounds (game w') = rounds (game w) /\ bets (game w') = bets (game w) /\
    roundSettled (game w') = roundSettled (game w) /\
    roundFinalMultipliers (game w') = roundFinalMultipliers (game w) /\
    operator (game w') = operator (game w) /\
    sequenceToRound w' = sequenceToRound w /\ roundCounter w' = roundCounter w /\
    token w' = t' /\
    journal w' = journal w ++ [PayoutClaimed sender (claimableOf (game w) sender)].
Proof.
  unfold claimAllPayouts. intros C. passed C. passed C.
  destruct x as [t' ok]. cbn [fst snd] in C. passed C. cbn [snd] in R1. subst ok.
  apply Success_inj in C. subst w'. apply Z.ltb_lt in R.
  exists t'. cbn. repeat split; try reflexivity; assumption.
Qed.

Lemma withdrawHouseEdge_effect w sender w' :
  withdrawHouseEdge self w sender = Success w' ->
  exists t',
    sender = operator (game w) /\
    (0 < balanceOf (token w) self)%Z /\
    transfer (token w) self (operator (game w)) (balanceOf (token w) self)
    = Success (t', true) /\
    w' = with_token w t'.
Proof.
  unfold withdrawHouseEdge. intros C. passed C. passed C. passed C.
  destruct x as [t' ok]. cbn [fst snd] in C. passed C. cbn [snd] in R2. subst ok.
  apply Success_inj in C. subst w'. apply Z.ltb_lt in R0.
  apply bool_decide_eq_true in R.
  exists t'. repeat split; try reflexivity; assumption.
Qed.

End Effects.

(** ** Nothing written is taken back *)

Lemma roundKept_refl a : roundKept a a.
Proof. unfold roundKept. repeat split; auto. Qed.

Lemma betKept_refl a : betKept a a.
Proof. unfold betKept. intros _. split; auto. Qed.

Lemma roundKept_trans a b c : roundKept a b -> roundKept b c -> roundKept a c.
Proof.
  intros [H1 [R1 [S1 [E1 F1]]]] [H2 [R2 [S2 [E2 F2]]]].
  unfold roundKept. split; [congruence|]. split; [lia|].
  split; [intros L; rewrite S2 by lia; apply S1; exact L|].
  split; [intros L; rewrite E2 by lia; apply E1; exact L|].
  intros L. pose proof (F1 L) as ->. apply F2. exact L.
Qed.

Lemma betKept_trans a b c : betKept a b -> betKept b c -> betKept a c.
Proof.
  unfold betKept. intros H1 H2 P. destruct (H1 P) as [A1 S1].
  assert (P2 : (0 < amount b)%Z) by lia.
  destruct (H2 P2) as [A2 S2]. split; [congruence|].
  intros S. pose proof (S1 S) as ->. apply S2. exact S.
Qed.

Section OverTime.

Context {T E : Type} `{IERC20 T} `{IEntropyV2 E}.
Variable self : address.
Variable keccak256 : list byte -> list byte.
Variable entropyAddress : address.

Implicit Types w : World T E.

Lemma kept_refl w : kept w w.
Proof.
  unfold kept. split; [lia|]. split; [intros; apply roundKept_refl|].
  split; [intros; apply betKept_refl|]. split; auto.
Qed.

Lemma kept_trans w1 w2 w3 : kept w1 w2 -> kept w2 w3 -> kept w1 w3.
Proof.
  intros [C1 [R1 [B1 [S1 Q1]]]] [C2 [R2 [B2 [S2 Q2]]]].
  unfold kept. split; [lia|].
  split; [intros r L; eapply roundKept_trans; [apply R1; exact L | apply R2; lia]|].
  split; [intros r u; eapply betKept_trans; [apply B1 | apply B2]|].
  split.
  - intros r L. destruct (S1 r L) as [A1 M1]. destruct (S2 r A1) as [A2 M2].
    split; [exact A2 | congruence].
  - intros s r L N. apply Q2; [apply Q1|]; assumption.
Qed.

(** the parts of [kept] from what a transaction leaves alone *)
Lemma kept_parts w w' :
  (roundCounter w <= roundCounter w')%Z ->
  (forall r, (r < roundCounter w)%Z ->
     roundKept (getRoundOf (game w) r) (getRoundOf (game w') r)) ->
  (forall r u, betKept (getBetOf (game w) r u) (getBetOf (game w') r u)) ->
  (forall r, roundSettled (game w) !! r = Some true ->
     roundSettled (game w') !! r = Some true /\
     roundFinalMultipliers (game w') !! r = roundFinalMultipliers (game w) !! r) ->
  (forall s r, sequenceToRound w !! s = Some r -> r <> 0%Z ->
     sequenceToRound w' !! s = Some r) ->
  kept w w'.
Proof. unfold kept. auto. Qed.

Lemma rounds_same_kept (st st' : State) r :
  rounds st' = rounds st -> roundKept (getRoundOf st r) (getRoundOf st' r).
Proof. intros E0. rewrite (getRoundOf_same _ _ _ E0). apply roundKept_refl. Qed.

Lemma bets_same_kept (st st' : State) r u :
  bets st' = bets st -> betKept (getBetOf st r u) (getBetOf st' r u).
Proof. intros E0. rewrite (getBetOf_same _ _ _ _ E0). apply betKept_refl. Qed.

Lemma settled_same_kept (st st' : State) r :
  roundSettled st' = roundSettled st ->
  roundFinalMultipliers st' = roundFinalMultipliers st ->
  roundSettled st !! r = Some true ->
  roundSettled st' !! r = Some true /\
  roundFinalMultipliers st' !! r = roundFinalMultipliers st !! r.
Proof. intros -> ->. auto. Qed.

(** a round rewritten in place *)
Lemma rounds_insert_kept (st st' : State) k x r :
  rounds st' = <[k := x]> (rounds st) ->
  roundKept (getRoundOf st k) x ->
  roundKept (getRoundOf st r) (getRoundOf st' r).
Proof.
  intros E0 K. rewrite (getRoundOf_insert _ _ _ _ r E0).
  destruct (decide (k = r)) as [<- | N]; [exact K | apply roundKept_refl].
Qed.

Lemma createRound_kept w h w' id : createRound w h = Success (w', id) -> kept w w'.
Proof.
  intros C. destruct (createRound_effect _ _ _ _ C)
    as [-> [Cn [_ [R [B [S [M [_ [_ [Q _]]]]]]]]]].
  apply kept_parts.
  - lia.
  - intros r L. rewrite (getRoundOf_insert _ _ _ _ r R).
    rewrite decide_False by lia. apply roundKept_refl.
  - intros r u. apply bets_same_kept, B.
  - intros r. apply settled_same_kept; assumption.
  - intros s r. rewrite Q. auto.
Qed.

Lemma requestRandomness_kept w sender value refundOk roundId w' :
  requestRandomness self w sender value refundOk roundId = Success w' -> kept w w'.
Proof.
  intros C. destruct (requestRandomness_effect self _ _ _ _ _ _ C)
    as [fee [e' [seq [_ [St [_ [_ [_ [_ [Fresh [_ [R [Q [Cn [B [S [M _]]]]]]]]]]]]]]]]].
  apply kept_parts.
  - lia.
  - intros r _. apply (rounds_insert_kept _ _ _ _ _ R).
    unfold roundKept. cbn. rewrite St. cbn.
    repeat split; try lia; try discriminate.
  - intros r u. apply bets_same_kept, B.
  - intros r. apply settled_same_kept; assumption.
  - intros s r L N. rewrite Q. destruct (decide (seq = s)) as [-> | D].
    + rewrite L in Fresh. cbn in Fresh. contradiction.
    + rewrite lookup_insert_ne by exact D. exact L.
Qed.

Lemma entropyCallback_kept w seq bytes w' :
  entropyCallback w seq bytes = Success w' -> kept w w'.
Proof.
  intros C. destruct (entropyCallback_effect _ _ _ _ C)
    as [roundId [_ [_ [St [R [Q [Cn [B [S [M _]]]]]]]]]].
  apply kept_parts.
  - lia.
  - intros r _. apply (rounds_insert_kept _ _ _ _ _ R).
    unfold roundKept. cbn. rewrite St. cbn.
    repeat split; try lia; try discriminate.
  - intros r u. apply bets_same_kept, B.
  - intros r. apply settled_same_kept; assumption.
  - intros s r. rewrite Q. auto.
Qed.

Lemma revealServerSeed_effect w roundId seed w' :
  revealServerSeed self keccak256 w roundId seed = Success w' ->
  status (getRoundOf (game w) roundId) = Contract.RandomReady /\
  keccak256 seed = serverSeedHash (getRoundOf (game w) roundId) /\
  (rounds (game w') =
     <[roundId := {| serverSeedHash := serverSeedHash (getRoundOf (game w) roundId);
                     serverSeed := seed;
                     sequenceNumber := sequenceNumber (getRoundOf (game w) roundId);
                     entropyRandom := entropyRandom (getRoundOf (game w) roundId);
                     status := SeedRevealed |}]> (rounds (game w))) /\
  bets (game w') = bets (game w) /\
  roundSettled (game w') = roundSettled (game w) /\
  roundFinalMultipliers (game w') = roundFinalMultipliers (game w) /\
  claimablePayouts (game w') = claimablePayouts (game w) /\
  operator (game w') = operator (game w) /\
  sequenceToRound w' = sequenceToRound w /\ roundCounter w' = roundCounter w /\
  token w' = token w.
Proof.
  unfold revealServerSeed. intros C.
  destruct (onStorage_effect self _ _ _ C) as [R [Cn [Q [Tk _]]]].
  unfold Contract.revealServerSeed in R. passed R. passed R.
  apply Success_inj in R. apply bool_decide_eq_true in R0, R1.
  rewrite <- R. cbn. repeat split; assumption.
Qed.

Lemma revealServerSeed_kept w roundId seed w' :
  revealServerSeed self keccak256 w roundId seed = Success w' -> kept w w'.
Proof.
  intros C. destruct (revealServerSeed_effect _ _ _ _ C)
    as [St [_ [R [B [S [M [_ [_ [Q [Cn _]]]]]]]]]].
  apply kept_parts.
  - lia.
  - intros r _. apply (rounds_insert_kept _ _ _ _ _ R).
    unfold roundKept. cbn. rewrite St. cbn.
    repeat split; try lia; try discriminate.
  - intros r u. apply bets_same_kept, B.
  - intros r. apply settled_same_kept; assumption.
  - intros s r. rewrite Q. auto.
Qed.

Lemma setOperator_kept w sender newOperator w' :
  setOperator w sender newOperator = Success w' -> kept w w'.
Proof.
  intros C. destruct (setOperator_effect _ _ _ _ C) as [_ ->].
  apply kept_parts; cbn; auto; try lia.
  - intros. apply roundKept_refl.
  - intros. apply betKept_refl.
Qed.

Lemma placeBet_kept w sender roundId amount w' :
  placeBet self w sender roundId amount = Success w' -> kept w w'.
Proof.
  intros C. destruct (placeBet_effect self _ _ _ _ _ C)
    as [t' [_ [_ [_ [_ [Z0 [_ [B [R [S [M [_ [_ [Q [Cn _]]]]]]]]]]]]]]].
  apply kept_parts.
  - lia.
  - intros r _. apply rounds_same_kept, R.
  - intros r u. rewrite (getBetOf_insert_at _ _ _ _ r u B).
    destruct (decide ((roundId, sender) = (r, u))) as [D | D].
    + injection D as <- <-. unfold betKept. rewrite Z0. lia.
    + apply betKept_refl.
  - intros r. apply settled_same_kept; assumption.
  - intros s r. rewrite Q. auto.
Qed.

Lemma settleRound_kept w sender roundId finalMultiplier seed w' :
  settleRound keccak256 w sender roundId finalMultiplier seed = Success w' -> kept w w'.
Proof.
  intros C. destruct (settleRound_effect keccak256 _ _ _ _ _ _ C)
    as [_ [_ [NS [_ [_ [S [M [R [B [_ [_ [Q [Cn _]]]]]]]]]]]]].
  apply kept_parts.
  - lia.
  - intros r _. apply rounds_same_kept, R.
  - intros r u. apply bets_same_kept, B.
  - intros r L. rewrite S, M. destruct (decide (roundId = r)) as [<- | D].
    + rewrite L in NS. cbn in NS. discriminate NS.
    + rewrite !lookup_insert_ne by exact D. auto.
  - intros s r. rewrite Q. auto.
Qed.

Lemma processCashOuts_effect w sender roundId cashOuts w' :
  processCashOuts self w sender roundId cashOuts = Success w' ->
  sender = operator (game w) /\
  roundSettled (game w) !! roundId = Some true /\
  (0 < default 0%Z (roundFinalMultipliers (game w) !! roundId))%Z /\
  processLoop roundId (default 0%Z (roundFinalMultipliers (game w) !! roundId))
    (storage self w) cashOuts = Success (game w') /\
  roundCounter w' = roundCounter w /\ sequenceToRound w' = sequenceToRound w /\
  token w' = token w /\ entropy w' = entropy w.
Proof.
  unfold processCashOuts. intros C.
  destruct (onStorage_effect self _ _ _ C) as [R [Cn [Q [Tk [En _]]]]].
  unfold Contract.processCashOuts in R. passed R. passed R. passed R.
  apply bool_decide_eq_true in R0. apply Z.ltb_lt in R2.
  cbn in R0, R1, R2. repeat split; try assumption.
  destruct (roundSettled (game w) !! roundId) as [[]|]; cbn in R1; congruence.
Qed.

Lemma processCashOuts_kept w sender roundId cashOuts w' :
  processCashOuts self w sender roundId cashOuts = Success w' -> kept w w'.
Proof.
  intros C. destruct (processCashOuts_effect _ _ _ _ _ C)
    as [_ [_ [_ [L [Cn [Q _]]]]]].
  destruct (processLoop_frame _ _ _ _ _ L) as [R [_ [_ [S [M [B _]]]]]].
  cbn in R, S, M.
  apply kept_parts.
  - lia.
  - intros r _. apply rounds_same_kept, R.
  - intros r u. destruct (B r u) as [Same | [_ [_ [Un [Am _]]]]].
    + change (getBetOf (storage self w) r u) with (getBetOf (game w) r u) in Same.
      rewrite Same. apply betKept_refl.
    + change (getBetOf (storage self w) r u) with (getBetOf (game w) r u) in Un, Am.
      unfold betKept. intros _. split; [exact Am|]. rewrite Un. discriminate.
  - intros r. apply settled_same_kept; assumption.
  - intros s r. rewrite Q. auto.
Qed.

Lemma claimAllPayouts_kept w sender w' :
  claimAllPayouts self w sender = Success w' -> kept w w'.
Proof.
  intros C. destruct (claimAllPayouts_effect self _ _ _ C)
    as [t' [_ [_ [_ [R [B [S [M [_ [Q [Cn _]]]]]]]]]]].
  apply kept_parts.
  - lia.
  - intros r _. apply rounds_same_kept, R.
  - intros r u. apply bets_same_kept, B.
  - intros r. apply settled_same_kept; assumption.
  - intros s r. rewrite Q. auto.
Qed.

Lemma withdrawHouseEdge_kept w sender w' :
  withdrawHouseEdge self w sender = Success w' -> kept w w'.
Proof.
  intros C. destruct (withdrawHouseEdge_effect self _ _ _ C) as [t' [_ [_ [_ ->]]]].
  apply kept_parts; cbn; auto; try lia.
  - intros. apply roundKept_refl.
  - intros. apply betKept_refl.
Qed.

Lemma exec_kept w sender c w' :
  exec self keccak256 entropyAddress w sender c = Success w' -> kept w w'.
Proof.
  destruct c as [h0 | value0 refundOk0 roundId | seq0 bytes0 | roundId seed0
                | newOperator0 | roundId amount0 | roundId finalMultiplier0 seed0
                | roundId cashOuts0 | | ]; cbn [exec]; intros C.
  - passed C. destruct x as [w1 id]. apply Success_inj in C. cbn in C. subst w1.
    eapply createRound_kept, R.
  - eapply requestRandomness_kept, C.
  - passed C. passed C. eapply entropyCallback_kept, C.
  - eapply revealServerSeed_kept, C.
  - eapply setOperator_kept, C.
  - eapply placeBet_kept, C.
  - eapply settleRound_kept, C.
  - eapply processCashOuts_kept, C.
  - eapply claimAllPayouts_kept, C.
  - eapply withdrawHouseEdge_kept, C.
Qed.

Lemma step_kept w s : kept w (step self keccak256 entropyAddress w s).
Proof.
  destruct s as [sender c | t e]; cbn [step].
  - destruct (exec self keccak256 entropyAddress w sender c) as [w'|] eqn:C.
    + eapply exec_kept, C.
    + apply kept_refl.
  - apply kept_parts; cbn; auto; try lia.
    + intros. apply roundKept_refl.
    + intros. apply betKept_refl.
Qed.

Lemma run_app w a b :
  run self keccak256 entropyAddress w (a ++ b) = run self keccak256 entropyAddress (run self keccak256 entropyAddress w a) b.
Proof. unfold run. apply fold_left_app. Qed.

Lemma run_kept steps : forall w, kept w (run self keccak256 entropyAddress w steps).
Proof.
  induction steps as [|s steps IH]; intros w.
  - apply kept_refl.
  - cbn [run fold_left]. eapply kept_trans; [apply step_kept | apply IH].
Qed.

End OverTime.

(** ** What holds of every storage reached *)

Lemma stored_of_status (st : State) r :
  status (getRoundOf st r) <> Created -> exists rd, rounds st !! r = Some rd.
Proof.
  intros N. apply getRoundOf_exists. intros Z0. apply N. rewrite Z0. reflexivity.
Qed.

Lemma stored_of_hash (st : State) r :
  serverSeedHash (getRoundOf st r) <> zeroHash -> exists rd, rounds st !! r = Some rd.
Proof.
  intros N. apply getRoundOf_exists. intros Z0. apply N. rewrite Z0. reflexivity.
Qed.

Section Sound.

Context {T E : Type} `{IERC20 T} `{IEntropyV2 E}.
Variable self : address.
Variable keccak256 : list byte -> list byte.
Variable entropyAddress : address.

Implicit Types w : World T E.

Lemma sound_parts w :
  (1 <= roundCounter w)%Z ->
  (forall r rd, rounds (game w) !! r = Some rd -> (1 <= r < roundCounter w)%Z) ->
  (forall r, status (getRoundOf (game w) r) = SeedRevealed ->
     keccak256 (Contract.serverSeed (getRoundOf (game w) r))
     = serverSeedHash (getRoundOf (game w) r)) ->
  (forall r, roundSettled (game w) !! r = Some true ->
     status (getRoundOf (game w) r) = SeedRevealed /\
     exists m, roundFinalMultipliers (game w) !! r = Some m /\ (10 ^ 18 <= m)%Z) ->
  (forall r u b, bets (game w) !! (r, u) = Some b ->
     (0 < amount b <= MAX_BET)%Z /\
     serverSeedHash (getRoundOf (game w) r) <> zeroHash /\
     (settled b = true ->
      roundSettled (game w) !! r = Some true /\
      (10 ^ 18 <= cashOutMultiplier b
       <= default 0 (roundFinalMultipliers (game w) !! r))%Z)) ->
  (forall s r, sequenceToRound w !! s = Some r -> r <> 0%Z ->
     sequenceNumber (getRoundOf (game w) r) = s /\
     status (getRoundOf (game w) r) <> Created) ->
  sound keccak256 w.
Proof.
  intros A B C D F G. exact (conj A (conj B (conj C (conj D (conj F G))))).
Qed.

Lemma constructor_sound (e : E) (op : address) (t : T) :
  sound keccak256 (constructor self e op t).
Proof.
  apply sound_parts; cbn.
  - lia.
  - intros r rd L. rewrite lookup_empty in L. discriminate L.
  - intros r. unfold getRoundOf. cbn. rewrite lookup_empty. cbn. discriminate.
  - intros r L. rewrite lookup_empty in L. discriminate L.
  - intros r u b L. rewrite lookup_empty in L. discriminate L.
  - intros s r L. rewrite lookup_empty in L. discriminate L.
Qed.

(** in a sound storage a round that is not the zero value has an id below
    the counter *)
Lemma sound_status_range w r :
  sound keccak256 w -> status (getRoundOf (game w) r) <> Created ->
  (1 <= r < roundCounter w)%Z.
Proof.
  intros [_ [S2 _]] N. destruct (stored_of_status _ _ N) as [rd L]. eapply S2, L.
Qed.

Lemma sound_hash_range w r :
  sound keccak256 w -> serverSeedHash (getRoundOf (game w) r) <> zeroHash ->
  (1 <= r < roundCounter w)%Z.
Proof.
  intros [_ [S2 _]] N. destruct (stored_of_hash _ _ N) as [rd L]. eapply S2, L.
Qed.

Lemma createRound_sound w h w' id :
  sound keccak256 w -> createRound w h = Success (w', id) -> sound keccak256 w'.
Proof.
  intros So C. pose proof So as [S1 [S2 [S3 [S4 [S5 S6]]]]].
  destruct (createRound_effect _ _ _ _ C)
    as [-> [Cn [_ [R [B [S [M [_ [_ [Q _]]]]]]]]]].
  assert (Old : forall r, (r < roundCounter w)%Z ->
                          getRoundOf (game w') r = getRoundOf (game w) r).
  { intros r L. rewrite (getRoundOf_insert _ _ _ _ r R).
    rewrite decide_False by lia. reflexivity. }
  apply sound_parts.
  - lia.
  - intros r rd L. rewrite R in L. rewrite Cn.
    destruct (decide (roundCounter w = r)) as [<- | D]; [lia|].
    rewrite lookup_insert_ne in L by exact D. pose proof (S2 r rd L). lia.
  - intros r. rewrite (getRoundOf_insert _ _ _ _ r R).
    destruct (decide (roundCounter w = r)) as [<- | D]; [cbn; discriminate|].
    apply S3.
  - intros r L. rewrite S in L. rewrite M. destruct (S4 r L) as [St Fm].
    assert (Rg : (1 <= r < roundCounter w)%Z).
    { apply sound_status_range; [exact So|]. rewrite St. discriminate. }
    rewrite Old by lia. split; assumption.
  - intros r u b L. rewrite B in L. rewrite S, M.
    destruct (S5 r u b L) as [A [Hh Se]].
    pose proof (sound_hash_range w r So Hh) as Rg.
    rewrite Old by lia. split; [exact A|]. split; [exact Hh | exact Se].
  - intros s r L N. rewrite Q in L. destruct (S6 s r L N) as [Sq St].
    pose proof (sound_status_range w r So St) as Rg.
    rewrite Old by lia. split; assumption.
Qed.

(** a round rewritten in place with the same commitment *)
Lemma rewrite_sound w w' roundId x :
  sound keccak256 w ->
  (rounds (game w') = <[roundId := x]> (rounds (game w))) ->
  serverSeedHash x = serverSeedHash (getRoundOf (game w) roundId) ->
  (exists rd, rounds (game w) !! roundId = Some rd) ->
  status (getRoundOf (game w) roundId) <> SeedRevealed ->
  (status x = SeedRevealed -> keccak256 (Contract.serverSeed x) = serverSeedHash x) ->
  bets (game w') = bets (game w) ->
  roundSettled (game w') = roundSettled (game w) ->
  roundFinalMultipliers (game w') = roundFinalMultipliers (game w) ->
  roundCounter w' = roundCounter w ->
  (forall s r, sequenceToRound w' !! s = Some r -> r <> 0%Z ->
     (r = roundId /\ sequenceNumber x = s /\ status x <> Created) \/
     (r <> roundId /\ sequenceToRound w !! s = Some r)) ->
  sound keccak256 w'.
Proof.
  intros So R Hx [rd0 K] NR Hs B S M Cn Q.
  pose proof So as [S1 [S2 [S3 [S4 [S5 S6]]]]].
  apply sound_parts.
  - lia.
  - intros r rd L. rewrite R in L. rewrite Cn.
    destruct (decide (roundId = r)) as [<- | D]; [eapply S2, K|].
    rewrite lookup_insert_ne in L by exact D. eapply S2, L.
  - intros r. rewrite (getRoundOf_insert _ _ _ _ r R).
    destruct (decide (roundId = r)) as [<- | D]; [exact Hs | apply S3].
  - intros r L. rewrite S in L. rewrite M. destruct (S4 r L) as [St Fm].
    rewrite (getRoundOf_insert _ _ _ _ r R).
    destruct (decide (roundId = r)) as [<- | D]; [contradiction|].
    split; assumption.
  - intros r u b L. rewrite B in L. rewrite S, M.
    destruct (S5 r u b L) as [A [Hh Se]].
    rewrite (getRoundOf_insert _ _ _ _ r R).
    destruct (decide (roundId = r)) as [<- | D].
    + rewrite Hx. split; [exact A|]. split; [exact Hh | exact Se].
    + split; [exact A|]. split; [exact Hh | exact Se].
  - intros s r L N. destruct (Q s r L N) as [[-> [Sq St]] | [D L']].
    + rewrite (getRoundOf_insert _ _ _ _ roundId R).
      rewrite decide_True by reflexivity. split; assumption.
    + rewrite (getRoundOf_insert _ _ _ _ r R).
      rewrite decide_False by congruence. apply S6; assumption.
Qed.

Lemma requestRandomness_sound w sender value refundOk roundId w' :
  sound keccak256 w ->
  requestRandomness self w sender value refundOk roundId = Success w' ->
  sound keccak256 w'.
Proof.
  intros So C. pose proof So as [S1 [S2 [S3 [S4 [S5 S6]]]]].
  destruct (requestRandomness_effect self _ _ _ _ _ _ C)
    as [fee [e' [seq [Hh [St [_ [_ [_ [_ [Fresh [_ [R [Q [Cn [B [S [M _]]]]]]]]]]]]]]]]].
  eapply (rewrite_sound w w' roundId _ So R); try assumption.
  - reflexivity.
  - apply stored_of_hash, Hh.
  - rewrite St. discriminate.
  - cbn. discriminate.
  - intros s r L N. rewrite Q in L. cbn.
    destruct (decide (seq = s)) as [<- | D].
    + rewrite lookup_insert_eq in L. injection L as <-.
      left. repeat split. discriminate.
    + rewrite lookup_insert_ne in L by exact D. right. split; [|exact L].
      intros ->. destruct (S6 s roundId L N) as [_ NC]. contradiction.
Qed.

Lemma entropyCallback_sound w seq bytes w' :
  sound keccak256 w -> entropyCallback w seq bytes = Success w' -> sound keccak256 w'.
Proof.
  intros So C. pose proof So as [S1 [S2 [S3 [S4 [S5 S6]]]]].
  destruct (entropyCallback_effect _ _ _ _ C)
    as [roundId [_ [_ [St [R [Q [Cn [B [S [M _]]]]]]]]]].
  eapply (rewrite_sound w w' roundId _ So R); try assumption.
  - reflexivity.
  - apply stored_of_status. rewrite St. discriminate.
  - rewrite St. discriminate.
  - cbn. discriminate.
  - intros s r L N. rewrite Q in L. cbn.
    destruct (decide (r = roundId)) as [-> | D].
    + left. destruct (S6 s roundId L N) as [Sq _]. repeat split; [exact Sq | discriminate].
    + right. split; assumption.
Qed.

Lemma revealServerSeed_sound w roundId seed w' :
  sound keccak256 w -> revealServerSeed self keccak256 w roundId seed = Success w' ->
  sound keccak256 w'.
Proof.
  intros So C. pose proof So as [S1 [S2 [S3 [S4 [S5 S6]]]]].
  destruct (revealServerSeed_effect self keccak256 _ _ _ _ C)
    as [St [Hk [R [B [S [M [_ [_ [Q [Cn _]]]]]]]]]].
  eapply (rewrite_sound w w' roundId _ So R); try assumption.
  - reflexivity.
  - apply stored_of_status. rewrite St. discriminate.
  - rewrite St. discriminate.
  - cbn. intros _. exact Hk.
  - intros s r L N. rewrite Q in L. cbn.
    destruct (decide (r = roundId)) as [-> | D].
    + left. destruct (S6 s roundId L N) as [Sq _]. repeat split; [exact Sq | discriminate].
    + right. split; assumption.
Qed.

Lemma setOperator_sound w sender newOperator w' :
  sound keccak256 w -> setOperator w sender newOperator = Success w' -> sound keccak256 w'.
Proof.
  intros So C. destruct (setOperator_effect _ _ _ _ C) as [_ ->]. exact So.
Qed.

Lemma placeBet_sound w sender roundId amount w' :
  sound keccak256 w -> placeBet self w sender roundId amount = Success w' ->
  sound keccak256 w'.
Proof.
  intros So C. pose proof So as [S1 [S2 [S3 [S4 [S5 S6]]]]].
  destruct (placeBet_effect self _ _ _ _ _ C)
    as [t' [A [_ [Hh [_ [_ [_ [B [R [S [M [_ [_ [Q [Cn _]]]]]]]]]]]]]]].
  apply sound_parts.
  - lia.
  - rewrite R, Cn. exact S2.
  - intros r. rewrite (getRoundOf_same _ _ r R). apply S3.
  - intros r. rewrite S, M, (getRoundOf_same _ _ r R). apply S4.
  - intros r u b L. rewrite S, M, (getRoundOf_same _ _ r R). rewrite B in L.
    destruct (decide ((roundId, sender) = (r, u))) as [D | D].
    + injection D as <- <-. rewrite lookup_insert_eq in L. injection L as <-. cbn.
      split; [exact A|]. split; [exact Hh | discriminate].
    + rewrite lookup_insert_ne in L by exact D. apply (S5 r u b L).
  - intros s r. rewrite Q, (getRoundOf_same _ _ r R). apply S6.
Qed.

Lemma settleRound_sound w sender roundId finalMultiplier seed w' :
  sound keccak256 w ->
  settleRound keccak256 w sender roundId finalMultiplier seed = Success w' ->
  sound keccak256 w'.
Proof.
  intros So C. pose proof So as [S1 [S2 [S3 [S4 [S5 S6]]]]].
  destruct (settleRound_effect keccak256 _ _ _ _ _ _ C)
    as [_ [St [NS [Fm [_ [S [M [R [B [_ [_ [Q [Cn _]]]]]]]]]]]]].
  apply sound_parts.
  - lia.
  - rewrite R, Cn. exact S2.
  - intros r. rewrite (getRoundOf_same _ _ r R). apply S3.
  - intros r L. rewrite (getRoundOf_same _ _ r R). rewrite S in L. rewrite M.
    destruct (decide (roundId = r)) as [<- | D].
    + rewrite lookup_insert_eq. split; [exact St|]. exists finalMultiplier. auto.
    + rewrite lookup_insert_ne in L by exact D. rewrite lookup_insert_ne by exact D.
      apply S4, L.
  - intros r u b L. rewrite (getRoundOf_same _ _ r R). rewrite B in L.
    destruct (S5 r u b L) as [A [Hh Se]]. split; [exact A|]. split; [exact Hh|].
    intros Sb. destruct (Se Sb) as [Sr Cm]. rewrite S, M.
    assert (D : roundId <> r).
    { intros <-. rewrite Sr in NS. cbn in NS. discriminate NS. }
    rewrite !lookup_insert_ne by exact D. split; assumption.
  - intros s r. rewrite Q, (getRoundOf_same _ _ r R). apply S6.
Qed.

Lemma processCashOuts_sound w sender roundId cashOuts w' :
  sound keccak256 w -> processCashOuts self w sender roundId cashOuts = Success w' ->
  sound keccak256 w'.
Proof.
  intros So C. pose proof So as [S1 [S2 [S3 [S4 [S5 S6]]]]].
  destruct (processCashOuts_effect self _ _ _ _ _ C)
    as [_ [Sr [_ [L [Cn [Q _]]]]]].
  destruct (processLoop_frame _ _ _ _ _ L) as [R [_ [_ [S [M [B K]]]]]].
  cbn in R, S, M.
  apply sound_parts.
  - lia.
  - rewrite R, Cn. exact S2.
  - intros r. rewrite (getRoundOf_same _ _ r R). apply S3.
  - intros r. rewrite S, M, (getRoundOf_same _ _ r R). apply S4.
  - intros r u b Lb. rewrite S, M, (getRoundOf_same _ _ r R).
    destruct (K _ _ Lb) as [Old | [[b0 [Old P0]] Er]].
    + apply (S5 r u b Old).
    + cbn in Old, Er. subst r. destruct (S5 roundId u b0 Old) as [A [Hh Se]].
      assert (Gb : getBetOf (game w') roundId u = b).
      { unfold getBetOf. rewrite Lb. reflexivity. }
      assert (G0 : getBetOf (storage self w) roundId u = b0).
      { unfold getBetOf. cbn. rewrite Old. reflexivity. }
      destruct (B roundId u) as [Same | [_ [_ [_ [Am [_ Cm]]]]]].
      * rewrite Gb, G0 in Same. rewrite Same. split; [exact A|]. split; [exact Hh | exact Se].
      * rewrite Gb, G0 in Am. rewrite Gb in Cm. rewrite Am.
        split; [exact A|]. split; [exact Hh|]. intros _. split; [exact Sr | exact Cm].
  - intros s r. rewrite Q, (getRoundOf_same _ _ r R). apply S6.
Qed.

Lemma claimAllPayouts_sound w sender w' :
  sound keccak256 w -> claimAllPayouts self w sender = Success w' -> sound keccak256 w'.
Proof.
  intros So C. pose proof So as [S1 [S2 [S3 [S4 [S5 S6]]]]].
  destruct (claimAllPayouts_effect self _ _ _ C)
    as [t' [_ [_ [_ [R [B [S [M [_ [Q [Cn _]]]]]]]]]]].
  apply sound_parts.
  - lia.
  - rewrite R, Cn. exact S2.
  - intros r. rewrite (getRoundOf_same _ _ r R). apply S3.
  - intros r. rewrite S, M, (getRoundOf_same _ _ r R). apply S4.
  - intros r u b. rewrite B, S, M, (getRoundOf_same _ _ r R). apply S5.
  - intros s r. rewrite Q, (getRoundOf_same _ _ r R). apply S6.
Qed.

Lemma withdrawHouseEdge_sound w sender w' :
  sound keccak256 w -> withdrawHouseEdge self w sender = Success w' -> sound keccak256 w'.
Proof.
  intros So C. destruct (withdrawHouseEdge_effect self _ _ _ C) as [t' [_ [_ [_ ->]]]].
  exact So.
Qed.

Lemma exec_sound w sender c w' :
  sound keccak256 w -> exec self keccak256 entropyAddress w sender c = Success w' -> sound keccak256 w'.
Proof.
  intros So. destruct c as [h0 | value0 refundOk0 roundId | seq0 bytes0 | roundId seed0
                | newOperator0 | roundId amount0 | roundId finalMultiplier0 seed0
                | roundId cashOuts0 | | ]; cbn [exec]; intros C.
  - passed C. destruct x as [w1 id]. apply Success_inj in C. cbn in C. subst w1.
    eapply createRound_sound; eassumption.
  - eapply requestRandomness_sound; eassumption.
  - passed C. passed C. eapply entropyCallback_sound; eassumption.
  - eapply revealServerSeed_sound; eassumption.
  - eapply setOperator_sound; eassumption.
  - eapply placeBet_sound; eassumption.
  - eapply settleRound_sound; eassumption.
  - eapply processCashOuts_sound; eassumption.
  - eapply claimAllPayouts_sound; eassumption.
  - eapply withdrawHouseEdge_sound; eassumption.
Qed.

Lemma step_sound w s : sound keccak256 w -> sound keccak256 (step self keccak256 entropyAddress w s).
Proof.
  intros So. destruct s as [sender c | t e]; cbn [step].
  - destruct (exec self keccak256 entropyAddress w sender c) as [w'|] eqn:C.
    + eapply exec_sound; eassumption.
    + exact So.
  - exact So.
Qed.

Lemma run_sound steps :
  forall w, sound keccak256 w -> sound keccak256 (run self keccak256 entropyAddress w steps).
Proof.
  induction steps as [|s steps IH]; intros w So; [exact So|].
  cbn [run fold_left]. apply IH, step_sound, So.
Qed.

End Sound.

(** ** A round that reads as the zero value *)

Section Dead.

Context {T E : Type} `{IERC20 T} `{IEntropyV2 E}.
Variable self : address.
Variable keccak256 : list byte -> list byte.
Variable entropyAddress : address.

Implicit Types w : World T E.

Lemma exec_dead w sender c w' id :
  getRoundOf (game w) id = zeroRound -> (id < roundCounter w)%Z ->
  exec self keccak256 entropyAddress w sender c = Success w' ->
  getRoundOf (game w') id = zeroRound.
Proof.
  intros G L. destruct c as [h0 | value0 refundOk0 roundId | seq0 bytes0 | roundId seed0
                | newOperator0 | roundId amount0 | roundId finalMultiplier0 seed0
                | roundId cashOuts0 | | ]; cbn [exec]; intros C.
  - passed C. destruct x as [w1 i]. apply Success_inj in C. cbn in C. subst w1.
    destruct (createRound_effect _ _ _ _ R) as [-> [_ [_ [Rd _]]]].
    rewrite (getRoundOf_insert _ _ _ _ id Rd). rewrite decide_False by lia. exact G.
  - destruct (requestRandomness_effect self _ _ _ _ _ _ C)
      as [fee [e' [seq [Hh [_ [_ [_ [_ [_ [_ [_ [Rd _]]]]]]]]]]]].
    rewrite (getRoundOf_insert _ _ _ _ id Rd).
    destruct (decide (roundId = id)) as [-> | D]; [|exact G].
    rewrite G in Hh. exfalso. apply Hh. reflexivity.
  - passed C. passed C.
    destruct (entropyCallback_effect _ _ _ _ C) as [roundId [_ [_ [St [Rd _]]]]].
    rewrite (getRoundOf_insert _ _ _ _ id Rd).
    destruct (decide (roundId = id)) as [-> | D]; [|exact G].
    rewrite G in St. discriminate St.
  - destruct (revealServerSeed_effect self keccak256 _ _ _ _ C) as [St [_ [Rd _]]].
    rewrite (getRoundOf_insert _ _ _ _ id Rd).
    destruct (decide (roundId = id)) as [-> | D]; [|exact G].
    rewrite G in St. discriminate St.
  - destruct (setOperator_effect _ _ _ _ C) as [_ ->]. exact G.
  - destruct (placeBet_effect self _ _ _ _ _ C)
      as [t' [_ [_ [_ [_ [_ [_ [_ [Rd _]]]]]]]]].
    rewrite (getRoundOf_same _ _ id Rd). exact G.
  - destruct (settleRound_effect keccak256 _ _ _ _ _ _ C)
      as [_ [_ [_ [_ [_ [_ [_ [Rd _]]]]]]]].
    rewrite (getRoundOf_same _ _ id Rd). exact G.
  - destruct (processCashOuts_effect self _ _ _ _ _ C) as [_ [_ [_ [Lp _]]]].
    destruct (processLoop_frame _ _ _ _ _ Lp) as [Rd _]. cbn in Rd.
    rewrite (getRoundOf_same _ _ id Rd). exact G.
  - destruct (claimAllPayouts_effect self _ _ _ C) as [t' [_ [_ [_ [Rd _]]]]].
    rewrite (getRoundOf_same _ _ id Rd). exact G.
  - destruct (withdrawHouseEdge_effect self _ _ _ C) as [t' [_ [_ [_ ->]]]]. exact G.
Qed.

Lemma run_dead steps :
  forall w id,
    getRoundOf (game w) id = zeroRound -> (id < roundCounter w)%Z ->
    getRoundOf (game (run self keccak256 entropyAddress w steps)) id = zeroRound.
Proof.
  induction steps as [|s steps IH]; intros w id G L; [exact G|].
  cbn [run fold_left]. apply IH.
  - destruct s as [sender c | t e]; cbn [step]; [|exact G].
    destruct (exec self keccak256 entropyAddress w sender c) as [w'|] eqn:C; [|exact G].
    eapply exec_dead; eassumption.
  - destruct (step_kept self keccak256 entropyAddress w s) as [Cn _]. lia.
Qed.

End Dead.

(** ** When a call goes through *)

Section Forward.

Context {T E : Type} `{IERC20 T} `{IEntropyV2 E}.
Variable self : address.
Variable keccak256 : list byte -> list byte.
Variable entropyAddress : address.

Implicit Types w : World T E.

Lemma skipn_own_length {A : Type} (l m : list A) : skipn (List.length l) (l ++ m) = m.
Proof. induction l as [|a l IH]; [reflexivity | exact IH]. Qed.

Lemma createRound_succeeds w h :
  (roundCounter w + 1 <= uint256_max)%Z ->
  exists w', createRound w h = Success (w', roundCounter w) /\ entropy w' = entropy w.
Proof.
  intros L. unfold createRound, checked. rewrite (proj2 (Z.leb_le _ _) L).
  cbn [rbind]. eexists. split; reflexivity.
Qed.

Lemma requestRandomness_succeeds w sender value roundId fee e' seq :
  serverSeedHash (getRoundOf (game w) roundId) <> zeroHash ->
  status (getRoundOf (game w) roundId) = Created ->
  sequenceNumber (getRoundOf (game w) roundId) = 0%Z ->
  getFeeV2 (entropy w) = Success fee -> (fee <= value)%Z ->
  requestV2 (entropy w) self fee = Success (e', seq) ->
  default 0%Z (sequenceToRound w !! seq) = 0%Z ->
  exists w', requestRandomness self w sender value true roundId = Success w'.
Proof.
  intros Hh St Sq Fee Cov Req Fresh. unfold requestRandomness.
  rewrite (bool_decide_eq_false_2 _ Hh). cbn [negb require rbind].
  rewrite (bool_decide_eq_true_2 _ St). cbn [require rbind].
  rewrite Sq. cbn [Z.eqb require rbind]. rewrite Fee. cbn [rbind].
  rewrite (proj2 (Z.leb_le _ _) Cov). cbn [require rbind].
  rewrite Req. cbn [rbind snd fst]. rewrite Fresh. cbn [Z.eqb require rbind].
  destruct (fee <? value)%Z; cbn [require rbind]; eexists; reflexivity.
Qed.

Lemma entropyCallback_succeeds w seq bytes roundId :
  sequenceToRound w !! seq = Some roundId -> roundId <> 0%Z ->
  status (getRoundOf (game w) roundId) = Contract.RandomRequested ->
  exists w', entropyCallback w seq bytes = Success w'.
Proof.
  intros L N St. unfold entropyCallback. rewrite L. cbn [from_option id].
  rewrite (proj2 (Z.eqb_neq _ _) N). cbn [negb require rbind].
  rewrite (bool_decide_eq_true_2 _ St). cbn [require rbind]. eexists; reflexivity.
Qed.

Lemma revealServerSeed_succeeds w roundId seed :
  status (getRoundOf (game w) roundId) = Contract.RandomReady ->
  keccak256 seed = serverSeedHash (getRoundOf (game w) roundId) ->
  exists w',
    revealServerSeed self keccak256 w roundId seed = Success w' /\
    journal w' = journal w ++ [Revealed (ServerSeedRevealed roundId seed)].
Proof.
  intros St Hk. unfold revealServerSeed, onStorage, Contract.revealServerSeed.
  change (getRoundOf (storage self w) roundId) with (getRoundOf (game w) roundId).
  rewrite (bool_decide_eq_true_2 _ St). cbn [require rbind].
  rewrite (bool_decide_eq_true_2 _ Hk). cbn [require rbind].
  eexists. split; [reflexivity|]. cbn [journal events storage with_tokenBalance].
  rewrite skipn_own_length. reflexivity.
Qed.

Lemma settleRound_succeeds w sender roundId finalMultiplier seed :
  sender = operator (game w) ->
  status (getRoundOf (game w) roundId) = SeedRevealed ->
  default false (roundSettled (game w) !! roundId) = false ->
  (10 ^ 18 <= finalMultiplier)%Z ->
  keccak256 seed = serverSeedHash (getRoundOf (game w) roundId) ->
  exists w', settleRound keccak256 w sender roundId finalMultiplier seed = Success w'.
Proof.
  intros Op St NS Fm Hk. unfold settleRound.
  rewrite (bool_decide_eq_true_2 _ Op). cbn [require rbind].
  rewrite (bool_decide_eq_true_2 _ St). cbn [require rbind].
  rewrite NS. cbn [negb require rbind].
  rewrite (proj2 (Z.leb_le _ _) Fm). cbn [require rbind].
  rewrite (bool_decide_eq_true_2 _ Hk). cbn [require rbind]. eexists; reflexivity.
Qed.

End Forward.

End CrashGameFacts.

(** * The contract over any sequence of transactions *)

Section Ledger.
Import Contract ContractFacts CrashGame History CrashGameFacts.

Context {T E : Type} `{IERC20 T} `{IEntropyV2 E}.
Variable self : address.
Variable keccak256 : list byte -> list byte.
Variable entropyAddress : address.

Implicit Types w : World T E.

(** X1: whatever transactions follow, by whomever, a round that was created
    keeps its committed hash and never returns to an earlier status; its
    sequence number is fixed once randomness was requested, its entropy value
    once it is ready, and the whole record once the seed is revealed. *)
Theorem rounds_keep_history w (steps : list (Step T E)) (r : Z) :
  (r < roundCounter w)%Z ->
  let a := getRoundOf (game w) r in
  let b := getRoundOf (game (run self keccak256 entropyAddress w steps)) r in
  serverSeedHash b = serverSeedHash a /\
  (rank (status a) <= rank (status b))%nat /\
  (status a <> Created -> sequenceNumber b = sequenceNumber a) /\
  (status a = Contract.RandomReady \/ status a = SeedRevealed ->
   entropyRandom b = entropyRandom a) /\
  (status a = SeedRevealed -> b = a).
Proof.
  intros L. cbv zeta.
  destruct (run_kept self keccak256 entropyAddress steps w) as [_ [R _]].
  destruct (R r L) as [Hh [Rk [Sq [En Fr]]]].
  split; [exact Hh|]. split; [exact Rk|]. split; [|split; [|exact Fr]].
  - intros N. apply Sq. destruct (status (getRoundOf (game w) r)); cbn; try lia.
    contradiction.
  - intros [S | S]; apply En; rewrite S; cbn; lia.
Qed.

(** X2: a stake, once placed, is never changed or taken back by any later
    transaction, and a bet that was settled is never written again. *)
Theorem bets_keep_history w (steps : list (Step T E)) (r : Z) (u : address) :
  (0 < amount (getBetOf (game w) r u))%Z ->
  let a := getBetOf (game w) r u in
  let b := getBetOf (game (run self keccak256 entropyAddress w steps)) r u in
  amount b = amount a /\ (settled a = true -> b = a).
Proof.
  intros P. cbv zeta.
  destruct (run_kept self keccak256 entropyAddress steps w) as [_ [_ [B _]]].
  exact (B r u P).
Qed.

(** X3: a round is settled once: whatever follows, it stays settled and its
    final multiplier stays the one it was settled with. *)
Theorem settlement_is_final w (steps : list (Step T E)) (r m : Z) :
  roundSettled (game w) !! r = Some true ->
  roundFinalMultipliers (game w) !! r = Some m ->
  let w' := run self keccak256 entropyAddress w steps in
  roundSettled (game w') !! r = Some true /\
  roundFinalMultipliers (game w') !! r = Some m /\
  forall sender m' seed,
    settleRound keccak256 w' sender r m' seed = Revert "Not operator" \/
    settleRound keccak256 w' sender r m' seed = Revert "Server seed not revealed" \/
    settleRound keccak256 w' sender r m' seed = Revert "Round already settled".
Proof.
  intros S M. cbv zeta.
  destruct (run_kept self keccak256 entropyAddress steps w) as [_ [_ [_ [K _]]]].
  destruct (K r S) as [S' M']. split; [exact S'|]. split; [congruence|].
  intros sender m' seed. unfold settleRound.
  destruct (bool_decide (sender = operator (game (run self keccak256 entropyAddress w steps))));
    [|left; reflexivity].
  cbn [require rbind].
  destruct (bool_decide (status (getRoundOf (game (run self keccak256 entropyAddress w steps)) r)
                         = SeedRevealed)); [|right; left; reflexivity].
  cbn [require rbind]. rewrite S'. right. right. reflexivity.
Qed.

(** X4: in every storage reached from deployment, a revealed seed hashes to
    the round's commitment, and a settled round has its seed revealed and a
    final multiplier of at least 1.00x. *)
Theorem reveals_match_commitments (e : E) (op : address) (t : T)
    (steps : list (Step T E)) (r : Z) :
  let w := run self keccak256 entropyAddress (constructor self e op t) steps in
  (status (getRoundOf (game w) r) = SeedRevealed ->
   keccak256 (Contract.serverSeed (getRoundOf (game w) r))
   = serverSeedHash (getRoundOf (game w) r)) /\
  (roundSettled (game w) !! r = Some true ->
   status (getRoundOf (game w) r) = SeedRevealed /\
   exists m, roundFinalMultipliers (game w) !! r = Some m /\ (10 ^ 18 <= m)%Z).
Proof.
  cbv zeta.
  destruct (run_sound self keccak256 entropyAddress steps _ (constructor_sound self keccak256 e op t))
    as [_ [_ [S3 [S4 _]]]].
  split; [apply S3 | apply S4].
Qed.

(** X5: in every storage reached from deployment, every stake is between 1
    unit and MAX_BET on a round with a commitment, and every settled bet
    belongs to a settled round and carries a cash-out multiplier between
    1.00x and that round's final multiplier. *)
Theorem bets_within_bounds (e : E) (op : address) (t : T)
    (steps : list (Step T E)) (r : Z) (u : address) :
  let w := run self keccak256 entropyAddress (constructor self e op t) steps in
  let b := getBetOf (game w) r u in
  (amount b = 0%Z \/ (0 < amount b <= MAX_BET)%Z) /\
  (amount b <> 0%Z -> serverSeedHash (getRoundOf (game w) r) <> zeroHash) /\
  (settled b = true ->
   (0 < amount b)%Z /\
   roundSettled (game w) !! r = Some true /\
   (10 ^ 18 <= cashOutMultiplier b
    <= default 0 (roundFinalMultipliers (game w) !! r))%Z).
Proof.
  cbv zeta.
  destruct (run_sound self keccak256 entropyAddress steps _ (constructor_sound self keccak256 e op t))
    as [_ [_ [_ [_ [S5 _]]]]].
  set (w := run self keccak256 entropyAddress (constructor self e op t) steps) in *.
  unfold getBetOf. destruct (bets (game w) !! (r, u)) as [b|] eqn:L; cbn [default].
  - destruct (S5 r u b L) as [A [Hh Se]].
    split; [right; exact A|]. split; [intros _; exact Hh|].
    intros Sb. destruct (Se Sb) as [Sr Cm]. split; [apply A|]. split; assumption.
  - cbn. split; [left; reflexivity|]. split; [congruence | discriminate].
Qed.

(** X6: one bet per wallet and round: after a bet was placed, every further
    [placeBet] of that wallet on that round reverts, whatever happened in
    between, with one of the six reasons the contract checks before it moves
    any token. *)
Theorem one_bet_per_wallet w sender roundId amount w' (steps : list (Step T E))
    (amount' : Z) :
  placeBet self w sender roundId amount = Success w' ->
  exists reason,
    placeBet self (run self keccak256 entropyAddress w' steps) sender roundId amount' = Revert reason /\
    In reason ["Amount must be greater than 0"; "Bet amount exceeds maximum";
               "Round already settled"; "Round does not exist"; "Betting closed";
               "Already placed bet"]%string.
Proof.
  intros C.
  destruct (placeBet_effect self _ _ _ _ _ C)
    as [t' [A [_ [_ [_ [_ [_ [B _]]]]]]]].
  assert (P : (0 < Contract.amount (getBetOf (game w') roundId sender))%Z).
  { rewrite (getBetOf_insert_at _ _ _ _ roundId sender B).
    rewrite decide_True by reflexivity. cbn. lia. }
  destruct (run_kept self keccak256 entropyAddress steps w') as [_ [_ [K _]]].
  destruct (K roundId sender P) as [Am _].
  set (w2 := run self keccak256 entropyAddress w' steps) in *.
  unfold placeBet.
  destruct (0 <? amount')%Z; cbn [require rbind]; [|eexists; split; [reflexivity|cbn; tauto]].
  destruct (amount' <=? MAX_BET)%Z; cbn [require rbind];
    [|eexists; split; [reflexivity|cbn; tauto]].
  destruct (negb (default false (roundSettled (game w2) !! roundId))); cbn [require rbind];
    [|eexists; split; [reflexivity|cbn; tauto]].
  destruct (negb (bool_decide (serverSeedHash (getRoundOf (game w2) roundId) = zeroHash)));
    cbn [require rbind]; [|eexists; split; [reflexivity|cbn; tauto]].
  destruct (bool_decide (status (getRoundOf (game w2) roundId) = Created)
            || bool_decide (status (getRoundOf (game w2) roundId) = Contract.RandomRequested)
            || bool_decide (status (getRoundOf (game w2) roundId) = Contract.RandomReady));
    cbn [require rbind]; [|eexists; split; [reflexivity|cbn; tauto]].
  assert (Z0 : (Contract.amount (getBetOf (game w2) roundId sender) =? 0)%Z = false).
  { apply Z.eqb_neq. lia. }
  rewrite Z0. cbn [require rbind]. eexists; split; [reflexivity|cbn; tauto].
Qed.

(** X7: randomness is requested once per round: in a storage reached from
    deployment, after a request went through, every further request for that
    round reverts with the status reason, and the round keeps the sequence
    number it was given. *)
Theorem randomness_requested_once (e : E) (op : address) (t : T)
    (before after : list (Step T E)) (sender sender' : address)
    (value value' : Z) (refundOk refundOk' : bool) (roundId : Z) w' :
  requestRandomness self (run self keccak256 entropyAddress (constructor self e op t) before)
    sender value refundOk roundId = Success w' ->
  requestRandomness self (run self keccak256 entropyAddress w' after) sender' value' refundOk' roundId
  = Revert "Invalid round status" /\
  sequenceNumber (getRoundOf (game (run self keccak256 entropyAddress w' after)) roundId)
  = sequenceNumber (getRoundOf (game w') roundId).
Proof.
  intros C.
  pose proof (run_sound self keccak256 entropyAddress before _ (constructor_sound self keccak256 e op t))
    as So.
  set (w := run self keccak256 entropyAddress (constructor self e op t) before) in *.
  destruct (requestRandomness_effect self _ _ _ _ _ _ C)
    as [fee [e' [seq [Hh [St [_ [_ [_ [_ [_ [_ [R [_ [Cn _]]]]]]]]]]]]]].
  pose proof (sound_hash_range keccak256 w roundId So Hh) as Rg.
  destruct (run_kept self keccak256 entropyAddress after w') as [_ [K _]].
  destruct (K roundId ltac:(lia)) as [Hk [Rk [Sq _]]].
  rewrite (getRoundOf_insert _ _ _ _ roundId R) in Hk, Rk, Sq |- *.
  rewrite decide_True in Hk, Rk, Sq |- * by reflexivity. cbn in Hk, Rk, Sq |- *.
  split; [|apply Sq; lia].
  unfold requestRandomness.
  rewrite Hk. rewrite (bool_decide_eq_false_2 _ Hh). cbn [negb require rbind].
  assert (N : status (getRoundOf (game (run self keccak256 entropyAddress w' after)) roundId) <> Created).
  { intros Ec. rewrite Ec in Rk. cbn in Rk. lia. }
  rewrite (bool_decide_eq_false_2 _ N). reflexivity.
Qed.

(** X8: entropy is delivered once per round: in a storage reached from
    deployment, after the callback for a sequence number went through, the
    round keeps that entropy value whatever follows, and every further
    callback for the sequence number reverts. *)
Theorem entropy_delivered_once (e : E) (op : address) (t : T)
    (before after : list (Step T E)) (seq : Z) (bytes bytes' : list byte) w' :
  entropyCallback (run self keccak256 entropyAddress (constructor self e op t) before) seq bytes
  = Success w' ->
  exists roundId,
    sequenceToRound w' !! seq = Some roundId /\
    entropyRandom (getRoundOf (game (run self keccak256 entropyAddress w' after)) roundId)
    = uint256_of_bytes32 bytes /\
    entropyCallback (run self keccak256 entropyAddress w' after) seq bytes'
    = Revert "Invalid round status".
Proof.
  intros C.
  pose proof (run_sound self keccak256 entropyAddress before _ (constructor_sound self keccak256 e op t))
    as So.
  set (w := run self keccak256 entropyAddress (constructor self e op t) before) in *.
  destruct (entropyCallback_effect _ _ _ _ C)
    as [roundId [L [N0 [St [R [Q [Cn _]]]]]]].
  assert (Rg : (1 <= roundId < roundCounter w)%Z).
  { apply (sound_status_range keccak256 w roundId So). rewrite St. discriminate. }
  destruct (run_kept self keccak256 entropyAddress after w') as [_ [K [_ [_ Kq]]]].
  destruct (K roundId ltac:(lia)) as [_ [Rk [_ [En _]]]].
  rewrite (getRoundOf_insert _ _ _ _ roundId R) in Rk, En.
  rewrite decide_True in Rk, En by reflexivity. cbn in Rk, En.
  assert (L' : sequenceToRound w' !! seq = Some roundId) by (rewrite Q; exact L).
  exists roundId. split; [exact L'|]. split; [apply En; lia|].
  unfold entropyCallback. rewrite (Kq seq roundId L' N0). cbn [from_option id].
  assert (Z0 : (roundId =? 0)%Z = false) by (apply Z.eqb_neq; exact N0).
  rewrite Z0. cbn [negb require rbind].
  assert (N : status (getRoundOf (game (run self keccak256 entropyAddress w' after)) roundId)
              <> Contract.RandomRequested).
  { intros Ec. rewrite Ec in Rk. cbn in Rk. lia. }
  rewrite (bool_decide_eq_false_2 _ N). reflexivity.
Qed.

(** X9: a claim pays the whole claimable amount of the caller in one token
    transfer and sets it to zero, leaves every other account as it was, and a
    second claim right after it reverts. *)
Theorem claim_pays_once w sender w' :
  claimAllPayouts self w sender = Success w' ->
  (0 < claimableOf (game w) sender)%Z /\
  transfer (token w) self sender (claimableOf (game w) sender)
  = Success (token w', true) /\
  claimableOf (game w') sender = 0%Z /\
  (forall u, u <> sender -> claimableOf (game w') u = claimableOf (game w) u) /\
  journal w' = journal w ++ [PayoutClaimed sender (claimableOf (game w) sender)] /\
  claimAllPayouts self w' sender = Revert "No payouts to claim".
Proof.
  intros C.
  destruct (claimAllPayouts_effect self _ _ _ C)
    as [t' [P [Tr [Cl [_ [_ [_ [_ [_ [_ [_ [Tk J]]]]]]]]]]]].
  assert (Z0 : claimableOf (game w') sender = 0%Z).
  { rewrite (claimableOf_insert _ _ _ _ sender Cl). rewrite decide_True by reflexivity.
    reflexivity. }
  split; [exact P|]. split; [rewrite Tk; exact Tr|]. split; [exact Z0|].
  split; [|split; [exact J|]].
  - intros u N. rewrite (claimableOf_insert _ _ _ _ u Cl).
    rewrite decide_False by congruence. reflexivity.
  - unfold claimAllPayouts. rewrite Z0. reflexivity.
Qed.

(** X10: what only the operator can do: a transaction of any other sender
    that goes through leaves the operator, the settled rounds and their final
    multipliers as they were, raises no claimable amount and settles no bet. *)
Theorem outsiders_settle_nothing w sender (c : Call) w' :
  sender <> operator (game w) ->
  exec self keccak256 entropyAddress w sender c = Success w' ->
  operator (game w') = operator (game w) /\
  roundSettled (game w') = roundSettled (game w) /\
  roundFinalMultipliers (game w') = roundFinalMultipliers (game w) /\
  (forall u, (claimableOf (game w') u <= claimableOf (game w) u)%Z) /\
  (forall r u, settled (getBetOf (game w') r u) = true ->
               settled (getBetOf (game w) r u) = true).
Proof.
  intros N. destruct c as [h0 | value0 refundOk0 roundId | seq0 bytes0 | roundId seed0
                | newOperator0 | roundId amount0 | roundId finalMultiplier0 seed0
                | roundId cashOuts0 | | ]; cbn [exec]; intros C.
  - passed C. destruct x as [w1 id]. apply Success_inj in C. cbn in C. subst w1.
    destruct (createRound_effect _ _ _ _ R)
      as [_ [_ [_ [_ [B [S [M [Cl [Op _]]]]]]]]].
    split; [exact Op|]. split; [exact S|]. split; [exact M|]. split.
    + intros u. unfold claimableOf. rewrite Cl. lia.
    + intros r u. rewrite (getBetOf_same _ _ r u B). auto.
  - destruct (requestRandomness_effect self _ _ _ _ _ _ C)
      as [fee [e' [seq [_ [_ [_ [_ [_ [_ [_ [_ [_ [_ [_ [B [S [M [Cl [Op _]]]]]]]]]]]]]]]]]]].
    split; [exact Op|]. split; [exact S|]. split; [exact M|]. split.
    + intros u. unfold claimableOf. rewrite Cl. lia.
    + intros r u. rewrite (getBetOf_same _ _ r u B). auto.
  - passed C. passed C.
    destruct (entropyCallback_effect _ _ _ _ C)
      as [roundId [_ [_ [_ [_ [_ [_ [B [S [M [Cl [Op _]]]]]]]]]]]].
    split; [exact Op|]. split; [exact S|]. split; [exact M|]. split.
    + intros u. unfold claimableOf. rewrite Cl. lia.
    + intros r u. rewrite (getBetOf_same _ _ r u B). auto.
  - destruct (revealServerSeed_effect self keccak256 _ _ _ _ C)
      as [_ [_ [_ [B [S [M [Cl [Op _]]]]]]]].
    split; [exact Op|]. split; [exact S|]. split; [exact M|]. split.
    + intros u. unfold claimableOf. rewrite Cl. lia.
    + intros r u. rewrite (getBetOf_same _ _ r u B). auto.
  - destruct (setOperator_effect _ _ _ _ C) as [Eo _]. contradiction.
  - destruct (placeBet_effect self _ _ _ _ _ C)
      as [t' [_ [_ [_ [_ [_ [_ [B [_ [S [M [Cl [Op _]]]]]]]]]]]]].
    split; [exact Op|]. split; [exact S|]. split; [exact M|]. split.
    + intros u. unfold claimableOf. rewrite Cl. lia.
    + intros r u. rewrite (getBetOf_insert_at _ _ _ _ r u B).
      destruct (decide ((roundId, sender) = (r, u))); [cbn; discriminate | auto].
  - destruct (settleRound_effect keccak256 _ _ _ _ _ _ C) as [Eo _]. contradiction.
  - destruct (processCashOuts_effect self _ _ _ _ _ C) as [Eo _]. contradiction.
  - destruct (claimAllPayouts_effect self _ _ _ C)
      as [t' [P [_ [Cl [_ [B [S [M [Op _]]]]]]]]].
    split; [exact Op|]. split; [exact S|]. split; [exact M|]. split.
    + intros u. rewrite (claimableOf_insert _ _ _ _ u Cl).
      destruct (decide (sender = u)) as [<- | D]; lia.
    + intros r u. rewrite (getBetOf_same _ _ r u B). auto.
  - destruct (withdrawHouseEdge_effect self _ _ _ C) as [t' [Eo _]]. contradiction.
Qed.

(** X11: a bet is paid once: after a batch that names a wallet went through,
    every later batch for that round that names the wallet again reverts as a
    whole, whatever happened in between; and no batch that goes through
    names a wallet twice. *)
Theorem no_double_payout w sender roundId (cashOuts : list CashOut) w'
    (c : CashOut) (steps : list (Step T E)) (sender' : address)
    (cashOuts' : list CashOut) :
  processCashOuts self w sender roundId cashOuts = Success w' ->
  In c cashOuts ->
  List.NoDup (List.map wallet cashOuts) /\
  settled (getBetOf (game w') roundId (wallet c)) = true /\
  (In (wallet c) (List.map wallet cashOuts') ->
   exists reason,
     processCashOuts self (run self keccak256 entropyAddress w' steps) sender' roundId cashOuts'
     = Revert reason).
Proof.
  intros C Hin.
  destruct (processCashOuts_effect self _ _ _ _ _ C) as [_ [_ [_ [L _]]]].
  destruct (processLoop_spec _ _ _ _ _ L) as [Nd [Fa [_ [_ [St _]]]]].
  split; [exact Nd|]. split; [apply St; exact Hin|].
  intros Hin'.
  assert (P : (0 < amount (getBetOf (game w') roundId (wallet c)))%Z).
  { destruct (processLoop_frame _ _ _ _ _ L) as [_ [_ [_ [_ [_ [B _]]]]]].
    rewrite List.Forall_forall in Fa. destruct (Fa c Hin) as [_ [P _]].
    destruct (B roundId (wallet c)) as [Same | [_ [_ [_ [Am _]]]]].
    - rewrite Same. exact P.
    - rewrite Am. exact P. }
  destruct (run_kept self keccak256 entropyAddress steps w') as [_ [_ [K _]]].
  destruct (K roundId (wallet c) P) as [_ Fr]. specialize (Fr (St c Hin)).
  destruct (processCashOuts self (run self keccak256 entropyAddress w' steps) sender' roundId cashOuts')
    as [w3|reason] eqn:C'; [|exists reason; reflexivity].
  exfalso.
  destruct (processCashOuts_effect self _ _ _ _ _ C') as [_ [_ [_ [L' _]]]].
  destruct (processLoop_spec _ _ _ _ _ L') as [_ [Fa' _]].
  apply in_map_iff in Hin'. destruct Hin' as [d [Ed Hd]].
  rewrite List.Forall_forall in Fa'. destruct (Fa' d Hd) as [Un _].
  rewrite Ed in Un.
  change (getBetOf (storage self (run self keccak256 entropyAddress w' steps)) roundId (wallet c))
    with (getBetOf (game (run self keccak256 entropyAddress w' steps)) roundId (wallet c)) in Un.
  rewrite Fr in Un. rewrite (St c Hin) in Un. discriminate Un.
Qed.

(** X12: a round created with the zero hash is dead: the call goes through
    and uses up an id, but the round reads as one that was never created, and
    whatever follows no randomness can be requested for it and no bet placed
    on it. *)
Theorem zero_hash_round_is_dead w w' (id : Z) (steps : list (Step T E))
    (sender : address) (value amount : Z) (refundOk : bool) :
  createRound w zeroHash = Success (w', id) ->
  id = roundCounter w /\ roundCounter w' = (id + 1)%Z /\
  getRoundOf (game (run self keccak256 entropyAddress w' steps)) id = zeroRound /\
  requestRandomness self (run self keccak256 entropyAddress w' steps) sender value refundOk id
  = Revert "Round does not exist" /\
  exists reason,
    placeBet self (run self keccak256 entropyAddress w' steps) sender id amount = Revert reason.
Proof.
  intros C.
  destruct (createRound_effect _ _ _ _ C) as [Ei [Cn [_ [R _]]]].
  split; [exact Ei|]. split; [rewrite Cn, Ei; reflexivity|].
  assert (G : getRoundOf (game w') id = zeroRound).
  { rewrite (getRoundOf_insert _ _ _ _ id R). rewrite decide_True by reflexivity.
    reflexivity. }
  pose proof (run_dead self keccak256 entropyAddress steps w' id G ltac:(lia)) as D.
  set (w2 := run self keccak256 entropyAddress w' steps) in *.
  split; [exact D|]. split.
  - unfold requestRandomness. rewrite D. reflexivity.
  - unfold placeBet.
    destruct (0 <? amount)%Z; cbn [require rbind]; [|eexists; reflexivity].
    destruct (amount <=? MAX_BET)%Z; cbn [require rbind]; [|eexists; reflexivity].
    destruct (negb (default false (roundSettled (game w2) !! id))); cbn [require rbind];
      [|eexists; reflexivity].
    rewrite D. eexists; reflexivity.
Qed.

End Ledger.

Section Funds.
Import Contract ContractFacts CrashGame History CrashGameFacts.

Context {T E : Type} `{IERC20 T} `{IEntropyV2 E}.
Variable self : address.

Implicit Types w : World T E.

(** what is assumed of the token: a transfer that succeeds debits the caller
    by the amount, and no transfer of more than the caller holds succeeds *)
Hypothesis transfer_debits :
  forall (t t' : T) (caller to : address) (amount : Z),
    transfer t caller to amount = Success (t', true) -> caller <> to ->
    balanceOf t' caller = (balanceOf t caller - amount)%Z.
Hypothesis transfer_needs_funds :
  forall (t t' : T) (caller to : address) (amount : Z),
    (balanceOf t caller < amount)%Z -> transfer t caller to amount <> Success (t', true).

(** X13: the operator's withdrawal takes the whole token balance of the
    contract, stakes and unclaimed winnings included: the contract then holds
    nothing, every bet and claimable amount is recorded as before, and no
    claim can be paid out of it. *)
Theorem withdrawal_takes_everything w sender w' (u : address) :
  self <> operator (game w) ->
  withdrawHouseEdge self w sender = Success w' ->
  transfer (token w) self (operator (game w)) (balanceOf (token w) self)
  = Success (token w', true) /\
  balanceOf (token w') self = 0%Z /\
  game w' = game w /\
  exists reason, claimAllPayouts self w' u = Revert reason.
Proof.
  intros N C.
  destruct (withdrawHouseEdge_effect self _ _ _ C) as [t' [_ [P [Tr ->]]]].
  cbn [token game with_token].
  assert (Z0 : balanceOf t' self = 0%Z).
  { rewrite (transfer_debits _ _ _ _ _ Tr N). lia. }
  split; [exact Tr|]. split; [exact Z0|]. split; [reflexivity|].
  unfold claimAllPayouts. cbn [token game with_token].
  destruct (0 <? claimableOf (game w) u)%Z eqn:L; cbn [require rbind];
    [|eexists; reflexivity].
  apply Z.ltb_lt in L.
  destruct (transfer t' self u (claimableOf (game w) u)) as [[t2 ok]|reason] eqn:Tu;
    cbn [rbind]; [|eexists; reflexivity].
  destruct ok; cbn [snd require rbind]; [|eexists; reflexivity].
  exfalso. apply (transfer_needs_funds t' t2 self u (claimableOf (game w) u)); [lia | exact Tu].
Qed.

End Funds.

Section Lifecycle.
Import Contract ContractFacts CrashGame History CrashGameFacts.

Context {T E : Type} `{IERC20 T} `{IEntropyV2 E}.
Variable self : address.
Variable keccak256 : list byte -> list byte.
Variable entropyAddress : address.

(** X14: a round can always be played to the end: in a storage reached from
    deployment, with an entropy address that is not zero, a seed whose hash
    is not zero, an entropy contract that takes the request and returns an
    unused sequence number, and a fee that is covered, the five calls create,
    request, callback, reveal and settle all go through in this order, the
    callback sent by the entropy contract, the settlement by the operator and
    the other three by anyone; the round then holds the seed, the sequence
    number and the entropy value, and is settled at the multiplier given. *)
Theorem round_completes (e : E) (op : address) (t : T) (before : list (Step T E))
    (seed bytes : list byte) (fee value seq finalMultiplier : Z) (e' : E)
    (creator requester revealer : address) :
  entropyAddress <> 0%Z ->
  let w := run self keccak256 entropyAddress (constructor self e op t) before in
  let id := roundCounter w in
  (id + 1 <= uint256_max)%Z ->
  keccak256 seed <> zeroHash ->
  getFeeV2 (entropy w) = Success fee -> (fee <= value)%Z ->
  requestV2 (entropy w) self fee = Success (e', seq) ->
  default 0%Z (sequenceToRound w !! seq) = 0%Z ->
  (10 ^ 18 <= finalMultiplier)%Z ->
  let w' :=
    run self keccak256 entropyAddress w
      [ Tx creator (CreateRound (keccak256 seed));
        Tx requester (RequestRandomness value true id);
        Tx entropyAddress (EntropyCallback seq bytes);
        Tx revealer (RevealServerSeed id seed);
        Tx (operator (game w)) (SettleRound id finalMultiplier seed) ] in
  getRound w' id
  = (keccak256 seed, seed, seq, uint256_of_bytes32 bytes, SeedRevealed) /\
  roundSettled (game w') !! id = Some true /\
  roundFinalMultipliers (game w') !! id = Some finalMultiplier /\
  roundCounter w' = (id + 1)%Z /\
  journal w'
  = journal w
    ++ [ RoundCreated id (keccak256 seed); RandomRequested id seq;
         RandomReady id (uint256_of_bytes32 bytes);
         Revealed (ServerSeedRevealed id seed);
         RoundSettled id finalMultiplier ].
Proof.
  cbv zeta.
  pose proof (run_sound self keccak256 entropyAddress before _ (constructor_sound self keccak256 e op t))
    as So.
  set (w := run self keccak256 entropyAddress (constructor self e op t) before) in *.
  intros NZ Cn Hz Fee Cov Req Fresh Fm.
  pose proof So as [S1 [S2 [_ [S4 _]]]].
  set (id := roundCounter w) in *.
  assert (NS : default false (roundSettled (game w) !! id) = false).
  { destruct (roundSettled (game w) !! id) as [[]|] eqn:L; try reflexivity.
    exfalso. destruct (S4 _ L) as [St _].
    assert (Rg : (1 <= id < roundCounter w)%Z).
    { apply (sound_status_range keccak256 w _ So). rewrite St. discriminate. }
    unfold id in Rg. lia. }
  (* createRound *)
  destruct (createRound_succeeds w (keccak256 seed) Cn) as [w1 [C1 En1]].
  destruct (createRound_effect _ _ _ _ C1)
    as [_ [Cn1 [_ [R1 [_ [S1' [M1 [_ [Op1 [Q1 [_ J1]]]]]]]]]]].
  assert (G1 : getRoundOf (game w1) id
               = {| serverSeedHash := keccak256 seed; serverSeed := [];
                    sequenceNumber := 0; entropyRandom := 0; status := Created |}).
  { rewrite (getRoundOf_insert _ _ _ _ id R1). rewrite decide_True by reflexivity.
    reflexivity. }
  (* requestRandomness *)
  destruct (requestRandomness_succeeds self w1 requester value id fee e' seq)
    as [w2 C2];
    [rewrite G1; exact Hz | rewrite G1; reflexivity | rewrite G1; reflexivity
     | rewrite En1; exact Fee | exact Cov | rewrite En1; exact Req
     | rewrite Q1; exact Fresh |].
  destruct (requestRandomness_effect self _ _ _ _ _ _ C2)
    as [fee2 [e2 [seq2 [_ [_ [_ [Fee2 [_ [Req2 [_ [_ [R2 [Q2 [Cn2 [_ [S2' [M2 [_ [Op2
        [_ [_ J2]]]]]]]]]]]]]]]]]]]]].
  rewrite En1, Fee in Fee2. apply Success_inj in Fee2. subst fee2.
  rewrite En1, Req in Req2. apply Success_inj in Req2. injection Req2 as <- <-.
  rewrite G1 in R2. cbn in R2.
  assert (G2 : getRoundOf (game w2) id
               = {| serverSeedHash := keccak256 seed; serverSeed := [];
                    sequenceNumber := seq; entropyRandom := 0;
                    status := Contract.RandomRequested |}).
  { rewrite (getRoundOf_insert _ _ _ _ id R2). rewrite decide_True by reflexivity.
    reflexivity. }
  (* entropyCallback *)
  destruct (entropyCallback_succeeds w2 seq bytes id) as [w3 C3];
    [rewrite Q2; apply lookup_insert_eq | unfold id; lia | rewrite G2; reflexivity |].
  destruct (entropyCallback_effect _ _ _ _ C3)
    as [id3 [L3 [_ [_ [R3 [_ [Cn3 [_ [S3' [M3 [_ [Op3 [_ J3]]]]]]]]]]]]].
  rewrite Q2, lookup_insert_eq in L3. injection L3 as <-.
  rewrite G2 in R3. cbn in R3.
  assert (G3 : getRoundOf (game w3) id
               = {| serverSeedHash := keccak256 seed; serverSeed := [];
                    sequenceNumber := seq; entropyRandom := uint256_of_bytes32 bytes;
                    status := Contract.RandomReady |}).
  { rewrite (getRoundOf_insert _ _ _ _ id R3). rewrite decide_True by reflexivity.
    reflexivity. }
  (* revealServerSeed *)
  destruct (revealServerSeed_succeeds self keccak256 w3 id seed) as [w4 [C4 J4]];
    [rewrite G3; reflexivity | rewrite G3; reflexivity |].
  destruct (revealServerSeed_effect self keccak256 _ _ _ _ C4)
    as [_ [_ [R4 [_ [S4' [M4 [_ [Op4 [_ [Cn4 _]]]]]]]]]].
  rewrite G3 in R4. cbn in R4.
  assert (G4 : getRoundOf (game w4) id
               = {| serverSeedHash := keccak256 seed; serverSeed := seed;
                    sequenceNumber := seq; entropyRandom := uint256_of_bytes32 bytes;
                    status := SeedRevealed |}).
  { rewrite (getRoundOf_insert _ _ _ _ id R4). rewrite decide_True by reflexivity.
    reflexivity. }
  (* settleRound *)
  destruct (settleRound_succeeds keccak256 w4 (operator (game w)) id finalMultiplier seed)
    as [w5 C5];
    [congruence | rewrite G4; reflexivity | rewrite S4', S3', S2', S1'; exact NS
     | exact Fm | rewrite G4; reflexivity |].
  destruct (settleRound_effect keccak256 _ _ _ _ _ _ C5)
    as [_ [_ [_ [_ [_ [S5 [M5 [R5 [_ [_ [_ [_ [Cn5 [_ J5]]]]]]]]]]]]]].
  (* the run *)
  assert (X1 : exec self keccak256 entropyAddress w creator (CreateRound (keccak256 seed))
               = Success w1) by (cbn [exec]; rewrite C1; reflexivity).
  assert (X3 : exec self keccak256 entropyAddress w2 entropyAddress
                 (EntropyCallback seq bytes) = Success w3).
  { cbn [exec]. rewrite (proj2 (Z.eqb_neq _ _) NZ).
    rewrite bool_decide_eq_true_2 by reflexivity. exact C3. }
  change (requestRandomness self w1 requester value true id)
    with (exec self keccak256 entropyAddress w1 requester
            (RequestRandomness value true id)) in C2.
  change (revealServerSeed self keccak256 w3 id seed)
    with (exec self keccak256 entropyAddress w3 revealer (RevealServerSeed id seed)) in C4.
  change (settleRound keccak256 w4 (operator (game w)) id finalMultiplier seed)
    with (exec self keccak256 entropyAddress w4 (operator (game w))
            (SettleRound id finalMultiplier seed)) in C5.
  unfold run. cbn [fold_left step].
  rewrite X1, C2, X3, C4, C5.
  unfold getRound. rewrite (getRoundOf_same _ _ id R5), G4.
  cbn [serverSeedHash Contract.serverSeed sequenceNumber entropyRandom status].
  split; [reflexivity|]. split; [rewrite S5; apply lookup_insert_eq|].
  split; [rewrite M5; apply lookup_insert_eq|]. split; [lia|].
  rewrite J5, J4, J3, J2, J1. rewrite <- !app_assoc. reflexivity.
Qed.

End Lifecycle.

(** ** The crash multiplier as a function of the draw *)

Module CurveFacts.
Local Open Scope Q_scope.

(** [1 - houseEdge] *)
Definition edgeLeft : number := fsub (lit 1) houseEdge.

Lemma edgeLeft_val : val edgeLeft == 8872091265919877 # 9007199254740992.
Proof. vm_compute. reflexivity. Qed.

Lemma edgeLeft_Fin : edgeLeft = Fin (mk (8872091265919877 # 9007199254740992)).
Proof. vm_compute. reflexivity. Qed.

Lemma houseEdge_val : val houseEdge == 1080863910568919 # 72057594037927936.
Proof. vm_compute. reflexivity. Qed.

Lemma repr_edgeLeft : repr (8872091265919877 # 9007199254740992).
Proof. vm_compute. reflexivity. Qed.

(** the probability [p] stays in the unit interval *)
Lemma chance_unit r :
  inQ 0 1 r -> inQ 0 1 (fadd houseEdge (fmul r edgeLeft)).
Proof.
  intros [Fr [Lr Ur]].
  pose proof edgeLeft_val as Vc. pose proof houseEdge_val as Vh.
  assert (Fc : finite edgeLeft) by exact oneMinusEdge_fin.
  assert (A : inQ 0 (8872091265919877 # 9007199254740992) (fmul r edgeLeft)).
  { apply fmul_inQ; [exact Fr | exact Fc | exact repr_0 | exact repr_edgeLeft | |];
      rewrite Vc; nra. }
  destruct A as [Fa [La Ua]].
  apply fadd_inQ; [exact houseEdge_fin | exact Fa | exact repr_0 | exact repr_1 | |];
    rewrite Vh; lra.
Qed.

Lemma chance_mono r r' :
  inQ 0 1 r -> inQ 0 1 r' -> val r <= val r' ->
  val (fadd houseEdge (fmul r edgeLeft)) <= val (fadd houseEdge (fmul r' edgeLeft)).
Proof.
  intros Hr Hr' L.
  pose proof edgeLeft_val as Vc.
  assert (Fc : finite edgeLeft) by exact oneMinusEdge_fin.
  destruct Hr as [Fr [Lr Ur]]. destruct Hr' as [Fr' [Lr' Ur']].
  assert (A : inQ 0 (8872091265919877 # 9007199254740992) (fmul r edgeLeft)).
  { apply fmul_inQ; [exact Fr | exact Fc | exact repr_0 | exact repr_edgeLeft | |];
      rewrite Vc; nra. }
  assert (A' : inQ 0 (8872091265919877 # 9007199254740992) (fmul r' edgeLeft)).
  { apply fmul_inQ; [exact Fr' | exact Fc | exact repr_0 | exact repr_edgeLeft | |];
      rewrite Vc; nra. }
  assert (M : val (fmul r edgeLeft) <= val (fmul r' edgeLeft)).
  { apply (proj1 (nle_fin (fmul r edgeLeft) (fmul r' edgeLeft)
                    (inQ_finite _ _ _ A) (inQ_finite _ _ _ A'))).
    apply fmul_mono; try assumption. rewrite Vc. nra. }
  pose proof (chance_unit r (conj Fr (conj Lr Ur))) as P.
  pose proof (chance_unit r' (conj Fr' (conj Lr' Ur'))) as P'.
  apply (proj1 (nle_fin (fadd houseEdge (fmul r edgeLeft))
                  (fadd houseEdge (fmul r' edgeLeft))
                  (inQ_finite _ _ _ P) (inQ_finite _ _ _ P'))).
  apply (veq_nle_l _ _ _ (fadd_veq houseEdge (fmul r edgeLeft) houseEdge_fin
                            (inQ_finite _ _ _ A))).
  apply (veq_nle_r _ _ _ (fadd_veq houseEdge (fmul r' edgeLeft) houseEdge_fin
                            (inQ_finite _ _ _ A'))).
  apply rnd_mono. lra.
Qed.

(** [1 - p] is the Number of the exact difference *)
Lemma fsub_one p : finite p -> fsub (lit 1) p = rnd (1 - val p).
Proof.
  intros F. rewrite lit_1. unfold fsub.
  pose proof (mk_val 1) as V1.
  destruct p as [| | | |q]; cbn [finite] in F; try contradiction.
  - cbn [fneg fadd val]. apply rnd_compat. pose proof (mk_val 0) as V0. lra.
  - cbn [fneg]. destruct (Qeq_bool q 0) eqn:Z.
    + cbn [fadd val]. apply rnd_compat. apply Qeq_bool_iff in Z. lra.
    + cbn [fadd val]. apply rnd_compat. pose proof (mk_val (- q)) as Vq. lra.
Qed.

(** the Number of a rational that is not negative *)
Lemma rnd_nonneg t :
  0 <= t -> rnd t = PInf \/ exists q : Qc, rnd t = Fin q /\ 0 <= this q.
Proof.
  intros H. destruct (Qlt_le_dec 0 t) as [P | Z].
  - destruct (rnd_case_pos t P) as [[E _] | [E _]]; [left; exact E|].
    right. eexists. split; [exact E|]. rewrite mk_val. apply rnd_val_nonneg. exact P.
  - right. exists (mk 0). split; [apply rnd_zero; lra|]. rewrite mk_val. lra.
Qed.

(** the quotient by a divisor that is not negative *)
Lemma fdiv_edgeLeft (q : Qc) :
  0 <= this q ->
  fdiv edgeLeft (Fin q)
  = if Qeq_bool (this q) 0 then PInf
    else rnd ((8872091265919877 # 9007199254740992) / this q).
Proof.
  intros H. rewrite edgeLeft_Fin. unfold fdiv. cbn [is_inf is_zero sign val].
  cbv zeta.
  assert (S1 : Qle_bool 0 (this q) = true) by (apply Qle_bool_iff; exact H).
  rewrite S1. cbn [negb xorb].
  destruct (Qeq_bool (this q) 0) eqn:Z.
  - reflexivity.
  - assert (Z2 : Qeq_bool (this (mk (8872091265919877 # 9007199254740992))) 0 = false)
      by reflexivity.
    rewrite Z2. apply rnd_compat. rewrite mk_val. reflexivity.
Qed.

Lemma Qdiv_antitone (c a b : Q) : 0 <= c -> 0 < b -> b <= a -> c / a <= c / b.
Proof.
  intros C B L. apply Qle_shift_div_l; [exact B|].
  assert (X : c / a * b == c * (b / a)) by (field; lra).
  assert (Y : b / a <= 1) by (apply Qle_shift_div_r; lra).
  assert (Y0 : 0 <= b / a) by (apply Qle_shift_div_l; lra).
  rewrite X. nra.
Qed.

(** the clamp of the raw multiplier *)
Definition crash (x : number) : number := Math_max (lit 1) (Math_min x (lit 10000)).

Lemma crash_PInf : crash PInf = lit 10000.
Proof. vm_compute. reflexivity. Qed.

Lemma crash_Fin (q : Qc) :
  finite (crash (Fin q)) /\
  val (crash (Fin q))
  == (if Qlt_le_dec (this q) 1 then 1
      else if Qlt_le_dec 10000 (this q) then 10000 else this q).
Proof.
  unfold crash. rewrite clamp_eq. unfold clamp, fgt. rewrite lit_1, lit_10000.
  pose proof (mk_val 1) as V1. pose proof (mk_val 10000) as V2.
  destruct (Qlt_le_dec (this q) 1) as [A | A].
  - rewrite (flt_Fin_true q (mk 1)) by lra. split; [exact I | exact V1].
  - rewrite (flt_Fin_false q (mk 1)) by lra.
    destruct (Qlt_le_dec 10000 (this q)) as [B | B].
    + rewrite (flt_Fin_true (mk 10000) q) by lra. split; [exact I | exact V2].
    + rewrite (flt_Fin_false (mk 10000) q) by lra. split; [exact I | reflexivity].
Qed.

Lemma crash_mono x x' :
  (x = PInf \/ exists q, x = Fin q) -> (x' = PInf \/ exists q, x' = Fin q) ->
  nle x x' -> val (crash x) <= val (crash x').
Proof.
  pose proof lit_10000_val as V.
  intros [-> | [q ->]] [-> | [q' ->]] L.
  - lra.
  - cbn [nle] in L. contradiction.
  - rewrite crash_PInf, V. destruct (crash_Fin q) as [_ E]. rewrite E.
    destruct (Qlt_le_dec (this q) 1); [lra|].
    destruct (Qlt_le_dec 10000 (this q)); lra.
  - cbn [nle val] in L.
    destruct (crash_Fin q) as [_ E]. destruct (crash_Fin q') as [_ E'].
    rewrite E, E'.
    destruct (Qlt_le_dec (this q) 1); destruct (Qlt_le_dec (this q') 1); try lra;
      destruct (Qlt_le_dec 10000 (this q)); destruct (Qlt_le_dec 10000 (this q'));
      lra.
Qed.

(** the raw multiplier is [+Infinity] or a finite Number, and grows with the draw *)
Lemma raw_shape r :
  inQ 0 1 r ->
  snd (crashPoint r) = PInf \/ exists q, snd (crashPoint r) = Fin q.
Proof.
  intros Hr. unfold crashPoint. cbn [snd]. fold edgeLeft.
  pose proof (chance_unit r Hr) as [Fp [Lp Up]].
  rewrite (fsub_one _ Fp).
  destruct (rnd_nonneg (1 - val (fadd houseEdge (fmul r edgeLeft))) ltac:(lra))
    as [E | [q [E Pq]]]; rewrite E.
  - exfalso.
    assert (R : inQ 0 1 (rnd (1 - val (fadd houseEdge (fmul r edgeLeft)))))
      by (apply rnd_inQ; [exact repr_0 | exact repr_1 | lra | lra]).
    rewrite E in R. destruct R as [F _]. exact F.
  - rewrite (fdiv_edgeLeft q Pq). destruct (Qeq_bool (this q) 0) eqn:Z; [left; reflexivity|].
    assert (Pos : 0 < (8872091265919877 # 9007199254740992) / this q).
    { apply Qlt_shift_div_l; [|lra].
      destruct (Qlt_le_dec 0 (this q)) as [P | N]; [exact P|].
      exfalso. assert (Z0 : this q == 0) by lra.
      apply Qeq_bool_iff in Z0. congruence. }
    destruct (rnd_case_pos _ Pos) as [[E2 _] | [E2 _]]; rewrite E2;
      [left; reflexivity | right; eexists; reflexivity].
Qed.

Lemma raw_mono r r' :
  inQ 0 1 r -> inQ 0 1 r' -> val r <= val r' ->
  nle (snd (crashPoint r)) (snd (crashPoint r')).
Proof.
  intros Hr Hr' L.
  pose proof (chance_mono r r' Hr Hr' L) as M.
  unfold crashPoint. cbn [snd]. fold edgeLeft.
  pose proof (chance_unit r Hr) as [Fp [Lp Up]].
  pose proof (chance_unit r' Hr') as [Fp' [Lp' Up']].
  rewrite (fsub_one _ Fp), (fsub_one _ Fp').
  set (t := 1 - val (fadd houseEdge (fmul r edgeLeft))) in *.
  set (t' := 1 - val (fadd houseEdge (fmul r' edgeLeft))) in *.
  assert (T0 : 0 <= t') by (unfold t'; lra).
  assert (T1 : t' <= t) by (unfold t, t'; lra).
  assert (R : inQ 0 1 (rnd t))
    by (apply rnd_inQ; [exact repr_0 | exact repr_1 | lra | unfold t; lra]).
  assert (R' : inQ 0 1 (rnd t'))
    by (apply rnd_inQ; [exact repr_0 | exact repr_1 | lra | unfold t'; lra]).
  assert (D : val (rnd t') <= val (rnd t)).
  { apply (proj1 (nle_fin (rnd t') (rnd t) (inQ_finite _ _ _ R') (inQ_finite _ _ _ R))).
    apply rnd_mono. exact T1. }
  destruct (rnd_nonneg t ltac:(lra)) as [E | [q [E Pq]]];
    [rewrite E in R; destruct R as [F _]; contradiction|].
  destruct (rnd_nonneg t' T0) as [E' | [q' [E' Pq']]];
    [rewrite E' in R'; destruct R' as [F _]; contradiction|].
  rewrite E, E' in D |- *. cbn [val] in D.
  rewrite (fdiv_edgeLeft q Pq), (fdiv_edgeLeft q' Pq').
  destruct (Qeq_bool (this q') 0) eqn:Z'.
  - destruct (Qeq_bool (this q) 0); [exact I|].
    destruct (rnd ((8872091265919877 # 9007199254740992) / this q)) eqn:Rq;
      cbn [nle]; try exact I.
    exfalso. exact (rnd_not_nan _ Rq).
  - assert (P' : 0 < this q').
    { destruct (Qlt_le_dec 0 (this q')) as [P | N]; [exact P|].
      exfalso. assert (Z0 : this q' == 0) by lra.
      apply Qeq_bool_iff in Z0. congruence. }
    assert (Z : Qeq_bool (this q) 0 = false).
    { destruct (Qeq_bool (this q) 0) eqn:Zq; [|reflexivity].
      apply Qeq_bool_iff in Zq. lra. }
    rewrite Z. apply rnd_mono. apply Qdiv_antitone; lra.
Qed.

(** two-decimal rounding keeps the order *)
Lemma round2_mono x x' :
  inQ 1 10000 x -> inQ 1 10000 x' -> val x <= val x' ->
  val (round2 x) <= val (round2 x').
Proof.
  intros Hx Hx' L.
  rewrite (round2_eq x Hx), (round2_eq x' Hx').
  destruct Hx as [Fx [Lx Ux]]. destruct Hx' as [Fx' [Lx' Ux']].
  pose proof (hundredths_mono (val x) (val x') ltac:(lra) L Ux') as M.
  pose proof (hundredths_range (val x) ltac:(lra) Ux) as [A0 A1].
  pose proof (hundredths_range (val x') ltac:(lra) Ux') as [B0 B1].
  set (h := hundredths (val x)) in *. set (h' := hundredths (val x')) in *.
  assert (h0 : 0 <= inject_Z h) by (change 0 with (inject_Z 0); rewrite <- Zle_Qle; lia).
  assert (hh : inject_Z h <= inject_Z h') by (rewrite <- Zle_Qle; lia).
  assert (h1 : inject_Z h' <= 1000000)
    by (change 1000000 with (inject_Z 1000000); rewrite <- Zle_Qle; lia).
  assert (R : inQ 0 10000 (rnd (inject_Z h / 100))).
  { apply rnd_inQ; [repr_small | repr_small | |].
    - apply Qle_shift_div_l; lra.
    - apply Qle_shift_div_r; lra. }
  assert (R' : inQ 0 10000 (rnd (inject_Z h' / 100))).
  { apply rnd_inQ; [repr_small | repr_small | |].
    - apply Qle_shift_div_l; lra.
    - apply Qle_shift_div_r; lra. }
  apply (proj1 (nle_fin (rnd (inject_Z h / 100)) (rnd (inject_Z h' / 100))
                  (inQ_finite _ _ _ R) (inQ_finite _ _ _ R'))).
  apply rnd_mono. apply Qmult_le_compat_r; [exact hh | discriminate].
Qed.

(** a larger draw never gives a smaller final multiplier *)
Lemma crashPoint_mono r r' :
  inQ 0 1 r -> inQ 0 1 r' -> val r <= val r' ->
  val (fst (crashPoint r)) <= val (fst (crashPoint r')).
Proof.
  intros Hr Hr' L.
  assert (N : r <> NaN) by (destruct Hr as [F _]; destruct r; cbn in F; congruence).
  assert (N' : r' <> NaN) by (destruct Hr' as [F _]; destruct r'; cbn in F; congruence).
  change (fst (crashPoint r)) with (round2 (crash (snd (crashPoint r)))).
  change (fst (crashPoint r')) with (round2 (crash (snd (crashPoint r')))).
  apply round2_mono.
  - exact (crashMultiplier_range r N).
  - exact (crashMultiplier_range r' N').
  - apply crash_mono; [apply raw_shape; exact Hr | apply raw_shape; exact Hr'|].
    apply raw_mono; assumption.
Qed.

(** the draw grows with the digest *)
Lemma ratio_mono h h' :
  (0 <= h)%Z -> (h <= h')%Z -> (h' < 2 ^ 256)%Z -> val (ratio h) <= val (ratio h').
Proof.
  intros H0 H1 H2.
  pose proof (ratio_unit h ltac:(lia)) as R. pose proof (ratio_unit h' ltac:(lia)) as R'.
  apply (proj1 (nle_fin (ratio h) (ratio h') (inQ_finite _ _ _ R) (inQ_finite _ _ _ R'))).
  unfold ratio. rewrite Number_maxUint256.
  destruct (Number_digest_range h ltac:(lia)) as [F [L U]].
  destruct (Number_digest_range h' ltac:(lia)) as [F' [L' U']].
  assert (P : 0 < inject_Z (2 ^ 256)) by reflexivity.
  assert (M : val (ofZ h) <= val (ofZ h')).
  { apply (proj1 (nle_fin (ofZ h) (ofZ h') F F')).
    unfold ofZ. apply rnd_mono. rewrite <- Zle_Qle. exact H1. }
  apply fdiv_mono; try assumption; try exact I; try (rewrite val_2_256; lra).
  rewrite val_2_256. apply Qmult_le_compat_r; [exact M|].
  apply Qlt_le_weak, Qinv_lt_0_compat, P.
Qed.

(** a final multiplier is fixed by its value *)
Lemma final_by_value r K :
  r <> NaN -> (100 <= K <= 1000000)%Z ->
  val (fst (crashPoint r)) == val (lit (K # 100)) -> fst (crashPoint r) = lit (K # 100).
Proof.
  intros N KR E.
  destruct (crashPoint_final r N) as [K' [KR' [FE FR]]].
  pose proof (final_hundredths _ K' KR' FE) as H'.
  pose proof (final_hundredths (lit (K # 100)) K KR eq_refl) as H.
  assert (EK : K' = K).
  { rewrite <- H', <- H. unfold hundredths.
    assert (X : val (rnd (val (fst (crashPoint r)) * 100))
                == val (rnd (val (lit (K # 100)) * 100))).
    { rewrite (rnd_compat _ (val (lit (K # 100)) * 100)); [reflexivity|].
      rewrite E. reflexivity. }
    rewrite X. reflexivity. }
  rewrite FE, EK. reflexivity.
Qed.

End CurveFacts.

(** ** What an update carries *)

Module CandleFacts.
Local Open Scope Q_scope.

Lemma lit_100000 : lit 100000 = Fin (mk 100000).
Proof. vm_compute. reflexivity. Qed.

Lemma lit_100000_val : val (lit 100000) == 100000.
Proof. rewrite lit_100000. apply val_Fin_mk. Qed.

Lemma lit_100000_fin : finite (lit 100000).
Proof. rewrite lit_100000. exact I. Qed.

(** [Math.floor(x * 100000) / 100000] of the Number of [h] hundredths: the
    integer is 1000 h or one less, and the quotient is not above [x] *)
Lemma live_bound (x : number) (h : Z) :
  (0 <= h <= 1000000)%Z -> veq x (rnd (inject_Z h / 100)) ->
  exists n : Z,
    (1000 * h - 1 <= n <= 1000 * h)%Z /\ (0 <= n)%Z /\
    finite (Math_floor (fmul x (lit 100000))) /\
    val (Math_floor (fmul x (lit 100000))) == inject_Z n /\
    finite (fdiv (Math_floor (fmul x (lit 100000))) (lit 100000)) /\
    0 <= val (fdiv (Math_floor (fmul x (lit 100000))) (lit 100000)) /\
    val (fdiv (Math_floor (fmul x (lit 100000))) (lit 100000)) <= val x.
Proof.
  intros [H0 H1] V.
  set (k := inject_Z h).
  assert (k0 : 0 <= k) by (unfold k; change 0 with (inject_Z 0); rewrite <- Zle_Qle; lia).
  assert (k1 : k <= 1000000)
    by (unfold k; change 1000000 with (inject_Z 1000000); rewrite <- Zle_Qle; lia).
  assert (R : inQ 0 10000 (rnd (k / 100))).
  { apply rnd_inQ; [repr_small | repr_small | |].
    - apply Qle_shift_div_l; lra.
    - apply Qle_shift_div_r; lra. }
  destruct (veq_finite _ _ V (inQ_finite _ _ _ R)) as [Fx Ex].
  destruct R as [Fr [Lr Ur]].
  set (y := val (rnd (k / 100))) in *.
  pose proof lit_100000_val as VL.
  pose proof (fmul_veq x (lit 100000) Fx lit_100000_fin) as M.
  rewrite (rnd_compat (val x * val (lit 100000)) (y * 100000)) in M
    by (rewrite VL, Ex; reflexivity).
  assert (R2 : inQ 0 1000000000 (rnd (y * 100000)))
    by (apply rnd_inQ; [repr_small | repr_small | lra | lra]).
  destruct (veq_finite _ _ M (inQ_finite _ _ _ R2)) as [Fm Em].
  set (z := val (rnd (y * 100000))) in *.
  assert (U : pow2 (-53) == 1 # 9007199254740992) by reflexivity.
  assert (P22 : pow2 (-1022) <= 1 # 1000).
  { apply Qle_trans with (pow2 (-10)); [apply pow2_le; lia|].
    assert (E10 : pow2 (-10) == 1 # 1024) by reflexivity. rewrite E10.
    unfold Qle. cbn. lia. }
  assert (B : 1000 * k - 1 <= z /\ z < 1000 * k + 1).
  { destruct (Z.eq_dec h 0%Z) as [-> | Nz].
    - assert (Y0 : y == 0).
      { unfold y, k. rewrite (rnd_zero (inject_Z 0 / 100)) by reflexivity.
        apply val_Fin_mk. }
      assert (Z0 : z == 0).
      { unfold z. rewrite (rnd_zero (y * 100000)) by (rewrite Y0; reflexivity).
        apply val_Fin_mk. }
      unfold k. change (inject_Z 0) with 0. rewrite Z0. split; lra.
    - assert (k1' : 1 <= k)
        by (unfold k; change 1 with (inject_Z 1); rewrite <- Zle_Qle; lia).
      assert (X1 : 0 < k / 100) by (apply Qlt_shift_div_l; lra).
      assert (N1 : pow2 (-1022) <= k / 100).
      { apply Qle_trans with (1 # 1000); [exact P22|]. apply Qle_shift_div_l; lra. }
      pose proof (rnd_pos_val _ X1 Fr) as V1. fold y in V1.
      destruct (rnd_val_err _ N1) as [E1 E2]. rewrite U in E1, E2.
      rewrite <- V1 in E1, E2.
      assert (D : k / 100 * 100 == k) by field.
      set (q := k / 100) in *.
      assert (X2 : 0 < y * 100000) by lra.
      assert (N2 : pow2 (-1022) <= y * 100000) by lra.
      pose proof (rnd_pos_val _ X2 (inQ_finite _ _ _ R2)) as V2. fold z in V2.
      destruct (rnd_val_err _ N2) as [G1 G2]. rewrite U in G1, G2.
      rewrite <- V2 in G1, G2.
      split; lra. }
  destruct B as [B1 B2].
  destruct R2 as [_ [Lz Uz]]. fold z in Lz, Uz.
  destruct (Math_floor_fin _ Fm) as [Ff Vf]. rewrite Em in Vf. fold z in Vf.
  set (n := Qfloor z) in *.
  assert (Nlo : (1000 * h - 1 <= n)%Z).
  { apply Qfloor_ge. unfold Z.sub. rewrite inject_Z_plus, inject_Z_mult.
    change (inject_Z 1000) with 1000. change (inject_Z (- (1))) with (- (1)).
    fold k. lra. }
  assert (Nhi : (n < 1000 * h + 1)%Z).
  { apply Qfloor_lt. rewrite inject_Z_plus, inject_Z_mult.
    change (inject_Z 1000) with 1000. change (inject_Z 1) with 1. fold k. lra. }
  assert (N0 : (0 <= n)%Z) by (apply Qfloor_ge; change (inject_Z 0) with 0; exact Lz).
  exists n. split; [lia|]. split; [exact N0|]. split; [exact Ff|]. split; [exact Vf|].
  assert (n0 : 0 <= inject_Z n) by (change 0 with (inject_Z 0); rewrite <- Zle_Qle; lia).
  assert (n1 : inject_Z n <= 1000 * k).
  { unfold k. change 1000 with (inject_Z 1000). rewrite <- inject_Z_mult, <- Zle_Qle. lia. }
  assert (NZ : ~ val (lit 100000) == 0) by (rewrite VL; lra).
  pose proof (fdiv_veq _ _ Ff lit_100000_fin NZ) as Dv.
  rewrite (rnd_compat (val (Math_floor (fmul x (lit 100000))) / val (lit 100000))
             (inject_Z n / 100000)) in Dv by (rewrite Vf, VL; reflexivity).
  assert (R3 : inQ 0 10000 (rnd (inject_Z n / 100000))).
  { apply rnd_inQ; [repr_small | repr_small | |].
    - apply Qle_shift_div_l; lra.
    - apply Qle_shift_div_r; lra. }
  destruct (veq_finite _ _ Dv (inQ_finite _ _ _ R3)) as [Fd Ed].
  split; [exact Fd|]. rewrite Ed. destruct R3 as [F3 [L3 _]].
  split; [exact L3|]. rewrite Ex. fold y.
  apply (proj1 (nle_fin (rnd (inject_Z n / 100000)) (rnd (k / 100)) F3 Fr)).
  apply rnd_mono.
  apply Qle_shift_div_r; [lra|].
  assert (X : k / 100 * 100000 == 1000 * k) by field. rewrite X. exact n1.
Qed.

Lemma lit_040 : lit (40 # 100) = Fin (mk (3602879701896397 # 9007199254740992)).
Proof. vm_compute. reflexivity. Qed.

Lemma hundredths_040 : hundredths (3602879701896397 # 9007199254740992) = 40%Z.
Proof. vm_compute. reflexivity. Qed.

(** the price floor: at least 0.40, whatever the draw *)
Lemma minPrice_floor r :
  inQ 0 1 r ->
  inQ (3602879701896397 # 9007199254740992) 1
    (fadd (lit (40 # 100)) (fmul r (lit (30 # 100)))).
Proof.
  intros [Fr [Lr Ur]]. rewrite lit_040.
  assert (Rb : inQ 0 (1 # 2) (lit (30 # 100)))
    by (apply rnd_inQ; [exact repr_0 | exact repr_half | lra | lra]).
  destruct Rb as [Fb [Lb Ub]].
  assert (P : inQ 0 (1 # 2) (fmul r (lit (30 # 100)))).
  { apply fmul_inQ; [exact Fr | exact Fb | exact repr_0 | exact repr_half | nra | nra]. }
  destruct P as [Fp [Lp Up]].
  assert (Rp : repr (3602879701896397 # 9007199254740992)) by (vm_compute; reflexivity).
  apply fadd_inQ; [exact I | exact Fp | exact Rp | exact repr_1 | |];
    cbn [val]; rewrite mk_val; lra.
Qed.

(** two-decimal rounding does not go below 0.40 from there on *)
Lemma round2_floor x :
  inQ (3602879701896397 # 9007199254740992) 10000 x ->
  finite (round2 x) /\ (3602879701896397 # 9007199254740992) <= val (round2 x).
Proof.
  intros [F [L U]].
  assert (R : inQ 0 10000 x) by (split; [exact F | split; lra]).
  pose proof (round2_veq x R) as V.
  pose proof (hundredths_mono (3602879701896397 # 9007199254740992) (val x)
                ltac:(lra) L U) as M.
  rewrite hundredths_040 in M.
  pose proof (hundredths_range (val x) ltac:(lra) U) as [_ H1].
  set (h := hundredths (val x)) in *.
  assert (h0 : 40 <= inject_Z h) by (change 40 with (inject_Z 40); rewrite <- Zle_Qle; lia).
  assert (h1 : inject_Z h <= 1000000)
    by (change 1000000 with (inject_Z 1000000); rewrite <- Zle_Qle; lia).
  assert (R2 : inQ 0 10000 (rnd (inject_Z h / 100))).
  { apply rnd_inQ; [repr_small | repr_small | |].
    - apply Qle_shift_div_l; lra.
    - apply Qle_shift_div_r; lra. }
  assert (E40 : rnd (40 / 100) = Fin (mk (3602879701896397 # 9007199254740992)))
    by (vm_compute; reflexivity).
  assert (N : nle (rnd (40 / 100)) (rnd (inject_Z h / 100))).
  { apply rnd_mono. apply Qmult_le_compat_r; [exact h0 | discriminate]. }
  rewrite E40 in N.
  apply (proj1 (nle_fin (Fin (mk (3602879701896397 # 9007199254740992)))
                  (rnd (inject_Z h / 100)) I (inQ_finite _ _ _ R2))) in N.
  cbn [val] in N. rewrite mk_val in N.
  destruct (veq_finite _ _ V (inQ_finite _ _ _ R2)) as [Fx Ex].
  split; [exact Fx | lra].
Qed.

End CandleFacts.

(** ** The tick loop, once more *)

Module StreamFacts.
Import CandleFacts.
Local Open Scope Q_scope.

Lemma Math_max_lower a b :
  finite a -> finite (Math_max a b) -> val a <= val (Math_max a b).
Proof.
  intros Fa Fm.
  destruct b as [| | | |q].
  - unfold Math_max in Fm. cbn [is_nan] in Fm. rewrite orb_true_r in Fm. contradiction.
  - destruct a; cbn [finite] in Fa; try contradiction; cbn; lra.
  - destruct a; cbn [finite] in Fa; try contradiction; cbn in Fm; contradiction.
  - destruct (Math_max_fin a NZero Fa I) as [_ [A _]]. exact A.
  - destruct (Math_max_fin a (Fin q) Fa I) as [_ [A _]]. exact A.
Qed.

Section Ticks.

Variable keccak256 : list byte -> list byte.
Variable Math_pow : number -> number -> number.
Variable getUTCFullYear : number -> number.
Variable getUTCMonth : number -> number.
Variable getUTCDate : number -> number.

Hypothesis keccak256_length : forall bs, List.length (keccak256 bs) = 32%nat.
Hypothesis Math_pow_unit :
  forall x y, inQ 0 1 x -> inQ (1 # 2) 1 y -> inQ 0 1 (Math_pow x y).

Variable derivedSeed : Z.
Variables finalMultiplier minPrice trendStrength volatilityBase volatilityDecay : number.
Variables gameStartTime tickIntervalMs gameTicks : number.
Variable K T : Z.

Hypothesis seed_range : (0 <= derivedSeed < 2 ^ 256)%Z.
Hypothesis K_range : (100 <= K <= 1000000)%Z.
Hypothesis final_eq : finalMultiplier = lit (K # 100).
Hypothesis final_range : inQ 1 10000 finalMultiplier.
Hypothesis minPrice_range : inQ (3602879701896397 # 9007199254740992) 1 minPrice.
Hypothesis trend_range : inQ 0 1 trendStrength.
Hypothesis volBase_range : inQ 0 1 volatilityBase.
Hypothesis volDecay_range : inQ (1 # 2) 1 volatilityDecay.
Hypothesis T_range : (1 <= T <= 2 ^ 53)%Z.
Hypothesis gameTicks_eq : gameTicks = Fin (mk (inject_Z T)).

Abbreviation loop :=
  (ticks keccak256 Math_pow getUTCFullYear getUTCMonth getUTCDate derivedSeed
     finalMultiplier minPrice trendStrength volatilityBase volatilityDecay
     gameStartTime tickIntervalMs gameTicks).

Abbreviation under := (below finalMultiplier).

Abbreviation floor := (3602879701896397 # 9007199254740992).

(** what is shown of one update: the value the server reads off it is a
    finite Number from 0 to the close of the candle, and no candle value is
    below 0.40 *)
Definition shown (u : GameUpdate) : Prop :=
  under (liveValue u) /\ val (liveValue u) <= val (close (bar u)) /\
  under (close (bar u)) /\
  (finite (open (bar u)) /\ floor <= val (open (bar u))) /\
  (finite (low (bar u)) /\ floor <= val (low (bar u))) /\
  (finite (close (bar u)) /\ floor <= val (close (bar u))).

Lemma minPrice_unit : inQ 0 1 minPrice.
Proof. destruct minPrice_range as [F [L U]]. split; [exact F|]. split; lra. Qed.

Lemma final_veq : veq finalMultiplier (rnd (inject_Z K / 100)).
Proof.
  rewrite final_eq. unfold lit.
  rewrite (rnd_compat (K # 100) (inject_Z K / 100))
    by (rewrite (Qmake_Qdiv K 100); reflexivity).
  apply veq_refl.
Qed.

Lemma shown_live x h :
  (0 <= h <= 1000000)%Z -> veq x (rnd (inject_Z h / 100)) -> under x ->
  under (fdiv (Math_floor (fmul x (lit 100000))) (lit 100000)) /\
  val (fdiv (Math_floor (fmul x (lit 100000))) (lit 100000)) <= val x.
Proof.
  intros Hh V [Fx [Lx Ux]].
  destruct (live_bound x h Hh V) as [n [_ [_ [_ [_ [Fd [Ld Ud]]]]]]].
  split; [|exact Ud]. split; [exact Fd|]. split; lra.
Qed.

Lemma Math_min_floor a b :
  finite a -> finite b -> floor <= val a -> floor <= val b ->
  finite (Math_min a b) /\ floor <= val (Math_min a b).
Proof.
  intros Fa Fb La Lb.
  destruct (Math_min_fin a b Fa Fb) as [F [_ [_ [C | C]]]]; split; try exact F; lra.
Qed.

Lemma loop_shown fuel :
  forall i prev cp us,
    (0 <= i <= T)%Z -> under prev -> floor <= val prev -> under cp ->
    loop fuel i prev cp = Ok us ->
    Forall shown us /\ continuous prev us.
Proof.
  pose proof minPrice_unit as MU.
  assert (F1 : floor <= val finalMultiplier).
  { destruct final_range as [_ [L _]]. lra. }
  induction fuel as [|fuel IH]; intros i prev cp us Hi Bp Lp Bc H.
  - rewrite loop_0 in H. destruct (flt (ofZ i) gameTicks); [discriminate H|].
    apply Ok_inj in H. subst us. split; [constructor | exact I].
  - rewrite loop_S in H.
    destruct (flt (ofZ i) gameTicks) eqn:E.
    2:{ apply Ok_inj in H. subst us. split; [constructor | exact I]. }
    assert (Hlt : (i < T)%Z).
    { apply (loop_test gameTicks T gameTicks_eq i); [lia | exact E]. }
    assert (R10 : (0 <= i + 10 < 2 ^ 256)%Z) by lia.
    assert (R20 : (0 <= i + 20 < 2 ^ 256)%Z) by lia.
    rewrite (getRandom_ok keccak256 derivedSeed (i + 10) seed_range R10) in H.
    rewrite (getRandom_ok keccak256 derivedSeed (i + 20) seed_range R20) in H.
    cbn [obind] in H. cbv zeta in H.
    assert (Pi : (0 <= i < T)%Z) by lia.
    pose proof (price_below Math_pow Math_pow_unit finalMultiplier minPrice trendStrength
                  volatilityBase volatilityDecay final_range MU trend_range
                  volBase_range volDecay_range
                  (fdiv (ofZ i) gameTicks)
                  (ratio (digest keccak256 derivedSeed (i + 10))) cp
                  (progress_unit gameTicks T T_range gameTicks_eq i Pi)
                  (rand_unit keccak256 keccak256_length derivedSeed (i + 10)) Bc) as Bq.
    set (q := tickPrice Math_pow finalMultiplier minPrice trendStrength volatilityBase
                volatilityDecay (fdiv (ofZ i) gameTicks)
                (ratio (digest keccak256 derivedSeed (i + 10))) cp) in *.
    pose proof (round2_below finalMultiplier K K_range final_eq final_range q Bq) as Br.
    assert (Lq : floor <= val q).
    { destruct minPrice_range as [Fm [Lm _]].
      assert (Fq : finite q) by (destruct Bq as [F _]; exact F).
      unfold q, tickPrice in Fq |- *. cbv zeta in Fq |- *.
      match goal with
      | |- _ <= val (Math_max ?a ?b) => pose proof (Math_max_lower a b Fm Fq) as M
      end.
      lra. }
    assert (Rq : inQ floor 10000 q).
    { destruct (below_inQ finalMultiplier final_range q Bq) as [F [_ U]].
      split; [exact F|]. split; [exact Lq | exact U]. }
    destruct (round2_floor q Rq) as [Fr Lr].
    destruct Bp as [Fp [Lp0 Up]].
    destruct (final_below finalMultiplier final_range) as [Ff [Lf Uf]].
    match type of H with
    | (if ?c then _ else _) = _ => destruct c
    end.
    + apply Ok_inj in H. subst us.
      split; [|split; [reflexivity | exact I]].
      constructor; [|constructor].
      unfold shown, liveValue. cbn [currentValue bar open low close].
      destruct (shown_live finalMultiplier K ltac:(lia) final_veq
                  (conj Ff (conj Lf Uf))) as [A B].
      split; [exact A|]. split; [exact B|].
      split; [exact (conj Ff (conj Lf Uf))|].
      split; [split; [exact Fp | exact Lp]|].
      split; [apply Math_min_floor; assumption|].
      split; [exact Ff | exact F1].
    + match type of H with
      | obind ?m _ = _ => destruct m as [rest| |] eqn:Er
      end; cbn [obind] in H; [|discriminate H|discriminate H].
      apply Ok_inj in H. subst us.
      assert (Hi' : (0 <= i + 1 <= T)%Z) by lia.
      destruct (IH (i + 1)%Z (round2 q) q rest Hi' Br Lr Bq Er) as [Fa Co].
      split; [|split; [reflexivity | exact Co]].
      constructor; [|exact Fa].
      unfold shown, liveValue. cbn [currentValue bar open low close].
      pose proof (below_inQ finalMultiplier final_range q Bq) as [Fq [Lq0 Uq]].
      pose proof (hundredths_range (val q) Lq0 Uq) as Hh.
      destruct (shown_live (round2 q) (hundredths (val q)) Hh
                  (round2_veq q (conj Fq (conj Lq0 Uq))) Br) as [A B].
      split; [exact A|]. split; [exact B|]. split; [exact Br|].
      split; [split; [exact Fp | exact Lp]|].
      split; [apply Math_min_floor; assumption|].
      split; [exact Fr | exact Lr].
Qed.

End Ticks.

End StreamFacts.

(** ** The tick count at the server's interval *)

Module PaceFacts.
Local Open Scope Q_scope.

Lemma lit_100_eq : lit 100 = Fin (mk 100).
Proof. vm_compute. reflexivity. Qed.

(** at 100 ms per tick a round has 30 to 300 ticks *)
Lemma totalTicks_at_100 r1 :
  inQ 0 1 r1 ->
  exists T : Z, (30 <= T <= 300)%Z /\ totalTicksOf r1 (lit 100) = Fin (mk (inject_Z T)).
Proof.
  intros Hr. unfold totalTicksOf. cbv zeta.
  destruct (duration_range r1 Hr) as [Fd [Ld Ud]].
  set (d := fadd (lit 3000) (Math_floor (fmul r1 (fsub (lit 30000) (lit 3000))))) in *.
  pose proof val_lit_100 as V.
  assert (Q : inQ 30 300 (fdiv d (lit 100))).
  { apply fdiv_inQ; [exact Fd | exact lit_100_fin | rewrite V; lra | repr_small | repr_small
                     | |]; rewrite V.
    - apply Qle_shift_div_l; lra.
    - apply Qle_shift_div_r; lra. }
  destruct Q as [Fq [Lq Uq]].
  destruct (fdiv d (lit 100)) as [| | | |q] eqn:Eq; cbn [finite] in Fq; try contradiction;
    cbn [val] in Lq, Uq; try lra.
  cbn [Math_ceil].
  assert (C1 : (30 <= Qceiling q)%Z).
  { apply Qceiling_ge. change (inject_Z 30) with 30. exact Lq. }
  assert (C2 : (Qceiling q <= 300)%Z).
  { apply Qceiling_le. change (inject_Z 300) with 300. exact Uq. }
  exists (Qceiling q). split; [lia|].
  assert (Z : (Qceiling q =? 0)%Z = false) by (apply Z.eqb_neq; lia).
  rewrite Z. reflexivity.
Qed.

Lemma tickOK_100 : tickOK (lit 100).
Proof.
  unfold tickOK, inQ. rewrite lit_100_eq. split; [exact I|]. cbn [val]. rewrite mk_val.
  split; vm_compute; discriminate.
Qed.

End PaceFacts.

(** * The crash point and the first digest *)

Section Odds.
Import CurveFacts.
Local Open Scope Q_scope.

Variable keccak256 : list byte -> list byte.
Variable Math_pow : number -> number -> number.
Variable parseInt : string -> number.
Variable getUTCFullYear : number -> number.
Variable getUTCMonth : number -> number.
Variable getUTCDate : number -> number.

Hypothesis keccak256_length : forall bs, List.length (keccak256 bs) = 32%nat.

Lemma final_at_least_one r : r <> NaN -> 1 <= val (fst (crashPoint r)).
Proof.
  intros N. destruct (crashPoint_final r N) as [K [_ [_ [_ [L _]]]]]. exact L.
Qed.

Lemma instant_iff h :
  (0 <= h < 2 ^ 256)%Z ->
  (fst (crashPoint (ratio h)) = lit 1 <-> (h <= instantUpTo)%Z).
Proof.
  intros Hh.
  assert (E1 : fst (crashPoint (ratio instantUpTo)) = lit 1) by (vm_compute; reflexivity).
  assert (E2 : fst (crashPoint (ratio (instantUpTo + 1))) = lit (101 # 100))
    by (vm_compute; reflexivity).
  assert (R1 : (0 <= instantUpTo)%Z /\ (instantUpTo + 1 < 2 ^ 256)%Z)
    by (split; vm_compute; [discriminate | reflexivity]).
  assert (N : ratio h <> NaN).
  { destruct (ratio_unit h Hh) as [F _]. destruct (ratio h); cbn in F; congruence. }
  pose proof (final_at_least_one _ N) as L1.
  split.
  - intros E.
    destruct (Z_le_gt_dec h instantUpTo) as [Le | Gt]; [exact Le | exfalso].
    assert (A1 : (0 <= instantUpTo + 1 < 2 ^ 256)%Z) by lia.
    assert (A2 : (0 <= instantUpTo + 1)%Z) by lia.
    assert (A3 : (instantUpTo + 1 <= h)%Z) by lia.
    assert (A4 : (h < 2 ^ 256)%Z) by lia.
    pose proof (crashPoint_mono (ratio (instantUpTo + 1)) (ratio h)
                  (ratio_unit _ A1) (ratio_unit _ Hh)
                  (ratio_mono _ _ A2 A3 A4)) as M.
    rewrite E2, E in M.
    assert (C : val (lit 1) < val (lit (101 # 100))) by (vm_compute; reflexivity).
    lra.
  - intros Le.
    assert (A1 : (0 <= instantUpTo < 2 ^ 256)%Z) by lia.
    assert (A2 : (0 <= h)%Z) by lia.
    assert (A4 : (instantUpTo < 2 ^ 256)%Z) by lia.
    pose proof (crashPoint_mono (ratio h) (ratio instantUpTo)
                  (ratio_unit _ Hh) (ratio_unit _ A1)
                  (ratio_mono _ _ A2 Le A4)) as M.
    rewrite E1 in M. pose proof lit_1_val as V1.
    assert (KR1 : (100 <= 100 <= 1000000)%Z) by lia.
    rewrite (final_by_value (ratio h) 100 N KR1).
    + apply rnd_compat. reflexivity.
    + assert (V : val (lit (100 # 100)) == 1) by (vm_compute; reflexivity).
      rewrite V. lra.
Qed.

Lemma cap_iff h :
  (0 <= h < 2 ^ 256)%Z ->
  (fst (crashPoint (ratio h)) = lit 10000 <-> (capFrom <= h)%Z).
Proof.
  intros Hh.
  assert (E1 : fst (crashPoint (ratio capFrom)) = lit 10000) by (vm_compute; reflexivity).
  assert (E2 : fst (crashPoint (ratio (capFrom - 1))) = lit (999999 # 100))
    by (vm_compute; reflexivity).
  assert (R1 : (0 <= capFrom - 1)%Z /\ (capFrom < 2 ^ 256)%Z)
    by (split; vm_compute; [discriminate | reflexivity]).
  assert (N : ratio h <> NaN).
  { destruct (ratio_unit h Hh) as [F _]. destruct (ratio h); cbn in F; congruence. }
  destruct (crashPoint_final _ N) as [K [KR [FE [_ [_ U]]]]].
  split.
  - intros E.
    destruct (Z_le_gt_dec capFrom h) as [Le | Gt]; [exact Le | exfalso].
    assert (A1 : (0 <= capFrom - 1 < 2 ^ 256)%Z) by lia.
    assert (A2 : (0 <= h)%Z) by lia.
    assert (A3 : (h <= capFrom - 1)%Z) by lia.
    assert (A4 : (capFrom - 1 < 2 ^ 256)%Z) by lia.
    pose proof (crashPoint_mono (ratio h) (ratio (capFrom - 1))
                  (ratio_unit _ Hh) (ratio_unit _ A1)
                  (ratio_mono _ _ A2 A3 A4)) as M.
    rewrite E2, E in M.
    assert (C : val (lit (999999 # 100)) < val (lit 10000)) by (vm_compute; reflexivity).
    lra.
  - intros Le.
    assert (A1 : (0 <= capFrom < 2 ^ 256)%Z) by lia.
    assert (A2 : (0 <= capFrom)%Z) by lia.
    assert (A4 : (h < 2 ^ 256)%Z) by lia.
    pose proof (crashPoint_mono (ratio capFrom) (ratio h)
                  (ratio_unit _ A1) (ratio_unit _ Hh)
                  (ratio_mono _ _ A2 Le A4)) as M.
    rewrite E1 in M. pose proof lit_10000_val as V1.
    assert (KR1 : (100 <= 1000000 <= 1000000)%Z) by lia.
    rewrite (final_by_value (ratio h) 1000000 N KR1).
    + apply rnd_compat. reflexivity.
    + assert (V : val (lit (1000000 # 100)) == 10000) by (vm_compute; reflexivity).
      rewrite V. lra.
Qed.

Abbreviation generate :=
  (generateCrashGame keccak256 Math_pow parseInt getUTCFullYear getUTCMonth getUTCDate).

(** X15: which rounds crash at once and which reach the cap is decided by the
    first digest alone: the final multiplier is 1.00 exactly when the digest
    of draw 0 is at most [instantUpTo], which holds for between 0.4975% and
    0.4976% of all 256-bit digests, and it is 10000 exactly when the digest
    is at least [capFrom], which holds for between 0.0100% and 0.0101% of
    them. *)
Theorem crash_point_odds (input : GameInput) :
  validInput input ->
  exists s,
    deriveSeed keccak256 (vrfRandom input) (roundId input) (serverSeed input)
      (chainId input) = Ok s /\
    (forall fuel res,
       generate fuel input = Ok res ->
       (finalMultiplier res = lit 1 <-> (digest keccak256 s 0 <= instantUpTo)%Z) /\
       (finalMultiplier res = lit 10000 <-> (capFrom <= digest keccak256 s 0)%Z)) /\
    (4975 * 2 ^ 256 <= 1000000 * (instantUpTo + 1) <= 4976 * 2 ^ 256)%Z /\
    (100 * 2 ^ 256 <= 1000000 * (2 ^ 256 - capFrom) <= 101 * 2 ^ 256)%Z.
Proof.
  intros V.
  destruct (generate_final keccak256 Math_pow parseInt getUTCFullYear getUTCMonth
              getUTCDate keccak256_length input V)
    as [s [r0 [K [D [G [N [KR [FE [FR Hres]]]]]]]]].
  pose proof (deriveSeed_range keccak256 keccak256_length _ _ _ _ s D) as Rs.
  assert (R0 : (0 <= 0 < 2 ^ 256)%Z) by lia.
  rewrite (getRandom_ok keccak256 s 0 Rs R0) in G. apply Ok_inj in G.
  pose proof (digest_range keccak256 keccak256_length s 0) as Rd.
  exists s. split; [exact D|]. split.
  - intros fuel res H. destruct (Hres fuel res H) as [Hf _]. rewrite Hf, <- G.
    split; [apply instant_iff | apply cap_iff]; exact Rd.
  - split; vm_compute; split; discriminate.
Qed.

(** X16: a larger draw never gives a smaller crash point: for two draws in
    the unit interval the final multipliers are ordered as the draws are. *)
Theorem crash_point_monotone (r r' : number) :
  inQ 0 1 r -> inQ 0 1 r' -> fle r r' = true ->
  fle (fst (crashPoint r)) (fst (crashPoint r')) = true.
Proof.
  intros Hr Hr' L.
  assert (N : r <> NaN) by (destruct Hr as [F _]; destruct r; cbn in F; congruence).
  assert (N' : r' <> NaN) by (destruct Hr' as [F _]; destruct r'; cbn in F; congruence).
  destruct (crashPoint_final r N) as [_ [_ [_ [F _]]]].
  destruct (crashPoint_final r' N') as [_ [_ [_ [F' _]]]].
  apply (proj2 (fle_fin (fst (crashPoint r)) (fst (crashPoint r')) F F')).
  apply crashPoint_mono; [exact Hr | exact Hr'|].
  apply (proj1 (fle_fin r r' (inQ_finite _ _ _ Hr) (inQ_finite _ _ _ Hr'))). exact L.
Qed.

End Odds.

(** * What the updates of a round carry *)

Section Shown.
Import CandleFacts StreamFacts.
Local Open Scope Q_scope.

Variable keccak256 : list byte -> list byte.
Variable Math_pow : number -> number -> number.
Variable parseInt : string -> number.
Variable getUTCFullYear : number -> number.
Variable getUTCMonth : number -> number.
Variable getUTCDate : number -> number.

Hypothesis keccak256_length : forall bs, List.length (keccak256 bs) = 32%nat.
Hypothesis Math_pow_unit :
  forall x y, inQ 0 1 x -> inQ (1 # 2) 1 y -> inQ 0 1 (Math_pow x y).

Abbreviation generate :=
  (generateCrashGame keccak256 Math_pow parseInt getUTCFullYear getUTCMonth getUTCDate).

Lemma generate_shown input fuel res :
  validInput input -> tickOK (tickIntervalMs input) ->
  generate fuel input = Ok res ->
  inQ 1 10000 (finalMultiplier res) /\
  Forall (shown (finalMultiplier res)) (updates res) /\
  continuous (lit 1) (updates res).
Proof.
  intros V TK H.
  destruct (validInput_deriveSeed keccak256 keccak256_length input V) as [s [D R]].
  pose proof (rand_not_nan keccak256 keccak256_length s 0) as N0.
  destruct (crashPoint_final _ N0) as [K [KR [FE FR]]].
  pose proof (rand_unit keccak256 keccak256_length s) as U.
  destruct (totalTicks_range _ _ (U 1%Z) TK) as [T [TR TE]].
  rewrite (generateCrashGame_unfold keccak256 Math_pow parseInt getUTCFullYear
             getUTCMonth getUTCDate keccak256_length fuel input s D) in H.
  cbv beta zeta in H.
  match type of H with
  | obind ?m _ = _ => destruct m as [us| |] eqn:E
  end; cbn [obind] in H; [|discriminate H|discriminate H].
  apply Ok_inj in H. rewrite <- H. cbn [finalMultiplier updates].
  split; [exact FR|].
  assert (Hmin : inQ (3602879701896397 # 9007199254740992) 1
                   (fadd (lit (40 # 100))
                      (fmul (ratio (digest keccak256 s 2)) (lit (30 # 100)))))
    by (apply minPrice_floor, U).
  assert (Htrend : inQ 0 1 (fadd (lit (15 # 100))
                              (fmul (ratio (digest keccak256 s 3)) (lit (30 # 100)))))
    by (apply affine_unit; [lra | lra | lra | lra | apply U]).
  assert (Hbase : inQ 0 1 (fadd (lit (15 # 1000))
                             (fmul (ratio (digest keccak256 s 4)) (lit (20 # 1000)))))
    by (apply affine_unit; [lra | lra | lra | lra | apply U]).
  assert (Hdecay : inQ (1 # 2) 1 (fadd (lit (5 # 10))
                                    (fmul (ratio (digest keccak256 s 5)) (lit (4 # 10)))))
    by (apply volatilityDecay_range, U).
  assert (I0 : (0 <= 0 <= T)%Z) by lia.
  assert (L1 : (3602879701896397 # 9007199254740992) <= val (lit 1)).
  { rewrite lit_1_val. unfold Qle. cbn. lia. }
  exact (loop_shown keccak256 Math_pow getUTCFullYear getUTCMonth getUTCDate
           keccak256_length Math_pow_unit s _ _ _ _ _
           (parseInt (startTimestamp input)) (tickIntervalMs input) _
           K T R KR FE FR Hmin Htrend Hbase Hdecay TR TE
           fuel 0%Z (lit 1) (lit 1) us I0
           (one_below _ FR) L1 (one_below _ FR) E).
Qed.

(** X17: the multiplier the server reads off an update,
    [currentValue / 100000], is a Number from 0 to the close of that
    update's candle, and so never above the final multiplier of the round. *)
Theorem live_value_within_close (input : GameInput) (fuel : nat)
    (res : CrashGameResult) :
  validInput input -> tickOK (tickIntervalMs input) ->
  generate fuel input = Ok res ->
  Forall (fun u =>
            fle (lit 0) (liveValue u) = true /\
            fle (liveValue u) (close (bar u)) = true /\
            fle (liveValue u) (finalMultiplier res) = true)
    (updates res).
Proof.
  intros V TK H.
  destruct (generate_shown input fuel res V TK H) as [[Ff _] [Sh _]].
  revert Sh. apply List.Forall_impl.
  intros u [[Fl [L0 Lf]] [Lc [[Fc _] _]]].
  split; [|split].
  - apply (proj2 (fle_fin (lit 0) (liveValue u) I Fl)).
    rewrite lit_0. cbn [val]. rewrite mk_val. exact L0.
  - apply (proj2 (fle_fin (liveValue u) (close (bar u)) Fl Fc)). exact Lc.
  - apply (proj2 (fle_fin (liveValue u) (finalMultiplier res) Fl Ff)). exact Lf.
Qed.

(** X18: the candles of a round form one chain that starts at 1.00, each
    opening where the one before it closed, and no open, low or close of
    any candle is below 0.40. *)
Theorem candles_chain_above_floor (input : GameInput) (fuel : nat)
    (res : CrashGameResult) :
  validInput input -> tickOK (tickIntervalMs input) ->
  generate fuel input = Ok res ->
  continuous (lit 1) (updates res) /\
  Forall (fun u =>
            fle (lit (40 # 100)) (open (bar u)) = true /\
            fle (lit (40 # 100)) (low (bar u)) = true /\
            fle (lit (40 # 100)) (close (bar u)) = true)
    (updates res).
Proof.
  intros V TK H.
  destruct (generate_shown input fuel res V TK H) as [_ [Sh Co]].
  split; [exact Co|].
  revert Sh. apply List.Forall_impl.
  intros u [_ [_ [_ [[Fo Lo] [[Fw Lw] [Fc Lc]]]]]].
  rewrite lit_040.
  split; [|split].
  - apply (proj2 (fle_fin (Fin (mk (3602879701896397 # 9007199254740992)))
                     (open (bar u)) I Fo)).
    cbn [val]. rewrite mk_val. exact Lo.
  - apply (proj2 (fle_fin (Fin (mk (3602879701896397 # 9007199254740992)))
                     (low (bar u)) I Fw)).
    cbn [val]. rewrite mk_val. exact Lw.
  - apply (proj2 (fle_fin (Fin (mk (3602879701896397 # 9007199254740992)))
                     (close (bar u)) I Fc)).
    cbn [val]. rewrite mk_val. exact Lc.
Qed.

End Shown.

Section Pace.
Import PaceFacts.
Local Open Scope Q_scope.

Variable keccak256 : list byte -> list byte.
Variable Math_pow : number -> number -> number.
Variable parseInt : string -> number.
Variable getUTCFullYear : number -> number.
Variable getUTCMonth : number -> number.
Variable getUTCDate : number -> number.

Hypothesis keccak256_length : forall bs, List.length (keccak256 bs) = 32%nat.
Hypothesis Math_pow_unit :
  forall x y, inQ 0 1 x -> inQ (1 # 2) 1 y -> inQ 0 1 (Math_pow x y).

Abbreviation generate :=
  (generateCrashGame keccak256 Math_pow parseInt getUTCFullYear getUTCMonth getUTCDate).

(** X19: at the server's tick interval of 100 ms the tick count the code
    computes for a round (Math.ceil of the duration drawn at index 1 over the
    interval) is an integer T between 30 and 300, the generator returns
    within 300 iterations, and the round has at least one and at most T
    updates, so at most 300. *)
Theorem round_within_300_ticks (input : GameInput) :
  validInput input -> tickIntervalMs input = lit 100 ->
  exists (s : Z) (r1 : number) (T : Z) (res : CrashGameResult),
    deriveSeed keccak256 (vrfRandom input) (roundId input) (serverSeed input)
      (chainId input) = Ok s /\
    getRandom keccak256 s 1 = Ok r1 /\
    totalTicksOf r1 (tickIntervalMs input) = ofZ T /\
    (30 <= T <= 300)%Z /\
    (forall fuel, (300 <= fuel)%nat -> generate fuel input = Ok res) /\
    (1 <= List.length (updates res) <= Z.to_nat T)%nat.
Proof.
  intros V TI.
  destruct (validInput_deriveSeed keccak256 keccak256_length input V) as [s [D R]].
  pose proof (rand_not_nan keccak256 keccak256_length s 0) as N0.
  destruct (crashPoint_final _ N0) as [K [KR [FE FR]]].
  pose proof (rand_unit keccak256 keccak256_length s) as U.
  destruct (totalTicks_at_100 _ (U 1%Z)) as [T [TR TE]].
  rewrite <- TI in TE.
  assert (TR' : (1 <= T <= 2 ^ 53)%Z) by lia.
  assert (Hmin : inQ 0 1 (fadd (lit (40 # 100))
                            (fmul (ratio (digest keccak256 s 2)) (lit (30 # 100)))))
    by (apply affine_unit; [lra | lra | lra | lra | apply U]).
  assert (Htrend : inQ 0 1 (fadd (lit (15 # 100))
                              (fmul (ratio (digest keccak256 s 3)) (lit (30 # 100)))))
    by (apply affine_unit; [lra | lra | lra | lra | apply U]).
  assert (Hbase : inQ 0 1 (fadd (lit (15 # 1000))
                             (fmul (ratio (digest keccak256 s 4)) (lit (20 # 1000)))))
    by (apply affine_unit; [lra | lra | lra | lra | apply U]).
  assert (Hdecay : inQ (1 # 2) 1 (fadd (lit (5 # 10))
                                    (fmul (ratio (digest keccak256 s 5)) (lit (4 # 10)))))
    by (apply volatilityDecay_range, U).
  assert (A1 : Z.of_nat (Z.to_nat T) = (T - 0)%Z) by lia.
  assert (A2 : (0 <= 0)%Z) by lia.
  assert (A3 : (Z.to_nat T <= Z.to_nat T)%nat) by lia.
  destruct (loop_spec keccak256 Math_pow getUTCFullYear getUTCMonth getUTCDate
              keccak256_length Math_pow_unit s _ _ _ _ _
              (parseInt (startTimestamp input)) (tickIntervalMs input)
              (totalTicksOf (ratio (digest keccak256 s 1)) (tickIntervalMs input))
              K T R KR FE FR Hmin Htrend Hbase Hdecay TR' TE
              (Z.to_nat T) 0%Z (Z.to_nat T) (lit 1) (lit 1) A1 A2 A3
              (one_below _ FR) (one_below _ FR))
    as [us [E [Len [_ [_ C]]]]].
  exists s, (ratio (digest keccak256 s 1)), T,
    {| updates := us;
       finalMultiplier := fst (crashPoint (ratio (digest keccak256 s 0)));
       rawMultiplier := snd (crashPoint (ratio (digest keccak256 s 0))) |}.
  split; [exact D|].
  split; [apply (getRandom_ok keccak256 s 1 R); lia|].
  split; [rewrite TE; symmetry; apply ofZ_int; lia|].
  split; [exact TR|]. split.
  - intros fuel Hf.
    rewrite (generateCrashGame_unfold keccak256 Math_pow parseInt getUTCFullYear
               getUTCMonth getUTCDate keccak256_length fuel input s D).
    cbv beta zeta.
    assert (Hf' : (Z.to_nat T <= fuel)%nat) by lia.
    rewrite (ticks_fuel_mono keccak256 Math_pow getUTCFullYear getUTCMonth getUTCDate
               _ _ _ _ _ _ _ _ _ _ _ _ _ _ E fuel Hf').
    reflexivity.
  - cbn [updates]. split; [|exact Len].
    assert (NZ : Z.to_nat T <> 0%nat) by lia.
    destruct (C NZ) as [init [u [Eu _]]]. rewrite Eu, length_app. cbn [List.length]. lia.
Qed.

End Pace.

(** * The streamed round *)

Module StreamingFacts.
Import Js Server Streaming.
Local Open Scope Q_scope.

Lemma lowerAscii_idem c : lowerAscii (lowerAscii c) = lowerAscii c.
Proof. destruct c as [[] [] [] [] [] [] [] []]; reflexivity. Qed.

Lemma toLowerCase_idem s : toLowerCase (toLowerCase s) = toLowerCase s.
Proof.
  induction s as [|c s IH]; [reflexivity|].
  cbn [toLowerCase]. rewrite lowerAscii_idem, IH. reflexivity.
Qed.

(** ** the handler's parts *)

Section Parts.

Variable parseInt : string -> number.
Variable Number_toString : number -> string.
Variable StringToNumber : string -> number.

Abbreviation toNumber := (ToNumber Number_toString StringToNumber).

Lemma checkRequest_passed store roundId multiplier walletAddress key :
  checkRequest parseInt Number_toString StringToNumber store roundId multiplier
    walletAddress = Passed key ->
  keyOf (roundIdNumOf parseInt roundId) = Some key /\
  exists ar, activeRounds store !! key = Some ar /\
    state ar = running /\
    ToBoolean multiplier = true /\
    flt (toNumber multiplier) (lit 1) = false /\
    fgt (toNumber multiplier) (currentMultiplier ar) = false.
Proof.
  unfold checkRequest.
  destruct (negb (printable roundId && printable multiplier && printable walletAddress));
    [discriminate|].
  destruct (ToBoolean roundId); [|discriminate].
  destruct (ToBoolean multiplier) eqn:T; [|discriminate].
  cbn [negb orb].
  destruct (negb (ToBoolean walletAddress)); [discriminate|].
  cbv zeta.
  destruct (keyOf (roundIdNumOf parseInt roundId)) as [k|]; [|discriminate].
  destruct (activeRounds store !! k) as [ar|] eqn:L; [|discriminate].
  destruct (bool_decide (state ar = running)) eqn:S; [|discriminate].
  cbn [negb].
  destruct (flt (toNumber multiplier) (lit 1)) eqn:Lo; [discriminate|].
  destruct (fgt (toNumber multiplier) (currentMultiplier ar)) eqn:G; [discriminate|].
  cbn [orb]. intros K. injection K as <-. split; [reflexivity|].
  exists ar. apply bool_decide_eq_true_1 in S.
  repeat split; assumption.
Qed.

(** a Number that passes the second check is finite and lies from 1 to the
    live multiplier *)
Lemma passed_bounds m cur :
  finite cur -> truthy m = true ->
  flt m (lit 1) = false -> fgt m cur = false ->
  finite m /\ 1 <= val m /\ val m <= val cur.
Proof.
  intros Fc T L G. rewrite lit_1 in L. unfold fgt in G.
  destruct m as [| | | |q]; try discriminate.
  - destruct cur; try contradiction; discriminate.
  - unfold flt in L, G. cbn [val] in L.
    apply negb_false_iff, Qle_bool_iff in L. rewrite mk_val in L.
    split; [exact I|]. split; [exact L|].
    destruct cur as [| | | |c]; try contradiction; cbn [val] in *;
      apply negb_false_iff, Qle_bool_iff in G; exact G.
Qed.

(** any other value that passes it converts to NaN or to such a Number *)
Lemma passed_coerced x cur :
  finite cur ->
  flt x (lit 1) = false -> fgt x cur = false ->
  x = NaN \/ (finite x /\ 1 <= val x /\ val x <= val cur).
Proof.
  intros Fc L G. rewrite lit_1 in L. unfold fgt in G.
  destruct x as [| | | |q]; try discriminate.
  - left. reflexivity.
  - destruct cur; try contradiction; discriminate.
  - right. unfold flt in L, G. cbn [val] in L.
    apply negb_false_iff, Qle_bool_iff in L. rewrite mk_val in L.
    split; [exact I|]. split; [exact L|].
    destruct cur as [| | | |c]; try contradiction; cbn [val] in *;
      apply negb_false_iff, Qle_bool_iff in G; exact G.
Qed.

(** what [recordRequest] does: it refuses and leaves the store as it is, or
    it writes one record for the wallet, which had none, with the multiplier
    asked for *)
Lemma recordRequest_effect store env roundId multiplier walletAddress :
  (exists e, recordRequest Number_toString StringToNumber store env roundId multiplier
               walletAddress = (store, Refused e)) \/
  (exists store' co payout w,
     recordRequest Number_toString StringToNumber store env roundId multiplier
       walletAddress = (store', Written payout) /\
     walletAddress = JString w /\
     Server.multiplier co = multiplier /\
     Server.walletAddress co = toLowerCase w /\
     ~ In (toLowerCase w) (List.map walletKey (cashOutsOf store roundId)) /\
     activeRounds store' = activeRounds store /\
     activeCashOuts store'
     = <[roundId := cashOutsOf store roundId ++ [co]]> (activeCashOuts store)).
Proof.
  unfold recordRequest. cbv zeta.
  destruct (getBet env roundId walletAddress) as [bet|];
    [|left; eexists; reflexivity].
  destruct (Contract.amount bet =? 0)%Z; [left; eexists; reflexivity|].
  destruct walletAddress as [| | | | w | |]; try (left; eexists; reflexivity).
  fold (cashOutsOf store roundId).
  destruct (existsb _ (cashOutsOf store roundId)) eqn:X;
    [left; eexists; reflexivity|].
  right. eexists.
  exists {| Server.walletAddress := toLowerCase w;
            Server.multiplier := multiplier;
            timestamp := fdiv (dateNow env) (lit 1000);
            verified := true |}.
  eexists. exists w. split; [reflexivity|]. split; [reflexivity|].
  cbn [activeRounds activeCashOuts Server.multiplier Server.walletAddress].
  split; [reflexivity|]. split; [reflexivity|].
  split; [|split; reflexivity].
  intros Hin. apply in_map_iff in Hin. destruct Hin as [co [K Hin]].
  assert (C : existsb (fun co => String.eqb (toLowerCase (Server.walletAddress co))
                                   (toLowerCase w))
                (cashOutsOf store roundId) = true).
  { apply existsb_exists. exists co. split; [exact Hin|].
    apply String.eqb_eq. exact K. }
  rewrite X in C. discriminate C.
Qed.

End Parts.

Lemma cashOutsOf_same store store' roundId :
  activeCashOuts store' = activeCashOuts store ->
  cashOutsOf store' roundId = cashOutsOf store roundId.
Proof. intros E. unfold cashOutsOf. rewrite E. reflexivity. Qed.

Lemma cashOutsOf_insert store store' r l roundId :
  activeCashOuts store' = <[r := l]> (activeCashOuts store) ->
  cashOutsOf store' roundId = if decide (r = roundId) then l else cashOutsOf store roundId.
Proof.
  intros E. unfold cashOutsOf. rewrite E.
  destruct (decide (r = roundId)) as [->|N].
  - rewrite lookup_insert_eq. reflexivity.
  - rewrite lookup_insert_ne by exact N. reflexivity.
Qed.

Lemma updateRound_cashOuts store roundId f :
  activeCashOuts (updateRound store roundId f) = activeCashOuts store.
Proof.
  unfold updateRound. destruct (activeRounds store !! roundId); reflexivity.
Qed.

Lemma updateRound_round store roundId f ar :
  activeRounds (updateRound store roundId f) !! roundId = Some ar ->
  exists old, activeRounds store !! roundId = Some old /\ ar = f old.
Proof.
  unfold updateRound.
  destruct (activeRounds store !! roundId) as [old|] eqn:E.
  - cbn [activeRounds]. rewrite lookup_insert_eq. intros H.
    exists old. split; [reflexivity|]. congruence.
  - rewrite E. discriminate.
Qed.

Lemma confirmed_app parseInt roundId a b :
  confirmed parseInt roundId (a ++ b)
  = confirmed parseInt roundId a ++ confirmed parseInt roundId b.
Proof. unfold confirmed. apply flat_map_app. Qed.

Lemma awaited_app roundId a b :
  awaited roundId (a ++ b) = awaited roundId a ++ awaited roundId b.
Proof. unfold awaited. apply flat_map_app. Qed.

Lemma awaited_one roundId q p :
  awaited roundId [(q, p)]
  = if (Request.roundIdNum q =? roundId)%Z then [Request.multiplier q] else [].
Proof. unfold awaited. cbn. apply app_nil_r. Qed.

(** the answers of the third part hold one confirmation *)
Lemma confirmed_confirm parseInt roundId r m p :
  confirmed parseInt roundId (List.map Answer (confirm r m p))
  = if bool_decide (keyOf (roundIdNumOf parseInt r) = Some roundId) then [m] else [].
Proof.
  unfold confirmed, confirm.
  destruct m; cbn; rewrite ?app_nil_r; reflexivity.
Qed.

Lemma in_remove {A : Type} (k : nat) (l : list A) x : In x (remove k l) -> In x l.
Proof.
  unfold remove. intros H. apply in_app_or in H.
  rewrite <- (firstn_skipn k l). apply in_or_app.
  destruct H as [H|H]; [left; exact H|].
  right. destruct (skipn k l) as [|y rest] eqn:E.
  - rewrite <- (firstn_skipn k l) in H.
    assert (S : skipn (S k) l = []).
    { replace (S k) with (1 + k)%nat by reflexivity.
      rewrite <- skipn_skipn. rewrite E. reflexivity. }
    rewrite firstn_skipn in H. rewrite S in H. destruct H.
  - assert (S : skipn (S k) l = rest).
    { replace (S k) with (1 + k)%nat by reflexivity.
      rewrite <- skipn_skipn. rewrite E. reflexivity. }
    rewrite S in H. right. exact H.
Qed.

(** the list is the entry taken out and the rest *)
Lemma remove_split {A : Type} (k : nat) :
  forall (l : list A) x, nth_error l k = Some x ->
    l = firstn k l ++ x :: skipn (S k) l.
Proof.
  induction k as [|k IH]; intros [|y l] x H; try discriminate H.
  - cbn in H. injection H as ->. reflexivity.
  - cbn [nth_error] in H. cbn [firstn skipn app]. f_equal. apply IH, H.
Qed.

Lemma awaited_remove roundId k capping q p :
  nth_error capping k = Some (q, p) ->
  Permutation (awaited roundId capping)
    ((if (Request.roundIdNum q =? roundId)%Z then [Request.multiplier q] else [])
     ++ awaited roundId (remove k capping)).
Proof.
  intros H. rewrite (remove_split k capping _ H) at 1. unfold remove.
  rewrite !awaited_app.
  change (awaited roundId ((q, p) :: skipn (S k) capping))
    with ((if (Request.roundIdNum q =? roundId)%Z then [Request.multiplier q] else [])
          ++ awaited roundId (skipn (S k) capping)).
  rewrite !app_assoc. apply Permutation_app_tail. apply Permutation_app_comm.
Qed.

Section Round.

Variable parseInt : string -> number.
Variable Number_toString : number -> string.
Variable StringToNumber : string -> number.

Variable roundId : Z.
Variable finalMultiplier : number.
Variable updates : list GameUpdate.

Abbreviation toNumber := (ToNumber Number_toString StringToNumber).
Abbreviation moment' := (moment parseInt Number_toString StringToNumber roundId
                           finalMultiplier updates).
Abbreviation unfold' := (unfold parseInt Number_toString StringToNumber roundId
                           finalMultiplier updates).

(** ** no wallet twice, every confirmation recorded *)

(** a request under way carries the key its round id denotes *)
Definition keyed (q : Request.t) : Prop :=
  keyOf (roundIdNumOf parseInt (Request.roundId q)) = Some (Request.roundIdNum q).

(** what the stream keeps true of the records of its round: no two have one
    wallet, and the records are the requests confirmed and those that wait
    for the balance *)
Definition tidy (s : Stream) : Prop :=
  Forall keyed (pending s) /\
  Forall (fun x => keyed (fst x)) (capping s) /\
  List.NoDup (List.map walletKey (cashOutsOf (store s) roundId)) /\
  Permutation (confirmed parseInt roundId (sent s) ++ awaited roundId (capping s))
    (List.map multiplier (cashOutsOf (store s) roundId)).

Lemma Forall_remove {A : Type} (P : A -> Prop) (k : nat) (l : list A) :
  Forall P l -> Forall P (remove k l).
Proof.
  intros F. apply List.Forall_forall. intros x Hx.
  exact (proj1 (List.Forall_forall P l) F x (in_remove k l x Hx)).
Qed.

Lemma opened_tidy store0 : tidy (opened roundId updates store0).
Proof.
  unfold tidy, opened, cashOutsOf, trackRound.
  cbn [store sent capping pending activeCashOuts].
  rewrite lookup_insert_eq. cbn.
  split; [constructor|]. split; [constructor|]. split; constructor.
Qed.

Lemma proceed_tidy s store' messages phase' position' ahead' :
  activeCashOuts store' = activeCashOuts (store s) ->
  confirmed parseInt roundId messages = [] ->
  tidy s ->
  tidy (proceed s store' messages phase' position' ahead').
Proof.
  unfold tidy, proceed. cbn [store sent capping pending]. intros Same Quiet [K1 [K2 [N P]]].
  rewrite (cashOutsOf_same _ _ roundId Same).
  split; [exact K1|]. split; [exact K2|].
  split; [exact N|]. rewrite confirmed_app, Quiet, app_nil_r. exact P.
Qed.

Lemma start_tidy s : tidy s -> tidy (start roundId updates s).
Proof.
  unfold start. cbv zeta. apply proceed_tidy; [apply updateRound_cashOuts|].
  destruct (0 <=? firstRunningIndex updates)%Z; [|reflexivity].
  destruct (nth_error updates (Z.to_nat (firstRunningIndex updates))); reflexivity.
Qed.

Lemma iterate_tidy s :
  tidy s -> tidy (iterate roundId finalMultiplier updates s).
Proof.
  unfold iterate. intros T.
  destruct (ahead s) as [|u rest]; [apply proceed_tidy; auto|].
  destruct (gameState u =? 1)%Z; [apply proceed_tidy; auto|].
  destruct (position s =? firstRunningIndex updates)%Z; [apply proceed_tidy; auto|].
  destruct (gameState u =? 2)%Z; cbv zeta;
    [apply proceed_tidy; [apply updateRound_cashOuts | reflexivity | exact T]|].
  destruct (gameState u =? 3)%Z; cbv zeta;
    [apply proceed_tidy; [apply updateRound_cashOuts | reflexivity | exact T]|].
  apply proceed_tidy; auto.
Qed.

Lemma moment_tidy s m : tidy s -> tidy (moment' s m).
Proof.
  intros T. destruct m as [r mult w|k env|k balance| | |]; cbn [moment].
  - destruct (checkRequest parseInt Number_toString StringToNumber (store s) r mult w)
      as [|e|key] eqn:Ch; [exact T| |];
      unfold tidy, handled in *;
      cbn [store sent capping pending]; destruct T as [K1 [K2 [N P]]].
    + split; [exact K1|]. split; [exact K2|]. split; [exact N|].
      rewrite confirmed_app. cbn. rewrite app_nil_r. exact P.
    + split; [|split; [exact K2|split; [exact N|rewrite app_nil_r; exact P]]].
      apply Forall_app. split; [exact K1|]. constructor; [|constructor].
      unfold keyed. cbn [Request.roundId Request.roundIdNum].
      exact (proj1 (checkRequest_passed _ _ _ _ _ _ _ _ Ch)).
  - destruct (nth_error (pending s) k) as [q|] eqn:Nth; [|exact T].
    destruct T as [K1 [K2 [N P]]].
    assert (Kq : keyed q).
    { exact (proj1 (List.Forall_forall _ _) K1 q (nth_error_In _ _ Nth)). }
    pose proof (Forall_remove _ k _ K1) as K1'.
    destruct (recordRequest_effect Number_toString StringToNumber (store s) env
                (Request.roundIdNum q) (Request.multiplier q) (Request.walletAddress q))
      as [[e A] | [store' [co [payout [w [A [Ew [M [W [Fresh [_ E]]]]]]]]]]]; rewrite A.
    + unfold tidy, handled. cbn [store sent capping pending].
      rewrite confirmed_app. cbn. rewrite app_nil_r.
      split; [exact K1'|]. split; [exact K2|]. split; assumption.
    + unfold tidy, handled. cbn [store sent capping pending].
      rewrite app_nil_r, awaited_app.
      rewrite (cashOutsOf_insert _ _ _ _ roundId E).
      rewrite awaited_one.
      split; [exact K1'|].
      split; [apply Forall_app; split; [exact K2 | constructor; [exact Kq | constructor]]|].
      destruct (decide (Request.roundIdNum q = roundId)) as [Eq|Ne].
      * rewrite Eq in *. rewrite Z.eqb_refl. rewrite !map_app. cbn [List.map]. rewrite M.
        split.
        -- apply NoDup_ListNoDup.
           refine (proj2 (NoDup_app _ _)
                     (conj (proj2 (NoDup_ListNoDup _) N)
                        (conj _ (NoDup_singleton _)))).
           intros x Hx Hy. apply list_elem_of_In in Hx.
           apply list_elem_of_In in Hy. destruct Hy as [Hy|[]].
           apply Fresh. unfold walletKey in Hy. rewrite W in Hy.
           rewrite toLowerCase_idem in Hy. rewrite Hy. exact Hx.
        -- rewrite app_assoc. apply Permutation_app_tail. exact P.
      * destruct (Request.roundIdNum q =? roundId)%Z eqn:Q;
          [apply Z.eqb_eq in Q; contradiction|].
        rewrite app_nil_r. split; assumption.
  - destruct (nth_error (capping s) k) as [[q payout]|] eqn:Nth; [|exact T].
    destruct T as [K1 [K2 [N P]]]. unfold tidy, handled. cbn [store sent capping pending].
    assert (Kq : keyed q).
    { exact (proj1 (List.Forall_forall _ _) K2 (q, payout) (nth_error_In _ _ Nth)). }
    split; [exact K1|]. split; [apply Forall_remove; exact K2|].
    split; [exact N|]. rewrite confirmed_app.
    rewrite confirmed_confirm.
    rewrite <- app_assoc.
    etransitivity; [|exact P].
    apply Permutation_app_head. symmetry.
    assert (Sw : (if bool_decide (keyOf (roundIdNumOf parseInt (Request.roundId q))
                                  = Some roundId)
                  then [Request.multiplier q] else [])
                 = (if (Request.roundIdNum q =? roundId)%Z
                    then [Request.multiplier q] else [])).
    { unfold keyed in Kq. rewrite Kq.
      destruct (Request.roundIdNum q =? roundId)%Z eqn:Q.
      - apply Z.eqb_eq in Q. rewrite bool_decide_eq_true_2 by congruence. reflexivity.
      - apply Z.eqb_neq in Q. rewrite bool_decide_eq_false_2 by congruence. reflexivity. }
    rewrite Sw.
    apply (awaited_remove roundId k (capping s) q payout Nth).
  - destruct (phase s); try exact T. apply proceed_tidy; auto.
  - destruct (phase s); try exact T. apply start_tidy; exact T.
  - destruct (phase s); try exact T. apply iterate_tidy; exact T.
Qed.

Lemma unfold_tidy store0 moments : tidy (unfold' store0 moments).
Proof.
  unfold unfold. generalize (opened_tidy store0).
  generalize (opened roundId updates store0).
  induction moments as [|m rest IH]; intros s T; cbn [fold_left]; [exact T|].
  apply IH, moment_tidy, T.
Qed.

(** ** multipliers within the bounds *)

(** a recorded value is a Number within the bounds, or it is no Number and
    converts to NaN or to a Number within the bounds *)
Definition bounded (m : value) : Prop :=
  match m with
  | JNumber x => within finalMultiplier x
  | _ => toNumber m = NaN \/ within finalMultiplier (toNumber m)
  end.

(** what the stream keeps true of the multipliers of its round: the live
    multiplier is not above the final one, the requests that passed the
    checks and the records carry multipliers within the bounds, and the
    updates ahead carry live values up to the final one *)
Definition steady (s : Stream) : Prop :=
  (forall ar, activeRounds (store s) !! roundId = Some ar ->
     finite (currentMultiplier ar) /\
     (val (currentMultiplier ar) <= val finalMultiplier)%Q) /\
  Forall (fun q => Request.roundIdNum q = roundId -> bounded (Request.multiplier q))
    (pending s) /\
  Forall (fun co => bounded (multiplier co)) (cashOutsOf (store s) roundId) /\
  Forall (fun u => finite (liveValue u) /\
                   (val (liveValue u) <= val finalMultiplier)%Q) (ahead s).

Hypothesis final_range : inQ 1 10000 finalMultiplier.
Hypothesis updates_live :
  Forall (fun u => finite (liveValue u) /\ val (liveValue u) <= val finalMultiplier)
    updates.

Lemma opened_steady store0 : steady (opened roundId updates store0).
Proof.
  unfold steady, opened, trackRound, cashOutsOf.
  cbn [store pending ahead activeRounds activeCashOuts].
  rewrite !lookup_insert_eq. cbn [from_option id].
  split; [|split; [|split]].
  - intros ar H. injection H as <-. cbn [currentMultiplier].
    rewrite lit_1. split; [exact I|]. cbn [val]. rewrite mk_val.
    destruct final_range as [_ [L _]]. exact L.
  - constructor.
  - constructor.
  - exact updates_live.
Qed.

(** a turn of the loop that writes the live multiplier [cur], or none *)
Lemma proceed_steady s f messages phase' position' ahead' :
  (forall ar, finite (currentMultiplier ar) /\
              val (currentMultiplier ar) <= val finalMultiplier ->
              finite (currentMultiplier (f ar)) /\
              val (currentMultiplier (f ar)) <= val finalMultiplier) ->
  Forall (fun u => finite (liveValue u) /\ val (liveValue u) <= val finalMultiplier)
    ahead' ->
  steady s ->
  steady (proceed s (updateRound (store s) roundId f) messages phase' position' ahead').
Proof.
  unfold steady, proceed. cbn [store pending ahead]. intros Hf Ha [C [P [R A]]].
  rewrite (cashOutsOf_same _ _ roundId (updateRound_cashOuts _ _ _)).
  split; [|split; [exact P|split; [exact R | exact Ha]]].
  intros ar H. apply updateRound_round in H. destruct H as [old [O ->]].
  apply Hf. exact (C old O).
Qed.

Lemma idle_steady s messages phase' position' ahead' :
  Forall (fun u => finite (liveValue u) /\ val (liveValue u) <= val finalMultiplier)
    ahead' ->
  steady s ->
  steady (proceed s (store s) messages phase' position' ahead').
Proof.
  unfold steady, proceed. cbn [store pending ahead]. intros Ha [C [P [R A]]].
  split; [exact C|]. split; [exact P|]. split; [exact R | exact Ha].
Qed.

Lemma start_steady s : steady s -> steady (start roundId updates s).
Proof.
  unfold start. cbv zeta. apply proceed_steady; [|exact updates_live].
  intros ar Har. exact Har.
Qed.

Lemma iterate_steady s :
  steady s -> steady (iterate roundId finalMultiplier updates s).
Proof.
  unfold iterate. intros St.
  pose proof St as [_ [_ [_ A]]].
  destruct (ahead s) as [|u rest]; [apply idle_steady; [constructor | exact St]|].
  pose proof (Forall_inv A) as Hu. pose proof (Forall_inv_tail A) as Hrest.
  destruct (gameState u =? 1)%Z; [apply idle_steady; assumption|].
  destruct (position s =? firstRunningIndex updates)%Z; [apply idle_steady; assumption|].
  destruct (gameState u =? 2)%Z; cbv zeta.
  { apply proceed_steady; [|exact Hrest|exact St]. intros ar _. exact Hu. }
  destruct (gameState u =? 3)%Z; cbv zeta.
  { apply proceed_steady; [|exact Hrest|exact St]. intros ar Har. exact Har. }
  apply idle_steady; assumption.
Qed.

Lemma passed_bounded store0 r mult w key :
  (forall ar, activeRounds store0 !! roundId = Some ar ->
     finite (currentMultiplier ar) /\
     (val (currentMultiplier ar) <= val finalMultiplier)%Q) ->
  checkRequest parseInt Number_toString StringToNumber store0 r mult w = Passed key ->
  key = roundId -> bounded mult.
Proof.
  intros C Ch ->.
  destruct (checkRequest_passed _ _ _ _ _ _ _ _ Ch) as [_ [ar [L [_ [T [Lo Hi]]]]]].
  destruct (C ar L) as [Fc Uc].
  unfold bounded. destruct mult as [| | b | x | t | items | fields].
  - discriminate T.
  - discriminate T.
  - destruct (passed_coerced _ _ Fc Lo Hi) as [E | [Fm [L1 Um]]]; [left; exact E|].
    right. split; [exact Fm|]. split; [exact L1 | lra].
  - cbn [ToNumber] in Lo, Hi. cbn [ToBoolean] in T.
    destruct (passed_bounds x (currentMultiplier ar) Fc T Lo Hi) as [Fm [L1 Um]].
    split; [exact Fm|]. split; [exact L1 | lra].
  - destruct (passed_coerced _ _ Fc Lo Hi) as [E | [Fm [L1 Um]]]; [left; exact E|].
    right. split; [exact Fm|]. split; [exact L1 | lra].
  - destruct (passed_coerced _ _ Fc Lo Hi) as [E | [Fm [L1 Um]]]; [left; exact E|].
    right. split; [exact Fm|]. split; [exact L1 | lra].
  - destruct (passed_coerced _ _ Fc Lo Hi) as [E | [Fm [L1 Um]]]; [left; exact E|].
    right. split; [exact Fm|]. split; [exact L1 | lra].
Qed.

Lemma moment_steady s m : steady s -> steady (moment' s m).
Proof.
  intros St. destruct m as [r mult w|k env|k balance| | |]; cbn [moment].
  - destruct (checkRequest parseInt Number_toString StringToNumber (store s) r mult w)
      as [|e|key] eqn:Ch; [exact St| |]; unfold steady, handled in *;
      cbn [store pending ahead]; [exact St|].
    destruct St as [C [P [R A]]].
    split; [exact C|]. split; [|split; [exact R | exact A]].
    apply Forall_app. split; [exact P|]. constructor; [|constructor].
    cbn [Request.roundIdNum Request.multiplier].
    exact (passed_bounded (store s) r mult w key C Ch).
  - destruct (nth_error (pending s) k) as [q|] eqn:Nth; [|exact St].
    destruct St as [C [P [R A]]].
    pose proof (Forall_remove _ k _ P) as P'.
    destruct (recordRequest_effect Number_toString StringToNumber (store s) env
                (Request.roundIdNum q) (Request.multiplier q) (Request.walletAddress q))
      as [[e Q] | [store' [co [payout [w [Q [_ [M [W [_ [Er E]]]]]]]]]]]; rewrite Q;
      unfold steady, handled; cbn [store pending ahead].
    + split; [exact C|]. split; [exact P'|]. split; [exact R | exact A].
    + rewrite Er. rewrite (cashOutsOf_insert _ _ _ _ roundId E).
      split; [exact C|]. split; [exact P'|]. split; [|exact A].
      destruct (decide (Request.roundIdNum q = roundId)) as [Eq|Ne]; [|exact R].
      pose proof (proj1 (List.Forall_forall _ _) P q (nth_error_In _ _ Nth) Eq) as Bq.
      rewrite Eq. apply Forall_app. split; [exact R|].
      constructor; [|constructor]. rewrite M. exact Bq.
  - destruct (nth_error (capping s) k) as [[q payout]|]; exact St.
  - destruct (phase s); exact St.
  - destruct (phase s); try exact St. apply start_steady; exact St.
  - destruct (phase s); try exact St. apply iterate_steady; exact St.
Qed.

Lemma unfold_steady store0 moments : steady (unfold' store0 moments).
Proof.
  unfold unfold. generalize (opened_steady store0).
  generalize (opened roundId updates store0).
  induction moments as [|m rest IH]; intros s T; cbn [fold_left]; [exact T|].
  apply IH, moment_steady, T.
Qed.

End Round.

(** ** the conversion to 18 decimals *)

Lemma toWei_one_up m :
  finite m -> 1 <= val m -> val m <= 10000 ->
  exists w, toWei m = Some w /\ (10 ^ 18 <= w)%Z.
Proof.
  intros F L U.
  destruct m as [| | | |q]; try contradiction; cbn [val] in *; try (exfalso; lra).
  unfold toWei.
  assert (A : Qle_bool 0 q = true) by (apply Qle_bool_iff; lra).
  assert (B : Qle_bool (inject_Z (10 ^ 21)) q = false).
  { destruct (Qle_bool (inject_Z (10 ^ 21)) q) eqn:X; [|reflexivity].
    apply Qle_bool_iff in X.
    assert (10000 < inject_Z (10 ^ 21)) by (unfold Qlt; cbn; lia). lra. }
  rewrite A, B. cbn [andb negb]. eexists. split; [reflexivity|].
  apply Z.le_trans with (Qfloor (inject_Z (10 ^ 18))); [rewrite Qfloor_Z; lia|].
  apply Qfloor_resp_le.
  assert (K : 0 < inject_Z (10 ^ 18)) by (unfold Qlt; cbn; lia).
  revert K. generalize (inject_Z (10 ^ 18)). intros k K. nra.
Qed.

Lemma toWei_mono a b wa wb :
  finite a -> finite b -> 0 < val a -> val a <= val b ->
  toWei a = Some wa -> toWei b = Some wb -> (wa <= wb)%Z.
Proof.
  intros Fa Fb Pa L.
  destruct a as [| | | |p]; try contradiction; cbn [val] in *; try (exfalso; lra).
  destruct b as [| | | |q]; try contradiction; cbn [val] in *; try (exfalso; lra).
  unfold toWei.
  destruct (Qle_bool 0 p && negb (Qle_bool (inject_Z (10 ^ 21)) p)); [|discriminate].
  destruct (Qle_bool 0 q && negb (Qle_bool (inject_Z (10 ^ 21)) q)); [|discriminate].
  intros A B.
  assert (Ea : wa = Qfloor (p * inject_Z (10 ^ 18) + (1 # 2))) by congruence.
  assert (Eb : wb = Qfloor (q * inject_Z (10 ^ 18) + (1 # 2))) by congruence.
  rewrite Ea, Eb. apply Qfloor_resp_le.
  assert (K : 0 < inject_Z (10 ^ 18)) by (unfold Qlt; cbn; lia).
  revert K. generalize (inject_Z (10 ^ 18)). intros k K. nra.
Qed.

End StreamingFacts.

(** * Cash-outs while the round is streamed *)

Section Requests.
Import Js Server Streaming StreamingFacts.

Variable parseInt : string -> number.
Variable Number_toString : number -> string.
Variable StringToNumber : string -> number.

(** X20: however cash-out messages, the returns of their bet look-ups and
    balance reads, and the turns of the streaming loop follow one another,
    and whatever JSON values the messages carry, the list of a round never
    holds two records of one wallet, upper and lower case taken as the same;
    and its records are, multiplier for multiplier, the cash-outs confirmed
    to clients together with those whose confirmation waits for the balance
    read, so that nothing is confirmed that is not recorded. *)
Theorem one_record_per_wallet (roundId : Z) (finalMultiplier : number)
    (updates : list GameUpdate) (store0 : Store) (moments : list Moment) :
  let s := unfold parseInt Number_toString StringToNumber roundId finalMultiplier
             updates store0 moments in
  List.NoDup (List.map walletKey (cashOutsOf (store s) roundId)) /\
  Permutation (confirmed parseInt roundId (sent s) ++ awaited roundId (capping s))
    (List.map multiplier (cashOutsOf (store s) roundId)).
Proof.
  cbv zeta.
  destruct (unfold_tidy parseInt Number_toString StringToNumber roundId finalMultiplier
              updates store0 moments) as [_ [_ [N P]]].
  split; [exact N | exact P].
Qed.

End Requests.

Section Settled.
Import Js Streaming StreamingFacts CandleFacts StreamFacts.
Local Open Scope Q_scope.

Variable keccak256 : list byte -> list byte.
Variable Math_pow : number -> number -> number.
Variable parseInt : string -> number.
Variable getUTCFullYear : number -> number.
Variable getUTCMonth : number -> number.
Variable getUTCDate : number -> number.
Variable Number_toString : number -> string.
Variable StringToNumber : string -> number.

Hypothesis keccak256_length : forall bs, List.length (keccak256 bs) = 32%nat.
Hypothesis Math_pow_unit :
  forall x y, inQ 0 1 x -> inQ (1 # 2) 1 y -> inQ 0 1 (Math_pow x y).

Variable addressOf : string -> Contract.address.

Abbreviation generate :=
  (generateCrashGame keccak256 Math_pow parseInt getUTCFullYear getUTCMonth getUTCDate).

Abbreviation toNumber := (ToNumber Number_toString StringToNumber).

(** the records convert exactly when all of them carry Numbers *)
Lemma toCashOutData_numbers (fm : number) (W : Z) (records : list Server.CashOut) :
  inQ 1 10000 fm -> Server.toWei fm = Some W ->
  Forall (fun co => bounded Number_toString StringToNumber fm (Server.multiplier co))
    records ->
  ((exists data, Server.toCashOutData addressOf records = Some data) <->
   Forall (fun co => exists x, Server.multiplier co = JNumber x) records) /\
  (forall data,
     Server.toCashOutData addressOf records = Some data ->
     List.map Contract.wallet data
     = List.map (fun co => addressOf (Server.walletAddress co)) records /\
     Forall (fun c => (10 ^ 18 <= Contract.multiplier c <= W)%Z) data).
Proof.
  intros [Ff [Lf Uf]] HW. unfold Server.toCashOutData.
  induction records as [|co rest IH]; intros Hall.
  - split.
    + split; [intros _; constructor | intros _; exists []; reflexivity].
    + intros data H. cbn in H. injection H as <-. split; [reflexivity | constructor].
  - pose proof (Forall_inv Hall) as Hco.
    destruct (IH (Forall_inv_tail Hall)) as [Iff Rest].
    cbn [mapM]. cbv beta.
    destruct (Server.multiplier co) as [| | b | x | t | items | fields] eqn:Mx.
    1-3, 5-7: split;
      [split; [intros [data H]; cbn in H; discriminate H
              |intros H; apply Forall_inv in H; destruct H as [x Hx]; rewrite Mx in Hx; discriminate Hx]
      |intros data H; cbn in H; discriminate H].
    unfold bounded in Hco. cbv beta in Hco. rewrite Mx in Hco.
    destruct Hco as [Fm [Lm Um]].
    destruct (toWei_one_up x Fm Lm ltac:(lra)) as [m [Hm Lo]].
    assert (Hi : (m <= W)%Z).
    { apply (toWei_mono x fm m W Fm Ff); [lra | exact Um | exact Hm | exact HW]. }
    rewrite Hm. split.
    + split.
      * intros [data H]. constructor; [exists x; exact Mx|].
        apply Iff. cbn in H.
        destruct (mapM _ rest) as [data'|]; [exists data'; reflexivity | discriminate H].
      * intros H. apply Forall_inv_tail in H. apply Iff in H. destruct H as [data' D].
        cbn. rewrite D. eexists. reflexivity.
    + intros data H. cbn in H.
      destruct (mapM _ rest) as [data'|] eqn:D; [|discriminate H].
      cbn in H. injection H as <-.
      destruct (Rest data' eq_refl) as [Wl R].
      cbn [List.map Contract.wallet]. rewrite Wl. split; [reflexivity|].
      constructor; [cbn [Contract.multiplier]; lia | exact R].
Qed.

(** X21: of the cash-outs the server records for a generated round, however
    requests and ticks follow one another, every one whose multiplier is a
    Number carries a multiplier from 1 to the final multiplier of the round,
    and a recorded value of another type converts to NaN or to a Number in
    that range.  The conversion to 18 decimals goes through exactly when
    every record carries a Number; it then gives the wallets in order, each
    with a multiplier from 10^18 to the converted final multiplier, which is
    itself at least 10^18. *)
Theorem recorded_multipliers_in_range (input : GameInput) (fuel : nat)
    (res : CrashGameResult) (roundId : Z) (store0 : Server.Store)
    (moments : list Moment) :
  validInput input -> tickOK (tickIntervalMs input) ->
  generate fuel input = Ok res ->
  let s := unfold parseInt Number_toString StringToNumber roundId (finalMultiplier res)
             (updates res) store0 moments in
  let records := cashOutsOf (store s) roundId in
  let ranged (x : number) :=
    fle (lit 1) x = true /\ fle x (finalMultiplier res) = true in
  Forall (fun co => match Server.multiplier co with
                    | JNumber x => ranged x
                    | v => toNumber v = NaN \/ ranged (toNumber v)
                    end) records /\
  exists W,
    Server.toWei (finalMultiplier res) = Some W /\ (10 ^ 18 <= W)%Z /\
    ((exists data, Server.toCashOutData addressOf records = Some data) <->
     Forall (fun co => exists x, Server.multiplier co = JNumber x) records) /\
    (forall data,
       Server.toCashOutData addressOf records = Some data ->
       List.map Contract.wallet data
       = List.map (fun co => addressOf (Server.walletAddress co)) records /\
       Forall (fun c => (10 ^ 18 <= Contract.multiplier c <= W)%Z) data).
Proof.
  intros V TK G. cbv zeta.
  destruct (generate_shown keccak256 Math_pow parseInt getUTCFullYear getUTCMonth
              getUTCDate keccak256_length Math_pow_unit input fuel res V TK G)
    as [FR [Sh _]].
  assert (Live : Forall (fun u => finite (liveValue u) /\
                                  val (liveValue u) <= val (finalMultiplier res))
                   (updates res)).
  { revert Sh. apply List.Forall_impl. intros u [[Fl [_ Lf]] _]. split; assumption. }
  destruct (unfold_steady parseInt Number_toString StringToNumber roundId
              (finalMultiplier res) (updates res) FR Live store0 moments)
    as [_ [_ [R _]]].
  pose proof FR as [Ff [Lf Uf]].
  assert (Rg : forall x, within (finalMultiplier res) x ->
                 fle (lit 1) x = true /\ fle x (finalMultiplier res) = true).
  { intros x [Fm [Lm Um]]. split.
    - apply (proj2 (fle_fin (lit 1) x I Fm)). rewrite lit_1_val. exact Lm.
    - apply (proj2 (fle_fin x (finalMultiplier res) Fm Ff)). exact Um. }
  split.
  - revert R. apply List.Forall_impl. intros co. unfold bounded.
    destruct (Server.multiplier co); intros B;
      try (destruct B as [B|B]; [left; exact B | right; exact (Rg _ B)]).
    exact (Rg _ B).
  - destruct (toWei_one_up (finalMultiplier res) Ff Lf Uf) as [W [HW LW]].
    exists W. split; [exact HW|]. split; [exact LW|].
    exact (toCashOutData_numbers (finalMultiplier res) W _ FR HW R).
Qed.

End Settled.

(** * The wait for the entropy callback *)

Module EntropyFacts.
Import Contract ContractFacts CrashGame History CrashGameFacts EntropyHandler.

(** a read that does not end the wait: a throw, or the value 0 *)
Definition idle (x : option Z) : Prop := x = None \/ x = Some 0%Z.

Lemma waitForCallback_from (read : nat -> option Z) (n : nat) :
  forall (k fuel : nat),
    (k + n = 40)%nat -> (n + 1 <= fuel)%nat ->
    (exists j v, (k <= j < 40)%nat /\ read j = Some v /\ v <> 0%Z /\
       (forall i, (k <= i < j)%nat -> idle (read i)) /\
       waitForCallback fuel read k (3 * Z.of_nat k) = Ok v) \/
    ((forall i, (k <= i < 40)%nat -> idle (read i)) /\
     waitForCallback fuel read k (3 * Z.of_nat k) = Throws).
Proof.
  induction n as [|n IH]; intros k fuel K F.
  - right. split; [intros i Hi; lia|].
    destruct fuel as [|fuel]; [lia|]. cbn [waitForCallback].
    assert (W : (3 * Z.of_nat k <? maxWaitTime)%Z = false)
      by (apply Z.ltb_ge; unfold maxWaitTime; lia).
    rewrite W. reflexivity.
  - destruct fuel as [|fuel]; [lia|]. cbn [waitForCallback].
    assert (W : (3 * Z.of_nat k <? maxWaitTime)%Z = true)
      by (apply Z.ltb_lt; unfold maxWaitTime; lia).
    rewrite W. cbv zeta.
    assert (N : (3 * Z.of_nat k + pollInterval = 3 * Z.of_nat (S k))%Z)
      by (unfold pollInterval; lia).
    rewrite N.
    assert (Next : idle (read k) ->
              (exists j v, (k <= j < 40)%nat /\ read j = Some v /\ v <> 0%Z /\
                 (forall i, (k <= i < j)%nat -> idle (read i)) /\
                 waitForCallback fuel read (S k) (3 * Z.of_nat (S k)) = Ok v) \/
              ((forall i, (k <= i < 40)%nat -> idle (read i)) /\
               waitForCallback fuel read (S k) (3 * Z.of_nat (S k)) = Throws)).
    { intros Id.
      assert (Step : forall i hi, (k <= i < hi)%nat ->
                (forall i', (S k <= i' < hi)%nat -> idle (read i')) -> idle (read i)).
      { intros i hi Hi Rest. destruct (Nat.eq_dec i k) as [->|Ne]; [exact Id|].
        apply Rest. lia. }
      destruct (IH (S k) fuel ltac:(lia) ltac:(lia))
        as [[j [v [J [R [V [B Res]]]]]] | [B Res]].
      - left. exists j, v. split; [lia|]. split; [exact R|]. split; [exact V|].
        split; [|exact Res]. intros i Hi. exact (Step i j Hi B).
      - right. split; [|exact Res]. intros i Hi. exact (Step i 40%nat Hi B). }
    destruct (read k) as [v|] eqn:R.
    + destruct (v =? 0)%Z eqn:Z0; cbn [negb].
      * apply Z.eqb_eq in Z0. subst v. apply Next. right. reflexivity.
      * apply Z.eqb_neq in Z0. left. exists k, v.
        split; [lia|]. split; [exact R|]. split; [exact Z0|].
        split; [intros i Hi; lia | reflexivity].
    + apply Next. left. reflexivity.
Qed.

(** a value returned was read, at one of the first 40 reads, and is not 0 *)
Lemma waitForCallback_ok (read : nat -> option Z) (v : Z) (fuel : nat) :
  forall k,
    waitForCallback fuel read k (3 * Z.of_nat k) = Ok v ->
    exists j, (k <= j < 40)%nat /\ read j = Some v /\ v <> 0%Z.
Proof.
  induction fuel as [|fuel IH]; intros k; cbn [waitForCallback]; [discriminate|].
  destruct (3 * Z.of_nat k <? maxWaitTime)%Z eqn:W; [|discriminate].
  apply Z.ltb_lt in W. unfold maxWaitTime in W. cbv zeta.
  assert (N : (3 * Z.of_nat k + pollInterval = 3 * Z.of_nat (S k))%Z)
    by (unfold pollInterval; lia).
  rewrite N.
  assert (Next : waitForCallback fuel read (S k) (3 * Z.of_nat (S k)) = Ok v ->
                 exists j, (k <= j < 40)%nat /\ read j = Some v /\ v <> 0%Z).
  { intros R. destruct (IH (S k) R) as [j [J P]]. exists j. split; [lia | exact P]. }
  destruct (read k) as [c|] eqn:R; [|exact Next].
  destruct (c =? 0)%Z eqn:Z0; cbn [negb]; [exact Next|].
  apply Z.eqb_neq in Z0. intros Res.
  assert (c = v) by congruence. subst c.
  exists k. split; [lia|]. split; [exact R | exact Z0].
Qed.

Lemma firstn_later {A : Type} (l : list A) (m n : nat) :
  (m <= n)%nat -> firstn n l = firstn m l ++ firstn (n - m) (skipn m l).
Proof.
  revert l n. induction m as [|m IH]; intros l n L.
  - cbn. rewrite Nat.sub_0_r. reflexivity.
  - destruct n as [|n]; [lia|].
    destruct l as [|x l]; [cbn; rewrite firstn_nil; reflexivity|].
    cbn [firstn skipn app Nat.sub]. rewrite (IH l n) by lia. reflexivity.
Qed.

Section Blank.

Context {T E : Type} `{IERC20 T} `{IEntropyV2 E}.
Variable self : address.
Variable keccak256 : list byte -> list byte.
Variable entropyAddress : address.

Implicit Types w : World T E.

Lemma constructor_blank (e : E) (op : address) (t : T) :
  blank (constructor self e op t).
Proof.
  intros r _. unfold getRoundOf. cbn. rewrite lookup_empty. reflexivity.
Qed.

Lemma rounds_same_blank w w' :
  rounds (game w') = rounds (game w) -> blank w -> blank w'.
Proof.
  intros Same B r. rewrite (getRoundOf_same _ _ r Same). apply B.
Qed.

Lemma rounds_insert_blank w w' k x :
  rounds (game w') = <[k := x]> (rounds (game w)) ->
  ((rank (status x) < 2)%nat -> entropyRandom x = 0%Z) ->
  blank w -> blank w'.
Proof.
  intros Ins X B r. rewrite (getRoundOf_insert _ _ _ _ r Ins).
  destruct (decide (k = r)); [exact X | apply B].
Qed.

Lemma exec_blank w sender c w' :
  blank w -> exec self keccak256 entropyAddress w sender c = Success w' -> blank w'.
Proof.
  intros B. destruct c as [h0 | value0 refundOk0 roundId | seq0 bytes0 | roundId seed0
                | newOperator0 | roundId amount0 | roundId finalMultiplier0 seed0
                | roundId cashOuts0 | | ]; cbn [exec]; intros C.
  - passed C. destruct x as [w1 id]. apply Success_inj in C. cbn in C. subst w1.
    destruct (createRound_effect _ _ _ _ R) as [_ [_ [_ [Rd _]]]].
    refine (rounds_insert_blank _ _ _ _ Rd _ B). intros _. reflexivity.
  - destruct (requestRandomness_effect self _ _ _ _ _ _ C)
      as [fee [e' [seq [_ [St [_ [_ [_ [_ [_ [_ [Rd _]]]]]]]]]]]].
    refine (rounds_insert_blank _ _ _ _ Rd _ B). intros _.
    cbn [entropyRandom]. apply B. rewrite St. cbn. lia.
  - passed C. passed C.
    destruct (entropyCallback_effect _ _ _ _ C) as [roundId [_ [_ [_ [Rd _]]]]].
    refine (rounds_insert_blank _ _ _ _ Rd _ B). cbn. lia.
  - destruct (revealServerSeed_effect self keccak256 _ _ _ _ C) as [_ [_ [Rd _]]].
    refine (rounds_insert_blank _ _ _ _ Rd _ B). cbn. lia.
  - destruct (setOperator_effect _ _ _ _ C) as [_ ->].
    refine (rounds_same_blank _ _ _ B). reflexivity.
  - destruct (placeBet_effect self _ _ _ _ _ C) as [t' [_ [_ [_ [_ [_ [_ [_ [Rd _]]]]]]]]].
    exact (rounds_same_blank _ _ Rd B).
  - destruct (settleRound_effect keccak256 _ _ _ _ _ _ C)
      as [_ [_ [_ [_ [_ [_ [_ [Rd _]]]]]]]].
    exact (rounds_same_blank _ _ Rd B).
  - destruct (processCashOuts_effect self _ _ _ _ _ C) as [_ [_ [_ [L _]]]].
    destruct (processLoop_frame _ _ _ _ _ L) as [Rd _].
    exact (rounds_same_blank _ _ Rd B).
  - destruct (claimAllPayouts_effect self _ _ _ C) as [t' [_ [_ [_ [Rd _]]]]].
    exact (rounds_same_blank _ _ Rd B).
  - destruct (withdrawHouseEdge_effect self _ _ _ C) as [t' [_ [_ [_ ->]]]].
    refine (rounds_same_blank _ _ _ B). reflexivity.
Qed.

Lemma step_blank w s : blank w -> blank (step self keccak256 entropyAddress w s).
Proof.
  intros B. destruct s as [sender c | t e]; cbn [step].
  - destruct (exec self keccak256 entropyAddress w sender c) as [w'|] eqn:C.
    + eapply exec_blank; eassumption.
    + exact B.
  - exact B.
Qed.

Lemma run_blank steps : forall w, blank w -> blank (run self keccak256 entropyAddress w steps).
Proof.
  induction steps as [|s steps IH]; intros w B; [exact B|].
  cbn [run fold_left]. apply IH, step_blank, B.
Qed.

End Blank.

End EntropyFacts.

(** * The wait for the callback, and what it returns *)

Section Wait.
Import Contract ContractFacts CrashGame History CrashGameFacts EntropyHandler
       EntropyFacts.

(** X22: the wait for the callback ends after at most 40 reads: it returns
    the first value read that is not 0, reads that throw or return 0 being
    passed over, and throws when none of the first 40 reads gives one. *)
Theorem wait_takes_first_value (read : nat -> option Z) (fuel : nat) :
  (41 <= fuel)%nat ->
  (exists k v, (k < 40)%nat /\ read k = Some v /\ v <> 0%Z /\
     (forall i, (i < k)%nat -> read i = None \/ read i = Some 0%Z) /\
     waitForCallback fuel read 0 0 = Ok v) \/
  ((forall i, (i < 40)%nat -> read i = None \/ read i = Some 0%Z) /\
   waitForCallback fuel read 0 0 = Throws).
Proof.
  intros F.
  destruct (waitForCallback_from read 40 0 fuel eq_refl ltac:(lia))
    as [[j [v [J [R [V [B Res]]]]]] | [B Res]].
  - left. exists j, v. split; [lia|]. split; [exact R|]. split; [exact V|].
    split; [|exact Res]. intros i Hi. apply B. lia.
  - right. split; [|exact Res]. intros i Hi. apply B. lia.
Qed.

Context {T E : Type} `{IERC20 T} `{IEntropyV2 E}.
Variable self : address.
Variable keccak256 : list byte -> list byte.
Variable entropyAddress : address.

(** X23: the entropy value the server waits for is final.  With the chain
    going through any transactions while the server polls, reads failing at
    will, a value the wait returns is not 0, is the one the round showed at
    one of the first 40 reads, and is the one the round shows, ready or
    revealed, in every state of the chain from that read on. *)
Theorem polled_entropy_is_final (e : E) (op : address) (t : T)
    (steps : list (Step T E)) (moment : nat -> nat) (up : nat -> bool)
    (roundId : Z) (fuel : nat) (v : Z) :
  let world n := run self keccak256 entropyAddress (constructor self e op t) (firstn n steps) in
  let read k := if up k then readEntropyValue (world (moment k)) roundId else None in
  waitForCallback fuel read 0 0 = Ok v ->
  v <> 0%Z /\
  exists k, (k < 40)%nat /\ up k = true /\
    forall n, (moment k <= n)%nat ->
      entropyRandom (getRoundOf (game (world n)) roundId) = v /\
      (2 <= rank (status (getRoundOf (game (world n)) roundId)))%nat.
Proof.
  intros world read Res.
  destruct (waitForCallback_ok read v fuel 0 Res) as [k [K [R V]]].
  split; [exact V|]. exists k. split; [lia|].
  unfold read in R. destruct (up k); [|discriminate R]. split; [reflexivity|].
  set (W := world (moment k)) in *.
  assert (En : entropyRandom (getRoundOf (game W) roundId) = v).
  { unfold readEntropyValue, getRound in R. cbv zeta in R.
    destruct (entropyRandom (getRoundOf (game W) roundId) =? 0)%Z;
      [discriminate R | congruence]. }
  assert (Bl : blank W)
    by (apply run_blank, constructor_blank).
  assert (So : sound keccak256 W)
    by (apply run_sound, constructor_sound).
  assert (Rk : (2 <= rank (status (getRoundOf (game W) roundId)))%nat).
  { destruct (le_lt_dec 2 (rank (status (getRoundOf (game W) roundId)))) as [L|L];
      [exact L|].
    exfalso. apply V. rewrite <- En. apply Bl. exact L. }
  assert (Rg : (1 <= roundId < roundCounter W)%Z).
  { apply (sound_status_range keccak256 W roundId So).
    intros C. rewrite C in Rk. cbn in Rk. lia. }
  intros n Hn.
  assert (Later : world n = run self keccak256 entropyAddress W
                              (firstn (n - moment k) (skipn (moment k) steps))).
  { unfold world, W, world. rewrite (firstn_later steps (moment k) n Hn).
    apply run_app. }
  rewrite Later.
  destruct (run_kept self keccak256 entropyAddress
              (firstn (n - moment k) (skipn (moment k) steps)) W) as [_ [Kp _]].
  destruct (Kp roundId ltac:(lia)) as [_ [Mono [_ [Same _]]]].
  split; [rewrite (Same Rk); exact En | lia].
Qed.

End Wait.

(** * The lists kept for clients *)

Module LobbyFacts.
Import Lobby.

(** append, and drop the oldest once there are more than [b] *)
Definition keep {A : Type} (b : nat) (l : list A) (x : A) : list A :=
  if (b <? List.length (l ++ [x]))%nat then tl (l ++ [x]) else l ++ [x].

Lemma keep_last {A : Type} (b : nat) (xs : list A) :
  (1 <= b)%nat ->
  fold_left (keep b) xs [] = skipn (List.length xs - b) xs.
Proof.
  intros B. induction xs as [|x ys IH] using rev_ind; [reflexivity|].
  rewrite fold_left_app. cbn [fold_left]. rewrite IH. unfold keep.
  rewrite !length_app, length_skipn. cbn [List.length].
  destruct (le_lt_dec b (List.length ys)) as [L|L].
  - assert (C : (b <? List.length ys - (List.length ys - b) + 1)%nat = true)
      by (apply Nat.ltb_lt; lia).
    rewrite C.
    replace (List.length ys + 1 - b)%nat with (S (List.length ys - b)) by lia.
    rewrite skipn_app.
    replace (S (List.length ys - b) - List.length ys)%nat with 0%nat by lia.
    cbn [skipn].
    destruct (skipn (List.length ys - b) ys) as [|y rest] eqn:E.
    + apply (f_equal (@List.length A)) in E. rewrite length_skipn in E.
      cbn in E. lia.
    + cbn [app tl]. f_equal.
      replace (S (List.length ys - b)) with (1 + (List.length ys - b))%nat by lia.
      rewrite <- skipn_skipn, E. reflexivity.
  - assert (C : (b <? List.length ys - (List.length ys - b) + 1)%nat = false)
      by (apply Nat.ltb_ge; lia).
    rewrite C.
    replace (List.length ys - b)%nat with 0%nat by lia.
    replace (List.length ys + 1 - b)%nat with 0%nat by lia.
    reflexivity.
Qed.

End LobbyFacts.

Section Lists.
Import Lobby LobbyFacts.

(** X24: the two lists a connecting client is sent hold the latest entries
    in order: after any number of rounds the recent results are the last 6,
    after any number of chat messages the stored ones are the last 4, and
    the snapshot sends all of those. *)
Theorem recent_lists_hold_latest (results : list RecentRound)
    (messages : list ChatMessage) :
  let recentRounds := fold_left pushRecentRound results [] in
  let chatMessages := fold_left pushChatMessage messages [] in
  recentRounds = skipn (List.length results - 6) results /\
  (List.length recentRounds <= 6)%nat /\
  chatMessages = skipn (List.length messages - 4) messages /\
  (List.length chatMessages <= 4)%nat /\
  recentChatMessages chatMessages = chatMessages.
Proof.
  cbv zeta.
  assert (R : fold_left pushRecentRound results []
              = skipn (List.length results - 6) results)
    by (apply (keep_last 6 results); lia).
  assert (C : fold_left pushChatMessage messages []
              = skipn (List.length messages - 4) messages)
    by (apply (keep_last 4 messages); lia).
  assert (LC : (List.length (fold_left pushChatMessage messages []) <= 4)%nat)
    by (rewrite C, length_skipn; lia).
  split; [exact R|]. split; [rewrite R, length_skipn; lia|].
  split; [exact C|]. split; [exact LC|].
  unfold recentChatMessages, MAX_CHAT_MESSAGES.
  replace (List.length (fold_left pushChatMessage messages []) - 4)%nat with 0%nat by lia.
  reflexivity.
Qed.

End Lists.

(** ** The sample round *)

Lemma ledger_debits (t t' : SampleWorld.ledger) (caller to : Contract.address) (amount : Z) :
  CrashGame.transfer t caller to amount = Contract.Success (t', true) -> caller <> to ->
  CrashGame.balanceOf t' caller = (CrashGame.balanceOf t caller - amount)%Z.
Proof.
  intros M N.
  change (SampleWorld.move t caller to amount = Contract.Success (t', true)) in M.
  change (SampleWorld.held t' caller = (SampleWorld.held t caller - amount)%Z).
  unfold SampleWorld.move in M.
  destruct (amount <=? SampleWorld.held t caller)%Z; [|discriminate M].
  injection M as <-. unfold SampleWorld.held, SampleWorld.ledger in *.
  rewrite lookup_insert_ne by congruence. rewrite lookup_insert_eq. reflexivity.
Qed.

Lemma ledger_needs_funds (t t' : SampleWorld.ledger) (caller to : Contract.address)
    (amount : Z) :
  (CrashGame.balanceOf t caller < amount)%Z ->
  CrashGame.transfer t caller to amount <> Contract.Success (t', true).
Proof.
  intros L.
  change (SampleWorld.held t caller < amount)%Z in L.
  change (SampleWorld.move t caller to amount <> Contract.Success (t', true)).
  unfold SampleWorld.move.
  destruct (amount <=? SampleWorld.held t caller)%Z eqn:C; [|discriminate].
  apply Z.leb_le in C. lia.
Qed.

Section SampleRound.
Import Contract CrashGame History SampleWorld.

Lemma rounds_keep_history_witness :
  serverSeedHash (getRoundOf (game (run self Sample.hash pyth afterDelivery (betting ++ closing))) 1)
  = commitment /\
  entropyRandom (getRoundOf (game (run self Sample.hash pyth afterDelivery (betting ++ closing))) 1)
  = entropyRandom (getRoundOf (game afterDelivery) 1).
Proof.
  destruct (rounds_keep_history self Sample.hash pyth afterDelivery (betting ++ closing) 1
              ltac:(vm_compute; reflexivity)) as [A [_ [_ [B _]]]].
  split.
  - rewrite A. vm_compute. reflexivity.
  - apply B. left. vm_compute. reflexivity.
Defined.

Lemma bets_keep_history_witness :
  amount (getBetOf (game (run self Sample.hash pyth afterBet (closing ++ paying))) 1 player)
  = (10 ^ 18)%Z.
Proof.
  destruct (bets_keep_history self Sample.hash pyth afterBet (closing ++ paying) 1 player
              ltac:(vm_compute; reflexivity)) as [A _].
  rewrite A. vm_compute. reflexivity.
Defined.

Lemma settlement_is_final_witness :
  roundFinalMultipliers (game (run self Sample.hash pyth afterSettlement paying)) !! 1%Z
  = Some (2 * 10 ^ 18)%Z.
Proof.
  destruct (settlement_is_final self Sample.hash pyth afterSettlement paying 1 (2 * 10 ^ 18)
              ltac:(vm_compute; reflexivity) ltac:(vm_compute; reflexivity))
    as [_ [A _]].
  exact A.
Defined.

Lemma one_bet_per_wallet_witness :
  exists reason,
    placeBet self (run self Sample.hash pyth afterBet closing) player 1 5 = Revert reason /\
    In reason ["Amount must be greater than 0"; "Bet amount exceeds maximum";
               "Round already settled"; "Round does not exist"; "Betting closed";
               "Already placed bet"]%string.
Proof.
  apply (one_bet_per_wallet self Sample.hash pyth afterDelivery player 1 (10 ^ 18) afterBet closing 5).
  vm_compute. reflexivity.
Defined.

Lemma randomness_requested_once_witness :
  requestRandomness self (run self Sample.hash pyth (play opening) delivery) player 1 true 1
  = Revert "Invalid round status".
Proof.
  apply (randomness_requested_once self Sample.hash pyth (7%Z : sequencer) house
           ({[ player := (5 * 10 ^ 18)%Z; self := (10 ^ 21)%Z ]} : ledger)
           [Tx house (CreateRound commitment)] delivery house player 1 1 true true 1
           (play opening)).
  vm_compute. reflexivity.
Defined.

Lemma entropy_delivered_once_witness :
  exists roundId,
    sequenceToRound afterDelivery !! 7%Z = Some roundId /\
    entropyRandom (getRoundOf (game (run self Sample.hash pyth afterDelivery (betting ++ closing))) roundId)
    = uint256_of_bytes32 (repeat Byte.x03 32) /\
    entropyCallback (run self Sample.hash pyth afterDelivery (betting ++ closing)) 7 (repeat Byte.x04 32)
    = Revert "Invalid round status".
Proof.
  apply (entropy_delivered_once self Sample.hash pyth (7%Z : sequencer) house
           ({[ player := (5 * 10 ^ 18)%Z; self := (10 ^ 21)%Z ]} : ledger)
           opening (betting ++ closing) 7 (repeat Byte.x03 32) (repeat Byte.x04 32) afterDelivery).
  vm_compute. reflexivity.
Defined.

Lemma claim_pays_once_witness :
  claimableOf (game afterPayout) player = 1477500000000000000%Z /\
  claimableOf (game (run self Sample.hash pyth afterPayout [Tx player ClaimAllPayouts])) player = 0%Z /\
  claimAllPayouts self (run self Sample.hash pyth afterPayout [Tx player ClaimAllPayouts]) player
  = Revert "No payouts to claim".
Proof.
  assert (C : claimAllPayouts self afterPayout player
              = Success (run self Sample.hash pyth afterPayout [Tx player ClaimAllPayouts]))
    by (vm_compute; reflexivity).
  destruct (claim_pays_once self afterPayout player _ C) as [_ [_ [A [_ [_ B]]]]].
  split; [vm_compute; reflexivity|]. split; [exact A | exact B].
Defined.

Lemma outsiders_settle_nothing_witness :
  roundSettled (game afterBet) = roundSettled (game afterDelivery) /\
  forall u, (claimableOf (game afterBet) u <= claimableOf (game afterDelivery) u)%Z.
Proof.
  assert (N : player <> operator (game afterDelivery)) by (vm_compute; discriminate).
  assert (C : exec self Sample.hash pyth afterDelivery player (PlaceBet 1 (10 ^ 18)) = Success afterBet)
    by (vm_compute; reflexivity).
  destruct (outsiders_settle_nothing self Sample.hash pyth afterDelivery player _ afterBet N C)
    as [_ [A [_ [B _]]]].
  split; [exact A | exact B].
Defined.

Lemma no_double_payout_witness :
  settled (getBetOf (game afterPayout) 1 player) = true /\
  exists reason,
    processCashOuts self (run self Sample.hash pyth afterPayout []) house 1
      [ {| wallet := player; multiplier := 10 ^ 18 |} ] = Revert reason.
Proof.
  assert (C : processCashOuts self afterSettlement house 1
                [ {| wallet := player; multiplier := 15 * 10 ^ 17 |} ] = Success afterPayout)
    by (vm_compute; reflexivity).
  destruct (no_double_payout self Sample.hash pyth afterSettlement house 1 _ afterPayout
              {| wallet := player; multiplier := 15 * 10 ^ 17 |} [] house
              [ {| wallet := player; multiplier := 10 ^ 18 |} ]
              C (or_introl eq_refl))
    as [_ [A B]].
  split; [exact A|]. apply B. left. reflexivity.
Defined.

Lemma zero_hash_round_is_dead_witness :
  requestRandomness self
    (run self Sample.hash pyth (run self Sample.hash pyth genesis [Tx house (CreateRound zeroHash)])
       [Tx house (CreateRound commitment)]) house 1 true 1
  = Revert "Round does not exist".
Proof.
  assert (C : createRound genesis zeroHash
              = Success (run self Sample.hash pyth genesis [Tx house (CreateRound zeroHash)], 1%Z))
    by (vm_compute; reflexivity).
  destruct (zero_hash_round_is_dead self Sample.hash pyth genesis _ 1
              [Tx house (CreateRound commitment)] house 1 1 true C)
    as [_ [_ [_ [A _]]]].
  exact A.
Defined.

Lemma withdrawal_takes_everything_witness :
  balanceOf (token (run self Sample.hash pyth afterPayout [Tx house WithdrawHouseEdge])) self = 0%Z /\
  claimableOf (game (run self Sample.hash pyth afterPayout [Tx house WithdrawHouseEdge])) player
  = 1477500000000000000%Z /\
  exists reason,
    claimAllPayouts self (run self Sample.hash pyth afterPayout [Tx house WithdrawHouseEdge]) player
    = Revert reason.
Proof.
  assert (N : self <> operator (game afterPayout)) by (vm_compute; discriminate).
  assert (C : withdrawHouseEdge self afterPayout house
              = Success (run self Sample.hash pyth afterPayout [Tx house WithdrawHouseEdge]))
    by (vm_compute; reflexivity).
  destruct (withdrawal_takes_everything self ledger_debits ledger_needs_funds afterPayout house
              _ player N C)
    as [_ [A [B D]]].
  split; [exact A|]. split; [rewrite B; vm_compute; reflexivity | exact D].
Defined.

Lemma round_completes_witness :
  pyth <> 0%Z /\
  getRound (play (opening ++ delivery ++ closing)) 1
  = (commitment, SampleChain.secret, 7%Z, uint256_of_bytes32 (repeat Byte.x03 32),
     SeedRevealed) /\
  roundSettled (game (play (opening ++ delivery ++ closing))) !! 1%Z = Some true.
Proof.
  assert (H0 : pyth <> 0%Z) by (vm_compute; discriminate).
  assert (H1 : (roundCounter (run self Sample.hash pyth
                                (constructor self (7%Z : sequencer) house
                                   ({[ player := (5 * 10 ^ 18)%Z; self := (10 ^ 21)%Z ]}
                                    : ledger)) []) + 1 <= uint256_max)%Z)
    by (vm_compute; discriminate).
  assert (H2 : Sample.hash SampleChain.secret <> zeroHash) by (vm_compute; discriminate).
  assert (H3 : (10 ^ 18 <= 2 * 10 ^ 18)%Z) by (vm_compute; discriminate).
  assert (H4 : (1 <= 1)%Z) by lia.
  destruct (round_completes self Sample.hash pyth (7%Z : sequencer) house
              ({[ player := (5 * 10 ^ 18)%Z; self := (10 ^ 21)%Z ]} : ledger)
              [] SampleChain.secret (repeat Byte.x03 32) 1 1 7 (2 * 10 ^ 18) 8%Z
              house house house H0 H1 H2 eq_refl H4 eq_refl eq_refl H3)
    as [A [B _]].
  split; [exact H0|]. split; [exact A | exact B].
Defined.

End SampleRound.

(** ** The sample rounds *)

Lemma sample_valid (t : number) :
  validInput {| roundId := lit 1; vrfRandom := 7; serverSeed := "seed";
                chainId := lit 10143; startTimestamp := "0"; tickIntervalMs := t |}.
Proof.
  split; [cbn; lia|]. split.
  - exists 1%Z. split; [vm_compute; reflexivity | lia].
  - exists 10143%Z. split; [vm_compute; reflexivity | lia].
Qed.

Lemma sample_tickOK : tickOK (tickIntervalMs Sample.game).
Proof.
  unfold tickOK, inQ. split; [vm_compute; exact I|].
  split; vm_compute; discriminate.
Qed.

Lemma crash_point_odds_witness :
  exists s,
    deriveSeed Sample.hash (vrfRandom Sample.game) (roundId Sample.game)
      (serverSeed Sample.game) (chainId Sample.game) = Ok s /\
    (forall fuel res,
       Sample.run fuel Sample.game = Ok res ->
       (finalMultiplier res = lit 1 <-> (digest Sample.hash s 0 <= instantUpTo)%Z) /\
       (finalMultiplier res = lit 10000 <-> (capFrom <= digest Sample.hash s 0)%Z)) /\
    (4975 * 2 ^ 256 <= 1000000 * (instantUpTo + 1) <= 4976 * 2 ^ 256)%Z /\
    (100 * 2 ^ 256 <= 1000000 * (2 ^ 256 - capFrom) <= 101 * 2 ^ 256)%Z.
Proof.
  exact (crash_point_odds Sample.hash Sample.pow Sample.clock Sample.calendar
           Sample.calendar Sample.calendar sample_hash_length Sample.game
           (sample_valid (lit 30000))).
Defined.

Lemma crash_point_monotone_witness :
  fle (fst (crashPoint (lit (1 # 2)))) (fst (crashPoint (lit (3 # 4)))) = true.
Proof.
  assert (A : inQ 0 1 (lit (1 # 2))).
  { split; [vm_compute; exact I|]. split; vm_compute; discriminate. }
  assert (B : inQ 0 1 (lit (3 # 4))).
  { split; [vm_compute; exact I|]. split; vm_compute; discriminate. }
  assert (L : fle (lit (1 # 2)) (lit (3 # 4)) = true) by (vm_compute; reflexivity).
  exact (crash_point_monotone (lit (1 # 2)) (lit (3 # 4)) A B L).
Defined.

Lemma live_value_within_close_witness :
  exists res,
    Sample.run 1 Sample.game = Ok res /\
    Forall (fun u =>
              fle (lit 0) (liveValue u) = true /\
              fle (liveValue u) (close (bar u)) = true /\
              fle (liveValue u) (finalMultiplier res) = true)
      (updates res).
Proof.
  assert (E : exists r, Sample.run 1 Sample.game = Ok r)
    by (eexists; vm_compute; reflexivity).
  destruct E as [res E]. exists res. split; [exact E|].
  exact (live_value_within_close Sample.hash Sample.pow Sample.clock Sample.calendar
           Sample.calendar Sample.calendar sample_hash_length sample_pow_unit
           Sample.game 1 res (sample_valid (lit 30000)) sample_tickOK E).
Defined.

Lemma candles_chain_above_floor_witness :
  exists res,
    Sample.run 1 Sample.game = Ok res /\
    continuous (lit 1) (updates res) /\
    Forall (fun u =>
              fle (lit (40 # 100)) (open (bar u)) = true /\
              fle (lit (40 # 100)) (low (bar u)) = true /\
              fle (lit (40 # 100)) (close (bar u)) = true)
      (updates res).
Proof.
  assert (E : exists r, Sample.run 1 Sample.game = Ok r)
    by (eexists; vm_compute; reflexivity).
  destruct E as [res E]. exists res. split; [exact E|].
  exact (candles_chain_above_floor Sample.hash Sample.pow Sample.clock Sample.calendar
           Sample.calendar Sample.calendar sample_hash_length sample_pow_unit
           Sample.game 1 res (sample_valid (lit 30000)) sample_tickOK E).
Defined.

Lemma round_within_300_ticks_witness :
  exists (s : Z) (r1 : number) (T : Z) (res : CrashGameResult),
    deriveSeed Sample.hash (vrfRandom SampleStream.paced) (roundId SampleStream.paced)
      (serverSeed SampleStream.paced) (chainId SampleStream.paced) = Ok s /\
    getRandom Sample.hash s 1 = Ok r1 /\
    totalTicksOf r1 (tickIntervalMs SampleStream.paced) = ofZ T /\
    (30 <= T <= 300)%Z /\
    (forall fuel, (300 <= fuel)%nat -> Sample.run fuel SampleStream.paced = Ok res) /\
    (1 <= List.length (updates res) <= Z.to_nat T)%nat.
Proof.
  exact (round_within_300_ticks Sample.hash Sample.pow Sample.clock Sample.calendar
           Sample.calendar Sample.calendar sample_hash_length sample_pow_unit
           SampleStream.paced (sample_valid (lit 100)) eq_refl).
Defined.

Lemma recorded_multipliers_in_range_witness :
  exists res,
    generateCrashGame Sample.hash Sample.pow SampleServer.parseInt Sample.calendar
      Sample.calendar Sample.calendar 1 Sample.game = Ok res /\
    let s := Streaming.unfold SampleServer.parseInt SampleServer.Number_toString
               SampleServer.StringToNumber 5 (finalMultiplier res) (updates res)
               SampleServer.store SampleStream.requests in
    let records := Streaming.cashOutsOf (Streaming.store s) 5 in
    let ranged (x : number) :=
      fle (lit 1) x = true /\ fle x (finalMultiplier res) = true in
    Forall (fun co => match Server.multiplier co with
                      | Js.JNumber x => ranged x
                      | v => Js.ToNumber SampleServer.Number_toString
                               SampleServer.StringToNumber v = NaN \/
                             ranged (Js.ToNumber SampleServer.Number_toString
                                       SampleServer.StringToNumber v)
                      end) records /\
    exists W,
      Server.toWei (finalMultiplier res) = Some W /\ (10 ^ 18 <= W)%Z /\
      ((exists data, Server.toCashOutData SampleServer.addressOf records = Some data) <->
       Forall (fun co => exists x, Server.multiplier co = Js.JNumber x) records) /\
      (forall data,
         Server.toCashOutData SampleServer.addressOf records = Some data ->
         List.map Contract.wallet data
         = List.map (fun co => SampleServer.addressOf (Server.walletAddress co)) records /\
         Forall (fun c => (10 ^ 18 <= Contract.multiplier c <= W)%Z) data).
Proof.
  assert (E : exists r,
             generateCrashGame Sample.hash Sample.pow SampleServer.parseInt
               Sample.calendar Sample.calendar Sample.calendar 1 Sample.game = Ok r)
    by (eexists; vm_compute; reflexivity).
  destruct E as [res E]. exists res. split; [exact E|].
  exact (recorded_multipliers_in_range Sample.hash Sample.pow SampleServer.parseInt
           Sample.calendar Sample.calendar Sample.calendar
           SampleServer.Number_toString SampleServer.StringToNumber
           sample_hash_length sample_pow_unit SampleServer.addressOf Sample.game 1 res 5
           SampleServer.store SampleStream.requests
           (sample_valid (lit 30000)) sample_tickOK E).
Defined.

Lemma wait_takes_first_value_witness :
  (exists k v, (k < 40)%nat /\ SampleStream.late k = Some v /\ v <> 0%Z /\
     (forall i, (i < k)%nat ->
        SampleStream.late i = None \/ SampleStream.late i = Some 0%Z) /\
     EntropyHandler.waitForCallback 41 SampleStream.late 0 0 = Ok v) \/
  ((forall i, (i < 40)%nat ->
      SampleStream.late i = None \/ SampleStream.late i = Some 0%Z) /\
   EntropyHandler.waitForCallback 41 SampleStream.late 0 0 = Throws).
Proof.
  exact (wait_takes_first_value SampleStream.late 41 (le_n 41)).
Defined.

Lemma polled_entropy_is_final_witness :
  CrashGame.uint256_of_bytes32 (repeat Byte.x03 32) <> 0%Z /\
  exists k, (k < 40)%nat /\
    forall n, (k <= n)%nat ->
      Contract.entropyRandom
        (Contract.getRoundOf
           (CrashGame.game
              (SampleWorld.play
                 (firstn n (SampleWorld.opening ++ SampleWorld.delivery
                            ++ SampleWorld.betting ++ SampleWorld.closing)))) 1)
      = CrashGame.uint256_of_bytes32 (repeat Byte.x03 32).
Proof.
  assert (R : EntropyHandler.waitForCallback 41
                (fun k => if true
                          then EntropyHandler.readEntropyValue
                                 (CrashGame.run SampleWorld.self Sample.hash SampleWorld.pyth
                                    (CrashGame.constructor SampleWorld.self
                                       (7%Z : SampleWorld.sequencer) SampleWorld.house
                                       ({[ SampleWorld.player := (5 * 10 ^ 18)%Z;
                                           SampleWorld.self := (10 ^ 21)%Z ]}
                                        : SampleWorld.ledger))
                                    (firstn k (SampleWorld.opening ++ SampleWorld.delivery
                                               ++ SampleWorld.betting
                                               ++ SampleWorld.closing))) 1
                          else None) 0 0
              = Ok (CrashGame.uint256_of_bytes32 (repeat Byte.x03 32)))
    by (vm_compute; reflexivity).
  destruct (polled_entropy_is_final SampleWorld.self Sample.hash SampleWorld.pyth
              (7%Z : SampleWorld.sequencer) SampleWorld.house
              ({[ SampleWorld.player := (5 * 10 ^ 18)%Z;
                  SampleWorld.self := (10 ^ 21)%Z ]} : SampleWorld.ledger)
              (SampleWorld.opening ++ SampleWorld.delivery
               ++ SampleWorld.betting ++ SampleWorld.closing)
              (fun k => k) (fun _ => true) 1 41
              (CrashGame.uint256_of_bytes32 (repeat Byte.x03 32)) R)
    as [V [k [K [_ F]]]].
  split; [exact V|]. exists k. split; [exact K|].
  intros n Hn. exact (proj1 (F n Hn)).
Defined.

(** * The settlement of a round's cash-outs *)

Module SettlementFacts.
Import Contract ContractFacts CrashGame CrashGameFacts Settlement ServerFacts.

Section Chain.

Context {T E : Type} `{IERC20 T} `{IEntropyV2 E}.
Variable self : address.
Variable keccak256 : list byte -> list byte.
Variable entropyAddress : address.

Abbreviation submit := (submitBatches self keccak256 entropyAddress).

Lemma submitBatches_chained sender roundId batches :
  forall w others,
    let attempts := fst (submit w sender roundId batches others) in
    List.map batch attempts = firstn (List.length attempts) batches /\
    chained self keccak256 entropyAddress w sender roundId others attempts /\
    ((Forall succeeded attempts /\ List.length attempts = List.length batches) \/
     (exists init a e,
        attempts = init ++ [a] /\ Forall succeeded init /\ outcome a = Revert e)).
Proof.
  induction batches as [|b rest IH]; intros w others; cbv zeta.
  - cbn. split; [reflexivity|]. split; [exact I|]. left. split; [constructor | reflexivity].
  - cbn [submitBatches]. cbv zeta.
    set (w1 := run self keccak256 entropyAddress w (hd [] others)).
    destruct (exec self keccak256 entropyAddress w1 sender (ProcessCashOuts roundId b))
      as [w2|e] eqn:X.
    + specialize (IH w2 (tl others)). cbv zeta in IH.
      destruct (submit w2 sender roundId rest (tl others)) as [attempts final] eqn:S.
      cbn [fst] in IH |- *. destruct IH as [B [C D]].
      split; [cbn [List.map List.length firstn batch]; rewrite B; reflexivity|].
      split.
      { cbn [chained met outcome batch]. split; [reflexivity|].
        split; [symmetry; exact X|]. unfold left. cbn [outcome]. exact C. }
      destruct D as [[F L] | [init [a [e [Ea [F R]]]]]].
      * left. split; [constructor; [exists w2; reflexivity | exact F]|].
        cbn [List.length]. rewrite L. reflexivity.
      * right. exists ({| batch := b; met := w1; outcome := Success w2 |} :: init), a, e.
        split; [rewrite Ea; reflexivity|].
        split; [constructor; [exists w2; reflexivity | exact F] | exact R].
    + cbn [fst]. split; [reflexivity|]. split.
      { cbn [chained met outcome batch]. split; [reflexivity|].
        split; [symmetry; exact X | exact I]. }
      right. exists [], {| batch := b; met := w1; outcome := Revert e |}, e.
      split; [reflexivity|]. split; [constructor | reflexivity].
Qed.

(** a transaction that goes through was sent by the operator and credits
    every entry of its batch, on the token balance it finds *)
Lemma transaction_credits w sender roundId cashOuts w' :
  exec self keccak256 entropyAddress w sender (ProcessCashOuts roundId cashOuts)
  = Success w' ->
  sender = operator (game w) /\
  roundSettled (game w) !! roundId = Some true /\
  token w' = token w /\
  List.NoDup (List.map wallet cashOuts) /\
  forall c, In c cashOuts ->
    claimableOf (game w') (wallet c)
    = (claimableOf (game w) (wallet c)
       + payoutOf (amount (getBetOf (game w) roundId (wallet c))) (multiplier c)
           (balanceOf (token w) self))%Z.
Proof.
  cbn [exec]. intros C.
  destruct (processCashOuts_effect self _ _ _ _ _ C) as [Op [Se [_ [L [_ [_ [Tk _]]]]]]].
  destruct (processLoop_spec _ _ _ _ _ L) as [Nd [_ [Cr _]]].
  split; [exact Op|]. split; [exact Se|]. split; [exact Tk|]. split; [exact Nd|].
  exact Cr.
Qed.

Lemma chained_credits sender roundId attempts :
  forall w others,
    chained self keccak256 entropyAddress w sender roundId others attempts ->
    forall a w', In a attempts -> outcome a = Success w' ->
      sender = operator (game (met a)) /\
      token w' = token (met a) /\
      List.NoDup (List.map wallet (batch a)) /\
      forall c, In c (batch a) ->
        claimableOf (game w') (wallet c)
        = (claimableOf (game (met a)) (wallet c)
           + payoutOf (amount (getBetOf (game (met a)) roundId (wallet c))) (multiplier c)
               (balanceOf (token (met a)) self))%Z.
Proof.
  induction attempts as [|a0 rest IH]; intros w others Ch a w' Hin Ok; [destruct Hin|].
  cbn [chained] in Ch. destruct Ch as [_ [X Rest]].
  destruct Hin as [<- | Hin].
  - rewrite Ok in X. symmetry in X.
    destruct (transaction_credits _ _ _ _ _ X) as [Op [_ [Tk [Nd Cr]]]].
    split; [exact Op|]. split; [exact Tk|]. split; [exact Nd | exact Cr].
  - exact (IH _ _ Rest a w' Hin Ok).
Qed.

End Chain.

End SettlementFacts.

Section Settle.
Import Contract CrashGame Settlement SettlementFacts ServerFacts.

Context {T E : Type} `{IERC20 T} `{IEntropyV2 E}.
Variable self : address.
Variable keccak256 : list byte -> list byte.
Variable entropyAddress : address.
Variable addressOf : string -> address.

(** C9, as the code has it: when the N > 0 records of a round convert to 18
    decimals, they are grouped into ceil(N/15) batches of 1 to 15 entries
    each, which together are the records in their order, and the batches are
    sent in this order, one transaction each on the storage the one before
    left and whatever the chain went through since; either every transaction
    goes through and all batches were sent, or the one that reverts is the
    last one sent.  A transaction that goes through was sent by the operator
    and credits each wallet of its batch with amount * multiplier *
    (1 - 150/10000) in 18-decimal fixed point, or with 70% of the token
    balance the contract holds at that transaction where that is less. *)
Theorem settlement_batches (w : World T E) (sender : address) (roundId : Z)
    (cashOuts : list Server.CashOut) (data : list CashOut)
    (others : list (list (Step T E))) :
  (0 < List.length cashOuts)%nat ->
  Server.toCashOutData addressOf cashOuts = Some data ->
  let batches := Server.batchLoop (List.length data) 0 data in
  let sent := submitBatches self keccak256 entropyAddress w sender roundId batches others in
  let attempts := fst sent in
  processRoundCashOuts self keccak256 entropyAddress addressOf w sender roundId cashOuts
    others = Some sent /\
  List.length batches = ((List.length cashOuts + 14) / 15)%nat /\
  List.Forall (fun b => (1 <= List.length b <= 15)%nat) batches /\
  List.concat batches = data /\
  List.map wallet data
  = List.map (fun co => addressOf (Server.walletAddress co)) cashOuts /\
  Forall2 (fun co c => exists x, Server.multiplier co = Js.JNumber x /\
                                 Server.toWei x = Some (multiplier c)) cashOuts data /\
  List.map batch attempts = firstn (List.length attempts) batches /\
  chained self keccak256 entropyAddress w sender roundId others attempts /\
  ((Forall (@succeeded T E) attempts /\ List.length attempts = List.length batches) \/
   (exists init a e,
      attempts = init ++ [a] /\ Forall (@succeeded T E) init /\ outcome a = Revert e)) /\
  (forall a w',
     In a attempts -> outcome a = Success w' ->
     sender = operator (game (met a)) /\
     token w' = token (met a) /\
     List.NoDup (List.map wallet (batch a)) /\
     forall c, In c (batch a) ->
       claimableOf (game w') (wallet c)
       = (claimableOf (game (met a)) (wallet c)
          + payoutOf (amount (getBetOf (game (met a)) roundId (wallet c))) (multiplier c)
              (balanceOf (token (met a)) self))%Z) /\
  (forall amount multiplier balance,
     (0 <= amount)%Z -> (0 <= multiplier)%Z -> (0 <= balance)%Z ->
     let computed := (amount * multiplier / 10 ^ 18 * (10000 - 150) / 10000)%Z in
     let cap := (balance * 7000 / 10000)%Z in
     payoutOf amount multiplier balance
     = (if (cap <? computed)%Z then cap else computed) /\
     (10 ^ 22 * computed <= amount * multiplier * (10000 - 150)
      < 10 ^ 22 * (computed + 2))%Z /\
     (10000 * cap <= 7000 * balance < 10000 * (cap + 1))%Z).
Proof.
  intros HN HD. cbv zeta.
  destruct (batches_of data) as [C [L F]].
  destruct (toCashOutData_wallets addressOf cashOuts data HD) as [W M].
  assert (EN : List.length data = List.length cashOuts).
  { rewrite <- (length_map wallet data), W, length_map. reflexivity. }
  split.
  { unfold processRoundCashOuts. rewrite HD.
    destruct (0 <? List.length cashOuts)%nat eqn:X; [reflexivity|].
    apply Nat.ltb_ge in X. lia. }
  split; [rewrite L, EN; reflexivity|].
  split; [exact F|]. split; [exact C|]. split; [exact W|]. split; [exact M|].
  destruct (submitBatches_chained self keccak256 entropyAddress sender roundId
              (Server.batchLoop (List.length data) 0 data) w others) as [B [Ch D]].
  split; [exact B|]. split; [exact Ch|]. split; [exact D|].
  split; [|exact payoutOf_exact].
  exact (chained_credits self keccak256 entropyAddress sender roundId _ w others Ch).
Qed.

End Settle.

Section SampleSettled.
Import Contract CrashGame Settlement SampleWorld SampleSettlement.

Lemma sample_converts : Server.toCashOutData addressOf records = Some cashOutData.
Proof. vm_compute. reflexivity. Qed.

(** sixteen records, the operator withdrawing the pool between the two
    transactions: both go through, and the sixteenth wallet is credited 0 *)
Lemma settlement_batches_witness :
  let sent := submitBatches self Sample.hash pyth settled house 1
                (Server.batchLoop 16 0 cashOutData) drained in
  processRoundCashOuts self Sample.hash pyth addressOf settled house 1 records drained
  = Some sent /\
  List.map (fun a => List.length (batch a)) (fst sent) = [15; 1]%nat /\
  List.map wentThrough (fst sent) = [true; true] /\
  List.map (fun a => balanceOf (token (met a)) self) (fst sent)
  = [(16 * 10 ^ 18)%Z; 0%Z] /\
  List.map (claimableOf (game (snd sent))) players
  = repeat 1477500000000000000%Z 15 ++ [0%Z].
Proof.
  cbv zeta.
  assert (N : (0 < List.length records)%nat) by (cbn; lia).
  destruct (settlement_batches self Sample.hash pyth addressOf settled house 1 records
              cashOutData drained N sample_converts) as [Run _].
  split; [exact Run|].
  split; [vm_compute; reflexivity|]. split; [vm_compute; reflexivity|].
  split; vm_compute; reflexivity.
Defined.

(** sixteen records make two batches; when the operator has handed over
    before the first transaction, that one reverts and the second is never
    sent *)
Lemma settlement_stops_at_revert :
  let sent := submitBatches self Sample.hash pyth settled house 1
                (Server.batchLoop 16 0 cashOutData) handedOver in
  List.length records = 16%nat /\
  ((List.length records + 14) / 15 = 2)%nat /\
  processRoundCashOuts self Sample.hash pyth addressOf settled house 1 records handedOver
  = Some sent /\
  List.map (fun a => (List.length (batch a), outcome a)) (fst sent)
  = [(15%nat, Revert "Not operator")].
Proof.
  cbv zeta. split; [reflexivity|]. split; [reflexivity|].
  split; vm_compute; reflexivity.
Qed.

End SampleSettled.

(** * Cash-out requests *)

Module CaseFacts.
Import Server Acceptance.











End CaseFacts.

Module DecisionFacts.
Import Js Server Streaming Acceptance CaseFacts.








Section Parts.

Variable parseInt : string -> number.
Variable Number_toString : number -> string.
Variable StringToNumber : string -> number.

Abbreviation check := (checkRequest parseInt Number_toString StringToNumber).
Abbreviation record := (recordRequest Number_toString StringToNumber).




End Parts.

End DecisionFacts.

Section Decision.
Import Js Server Streaming Acceptance CaseFacts DecisionFacts.

Variable parseInt : string -> number.
Variable Number_toString : number -> string.
Variable StringToNumber : string -> number.


End Decision.

Section Untyped.
Import Js Server Streaming.


End Untyped.

